(** * 3JS character generator: skinning, plugin registry and generators

    A shallow embedding of three parts of the repository:

    - [SkeletonBuilder.autoSkin] (rigging/SkeletonBuilder.ts), the
      inverse-distance skinning loop;
    - [PluginManager.register] / [PluginManager.unregister]
      (plugins/PluginManager.ts);
    - [HumanoidGenerator.generate] and [MonsterGenerator.buildSlime]
      (generators/HumanoidGenerator.ts), and the bone hierarchies of
      [SkeletonBuilder].

    The numbers of the skinning loop are IEEE 754 doubles, with their
    rounding, their infinities and NaN, and what is stored in a
    [Float32Array] is rounded to a single.  The sizes and positions that the
    generators and the bone hierarchies lay out are modelled as real numbers:
    that arithmetic is exact.  Counters and array indices are [nat]. *)

From Stdlib Require Import Bool ZArith Floats Reals Lra Lia List Sorted Permutation.
From stdpp Require Import base option list gmap strings pretty.

Local Open Scope R_scope.

(** ** IEEE 754 numbers as real numbers

    [SpecFloat] describes the numbers and the operations of the primitive
    floats.  These definitions give them a meaning in the real numbers. *)

Module IEEE754.

Definition pow2 (e : Z) : R := powerRZ 2 e.

(** The number [m * 2^e]. *)
Definition F2R (m e : Z) : R := IZR m * pow2 e.

(** Where [x] lies between [m * 2^e] and [(m + 1) * 2^e], as the rounding
    code records it. *)
Definition inbetween (m e : Z) (l : location) (x : R) : Prop :=
  match l with
  | loc_Exact => x = F2R m e
  | loc_Inexact Lt => F2R m e < x < F2R m e + pow2 e / 2
  | loc_Inexact Eq => x = F2R m e + pow2 e / 2
  | loc_Inexact Gt => F2R m e + pow2 e / 2 < x < F2R m e + pow2 e
  end.

(** [m * 2^e] is written the way the format with [prec] digits writes it. *)
Definition canonical (prec emax : Z) (m e : Z) : Prop :=
  e = SpecFloat.fexp prec emax (Zdigits2 m + e).

(** The number the rounding code returns for the magnitude [m * 2^e]. *)
Definition round_result (prec emax : Z) (sx : bool) (m e : Z) : spec_float :=
  match m with
  | Z0 => S754_zero sx
  | Zpos p =>
      if (e <=? emax - prec)%Z then S754_finite sx p e else S754_infinity sx
  | Zneg _ => S754_nan
  end.

(** [r] is what rounding the magnitude [x] gives with the sign [sx]: a
    number of the format nearest to [x], or an infinity when that number is
    past the largest one. *)
Definition rounds_to (prec emax : Z) (sx : bool) (x : R) (r : spec_float) : Prop :=
  exists m e,
    r = round_result prec emax sx m e /\ (0 <= m)%Z /\ canonical prec emax m e /\
    (forall mb eb, (0 <= mb)%Z -> canonical prec emax mb eb ->
       Rabs (F2R m e - x) <= Rabs (F2R mb eb - x)) /\
    Rabs (F2R m e - x) <= pow2 e / 2.

(** The real number a finite number stands for ([0] for the others). *)
Definition SF2R (x : spec_float) : R :=
  match x with
  | S754_finite s m e => IZR (cond_Zopp s (Zpos m)) * powerRZ 2 e
  | _ => 0
  end.

(** A place on the real line for every number but NaN: the infinities lie
    beyond the finite numbers. *)
Definition rank (emax : Z) (x : spec_float) : R :=
  match x with
  | S754_infinity false => pow2 emax
  | S754_infinity true => - pow2 emax
  | _ => SF2R x
  end.

(** [+0], a positive finite number or [+Infinity]. *)
Definition nonneg_SF (x : spec_float) : bool :=
  match x with
  | S754_zero false | S754_finite false _ _ | S754_infinity false => true
  | _ => false
  end.

(** [+0] or a positive finite number. *)
Definition finite_nonneg_SF (x : spec_float) : bool :=
  match x with
  | S754_zero false | S754_finite false _ _ => true
  | _ => false
  end.

Definition is_nan_SF (x : spec_float) : bool :=
  match x with S754_nan => true | _ => false end.

(** NaN, or a number that is not negative. *)
Definition nan_or_nonneg_SF (x : spec_float) : bool :=
  is_nan_SF x || nonneg_SF x.

(** *** Doubles and singles

    Rocq's [float] is the double: 53 digits, exponents up to 1024.  A single
    has 24 digits and exponents up to 128. *)

(** A double rounded to a single, to nearest, ties to even. *)
Definition narrow (r : spec_float) : spec_float :=
  match r with
  | S754_finite s m e => binary_round 24 128 s m e
  | _ => r
  end.

(** A single written as a double: every single is a double. *)
Definition widen (r : spec_float) : spec_float :=
  match r with
  | S754_finite s m e => binary_round prec emax s m e
  | _ => r
  end.

(** [Math.fround(x)], the rounding a [Float32Array] applies to what it
    stores. *)
Definition fround (x : float) : float := SF2Prim (widen (narrow (Prim2SF x))).

(** The real number a finite double stands for ([0] for the others). *)
Definition valueOf (x : float) : R := SF2R (Prim2SF x).

(** The place of a double that is not NaN on the real line. *)
Definition place (x : float) : R := rank emax (Prim2SF x).

(** [+0], a positive number or [+Infinity]. *)
Definition nonneg (x : float) : bool := nonneg_SF (Prim2SF x).

(** [+0] or a positive finite double. *)
Definition finite_nonneg (x : float) : bool := finite_nonneg_SF (Prim2SF x).

(** A positive finite double. *)
Definition positive_finite (x : float) : Prop :=
  exists m e, Prim2SF x = S754_finite false m e.

End IEEE754.

Import IEEE754.

(** ** JavaScript numbers

    The numbers of the skinning code are IEEE 754 doubles: Rocq's primitive
    [float]s, which have the same format and round to nearest, ties to even,
    as JavaScript does.  A decimal literal stands for the nearest double, in
    both languages. *)

Set Warnings "-inexact-float".

(** A counter or an index below 2^63 as a number. *)
Definition ofNat (n : nat) : float :=
  PrimFloat.of_uint63 (Uint63.of_Z (Z.of_nat n)).

(** ** Vectors (three.js [Vector3]) *)

(** Positions of the layout code, with exact coordinates. *)
Record Vector3 : Type := mkVector3 { vx : R; vy : R; vz : R }.

(** The Euclidean distance between two exact positions. *)
Definition euclideanDistance (a b : Vector3) : R :=
  sqrt ((vx a - vx b) * (vx a - vx b) + (vy a - vy b) * (vy a - vy b)
        + (vz a - vz b) * (vz a - vz b)).

(** Vectors of doubles, as the skinning code computes with them. *)
Module Float64.

Record Vector3 : Type := mkVector3 { x : float; y : float; z : float }.

(** three.js: [distanceToSquared(v)] is [dx * dx + dy * dy + dz * dz]. *)
Definition distanceToSquared (a b : Vector3) : float :=
  let dx := (x a - x b)%float in
  let dy := (y a - y b)%float in
  let dz := (z a - z b)%float in
  (dx * dx + dy * dy + dz * dz)%float.

(** three.js: [distanceTo(v)] is [Math.sqrt(this.distanceToSquared(v))]. *)
Definition distanceTo (a b : Vector3) : float :=
  PrimFloat.sqrt (distanceToSquared a b).

End Float64.

(** The exact position a vector of doubles stands for. *)
Definition exactPosition (a : Float64.Vector3) : Vector3 :=
  mkVector3 (valueOf (Float64.x a)) (valueOf (Float64.y a)) (valueOf (Float64.z a)).

(** ** Buffer attributes and geometries (three.js)

    A [BufferAttribute] is a flat array of numbers read in groups of
    [itemSize].  [count] is [array.length / itemSize].  Attributes are meant
    to be well formed, with a positive [itemSize] that divides the length of
    the array; on the others the model counts the complete items, where
    JavaScript has a fractional or infinite count.  Past the end of the array
    JavaScript reads [undefined], which arithmetic turns into NaN. *)

Record BufferAttribute : Type := mkBufferAttribute {
  array : list float;
  itemSize : nat
}.

Definition count (a : BufferAttribute) : nat :=
  (length (array a) / itemSize a)%nat.

Definition getComponent (a : BufferAttribute) (i c : nat) : float :=
  nth (i * itemSize a + c) (array a) nan.

(** [vertex.fromBufferAttribute(attribute, i)] *)
Definition fromBufferAttribute (a : BufferAttribute) (i : nat) : Float64.Vector3 :=
  Float64.mkVector3 (getComponent a i 0) (getComponent a i 1) (getComponent a i 2).

(** [new THREE.Uint16BufferAttribute(array, itemSize)]: the numbers are
    stored in a [Uint16Array], that is modulo 2^16. *)
Definition toUint16 (n : nat) : float := ofNat (n mod 2 ^ 16).

Definition Uint16BufferAttribute (a : list nat) (size : nat) : BufferAttribute :=
  mkBufferAttribute (map toUint16 a) size.

(** [new THREE.Float32BufferAttribute(array, itemSize)]: the numbers are
    stored in a [Float32Array], each rounded to a single. *)
Definition Float32BufferAttribute (a : list float) (size : nat) : BufferAttribute :=
  mkBufferAttribute (map fround a) size.

Record BufferGeometry : Type := mkBufferGeometry {
  attributes : gmap string BufferAttribute
}.

Definition getAttribute (g : BufferGeometry) (name : string)
  : option BufferAttribute :=
  attributes g !! name.

Definition setAttribute (g : BufferGeometry) (name : string)
    (a : BufferAttribute) : BufferGeometry :=
  mkBufferGeometry (<[name := a]> (attributes g)).

(** ** Skeletons

    A bone is seen through its name and the result of
    [bone.getWorldPosition]. *)

Record Bone : Type := mkBone {
  boneName : string;
  worldPosition : Float64.Vector3
}.

Record Skeleton : Type := mkSkeleton { bones : list Bone }.

Definition getWorldPosition (b : Bone) : Float64.Vector3 := worldPosition b.

(** ** [SkeletonBuilder.autoSkin] *)

Module SkeletonBuilder.

(** The objects pushed on [distances]. *)
Record DistanceEntry : Type := mkEntry { index : nat; distance : float }.

(** [for (const bone of skeleton.bones) { ...; bonePositions.push(worldPos) }] *)
Definition bonePositionsOf (skeleton : Skeleton) : list Float64.Vector3 :=
  fold_left (fun bonePositions bone => bonePositions ++ [getWorldPosition bone])
            (bones skeleton) [].

(** The inner loop over [j < boneCount], with its [if (bonePos)] guard. *)
Definition boneDistances (vertex : Float64.Vector3)
    (bonePositions : list Float64.Vector3) (boneCount : nat)
  : list DistanceEntry :=
  fold_left
    (fun distances j =>
       match bonePositions !! j with
       | Some bonePos =>
           distances ++ [mkEntry j (Float64.distanceTo vertex bonePos)]
       | None => distances
       end)
    (seq 0 boneCount) [].

(** [distances.sort((a, b) => a.distance - b.distance)].  The comparator
    returns a double; a NaN counts as [+0], so that [a] is to come after [b]
    exactly when [a.distance - b.distance > 0].  When no distance is NaN the
    comparator is a consistent order and [Array.prototype.sort], which is
    stable, returns what a stable insertion sort computes.  When a distance
    is NaN the comparator is not consistent and ECMAScript leaves the order
    to the engine; the properties of the order below are for vertices without
    a NaN distance ([comparable]). *)
Fixpoint insertByDistance (a : DistanceEntry) (l : list DistanceEntry)
  : list DistanceEntry :=
  match l with
  | [] => [a]
  | b :: l' =>
      if (0 <? distance a - distance b)%float
      then b :: insertByDistance a l'
      else a :: b :: l'
  end.

Definition sortByDistance (l : list DistanceEntry) : list DistanceEntry :=
  fold_right insertByDistance [] l.

(** [distances.slice(0, maxInfluences)] *)
Definition closestBones (vertex : Float64.Vector3)
    (bonePositions : list Float64.Vector3) (boneCount maxInfluences : nat)
  : list DistanceEntry :=
  take maxInfluences (sortByDistance (boneDistances vertex bonePositions boneCount)).

(** The loop [for (const entry of closest)]: it returns [totalWeight] and
    [weights]. *)
Definition inverseDistanceWeights (closest : list DistanceEntry)
  : float * list float :=
  fold_left
    (fun '(totalWeight, weights) entry =>
       let weight := (1 / (distance entry + 0.001))%float in
       ((totalWeight + weight)%float, weights ++ [weight]))
    closest (0%float, []).

(** The loop [for (let j = 0; j < maxInfluences; j++)] that pushes one
    influence slot per round on [skinIndices] and [skinWeights]. *)
Definition pushInfluences (closest : list DistanceEntry) (weights : list float)
    (totalWeight : float) (maxInfluences : nat) (acc : list nat * list float)
  : list nat * list float :=
  fold_left
    (fun '(skinIndices, skinWeights) j =>
       match closest !! j, weights !! j with
       | Some entry, Some weight =>
           (skinIndices ++ [index entry],
            skinWeights ++ [(weight / totalWeight)%float])
       | _, _ => (skinIndices ++ [0%nat], skinWeights ++ [0%float])
       end)
    (seq 0 maxInfluences) acc.

(** One round of the loop over the vertices. *)
Definition skinVertex (positions : BufferAttribute)
    (bonePositions : list Float64.Vector3)
    (boneCount maxInfluences : nat) (acc : list nat * list float) (i : nat)
  : list nat * list float :=
  let vertex := fromBufferAttribute positions i in
  let closest := closestBones vertex bonePositions boneCount maxInfluences in
  let '(totalWeight, weights) := inverseDistanceWeights closest in
  pushInfluences closest weights totalWeight maxInfluences acc.

(** [autoSkin(geometry, skeleton, maxInfluences)].  The method returns
    nothing and changes the geometry; here it returns the geometry it leaves.
    [maxInfluences] is a number of slots, a natural number. *)
Definition autoSkin (geometry : BufferGeometry) (skeleton : Skeleton)
    (maxInfluences : nat) : BufferGeometry :=
  match getAttribute geometry "position" with
  | None => geometry
  | Some positions =>
      let vertexCount := count positions in
      let boneCount := length (bones skeleton) in
      let bonePositions := bonePositionsOf skeleton in
      let '(skinIndices, skinWeights) :=
        fold_left (skinVertex positions bonePositions boneCount maxInfluences)
                  (seq 0 vertexCount) ([], []) in
      setAttribute
        (setAttribute geometry "skinIndex"
           (Uint16BufferAttribute skinIndices maxInfluences))
        "skinWeight" (Float32BufferAttribute skinWeights maxInfluences)
  end.

(** *** Reading the result

    The entries of item [v] of an attribute: positions [v * itemSize] up to
    [v * itemSize + itemSize - 1] of its array. *)
Definition itemOf (a : BufferAttribute) (v : nat) : list float :=
  take (itemSize a) (drop (v * itemSize a) (array a)).

(** Sum of a list of real numbers. *)
Definition sumR (l : list R) : R := fold_right Rplus 0 l.

(** The raw weight of a selected bone, [1 / (entry.distance + 0.001)]. *)
Definition rawWeight (entry : DistanceEntry) : float :=
  (1 / (distance entry + 0.001))%float.

(** [totalWeight] after the loop over [closest]: the raw weights added one
    by one, from the first, to [0]. *)
Definition totalWeight (closest : list DistanceEntry) : float :=
  fold_left (fun total entry => (total + rawWeight entry)%float) closest 0%float.

(** The selection made for vertex [v] of [positions]. *)
Definition closestOf (positions : BufferAttribute) (skeleton : Skeleton)
    (maxInfluences v : nat) : list DistanceEntry :=
  closestBones (fromBufferAttribute positions v) (bonePositionsOf skeleton)
               (length (bones skeleton)) maxInfluences.

(** The distance that [autoSkin] computes from vertex [v] of [positions] to
    bone [j] of the skeleton (NaN when there is no such bone). *)
Definition boneDistance (positions : BufferAttribute) (skeleton : Skeleton)
    (v j : nat) : float :=
  match bones skeleton !! j with
  | Some bone =>
      Float64.distanceTo (fromBufferAttribute positions v) (getWorldPosition bone)
  | None => nan
  end.

(** The entries the inner loop pushes when every bone has a position:
    bone [start], [start + 1], ... with its distance to [vertex]. *)
Fixpoint entriesFrom (vertex : Float64.Vector3) (start : nat)
    (bonePositions : list Float64.Vector3) : list DistanceEntry :=
  match bonePositions with
  | [] => []
  | bonePos :: rest =>
      mkEntry start (Float64.distanceTo vertex bonePos)
      :: entriesFrom vertex (S start) rest
  end.

(** All the entries of vertex [v], before the sort. *)
Definition allEntries (positions : BufferAttribute) (skeleton : Skeleton)
    (v : nat) : list DistanceEntry :=
  entriesFrom (fromBufferAttribute positions v) 0
              (map getWorldPosition (bones skeleton)).

(** No distance computed for vertex [v] is NaN. *)
Definition comparable (positions : BufferAttribute) (skeleton : Skeleton)
    (v : nat) : bool :=
  forallb (fun entry => negb (is_nan (distance entry)))
          (allEntries positions skeleton v).

(** The [maxInfluences] bone indices pushed for vertex [v]. *)
Definition vertexIndices (positions : BufferAttribute) (skeleton : Skeleton)
    (maxInfluences v : nat) : list nat :=
  let closest := closestOf positions skeleton maxInfluences v in
  map index closest ++ replicate (maxInfluences - length closest) 0%nat.

(** The [maxInfluences] weights pushed for vertex [v]. *)
Definition vertexWeights (positions : BufferAttribute) (skeleton : Skeleton)
    (maxInfluences v : nat) : list float :=
  let closest := closestOf positions skeleton maxInfluences v in
  map (fun entry => (rawWeight entry / totalWeight closest)%float) closest
  ++ replicate (maxInfluences - length closest) 0%float.

(** Order of preference between two bones for a vertex: the one with the
    smaller computed distance first, and at equal computed distance the
    smaller index first. *)
Definition preferred (positions : BufferAttribute) (skeleton : Skeleton)
    (v i j : nat) : Prop :=
  (boneDistance positions skeleton v i <? boneDistance positions skeleton v j)%float
  = true \/
  ((boneDistance positions skeleton v i =? boneDistance positions skeleton v j)%float
   = true /\ (i < j)%nat).

(** The order the sort leaves the entries in. *)
Definition entryBefore (a b : DistanceEntry) : Prop :=
  (distance a <? distance b)%float = true \/
  ((distance a =? distance b)%float = true /\ (index a < index b)%nat).

Definition indexBefore (a b : DistanceEntry) : Prop := (index a < index b)%nat.

(** The exact Euclidean distance from vertex [v] to bone [j], which the
    specification speaks of ([0] when there is no such bone). *)
Definition exactDistance (positions : BufferAttribute) (skeleton : Skeleton)
    (v j : nat) : R :=
  match bones skeleton !! j with
  | Some bone =>
      euclideanDistance (exactPosition (fromBufferAttribute positions v))
                        (exactPosition (getWorldPosition bone))
  | None => 0
  end.

(** The weights of vertex [v] in a skinned geometry sum to one, within the
    tolerance [1e-6]: each is a finite number, and their exact sum is. *)
Definition weightsSumToOne (skinned : BufferGeometry) (v : nat) : Prop :=
  exists skinWeight,
    getAttribute skinned "skinWeight" = Some skinWeight /\
    Forall (fun w => is_finite w = true) (itemOf skinWeight v) /\
    Rabs (sumR (map valueOf (itemOf skinWeight v)) - 1) <= 1e-6.

(** The weight that the formula of the specification gives bone [j] among
    the bones of [closest], in exact arithmetic on exact distances. *)
Definition exactWeight (positions : BufferAttribute) (skeleton : Skeleton)
    (v : nat) (closest : list DistanceEntry) (j : nat) : R :=
  1 / (exactDistance positions skeleton v j + 0.001)
  / sumR (map (fun e' => 1 / (exactDistance positions skeleton v (index e') + 0.001))
              closest).

(** *** Sample inputs *)

(** Two vertices, at the origin and at [(1, 0, 0)]. *)
Definition samplePositions : BufferAttribute :=
  mkBufferAttribute [0; 0; 0; 1; 0; 0]%float 3.

Definition sampleGeometry : BufferGeometry :=
  mkBufferGeometry {[ "position" := samplePositions ]}.

(** A geometry without attributes. *)
Definition bareGeometry : BufferGeometry := mkBufferGeometry ∅.

Definition noBones : Skeleton := mkSkeleton [].

Definition oneBone : Skeleton :=
  mkSkeleton [mkBone "root" (Float64.mkVector3 0 0 0)].

Definition twoBones : Skeleton :=
  mkSkeleton [mkBone "root" (Float64.mkVector3 0 0 0);
              mkBone "hips" (Float64.mkVector3 0 1 0)].

(** One vertex, at the origin. *)
Definition originPositions : BufferAttribute :=
  mkBufferAttribute [0; 0; 0]%float 3.

Definition originGeometry : BufferGeometry :=
  mkBufferGeometry {[ "position" := originPositions ]}.

(** Two bones whose distances to the origin differ by less than a double
    can tell: the second one is the nearer. *)
Definition nearTieBones : Skeleton :=
  mkSkeleton [mkBone "a" (Float64.mkVector3 1 1e-9 0);
              mkBone "b" (Float64.mkVector3 1 0 0)].

(** Two bones at the same distance from the origin, the coordinates of one
    being those of the other in another order, and a third one farther. *)
Definition tieBones : Skeleton :=
  mkSkeleton
    [mkBone "b" (Float64.mkVector3 1.4737229543511852 0.8477104583902055
                                   0.9182723165534104);
     mkBone "a" (Float64.mkVector3 0.9182723165534104 0.8477104583902055
                                   1.4737229543511852);
     mkBone "c" (Float64.mkVector3 20.00001769448709 0 0)].

(** A bone so far that the square of its distance is not a finite double. *)
Definition farBone : Skeleton :=
  mkSkeleton [mkBone "far" (Float64.mkVector3 1e200 0 0)].

End SkeletonBuilder.

(** ** JavaScript results and errors, and the plugin types (plugins/types.ts) *)

(** A call returns a value or throws. *)
Inductive Result (E A : Type) : Type :=
| Returns (a : A)
| Throws (e : E).
Arguments Returns {E A} a.
Arguments Throws {E A} e.

(** A JavaScript [Error] object. *)
Record JsError : Type := mkJsError { errorName : string; errorMessage : string }.

Inductive PluginType : Type := generator | processor | exporter | integration.

Inductive PluginState : Type :=
  uninitialized | initializing | ready | error | destroyed.

Inductive CharacterType : Type :=
  humanoid | creature | monster | mechanical | abstract.

(** ** [PluginManager]

    The manager keeps a [Map] from plugin id to plugin and the list of ids in
    order of initialization.  Its methods are [async]; they run here as
    sequential computations that read and write the manager and may throw.
    A lifecycle hook of a plugin is seen through its outcome: the promise it
    returns resolves, or rejects with a thrown value; the hook itself does not
    touch the manager.  Console output is left out. *)

Module PluginManager.

Inductive PluginErrorCode : Type :=
| INIT_FAILED | ALREADY_REGISTERED | NOT_FOUND | INVALID_STATE
| GENERATION_FAILED | PROCESSING_FAILED | EXPORT_FAILED | SYNC_FAILED.

(** What a rejected hook throws: an [Error], or any other value, kept as the
    text [String(value)]. *)
Inductive Thrown : Type :=
| ThrownError (e : JsError)
| ThrownValue (text : string).

(** [error instanceof Error ? error : new Error(String(error))] *)
Definition toError (thrown : Thrown) : JsError :=
  match thrown with
  | ThrownError e => e
  | ThrownValue text => mkJsError "Error" text
  end.

Record PluginError : Type := mkPluginError {
  pluginId : string;
  code : PluginErrorCode;
  message : string;
  originalCause : option JsError
}.

(** [new PluginError(pluginId, code, message, originalCause)]: the message
    becomes [`[${pluginId}] ${message}`]. *)
Definition newPluginError (pluginId : string) (code : PluginErrorCode)
    (message : string) (originalCause : option JsError) : PluginError :=
  mkPluginError pluginId code ("[" +:+ pluginId +:+ "] " +:+ message) originalCause.

Inductive Outcome : Type :=
| Resolves
| Rejects (thrown : Thrown).

Record Plugin : Type := mkPlugin {
  id : string;
  name : string;
  version : string;
  type : PluginType;
  onInit : Outcome;
  onDestroy : Outcome
}.

Record Manager : Type := mkManager {
  plugins : gmap string Plugin;
  initializationOrder : list string
}.

(** [new PluginManager()] *)
Definition empty : Manager := mkManager ∅ [].

(** *** Computations on the manager *)

(** A computation that may throw an [E]; what it wrote before throwing
    stays written. *)
Definition M (E A : Type) : Type := Manager -> Result E A * Manager.

Definition ret {E A : Type} (a : A) : M E A := fun m => (Returns a, m).

Definition bind {E A B : Type} (c : M E A) (f : A -> M E B) : M E B :=
  fun m =>
    match c m with
    | (Returns a, m') => f a m'
    | (Throws e, m') => (Throws e, m')
    end.

Definition throw {E A : Type} (e : E) : M E A := fun m => (Throws e, m).

(** [try { body } catch (error) { handler }] *)
Definition tryCatch {E E' A : Type} (body : M E A) (handler : E -> M E' A)
  : M E' A :=
  fun m =>
    match body m with
    | (Returns a, m') => (Returns a, m')
    | (Throws e, m') => handler e m'
    end.

Definition gets {E A : Type} (f : Manager -> A) : M E A :=
  fun m => (Returns (f m), m).

Definition modify {E : Type} (f : Manager -> Manager) : M E unit :=
  fun m => (Returns tt, f m).

(** [await hook()] *)
Definition await (outcome : Outcome) : M Thrown unit :=
  match outcome with
  | Resolves => ret tt
  | Rejects thrown => throw thrown
  end.

Declare Scope manager_scope.
Delimit Scope manager_scope with manager.
Notation "x <- c ;; k" := (bind c (fun x => k))
  (at level 100, c at next level, right associativity) : manager_scope.
Notation "c ;; k" := (bind c (fun _ => k))
  (at level 100, right associativity) : manager_scope.
Local Open Scope manager_scope.

(** [this.plugins.set(id, plugin)] *)
Definition pluginsSet (pluginId : string) (plugin : Plugin) (m : Manager) : Manager :=
  mkManager (<[pluginId := plugin]> (plugins m)) (initializationOrder m).

(** [this.plugins.delete(id)] *)
Definition pluginsDelete (pluginId : string) (m : Manager) : Manager :=
  mkManager (delete pluginId (plugins m)) (initializationOrder m).

(** [this.initializationOrder.push(id)] *)
Definition orderPush (pluginId : string) (m : Manager) : Manager :=
  mkManager (plugins m) (initializationOrder m ++ [pluginId]).

(** [this.initializationOrder = this.initializationOrder.filter(id => id !== pluginId)] *)
Definition orderRemove (pluginId : string) (m : Manager) : Manager :=
  mkManager (plugins m)
            (filter (fun other => other <> pluginId) (initializationOrder m)).

(** [has(pluginId)] *)
Definition has (pluginId : string) (m : Manager) : bool :=
  match plugins m !! pluginId with
  | Some _ => true
  | None => false
  end.

(** [get(pluginId)] *)
Definition get (pluginId : string) (m : Manager) : option Plugin :=
  plugins m !! pluginId.

(** [get count()] *)
Definition count (m : Manager) : nat := size (plugins m).

Definition quote : string := String (Ascii.ascii_of_nat 34) EmptyString.

Definition register (plugin : Plugin) : M PluginError unit :=
  registered <- gets (has (id plugin)) ;;
  if (registered : bool) then
    throw (newPluginError (id plugin) ALREADY_REGISTERED
             ("Plugin " +:+ quote +:+ id plugin +:+ quote +:+ " is already registered")
             None)
  else
    tryCatch
      (await (onInit plugin) ;;
       modify (pluginsSet (id plugin) plugin) ;;
       modify (orderPush (id plugin)))
      (fun error =>
         throw (newPluginError (id plugin) INIT_FAILED
                  ("Failed to initialize plugin " +:+ quote +:+ id plugin +:+ quote)
                  (Some (toError error)))).

Definition unregister (pluginId : string) : M PluginError unit :=
  found <- gets (get pluginId) ;;
  match found with
  | None =>
      throw (newPluginError pluginId NOT_FOUND
               ("Plugin " +:+ quote +:+ pluginId +:+ quote +:+ " not found") None)
  | Some plugin =>
      tryCatch
        (await (onDestroy plugin) ;;
         modify (pluginsDelete pluginId) ;;
         modify (orderRemove pluginId))
        (fun _ =>
           (* Still remove from registry *)
           modify (pluginsDelete pluginId) ;;
           modify (orderRemove pluginId))
  end.

(** *** Sample plugins *)

Definition goodPlugin : Plugin :=
  mkPlugin "gltf-exporter" "GLTF Exporter" "1.0.0" exporter Resolves Resolves.

(** A plugin whose [onInit] rejects. *)
Definition brokenPlugin : Plugin :=
  mkPlugin "broken" "Broken" "0.1.0" processor
           (Rejects (ThrownError (mkJsError "Error" "no backend"))) Resolves.

(** A plugin whose [onDestroy] rejects. *)
Definition stubbornPlugin : Plugin :=
  mkPlugin "stubborn" "Stubborn" "0.1.0" integration
           Resolves (Rejects (ThrownValue "busy")).

Definition sampleManager : Manager :=
  mkManager {[ "stubborn" := stubbornPlugin ]} ["stubborn"].

(** *** The other methods *)

(** [getOrThrow(pluginId)] *)
Definition getOrThrow (pluginId : string) : M PluginError Plugin :=
  found <- gets (get pluginId) ;;
  match found with
  | None =>
      throw (newPluginError pluginId NOT_FOUND
               ("Plugin " +:+ quote +:+ pluginId +:+ quote +:+ " not found") None)
  | Some plugin => ret plugin
  end.

(** [for (const pluginId of order) { body }] *)
Fixpoint forEach {E : Type} (order : list string) (body : string -> M E unit)
  : M E unit :=
  match order with
  | [] => ret tt
  | pluginId :: rest => body pluginId ;; forEach rest body
  end.

(** The loop of [destroyAll]: every id of the reversed initialization order
    is unregistered, and what [unregister] throws is caught and logged. *)
Definition destroyLoop : M PluginError unit :=
  order <- gets (fun m => reverse (initializationOrder m)) ;;
  forEach order (fun pluginId => tryCatch (unregister pluginId) (fun _ => ret tt)).

(** [destroyAll()]: the loop, then [this.plugins.clear()] and
    [this.initializationOrder = []]. *)
Definition destroyAll : M PluginError unit :=
  destroyLoop ;;
  modify (fun m => mkManager ∅ (initializationOrder m)) ;;
  modify (fun m => mkManager (plugins m) []).

(** The calls a client can make on a manager, and the manager they leave. *)
Inductive Call : Type :=
| CallRegister (plugin : Plugin)
| CallUnregister (pluginId : string)
| CallDestroyAll.

Definition afterCall (m : Manager) (c : Call) : Manager :=
  match c with
  | CallRegister plugin => (register plugin m).2
  | CallUnregister pluginId => (unregister pluginId m).2
  | CallDestroyAll => (destroyAll m).2
  end.

Definition afterCalls (calls : list Call) (m : Manager) : Manager :=
  fold_left afterCall calls m.

(** The registry and the initialization order name the same plugins, each
    once. *)
Definition consistent (m : Manager) : Prop :=
  NoDup (initializationOrder m) /\
  forall pluginId, pluginId ∈ initializationOrder m <-> has pluginId m = true.

End PluginManager.

(** ** [BasePlugin] (plugins/BasePlugin.ts)

    The lifecycle state of a plugin and its two hooks.  [doInit] and
    [doDestroy] are seen through their outcome, as the hooks of a plugin are
    by the manager.  The state [initializing] lasts while [doInit] runs. *)

Module BasePlugin.
Import PluginManager.

Record BasePlugin : Type := mkBasePlugin {
  id : string;
  name : string;
  version : string;
  type : PluginType;
  state : PluginState;
  doInit : Outcome;
  doDestroy : Outcome
}.

Definition setState (s : PluginState) (self : BasePlugin) : BasePlugin :=
  mkBasePlugin (id self) (name self) (version self) (type self) s
               (doInit self) (doDestroy self).

(** [onInit()]: what the returned promise does, and the plugin afterwards. *)
Definition onInit (self : BasePlugin) : Outcome * BasePlugin :=
  match state self with
  | uninitialized =>
      let self := setState initializing self in
      match doInit self with
      | Resolves => (Resolves, setState ready self)
      | Rejects thrown => (Rejects thrown, setState error self)
      end
  | _ => (Resolves, self)
  end.

(** [onDestroy()]: [try { await this.doDestroy() } finally { ... }] *)
Definition onDestroy (self : BasePlugin) : Outcome * BasePlugin :=
  match state self with
  | destroyed => (Resolves, self)
  | _ => (doDestroy self, setState destroyed self)
  end.

Definition stateName (s : PluginState) : string :=
  match s with
  | uninitialized => "uninitialized"
  | initializing => "initializing"
  | ready => "ready"
  | error => "error"
  | destroyed => "destroyed"
  end.

(** [assertReady()] *)
Definition assertReady (self : BasePlugin) : Result JsError unit :=
  match state self with
  | ready => Returns tt
  | other =>
      Throws (mkJsError "Error"
                ("Plugin " +:+ id self +:+ " is not ready (state: "
                 +:+ stateName other +:+ ")"))
  end.

(** The lifecycle calls made on a plugin, and the plugin they leave. *)
Inductive Lifecycle : Type := Init | Destroy.

Definition afterLifecycle (self : BasePlugin) (c : Lifecycle) : BasePlugin :=
  match c with
  | Init => (onInit self).2
  | Destroy => (onDestroy self).2
  end.

Definition afterLifecycles (calls : list Lifecycle) (self : BasePlugin)
  : BasePlugin :=
  fold_left afterLifecycle calls self.

(** Whether a call occurs among the calls made. *)
Fixpoint mentions (c : Lifecycle) (calls : list Lifecycle) : bool :=
  match calls with
  | [] => false
  | Init :: rest => match c with Init => true | Destroy => mentions c rest end
  | Destroy :: rest => match c with Destroy => true | Init => mentions c rest end
  end.

(** The plugin as the manager meets it in a call of [register] or
    [unregister]: its hooks are the methods above. *)
Definition asPlugin (self : BasePlugin) : Plugin :=
  mkPlugin (id self) (name self) (version self) (type self)
           (onInit self).1 (onDestroy self).1.

(** A plugin whose [doInit] rejects. *)
Definition failingPlugin : BasePlugin :=
  mkBasePlugin "sync" "Sync" "0.2.0" integration uninitialized
               (Rejects (ThrownError (mkJsError "Error" "offline"))) Resolves.

End BasePlugin.

(** ** The generators (generators/HumanoidGenerator.ts)

    A generated model is a tree of three.js objects.  Of an object we keep its
    name, its mesh (geometry primitive and material) if it is one, its
    position, rotation and scale, and its children; the ids and uuids that
    three.js gives its objects are left out. *)

Module Generators.

Inductive Shape : Type :=
| SphereGeometry (radius : R) (widthSegments heightSegments : nat)
| CylinderGeometry (radiusTop radiusBottom height : R) (radialSegments : nat)
| BoxGeometry (width height depth : R).

(** [new THREE.MeshStandardMaterial({ color, roughness, metalness })] *)
Record Material : Type := mkMaterial {
  color : Z;
  roughness : R;
  metalness : R
}.

#[warnings="-register-all"]
Inductive Object3D : Type :=
| Object (name : string) (mesh : option (Shape * Material))
         (position rotation scale : Vector3) (children : list Object3D).

Definition nameOf (o : Object3D) : string :=
  match o with Object name _ _ _ _ _ => name end.
Definition meshOf (o : Object3D) : option (Shape * Material) :=
  match o with Object _ mesh _ _ _ _ => mesh end.
Definition positionOf (o : Object3D) : Vector3 :=
  match o with Object _ _ position _ _ _ => position end.
Definition childrenOf (o : Object3D) : list Object3D :=
  match o with Object _ _ _ _ _ children => children end.

(** [new THREE.Group()] and [new THREE.Mesh(geometry, material)]: at the
    origin, not rotated, of scale 1, without name or children. *)
Definition newGroup : Object3D :=
  Object "" None (mkVector3 0 0 0) (mkVector3 0 0 0) (mkVector3 1 1 1) [].

Definition newMesh (geometry : Shape) (material : Material) : Object3D :=
  Object "" (Some (geometry, material))
         (mkVector3 0 0 0) (mkVector3 0 0 0) (mkVector3 1 1 1) [].

Definition setName (name : string) (o : Object3D) : Object3D :=
  match o with Object _ m p r s c => Object name m p r s c end.

(** [o.position.set(x, y, z)] *)
Definition setPosition (x y z : R) (o : Object3D) : Object3D :=
  match o with Object n m _ r s c => Object n m (mkVector3 x y z) r s c end.

(** [o.position.y = y] *)
Definition setPositionY (y : R) (o : Object3D) : Object3D :=
  match o with Object n m p r s c => Object n m (mkVector3 (vx p) y (vz p)) r s c end.

(** [o.rotation.z = angle] *)
Definition setRotationZ (angle : R) (o : Object3D) : Object3D :=
  match o with Object n m p r s c => Object n m p (mkVector3 (vx r) (vy r) angle) s c end.

(** [o.scale.set(x, y, z)] *)
Definition setScale (x y z : R) (o : Object3D) : Object3D :=
  match o with Object n m p r _ c => Object n m p r (mkVector3 x y z) c end.

(** [parent.add(child)] *)
Definition add (child : Object3D) (parent : Object3D) : Object3D :=
  match parent with Object n m p r s c => Object n m p r s (c ++ [child]) end.

(** [object.traverse(callback)] visits the object, then its children in
    order; this is the list of the objects visited. *)
Fixpoint traverse (o : Object3D) : list Object3D :=
  match o with
  | Object _ _ _ _ _ children => o :: flat_map traverse children
  end.

(** *** What the host provides

    The sizes of the buffers three.js builds for a primitive, and the text
    [x.toString(36).substring(2, 8)] of a number. *)
Record Host : Type := mkHost {
  positionCount : Shape -> nat;
  indexCount : Shape -> option nat;
  base36Digits : R -> string
}.

(** *** Clock and random source

    [clock n] is what the [n]-th reading of the time returns.  [random n] is
    what the [n]-th of the calls of [Math.random()] that the code of this
    repository makes returns, and [randomDraws] counts these calls only.
    three.js calls [Math.random()] as well, four times for the [uuid] of
    every object, geometry and material it constructs: neither these calls
    nor the [uuid]s are in the model. *)
Record World : Type := mkWorld {
  clock : nat -> Z;
  clockReads : nat;
  random : nat -> R;
  randomDraws : nat
}.

(** [Date.now()], [new Date()] *)
Definition dateNow (w : World) : Z * World :=
  (clock w (clockReads w),
   mkWorld (clock w) (S (clockReads w)) (random w) (randomDraws w)).

(** [Math.random()], called by the code of this repository *)
Definition mathRandom (w : World) : R * World :=
  (random w (randomDraws w),
   mkWorld (clock w) (clockReads w) (random w) (S (randomDraws w))).

(** *** Characters (plugins/types.ts) *)

Inductive TextureStyle : Type := realistic | stylized | pixel | toon.

Inductive BodyType : Type :=
  bodyHumanoid | bodyQuadruped | bodySerpentine | bodyAmorphous | bodyMechanical.

Record GenerationOptions : Type := mkOptions {
  detailLevel : R;
  textureStyle : TextureStyle;
  includeAnimations : bool;
  bodyType : option BodyType
}.

Record GenerationParams : Type := mkParams {
  paramsType : CharacterType;
  style : string;
  prompt : option string;
  seed : option R;
  options : GenerationOptions
}.

Record CharacterMetadata : Type := mkMetadata {
  vertices : nat;
  faces : nat;
  bonesCount : nat;
  materials : nat;
  createdAt : Z;
  updatedAt : Z;
  plugins_used : list string
}.

Record Character : Type := mkCharacter {
  characterId : string;
  characterName : string;
  characterType : CharacterType;
  model : option Object3D;
  metadata : CharacterMetadata;
  generationParams : GenerationParams
}.

(** *** Humanoid proportions and style presets *)

Record HumanoidProportions : Type := mkProportions {
  headHeight : R; headWidth : R; neckHeight : R;
  torsoHeight : R; torsoWidth : R; torsoDepth : R;
  armLength : R; armWidth : R;
  legLength : R; legWidth : R;
  footLength : R; footHeight : R
}.

Definition DEFAULT_PROPORTIONS : HumanoidProportions :=
  mkProportions 0.12 0.08 0.03 0.25 0.18 0.10 0.30 0.04 0.45 0.06 0.10 0.03.

(** [Partial<HumanoidProportions>] *)
Record PartialProportions : Type := mkPartial {
  headHeight' : option R; headWidth' : option R; neckHeight' : option R;
  torsoHeight' : option R; torsoWidth' : option R; torsoDepth' : option R;
  armLength' : option R; armWidth' : option R;
  legLength' : option R; legWidth' : option R;
  footLength' : option R; footHeight' : option R
}.

Definition noProportions : PartialProportions :=
  mkPartial None None None None None None None None None None None None.

(** [{ ...base, ...over }] *)
Definition spread (base : HumanoidProportions) (over : PartialProportions)
  : HumanoidProportions :=
  mkProportions
    (default (headHeight base) (headHeight' over))
    (default (headWidth base) (headWidth' over))
    (default (neckHeight base) (neckHeight' over))
    (default (torsoHeight base) (torsoHeight' over))
    (default (torsoWidth base) (torsoWidth' over))
    (default (torsoDepth base) (torsoDepth' over))
    (default (armLength base) (armLength' over))
    (default (armWidth base) (armWidth' over))
    (default (legLength base) (legLength' over))
    (default (legWidth base) (legWidth' over))
    (default (footLength base) (footLength' over))
    (default (footHeight base) (footHeight' over)).

Record StylePreset : Type := mkStylePreset {
  proportions : PartialProportions;
  material : Material
}.

(** The own properties of the object [STYLE_PRESETS]. *)
Definition STYLE_PRESETS (key : string) : option StylePreset :=
  if String.eqb key "realistic" then
    Some (mkStylePreset noProportions (mkMaterial 0xd4a574 0.7 0.0))
  else if String.eqb key "stylized" then
    Some (mkStylePreset
            (mkPartial (Some 0.15) (Some 0.10) None (Some 0.22) None None
                       None None None None None None)
            (mkMaterial 0xffd4a0 0.5 0.0))
  else if String.eqb key "chibi" then
    Some (mkStylePreset
            (mkPartial (Some 0.25) (Some 0.20) None (Some 0.20) None None
                       None None (Some 0.30) None None None)
            (mkMaterial 0xffe4c4 0.4 0.0))
  else if String.eqb key "robot" then
    Some (mkStylePreset
            (mkPartial (Some 0.10) (Some 0.10) None None (Some 0.20) None
                       None None None None None None)
            (mkMaterial 0x808080 0.3 0.8))
  else None.

(** The properties every object inherits from [Object.prototype]: looking one
    of them up in [STYLE_PRESETS] gives a value that is not a preset. *)
Definition objectPrototypeKeys : list string :=
  ["constructor"; "__defineGetter__"; "__defineSetter__"; "hasOwnProperty";
   "__lookupGetter__"; "__lookupSetter__"; "isPrototypeOf";
   "propertyIsEnumerable"; "toString"; "valueOf"; "__proto__";
   "toLocaleString"].

Definition inherited (key : string) : bool :=
  existsb (String.eqb key) objectPrototypeKeys.

(** *** [createLimb] *)

Definition createLimb (length radius : R) (material : Material) : Object3D :=
  let group := newGroup in
  let cylinder :=
    newMesh (CylinderGeometry radius radius (length - radius * 2) 8) material in
  let group := add cylinder group in
  let sphereGeom := SphereGeometry radius 8 6 in
  let topSphere :=
    setPositionY ((length - radius * 2) / 2) (newMesh sphereGeom material) in
  let group := add topSphere group in
  let bottomSphere :=
    setPositionY (- (length - radius * 2) / 2) (newMesh sphereGeom material) in
  add bottomSphere group.

(** *** [HumanoidGenerator] *)

Record HumanoidGenerator : Type := mkGenerator {
  state : PluginState;
  characterCount : nat
}.

Definition generatorId : string := "humanoid-generator".

Definition stateName (s : PluginState) : string :=
  match s with
  | uninitialized => "uninitialized"
  | initializing => "initializing"
  | ready => "ready"
  | error => "error"
  | destroyed => "destroyed"
  end.

(** [BasePlugin.assertReady] *)
Definition assertReady (self : HumanoidGenerator) : Result JsError unit :=
  match state self with
  | ready => Returns tt
  | other =>
      Throws (mkJsError "Error"
                ("Plugin " +:+ generatorId +:+ " is not ready (state: "
                 +:+ stateName other +:+ ")"))
  end.

Definition buildHumanoid (props : HumanoidProportions) (height : R)
    (material : Material) : Object3D :=
  let root := newGroup in
  let scale := height in
  let head :=
    setName "head" (newMesh (SphereGeometry (headWidth props * scale) 16 12) material) in
  let neck :=
    setName "neck"
      (newMesh (CylinderGeometry (headWidth props * 0.4 * scale)
                                 (headWidth props * 0.5 * scale)
                                 (neckHeight props * scale) 8) material) in
  let torso :=
    setName "torso"
      (newMesh (BoxGeometry (torsoWidth props * scale) (torsoHeight props * scale)
                            (torsoDepth props * scale)) material) in
  let armGroup (isLeft : bool) :=
    setName (if isLeft then "arm_left" else "arm_right")
      (createLimb (armLength props * scale) (armWidth props * scale) material) in
  let leftArm := armGroup true in
  let rightArm := armGroup false in
  let legGroup (isLeft : bool) :=
    setName (if isLeft then "leg_left" else "leg_right")
      (createLimb (legLength props * scale) (legWidth props * scale) material) in
  let leftLeg := legGroup true in
  let rightLeg := legGroup false in
  let footGeom :=
    BoxGeometry (legWidth props * scale) (footHeight props * scale)
                (footLength props * scale) in
  let leftFoot := setName "foot_left" (newMesh footGeom material) in
  let rightFoot := setName "foot_right" (newMesh footGeom material) in
  let footY := footHeight props * 0.5 * scale in
  let legY := footY + footHeight props * 0.5 * scale + legLength props * 0.5 * scale in
  let torsoY := legY + legLength props * 0.5 * scale + torsoHeight props * 0.5 * scale in
  let neckY := torsoY + torsoHeight props * 0.5 * scale + neckHeight props * 0.5 * scale in
  let headY := neckY + neckHeight props * 0.5 * scale + headHeight props * 0.5 * scale in
  let head := setPositionY headY head in
  let neck := setPositionY neckY neck in
  let torso := setPositionY torsoY torso in
  let shoulderX := (torsoWidth props * 0.5 + armWidth props) * scale in
  let shoulderY := torsoY + torsoHeight props * 0.3 * scale in
  let leftArm := setRotationZ (PI * 0.1) (setPosition (- shoulderX) shoulderY 0 leftArm) in
  let rightArm := setRotationZ (- PI * 0.1) (setPosition shoulderX shoulderY 0 rightArm) in
  let hipX := (torsoWidth props * 0.25) * scale in
  let leftLeg := setPosition (- hipX) legY 0 leftLeg in
  let rightLeg := setPosition hipX legY 0 rightLeg in
  let footZ := (footLength props * 0.5 - legWidth props * 0.5) * scale in
  let leftFoot := setPosition (- hipX) footY footZ leftFoot in
  let rightFoot := setPosition hipX footY footZ rightFoot in
  add rightFoot (add leftFoot (add rightLeg (add leftLeg (add rightArm
    (add leftArm (add torso (add neck (add head root)))))))).

#[local] Instance Material_eq_dec : EqDecision Material.
Proof.
  intros [c r m] [c' r' m']. unfold Decision.
  destruct (decide (c = c')) as [->|Hc]; [|right; congruence].
  destruct (Req_dec_T r r') as [->|Hr]; [|right; congruence].
  destruct (Req_dec_T m m') as [->|Hm]; [|right; congruence].
  now left.
Defined.

(** [calculateMetadata]: the counters after the traversal.  [faces] adds up
    thirds and is rounded down at the end; the set of materials is counted by
    their distinct values. *)
Definition calculateMetadata (host : Host) (model : Object3D)
  : nat * nat * nat * nat :=
  let meshes := omap meshOf (traverse model) in
  let vertices :=
    fold_left (fun vertices '(geometry, _) => (vertices + positionCount host geometry)%nat)
              meshes 0%nat in
  let faceIndices :=
    fold_left (fun faces '(geometry, _) =>
                 match indexCount host geometry with
                 | Some n => (faces + n)%nat
                 | None => (faces + positionCount host geometry)%nat
                 end)
              meshes 0%nat in
  let materials := remove_dups (map snd meshes) in
  (vertices, (faceIndices / 3)%nat, 0%nat, length materials).

(** What [STYLE_PRESETS[styleKey] ?? STYLE_PRESETS['realistic']] evaluates
    to: a preset, or an inherited value that is not one. *)
Definition lookupStyle (styleKey : string) : option StylePreset :=
  match STYLE_PRESETS styleKey with
  | Some preset => Some preset
  | None => if inherited styleKey then None else STYLE_PRESETS "realistic"
  end.

Definition generate (host : Host) (params : GenerationParams)
    (self : HumanoidGenerator) (w : World)
  : Result JsError Character * HumanoidGenerator * World :=
  match assertReady self with
  | Throws e => (Throws e, self, w)
  | Returns _ =>
      let styleKey := if String.eqb (style params) "" then "realistic" else style params in
      match lookupStyle styleKey with
      | None =>
          (* [stylePreset.material] is undefined *)
          (Throws (mkJsError "TypeError"
                     "Cannot read properties of undefined (reading 'color')"),
           self, w)
      | Some stylePreset =>
          let proportions := spread DEFAULT_PROPORTIONS (proportions stylePreset) in
          let totalHeight :=
            if Rle_dec 0.5 (detailLevel (options params)) then 1.8 else 1.6 in
          let bodyMaterial :=
            mkMaterial (color (material stylePreset))
                       (roughness (material stylePreset))
                       (metalness (material stylePreset)) in
          let characterRoot := buildHumanoid proportions totalHeight bodyMaterial in
          let self := mkGenerator (state self) (S (characterCount self)) in
          let characterRoot :=
            setName ("humanoid-" +:+ pretty (characterCount self)) characterRoot in
          let '(vertices, faces, bones, materials) :=
            calculateMetadata host characterRoot in
          let '(now, w) := dateNow w in
          let '(draw, w) := mathRandom w in
          let '(created, w) := dateNow w in
          let '(updated, w) := dateNow w in
          (Returns
             (mkCharacter
                ("char-" +:+ pretty now +:+ "-" +:+ base36Digits host draw)
                (nameOf characterRoot)
                humanoid
                (Some characterRoot)
                (mkMetadata vertices faces bones materials created updated
                            [generatorId])
                params),
           self, w)
      end
  end.

(** *** [MonsterGenerator.buildSlime] *)

Record MonsterProportions : Type := mkMonsterProportions {
  bodySize : R;
  headCount : nat;
  headSize : R;
  armCount : nat;
  monsterArmLength : R;
  legCount : nat;
  monsterLegLength : R;
  tentacleCount : nat;
  tentacleLength : R;
  spikeCount : nat
}.

(** One round of the loop [for (let i = 0; i < 5; i++)] over the bubbles. *)
Definition addBubble (props : MonsterProportions) (scale : R) (material : Material)
    (acc : Object3D * World) (i : nat) : Object3D * World :=
  let '(root, w) := acc in
  let '(draw, w) := mathRandom w in
  let bubbleSize := draw * 0.1 + 0.05 in
  let bubble := newMesh (SphereGeometry (bubbleSize * scale) 8 6) material in
  let angle := (INR i / 5) * PI * 2 in
  let '(draw', w) := mathRandom w in
  let bubble :=
    setPosition (cos angle * bodySize props * scale * 0.3)
                (bodySize props * scale * 0.2 + draw' * 0.1)
                (sin angle * bodySize props * scale * 0.3) bubble in
  let bubble := setName ("bubble_" +:+ pretty i) bubble in
  (add bubble root, w).

(** One round of the loop [for (let i = 0; i < 2; i++)] over the eyes. *)
Definition addEye (props : MonsterProportions) (scale : R)
    (eyeMat pupilMat : Material) (root : Object3D) (i : nat) : Object3D :=
  let eye := newMesh (SphereGeometry (0.05 * scale) 8 6) eyeMat in
  let eye :=
    setPosition ((if Nat.eqb i 0 then -1 else 1) * 0.1 * scale)
                (bodySize props * scale * 0.4) (0.15 * scale) eye in
  let eye := setName ("eye_" +:+ pretty i) eye in
  let root := add eye root in
  let pupil := newMesh (SphereGeometry (0.02 * scale) 6 4) pupilMat in
  let pupil :=
    setPosition (vx (positionOf eye)) (vy (positionOf eye))
                (vz (positionOf eye) + 0.03 * scale) pupil in
  let pupil := setName ("pupil_" +:+ pretty i) pupil in
  add pupil root.

Definition buildSlime (props : MonsterProportions) (scale : R) (material : Material)
    (w : World) : Object3D * World :=
  let root := newGroup in
  let blob := newMesh (SphereGeometry (bodySize props * scale * 0.5) 16 12) material in
  let blob := setScale 1 0.6 1 blob in
  let blob := setPositionY (bodySize props * scale * 0.3) blob in
  let blob := setName "body" blob in
  let root := add blob root in
  let '(root, w) := fold_left (addBubble props scale material) (seq 0 5) (root, w) in
  let eyeMat := mkMaterial 0xffffff 1 0 in
  let pupilMat := mkMaterial 0x000000 1 0 in
  (fold_left (addEye props scale eyeMat pupilMat) (seq 0 2) root, w).

(** *** Sample inputs *)

Definition sampleParams : GenerationParams :=
  mkParams humanoid "chibi" None None (mkOptions 1 stylized false None).

Definition readyGenerator : HumanoidGenerator := mkGenerator ready 0.

(** A clock that advances by one millisecond at each reading and a random
    source that returns 0, 1/4, 1/2, 3/4, 0, ... *)
Definition sampleWorld : World :=
  mkWorld (fun n => 1700000000000 + Z.of_nat n)%Z 0
          (fun n => INR (n mod 4) / 4) 0.

(** Buffer sizes as three.js builds them for primitives with positive radii. *)
Definition sampleHost : Host :=
  mkHost
    (fun geometry =>
       match geometry with
       | SphereGeometry _ w h => ((w + 1) * (h + 1))%nat
       | CylinderGeometry _ _ _ r => (6 * r + 4)%nat
       | BoxGeometry _ _ _ => 24%nat
       end)
    (fun geometry =>
       match geometry with
       | SphereGeometry _ w h => Some (6 * w * (h - 1))%nat
       | CylinderGeometry _ _ _ r => Some (12 * r)%nat
       | BoxGeometry _ _ _ => Some 36%nat
       end)
    (fun _ => "k3x9qz").

(** *** Reading a generated character *)

(** [params.style || 'realistic'] *)
Definition styleKeyOf (params : GenerationParams) : string :=
  if String.eqb (style params) "" then "realistic" else style params.

(** The body [generate] builds for a preset, before it is named. *)
Definition bodyOf (params : GenerationParams) (stylePreset : StylePreset)
  : Object3D :=
  buildHumanoid
    (spread DEFAULT_PROPORTIONS (proportions stylePreset))
    (if Rle_dec 0.5 (detailLevel (options params)) then 1.8 else 1.6)
    (mkMaterial (color (material stylePreset)) (roughness (material stylePreset))
                (metalness (material stylePreset))).

(** The radius of the sphere of the [n]-th child of an object. *)
Definition childRadius (n : nat) (o : Object3D) : option R :=
  match childrenOf o !! n with
  | Some (Object _ (Some (SphereGeometry radius _ _, _)) _ _ _ _) => Some radius
  | _ => None
  end.

(** The world after [n] more calls of [Math.random()] by the code of this
    repository. *)
Definition afterDraws (n : nat) (w : World) : World :=
  mkWorld (clock w) (clockReads w) (random w) (n + randomDraws w).

(** What two runs of [generate] with the same parameters agree on: both
    throw the same error, or both return a character, with the same body
    parts, type, parameters, counters and plugin list. *)
Definition sameUpToRun (r1 r2 : Result JsError Character) : Prop :=
  match r1, r2 with
  | Returns c1, Returns c2 =>
      childrenOf <$> model c1 = childrenOf <$> model c2 /\
      characterType c1 = characterType c2 /\
      generationParams c1 = generationParams c2 /\
      vertices (metadata c1) = vertices (metadata c2) /\
      faces (metadata c1) = faces (metadata c2) /\
      bonesCount (metadata c1) = bonesCount (metadata c2) /\
      materials (metadata c1) = materials (metadata c2) /\
      plugins_used (metadata c1) = plugins_used (metadata c2)
  | Throws e1, Throws e2 => e1 = e2
  | _, _ => False
  end.

(** The material [MonsterGenerator.generate] makes for the slime preset. *)
Definition slimeMaterial : Material := mkMaterial 0x00ff00 0.2 0.3.

(** The proportions of the slime preset, merged with the monster defaults. *)
Definition slimeProportions : MonsterProportions :=
  mkMonsterProportions 0.5 0 0.15 0 0.5 0 0.5 0 0 0.

(** *** The generator as a plugin *)

(** [new HumanoidGenerator()] *)
Definition newGenerator : HumanoidGenerator := mkGenerator uninitialized 0.

(** The [BasePlugin] part of the generator; the class overrides neither
    [doInit] nor [doDestroy], which then do nothing. *)
Definition asBasePlugin (self : HumanoidGenerator) : BasePlugin.BasePlugin :=
  BasePlugin.mkBasePlugin generatorId "Humanoid Generator" "1.0.0" generator
    (state self) PluginManager.Resolves PluginManager.Resolves.

(** The generator after lifecycle calls. *)
Definition afterLifecycles (calls : list BasePlugin.Lifecycle)
    (self : HumanoidGenerator) : HumanoidGenerator :=
  mkGenerator
    (BasePlugin.state (BasePlugin.afterLifecycles calls (asBasePlugin self)))
    (characterCount self).

(** The same parameters with another style. *)
Definition withStyle (key : string) (params : GenerationParams) : GenerationParams :=
  mkParams (paramsType params) key (prompt params) (seed params) (options params).

Definition rotationOf (o : Object3D) : Vector3 :=
  match o with Object _ _ _ rotation _ _ => rotation end.

(** Two parts that mirror each other across the plane [x = 0]: same mesh and
    children, opposite [x], opposite rotation about [z]. *)
Definition mirrored (l r : Object3D) : Prop :=
  meshOf l = meshOf r /\ childrenOf l = childrenOf r /\
  vx (positionOf l) = - vx (positionOf r) /\
  vy (positionOf l) = vy (positionOf r) /\
  vz (positionOf l) = vz (positionOf r) /\
  vz (rotationOf l) = - vz (rotationOf r).

End Generators.

(** ** Building skeletons (rigging/SkeletonBuilder.ts)

    The bones of a builder are three.js objects kept in a [Map] by name.  Of a
    bone we keep its position and rotation, its parent and its children; a
    parent and a child are named by their key in the map.  [buildHumanoid] and
    [buildQuadruped] clear the map before they call [buildBoneHierarchy],
    which is modelled on the cleared map. *)

Module Rigging.

Record BoneDefinition : Type := mkDefinition {
  name : string;
  parent : option string;
  position : Vector3;
  rotation : option Vector3;  (* the Euler angles *)
  length : option R
}.

Record BoneNode : Type := mkNode {
  nodePosition : Vector3;
  nodeRotation : Vector3;
  nodeParent : option string;
  nodeChildren : list string
}.

(** [new THREE.Bone()] with the position and, if given, the rotation of the
    definition. *)
Definition newBone (def : BoneDefinition) : BoneNode :=
  mkNode (position def) (default (mkVector3 0 0 0) (rotation def)) None [].

Definition setParent (p : option string) (node : BoneNode) : BoneNode :=
  mkNode (nodePosition node) (nodeRotation node) p (nodeChildren node).

Definition setChildren (children : list string) (node : BoneNode) : BoneNode :=
  mkNode (nodePosition node) (nodeRotation node) (nodeParent node) children.

(** [children.splice(children.indexOf(child), 1)] *)
Fixpoint removeFirst (child : string) (children : list string) : list string :=
  match children with
  | [] => []
  | other :: rest =>
      if decide (other = child) then rest else other :: removeFirst child rest
  end.

(** three.js [object.removeFromParent()] *)
Definition removeFromParent (child : string) (bones : gmap string BoneNode)
  : gmap string BoneNode :=
  match bones !! child with
  | Some node =>
      match nodeParent node with
      | Some old =>
          match bones !! old with
          | Some oldNode =>
              if decide (child ∈ nodeChildren oldNode) then
                <[child := setParent None node]>
                  (<[old := setChildren (removeFirst child (nodeChildren oldNode))
                                        oldNode]> bones)
              else bones
          | None => bones
          end
      | None => bones
      end
  | None => bones
  end.

(** three.js [parent.add(child)]: an object is not added to itself; otherwise
    it leaves its former parent and becomes the last child of the new one. *)
Definition add (parentName childName : string) (bones : gmap string BoneNode)
  : gmap string BoneNode :=
  if decide (parentName = childName) then bones
  else
    let bones := removeFromParent childName bones in
    match bones !! childName with
    | None => bones
    | Some child =>
        let bones := <[childName := setParent (Some parentName) child]> bones in
        match bones !! parentName with
        | None => bones
        | Some parentBone =>
            <[parentName := setChildren (nodeChildren parentBone ++ [childName])
                                        parentBone]> bones
        end
    end.

(** The first loop of [buildBoneHierarchy]. *)
Definition createBones (definitions : list BoneDefinition)
    (bones : gmap string BoneNode) : gmap string BoneNode :=
  fold_left (fun bones def => <[name def := newBone def]> bones) definitions bones.

(** One round of the second loop: the bones and [rootBone]. *)
Definition linkBone (acc : gmap string BoneNode * option string)
    (def : BoneDefinition) : gmap string BoneNode * option string :=
  let '(bones, rootBone) := acc in
  match bones !! name def with
  | None => (bones, rootBone)
  | Some _ =>
      match parent def with
      | None => (bones, Some (name def))
      | Some parentName =>
          match bones !! parentName with
          | Some _ => (add parentName (name def) bones, rootBone)
          | None => (bones, rootBone)
          end
      end
  end.

Definition buildBoneHierarchy (definitions : list BoneDefinition)
  : Result JsError string * gmap string BoneNode :=
  let bones := createBones definitions ∅ in
  let '(bones, rootBone) := fold_left linkBone definitions (bones, None) in
  match rootBone with
  | None => (Throws (mkJsError "Error" "No root bone found in hierarchy"), bones)
  | Some root => (Returns root, bones)
  end.

Definition childrenIn (bones : gmap string BoneNode) (bone : string) : list string :=
  match bones !! bone with
  | Some node => nodeChildren node
  | None => []
  end.

(** three.js [object.traverse(callback)] visits an object and then, in order,
    what the traversal of each child visits.  [pending] are the objects still
    to visit, the next one first; every visit uses one unit of [fuel]. *)
Fixpoint traverseFrom (fuel : nat) (bones : gmap string BoneNode)
    (pending : list string) : option (list string) :=
  match pending with
  | [] => Some []
  | bone :: rest =>
      match fuel with
      | O => None
      | S fuel =>
          cons bone <$> traverseFrom fuel bones (childrenIn bones bone ++ rest)
      end
  end.

(** [rootBone.traverse(obj => boneArray.push(obj))]: every object below the
    root is a bone, so the test [obj instanceof THREE.Bone] lets each one
    through.  No bone is the child of two, so a traversal that visits more bones than there are runs in a circle
    and never ends: the call stack overflows. *)
Definition collectBones (root : string) (bones : gmap string BoneNode)
  : Result JsError (list string) :=
  match traverseFrom (S (size bones)) bones [root] with
  | Some boneArray => Returns boneArray
  | None => Throws (mkJsError "RangeError" "Maximum call stack size exceeded")
  end.

(** A skeleton is the array of its bones. *)
Definition buildSkeleton (definitions : list BoneDefinition)
  : Result JsError (list string) * gmap string BoneNode :=
  match buildBoneHierarchy definitions with
  | (Throws e, bones) => (Throws e, bones)
  | (Returns rootBone, bones) => (collectBones rootBone bones, bones)
  end.

(** [getBone(name)] *)
Definition getBone (boneName : string) (bones : gmap string BoneNode)
  : option BoneNode :=
  bones !! boneName.

(** [createHelper(skeleton)] returns a helper on the first bone. *)
Definition createHelper (skeleton : list string) : Result JsError string :=
  match skeleton with
  | [] => Throws (mkJsError "Error" "Skeleton has no bones")
  | rootBone :: _ => Returns rootBone
  end.

(** *** Configurations *)

Record Proportions : Type := mkProportions {
  legRatio : R;
  torsoRatio : R;
  armRatio : R;
  headRatio : R
}.

Record SkeletonConfig : Type := mkConfig {
  height : R;
  proportions : Proportions;
  shoulderWidth : R;
  hipWidth : R
}.

Definition DEFAULT_CONFIG : SkeletonConfig :=
  mkConfig 1.8 (mkProportions 0.47 0.30 0.38 0.13) 0.4 0.2.

(** [Partial<SkeletonConfig>] *)
Record PartialConfig : Type := mkPartialConfig {
  height' : option R;
  proportions' : option Proportions;
  shoulderWidth' : option R;
  hipWidth' : option R
}.

(** [{ ...DEFAULT_CONFIG, ...config,
       proportions: { ...DEFAULT_CONFIG.proportions, ...config.proportions } }] *)
Definition fullConfig (config : PartialConfig) : SkeletonConfig :=
  mkConfig (default (height DEFAULT_CONFIG) (height' config))
           (default (proportions DEFAULT_CONFIG) (proportions' config))
           (default (shoulderWidth DEFAULT_CONFIG) (shoulderWidth' config))
           (default (hipWidth DEFAULT_CONFIG) (hipWidth' config)).

Definition bone (boneName : string) (parentName : option string) (x y z : R)
  : BoneDefinition :=
  mkDefinition boneName parentName (mkVector3 x y z) None None.

Definition getHumanoidBoneDefinitions (config : SkeletonConfig)
  : list BoneDefinition :=
  let h := height config in
  let legHeight := h * legRatio (proportions config) in
  let torsoHeight := h * torsoRatio (proportions config) in
  let armLength := h * armRatio (proportions config) in
  let sw := shoulderWidth config in
  let hw := hipWidth config in
  let hipY := legHeight in
  let spineY := hipY + torsoHeight * 0.33 in
  let spine1Y := hipY + torsoHeight * 0.66 in
  let spine2Y := hipY + torsoHeight in
  let neckY := spine2Y + torsoHeight * 0.1 in
  let headY := neckY + h * headRatio (proportions config) * 0.5 in
  let upperLegLen := legHeight * 0.5 in
  let lowerLegLen := legHeight * 0.5 in
  let upperArmLen := armLength * 0.5 in
  let lowerArmLen := armLength * 0.5 in
  [ bone "root" None 0 0 0;
    bone "hips" (Some "root") 0 hipY 0;
    bone "spine" (Some "hips") 0 (spineY - hipY) 0;
    bone "spine1" (Some "spine") 0 (spine1Y - spineY) 0;
    bone "spine2" (Some "spine1") 0 (spine2Y - spine1Y) 0;
    bone "neck" (Some "spine2") 0 (neckY - spine2Y) 0;
    bone "head" (Some "neck") 0 (headY - neckY) 0;
    bone "leftShoulder" (Some "spine2") (- sw * 0.3) 0 0;
    bone "leftArm" (Some "leftShoulder") (- sw * 0.2) 0 0;
    bone "leftForeArm" (Some "leftArm") 0 (- upperArmLen) 0;
    bone "leftHand" (Some "leftForeArm") 0 (- lowerArmLen) 0;
    bone "rightShoulder" (Some "spine2") (sw * 0.3) 0 0;
    bone "rightArm" (Some "rightShoulder") (sw * 0.2) 0 0;
    bone "rightForeArm" (Some "rightArm") 0 (- upperArmLen) 0;
    bone "rightHand" (Some "rightForeArm") 0 (- lowerArmLen) 0;
    bone "leftUpLeg" (Some "hips") (- hw) 0 0;
    bone "leftLeg" (Some "leftUpLeg") 0 (- upperLegLen) 0;
    bone "leftFoot" (Some "leftLeg") 0 (- lowerLegLen) 0;
    bone "leftToeBase" (Some "leftFoot") 0 0 0.1;
    bone "rightUpLeg" (Some "hips") hw 0 0;
    bone "rightLeg" (Some "rightUpLeg") 0 (- upperLegLen) 0;
    bone "rightFoot" (Some "rightLeg") 0 (- lowerLegLen) 0;
    bone "rightToeBase" (Some "rightFoot") 0 0 0.1 ].

(** The definitions of [buildQuadruped(length, height)]. *)
Definition quadrupedDefinitions (length height : R) : list BoneDefinition :=
  [ bone "root" None 0 height 0;
    bone "spine" (Some "root") 0 0 0;
    bone "spine1" (Some "spine") (length * 0.25) 0 0;
    bone "spine2" (Some "spine1") (length * 0.25) 0 0;
    bone "neck" (Some "spine2") (length * 0.1) (height * 0.2) 0;
    bone "head" (Some "neck") (length * 0.1) (height * 0.1) 0;
    bone "tail" (Some "root") (- length * 0.2) 0 0;
    bone "tail1" (Some "tail") (- length * 0.15) 0 0;
    bone "tail2" (Some "tail1") (- length * 0.15) 0 0;
    bone "frontLeftLeg" (Some "spine2") 0 0 (height * 0.3);
    bone "frontLeftLowerLeg" (Some "frontLeftLeg") 0 (- height * 0.5) 0;
    bone "frontLeftFoot" (Some "frontLeftLowerLeg") 0 (- height * 0.4) 0;
    bone "frontRightLeg" (Some "spine2") 0 0 (- height * 0.3);
    bone "frontRightLowerLeg" (Some "frontRightLeg") 0 (- height * 0.5) 0;
    bone "frontRightFoot" (Some "frontRightLowerLeg") 0 (- height * 0.4) 0;
    bone "backLeftLeg" (Some "root") 0 0 (height * 0.3);
    bone "backLeftLowerLeg" (Some "backLeftLeg") 0 (- height * 0.5) 0;
    bone "backLeftFoot" (Some "backLeftLowerLeg") 0 (- height * 0.4) 0;
    bone "backRightLeg" (Some "root") 0 0 (- height * 0.3);
    bone "backRightLowerLeg" (Some "backRightLeg") 0 (- height * 0.5) 0;
    bone "backRightFoot" (Some "backRightLowerLeg") 0 (- height * 0.4) 0 ].

(** [buildHumanoid(config)]: the skeleton, and the bones of the builder. *)
Definition buildHumanoid (config : PartialConfig)
  : Result JsError (list string) * gmap string BoneNode :=
  buildSkeleton (getHumanoidBoneDefinitions (fullConfig config)).

(** [buildQuadruped(length, height)] *)
Definition buildQuadruped (length height : R)
  : Result JsError (list string) * gmap string BoneNode :=
  buildSkeleton (quadrupedDefinitions length height).

(** *** Reading a hierarchy *)

(** Definitions in an order that builds a tree: the names differ, the first
    definition is the root, and every other one names as its parent a bone
    defined before it. *)
Fixpoint parentsFirst (seen : list string) (definitions : list BoneDefinition)
  : Prop :=
  match definitions with
  | [] => True
  | def :: rest =>
      (name def ∉ seen) /\
      (exists parentName, parent def = Some parentName /\ parentName ∈ seen) /\
      parentsFirst (seen ++ [name def]) rest
  end.

Definition treeOrder (definitions : list BoneDefinition) : Prop :=
  match definitions with
  | [] => False
  | root :: rest => parent root = None /\ parentsFirst [name root] rest
  end.

(** The position of a bone in the world when no bone above it is rotated:
    the sum of the positions from the bone up to the root. *)
Fixpoint worldPositionOf (fuel : nat) (bones : gmap string BoneNode)
    (boneName : string) : Vector3 :=
  match fuel, bones !! boneName with
  | S fuel, Some node =>
      let above :=
        match nodeParent node with
        | Some parentName => worldPositionOf fuel bones parentName
        | None => mkVector3 0 0 0
        end in
      mkVector3 (vx above + vx (nodePosition node))
                (vy above + vy (nodePosition node))
                (vz above + vz (nodePosition node))
  | _, _ => mkVector3 0 0 0
  end.

(** What linking the bones leaves alone: the position and the rotation. *)
Definition shape (node : BoneNode) : Vector3 * Vector3 :=
  (nodePosition node, nodeRotation node).

Definition shapeOf (bones : gmap string BoneNode) (boneName : string)
  : option (Vector3 * Vector3) :=
  shape <$> bones !! boneName.

(** The root that the second loop of [buildBoneHierarchy] is left with. *)
Definition lastRoot (definitions : list BoneDefinition) (rootBone : option string)
  : option string :=
  fold_left (fun rootBone def =>
               match parent def with
               | None => Some (name def)
               | Some _ => rootBone
               end) definitions rootBone.

End Rigging.

(** * Properties *)

(** ** IEEE 754 arithmetic

    What [SpecFloat] computes, in terms of real numbers: rounding gives a
    nearest number of the format, comparisons follow the real line, and the
    operations on numbers that are not negative keep their order. *)

Lemma pow2_pos e : 0 < pow2 e.
Proof. apply powerRZ_lt. lra. Qed.

Lemma pow2_add a b : pow2 (a + b) = pow2 a * pow2 b.
Proof. apply powerRZ_add. lra. Qed.

Lemma pow2_0 : pow2 0 = 1.
Proof. reflexivity. Qed.

Lemma pow2_1 : pow2 1 = 2.
Proof. unfold pow2. simpl. lra. Qed.

Lemma pow2_succ e : pow2 (e + 1) = 2 * pow2 e.
Proof. rewrite pow2_add, pow2_1. ring. Qed.

Lemma pow2_pred e : pow2 (e - 1) = pow2 e / 2.
Proof.
  replace e with ((e - 1) + 1)%Z at 2 by lia. rewrite pow2_succ. field.
Qed.

Lemma pow2_IZR n : (0 <= n)%Z -> pow2 n = IZR (2 ^ n).
Proof.
  intros Hn. unfold pow2.
  rewrite <- (Z2Nat.id n Hn) at 1 2.
  rewrite <- pow_powerRZ, pow_IZR. reflexivity.
Qed.

Lemma pow2_le a b : (a <= b)%Z -> pow2 a <= pow2 b.
Proof.
  intros H. replace b with (a + (b - a))%Z by lia.
  rewrite pow2_add. rewrite (pow2_IZR (b - a)) by lia.
  assert (1 <= IZR (2 ^ (b - a))).
  { apply IZR_le. assert (0 < 2 ^ (b - a))%Z by (apply Z.pow_pos_nonneg; lia). lia. }
  pose proof (pow2_pos a). nra.
Qed.

Lemma pow2_lt a b : (a < b)%Z -> pow2 a < pow2 b.
Proof.
  intros H. apply Rlt_le_trans with (pow2 (a + 1)).
  - rewrite pow2_succ. pose proof (pow2_pos a). lra.
  - apply pow2_le. lia.
Qed.

Lemma pow2_lt_inv a b : pow2 a < pow2 b -> (a < b)%Z.
Proof.
  intros H. destruct (Z_lt_le_dec a b) as [|Hle]; [assumption|].
  apply pow2_le in Hle. lra.
Qed.

Lemma pow2_le_inv a b : pow2 a <= pow2 b -> (a <= b)%Z.
Proof.
  intros H. destruct (Z_lt_le_dec b a) as [Hlt|]; [|assumption].
  apply pow2_lt in Hlt. lra.
Qed.

Lemma F2R_0 e : F2R 0 e = 0.
Proof. unfold F2R. ring. Qed.

Lemma F2R_shift m e n : (0 <= n)%Z -> F2R (m * 2 ^ n) e = F2R m (e + n).
Proof.
  intros Hn. unfold F2R. rewrite mult_IZR, pow2_add, <- pow2_IZR by exact Hn. ring.
Qed.

Lemma F2R_le m m' e : (m <= m')%Z -> F2R m e <= F2R m' e.
Proof.
  intros H. unfold F2R. apply IZR_le in H. pose proof (pow2_pos e). nra.
Qed.

Lemma F2R_lt m m' e : (m < m')%Z -> F2R m e < F2R m' e.
Proof.
  intros H. unfold F2R. apply IZR_lt in H. pose proof (pow2_pos e). nra.
Qed.

Lemma F2R_lt_inv m m' e : F2R m e < F2R m' e -> (m < m')%Z.
Proof.
  intros H. destruct (Z_lt_le_dec m m') as [|Hle]; [assumption|].
  apply (F2R_le _ _ e) in Hle. lra.
Qed.

Lemma F2R_le_inv m m' e : F2R m e <= F2R m' e -> (m <= m')%Z.
Proof.
  intros H. destruct (Z_lt_le_dec m' m) as [Hlt|]; [|assumption].
  apply (F2R_lt _ _ e) in Hlt. lra.
Qed.

Lemma F2R_pos m e : (0 < m)%Z -> 0 < F2R m e.
Proof.
  intros H. unfold F2R. apply IZR_lt in H. pose proof (pow2_pos e). nra.
Qed.

Lemma F2R_succ m e : F2R (m + 1) e = F2R m e + pow2 e.
Proof. unfold F2R. rewrite plus_IZR. ring. Qed.

Lemma F2R_add m m' e : F2R (m + m') e = F2R m e + F2R m' e.
Proof. unfold F2R. rewrite plus_IZR. ring. Qed.

Lemma F2R_sub m m' e : F2R (m - m') e = F2R m e - F2R m' e.
Proof. unfold F2R. rewrite minus_IZR. ring. Qed.

Lemma F2R_opp m e : F2R (- m) e = - F2R m e.
Proof. unfold F2R. rewrite opp_IZR. ring. Qed.

(** *** Number of binary digits *)

Lemma digits2_pos_size p : digits2_pos p = Pos.size p.
Proof. induction p; simpl; congruence. Qed.

Lemma Zdigits2_pos p :
  (2 ^ (Zdigits2 (Zpos p) - 1) <= Zpos p < 2 ^ Zdigits2 (Zpos p))%Z.
Proof.
  unfold Zdigits2. rewrite digits2_pos_size.
  pose proof (Pos.size_gt p) as Hgt. pose proof (Pos.size_le p) as Hle.
  split.
  - assert (H : (2 ^ Zpos (Pos.size p) <= 2 * Zpos p)%Z).
    { change (2 * Zpos p)%Z with (Zpos p~0).
      rewrite <- Pos2Z.inj_pow. apply Pos2Z.pos_le_pos. exact Hle. }
    replace (Zpos (Pos.size p)) with (Zpos (Pos.size p) - 1 + 1)%Z in H by lia.
    rewrite Z.pow_add_r in H by lia. lia.
  - rewrite <- Pos2Z.inj_pow. apply Pos2Z.pos_lt_pos. exact Hgt.
Qed.

Lemma Zdigits2_nonneg m : (0 <= Zdigits2 m)%Z.
Proof. destruct m; simpl; lia. Qed.

Lemma Zdigits2_bounds m :
  (0 < m)%Z -> (2 ^ (Zdigits2 m - 1) <= m < 2 ^ Zdigits2 m)%Z.
Proof. destruct m as [|p|p]; try lia. intros _. apply Zdigits2_pos. Qed.

Lemma Zdigits2_gt_0 m : (0 < m)%Z -> (0 < Zdigits2 m)%Z.
Proof. destruct m; simpl; lia. Qed.

Lemma Zdigits2_unique m d :
  (2 ^ (d - 1) <= m < 2 ^ d)%Z -> (0 < d)%Z -> Zdigits2 m = d.
Proof.
  intros [Hlo Hhi] Hd.
  assert (Hm : (0 < m)%Z).
  { assert (0 < 2 ^ (d - 1))%Z by (apply Z.pow_pos_nonneg; lia). lia. }
  pose proof (Zdigits2_bounds m Hm) as [Hlo' Hhi'].
  pose proof (Zdigits2_gt_0 m Hm) as Hd'.
  destruct (Z.lt_trichotomy (Zdigits2 m) d) as [H|[H|H]]; [|exact H|].
  - exfalso. assert (2 ^ Zdigits2 m <= 2 ^ (d - 1))%Z by (apply Z.pow_le_mono_r; lia). lia.
  - exfalso. assert (2 ^ d <= 2 ^ (Zdigits2 m - 1))%Z by (apply Z.pow_le_mono_r; lia). lia.
Qed.

Lemma Zdigits2_le m m' : (0 <= m <= m')%Z -> (Zdigits2 m <= Zdigits2 m')%Z.
Proof.
  intros [H0 Hle].
  destruct (Z.eq_dec m 0%Z) as [->|Hm]; [apply Zdigits2_nonneg|].
  pose proof (Zdigits2_bounds m ltac:(lia)) as [Hlo _].
  pose proof (Zdigits2_bounds m' ltac:(lia)) as [_ Hhi].
  destruct (Z_lt_le_dec (Zdigits2 m') (Zdigits2 m)) as [Hlt|]; [|assumption].
  exfalso.
  assert (2 ^ Zdigits2 m' <= 2 ^ (Zdigits2 m - 1))%Z by (apply Z.pow_le_mono_r; lia).
  lia.
Qed.

(** [F2R m e] against powers of two. *)
Lemma F2R_digits_lt m e : (0 <= m)%Z -> F2R m e < pow2 (Zdigits2 m + e).
Proof.
  intros Hm. rewrite pow2_add.
  destruct (Z.eq_dec m 0%Z) as [->|Hne].
  - rewrite F2R_0. simpl Zdigits2. rewrite pow2_0.
    pose proof (pow2_pos e). lra.
  - pose proof (Zdigits2_bounds m ltac:(lia)) as [_ Hhi].
    rewrite pow2_IZR by apply Zdigits2_nonneg.
    unfold F2R. apply IZR_lt in Hhi. pose proof (pow2_pos e). nra.
Qed.

Lemma F2R_digits_ge m e : (0 < m)%Z -> pow2 (Zdigits2 m - 1 + e) <= F2R m e.
Proof.
  intros Hm. rewrite pow2_add.
  pose proof (Zdigits2_bounds m Hm) as [Hlo _].
  pose proof (Zdigits2_gt_0 m Hm).
  rewrite pow2_IZR by lia.
  unfold F2R. apply IZR_le in Hlo. pose proof (pow2_pos e). nra.
Qed.

(** *** Positions between two consecutive multiples of a power of two *)

Lemma inbetween_bounds m e l x :
  inbetween m e l x -> F2R m e <= x < F2R (m + 1) e.
Proof.
  rewrite F2R_succ. pose proof (pow2_pos e).
  destruct l as [|[| |]]; simpl; lra.
Qed.

Lemma loc_of_shr_record_of_loc m l :
  loc_of_shr_record (shr_record_of_loc m l) = l.
Proof. destruct l as [|[| |]]; reflexivity. Qed.

Lemma shr_m_shr_record_of_loc m l : shr_m (shr_record_of_loc m l) = m.
Proof. destruct l as [|[| |]]; reflexivity. Qed.

Lemma F2R_xO p e : F2R (Zpos p~0) e = F2R (Zpos p) (e + 1).
Proof. unfold F2R. rewrite IZR_POS_xO, pow2_succ. ring. Qed.

Lemma F2R_xI p e : F2R (Zpos p~1) e = F2R (Zpos p) (e + 1) + pow2 e.
Proof. unfold F2R. rewrite IZR_POS_xI, pow2_succ. ring. Qed.

Lemma F2R_1 e : F2R 1 e = pow2 e.
Proof. unfold F2R. ring. Qed.

Lemma shr_1_inbetween mrs e x :
  (0 <= shr_m mrs)%Z ->
  inbetween (shr_m mrs) e (loc_of_shr_record mrs) x ->
  inbetween (shr_m (shr_1 mrs)) (e + 1) (loc_of_shr_record (shr_1 mrs)) x.
Proof.
  destruct mrs as [m r s]. cbn [shr_m]. intros Hm.
  pose proof (pow2_pos e) as Hu.
  destruct m as [|[p|p|]|p]; [| | | |lia];
    destruct r, s; cbn [shr_1 orb shr_m loc_of_shr_record inbetween];
    rewrite ?F2R_xO, ?F2R_xI, ?F2R_0, ?F2R_1, ?pow2_succ; lra.
Qed.

Lemma shr_1_m mrs :
  (0 <= shr_m mrs)%Z -> shr_m (shr_1 mrs) = (shr_m mrs / 2)%Z.
Proof.
  destruct mrs as [m r s]. cbn [shr_m]. intros Hm.
  destruct m as [|[p|p|]|p]; [| | | |lia]; cbn [shr_1 shr_m].
  - reflexivity.
  - change (Zpos p~1) with (2 * Zpos p + 1)%Z.
    apply Z.div_unique with 1%Z; lia.
  - change (Zpos p~0) with (2 * Zpos p)%Z.
    apply Z.div_unique with 0%Z; lia.
  - reflexivity.
Qed.

Lemma iter_pos_nat {A : Type} (f : A -> A) (p : positive) (x : A) :
  SpecFloat.iter_pos f p x = Nat.iter (Pos.to_nat p) f x.
Proof.
  revert x. induction p as [p IH|p IH|]; intros x; cbn [SpecFloat.iter_pos].
  - rewrite !IH, Pos2Nat.inj_xI.
    replace (2 * Pos.to_nat p)%nat with (Pos.to_nat p + Pos.to_nat p)%nat by lia.
    rewrite Nat.iter_succ_r, Nat.iter_add. reflexivity.
  - rewrite !IH, Pos2Nat.inj_xO.
    replace (2 * Pos.to_nat p)%nat with (Pos.to_nat p + Pos.to_nat p)%nat by lia.
    rewrite Nat.iter_add. reflexivity.
  - reflexivity.
Qed.

Lemma shr_nat k mrs e x :
  (0 <= shr_m mrs)%Z ->
  inbetween (shr_m mrs) e (loc_of_shr_record mrs) x ->
  (0 <= shr_m (Nat.iter k shr_1 mrs))%Z /\
  inbetween (shr_m (Nat.iter k shr_1 mrs)) (e + Z.of_nat k)
            (loc_of_shr_record (Nat.iter k shr_1 mrs)) x /\
  shr_m (Nat.iter k shr_1 mrs) = (shr_m mrs / 2 ^ Z.of_nat k)%Z.
Proof.
  intros Hm Hx. induction k as [|k (IH0 & IHx & IHm)].
  - cbn [Nat.iter nat_rect]. rewrite Z.add_0_r. simpl Z.of_nat.
    rewrite Z.pow_0_r, Z.div_1_r. auto.
  - cbn [Nat.iter nat_rect]. fold (Nat.iter k shr_1 mrs).
    rewrite Nat2Z.inj_succ. unfold Z.succ.
    split; [|split].
    + rewrite shr_1_m by exact IH0. apply Z.div_pos; lia.
    + rewrite Z.add_assoc. apply shr_1_inbetween; assumption.
    + rewrite shr_1_m by exact IH0. rewrite IHm.
      rewrite Z.pow_add_r by lia. rewrite Z.div_div by (try apply Z.pow_pos_nonneg; lia).
      reflexivity.
Qed.

Section Rounding.
Variables prec emax : Z.
Hypothesis prec_gt_0 : (0 < prec)%Z.
Hypothesis prec_lt_emax : (prec < emax)%Z.
Local Set Default Proof Using "prec_gt_0 prec_lt_emax".

Local Abbreviation fexp := (SpecFloat.fexp prec emax).
Local Abbreviation emin := (SpecFloat.emin prec emax).

Local Abbreviation canonical := (IEEE754.canonical prec emax).

Lemma fexp_ge_emin k : (emin <= fexp k)%Z.
Proof. unfold SpecFloat.fexp. lia. Qed.

Lemma fexp_mono k k' : (k <= k')%Z -> (fexp k <= fexp k')%Z.
Proof. unfold SpecFloat.fexp. lia. Qed.

Lemma fexp_succ k : (fexp (k + 1) <= fexp k + 1)%Z.
Proof. unfold SpecFloat.fexp. lia. Qed.

Lemma canonical_digits m e :
  canonical m e -> (Zdigits2 m <= prec)%Z /\ (emin <= e)%Z /\
                   (Zdigits2 m = prec \/ e = emin).
Proof. unfold IEEE754.canonical, SpecFloat.fexp. lia. Qed.

(** What [shr_fexp] returns. *)
Lemma shr_fexp_correct m e l x :
  (0 <= m)%Z ->
  inbetween m e l x ->
  exists mrs' e',
    shr_fexp prec emax m e l = (mrs', e') /\
    (0 <= shr_m mrs')%Z /\
    inbetween (shr_m mrs') e' (loc_of_shr_record mrs') x /\
    e' = Z.max e (fexp (Zdigits2 m + e)) /\
    shr_m mrs' = (m / 2 ^ (e' - e))%Z /\
    ((e' = e /\ mrs' = shr_record_of_loc m l) \/ (e < e')%Z).
Proof.
  intros Hm Hx. unfold shr_fexp, shr.
  destruct (fexp (Zdigits2 m + e) - e)%Z as [|n|n] eqn:Hn.
  - exists (shr_record_of_loc m l), e.
    rewrite shr_m_shr_record_of_loc, loc_of_shr_record_of_loc.
    replace (Z.max e (fexp (Zdigits2 m + e))) with e by lia.
    rewrite Z.sub_diag, Z.pow_0_r, Z.div_1_r. auto 10.
  - rewrite (iter_pos_nat shr_1).
    destruct (shr_nat (Pos.to_nat n) (shr_record_of_loc m l) e x) as (H0 & H1 & H2).
    + rewrite shr_m_shr_record_of_loc. exact Hm.
    + rewrite shr_m_shr_record_of_loc, loc_of_shr_record_of_loc. exact Hx.
    + rewrite positive_nat_Z in H1, H2. rewrite shr_m_shr_record_of_loc in H2.
      eexists. eexists. split; [reflexivity|].
      split; [exact H0|]. split; [exact H1|].
      split; [lia|]. split; [|right; lia].
      rewrite H2. f_equal. f_equal. lia.
  - exists (shr_record_of_loc m l), e.
    rewrite shr_m_shr_record_of_loc, loc_of_shr_record_of_loc.
    replace (Z.max e (fexp (Zdigits2 m + e))) with e by lia.
    rewrite Z.sub_diag, Z.pow_0_r, Z.div_1_r. auto 10.
Qed.

(** Digits of a shifted number. *)
Lemma Zdigits2_shiftr m n :
  (0 < m)%Z -> (0 <= n < Zdigits2 m)%Z ->
  Zdigits2 (m / 2 ^ n) = (Zdigits2 m - n)%Z.
Proof.
  intros Hm Hn.
  pose proof (Zdigits2_bounds m Hm) as [Hlo Hhi].
  assert (Hp : (0 < 2 ^ n)%Z) by (apply Z.pow_pos_nonneg; lia).
  apply Zdigits2_unique; [|lia]. split.
  - apply Z.div_le_lower_bound; [exact Hp|].
    rewrite <- Z.pow_add_r by lia.
    replace (n + (Zdigits2 m - n - 1))%Z with (Zdigits2 m - 1)%Z by lia. exact Hlo.
  - apply Z.div_lt_upper_bound; [exact Hp|].
    rewrite <- Z.pow_add_r by lia.
    replace (n + (Zdigits2 m - n))%Z with (Zdigits2 m) by lia. exact Hhi.
Qed.

Lemma Zdiv_small_digits m n :
  (0 <= m)%Z -> (Zdigits2 m <= n)%Z -> (m / 2 ^ n = 0)%Z.
Proof.
  intros Hm Hn. apply Z.div_small. split; [exact Hm|].
  destruct (Z.eq_dec m 0%Z) as [->|Hne].
  - simpl in Hn. apply Z.pow_pos_nonneg; lia.
  - pose proof (Zdigits2_bounds m ltac:(lia)) as [_ Hhi].
    assert (2 ^ Zdigits2 m <= 2 ^ n)%Z by (apply Z.pow_le_mono_r; lia). lia.
Qed.

(** After [shr_fexp] on a number with enough digits, the result is
    canonical. *)
Lemma shr_fexp_canonical m e :
  (0 <= m)%Z ->
  (e <= fexp (Zdigits2 m + e))%Z ->
  let e' := fexp (Zdigits2 m + e) in
  canonical (m / 2 ^ (e' - e)) e'.
Proof.
  intros Hm He e'. unfold IEEE754.canonical.
  destruct (Z_lt_le_dec (e' - e) (Zdigits2 m)) as [Hlt|Hge].
  - assert (Hm' : (0 < m)%Z).
    { destruct (Z.eq_dec m 0%Z) as [->|]; [simpl in Hlt; lia|lia]. }
    rewrite Zdigits2_shiftr by lia.
    replace (Zdigits2 m - (e' - e) + e')%Z with (Zdigits2 m + e)%Z by lia.
    reflexivity.
  - rewrite Zdiv_small_digits by lia. simpl Zdigits2.
    subst e'. unfold SpecFloat.fexp in *. lia.
Qed.


Lemma Zdigits2_lt_pow m : (0 <= m)%Z -> (m < 2 ^ Zdigits2 m)%Z.
Proof.
  intros Hm. destruct (Z.eq_dec m 0%Z) as [->|Hne]; [simpl; lia|].
  apply Zdigits2_bounds. lia.
Qed.

Lemma Zdigits2_le_bound m d : (0 <= m < 2 ^ d)%Z -> (0 <= d)%Z -> (Zdigits2 m <= d)%Z.
Proof.
  intros [Hm Hlt] Hd.
  destruct (Z.eq_dec m 0%Z) as [->|Hne]; [simpl; lia|].
  pose proof (Zdigits2_bounds m ltac:(lia)) as [Hlo _].
  destruct (Z_lt_le_dec d (Zdigits2 m)) as [H|]; [|assumption].
  exfalso. assert (2 ^ d <= 2 ^ (Zdigits2 m - 1))%Z by (apply Z.pow_le_mono_r; lia).
  lia.
Qed.

(** *** Rounding the mantissa *)

Lemma rne_cases m l :
  round_nearest_even m l = m \/ round_nearest_even m l = (m + 1)%Z.
Proof.
  destruct l as [|[| |]]; cbn [round_nearest_even]; auto.
  destruct (Z.even m); auto.
Qed.

Lemma rne_nearest m e l x k :
  inbetween m e l x ->
  Rabs (F2R (round_nearest_even m l) e - x) <= Rabs (F2R k e - x).
Proof.
  intros Hx. pose proof (pow2_pos e) as Hu.
  assert (Hk : F2R k e <= F2R m e \/ F2R m e + pow2 e <= F2R k e).
  { destruct (Z_le_gt_dec k m) as [H|H].
    - left. apply F2R_le. exact H.
    - right. rewrite <- F2R_succ. apply F2R_le. lia. }
  destruct l as [|[| |]]; cbn [round_nearest_even inbetween] in *.
  - subst x. replace (F2R m e - F2R m e) with 0 by ring.
    rewrite Rabs_R0. apply Rabs_pos.
  - destruct (Z.even m); rewrite ?F2R_succ;
      unfold Rabs; repeat destruct Rcase_abs; lra.
  - unfold Rabs; repeat destruct Rcase_abs; lra.
  - rewrite F2R_succ. unfold Rabs; repeat destruct Rcase_abs; lra.
Qed.

Lemma rne_error m e l x :
  inbetween m e l x ->
  Rabs (F2R (round_nearest_even m l) e - x) <= pow2 e / 2.
Proof.
  intros Hx. pose proof (pow2_pos e) as Hu.
  destruct l as [|[| |]]; cbn [round_nearest_even inbetween] in *.
  - subst x. replace (F2R m e - F2R m e) with 0 by ring.
    rewrite Rabs_R0. lra.
  - destruct (Z.even m); rewrite ?F2R_succ;
      unfold Rabs; repeat destruct Rcase_abs; lra.
  - unfold Rabs; repeat destruct Rcase_abs; lra.
  - rewrite F2R_succ. unfold Rabs; repeat destruct Rcase_abs; lra.
Qed.

(** *** The grid of the canonical numbers *)

Lemma canonical_0 e : canonical 0 e -> e = emin.
Proof. unfold IEEE754.canonical, SpecFloat.fexp. simpl Zdigits2. lia. Qed.

Lemma canonical_grid m e mb eb :
  (0 <= m)%Z -> canonical m e -> (0 <= mb)%Z -> canonical mb eb ->
  F2R mb eb <= F2R m e \/ F2R (m + 1) e <= F2R mb eb.
Proof.
  intros Hm Hc Hmb Hcb.
  destruct (Rle_lt_dec (F2R mb eb) (F2R m e)) as [Hle|Hlt]; [left; exact Hle|].
  right.
  assert (Hmb' : (0 < mb)%Z).
  { destruct (Z.eq_dec mb 0%Z) as [->|]; [|lia].
    rewrite F2R_0 in Hlt. pose proof (F2R_le 0 m e Hm) as H. rewrite F2R_0 in H. lra. }
  destruct (Z.eq_dec m 0%Z) as [->|Hne].
  - apply canonical_0 in Hc. subst e. simpl Z.add. rewrite F2R_1.
    apply Rle_trans with (pow2 eb); [apply pow2_le, (proj1 (proj2 (canonical_digits _ _ Hcb)))|].
    unfold F2R.
    assert (1 <= IZR mb) by (apply (IZR_le 1); lia).
    pose proof (pow2_pos eb). nra.
  - assert (Hee : (e <= eb)%Z).
    { pose proof (F2R_digits_ge m e ltac:(lia)) as H1.
      pose proof (F2R_digits_lt mb eb Hmb) as H2.
      assert (H3 : (Zdigits2 m - 1 + e < Zdigits2 mb + eb)%Z)
        by (apply pow2_lt_inv; lra).
      unfold IEEE754.canonical in Hc, Hcb. rewrite Hc, Hcb.
      apply fexp_mono. lia. }
    assert (Hs : F2R mb eb = F2R (mb * 2 ^ (eb - e)) e)
      by (rewrite F2R_shift by lia; f_equal; lia).
    rewrite Hs in Hlt |- *.
    apply F2R_le. apply F2R_lt_inv in Hlt. lia.
Qed.

(** *** The second shift *)

Lemma renormalize m1 e1 m2 :
  (0 <= m1)%Z -> canonical m1 e1 -> (m2 = m1 \/ m2 = m1 + 1)%Z ->
  exists mrs3 e3,
    shr_fexp prec emax m2 e1 loc_Exact = (mrs3, e3) /\
    (0 <= shr_m mrs3)%Z /\ canonical (shr_m mrs3) e3 /\
    F2R (shr_m mrs3) e3 = F2R m2 e1 /\ (e1 <= e3)%Z.
Proof.
  intros Hm1 Hc Hm2.
  assert (H2 : (0 <= m2)%Z) by lia.
  destruct (shr_fexp_correct m2 e1 loc_Exact (F2R m2 e1) H2 eq_refl)
    as (mrs3 & e3 & Heq & H0 & _ & He3 & Hm3 & _).
  exists mrs3, e3. split; [exact Heq|]. split; [exact H0|].
  assert (Hd : (Zdigits2 m1 <= Zdigits2 m2 <= Zdigits2 m1 + 1)%Z).
  { split; [apply Zdigits2_le; lia|].
    apply Zdigits2_le_bound; [|pose proof (Zdigits2_nonneg m1); lia].
    pose proof (Zdigits2_lt_pow m1 Hm1).
    rewrite Z.pow_add_r by (pose proof (Zdigits2_nonneg m1); lia). lia. }
  assert (Hge : (e1 <= fexp (Zdigits2 m2 + e1))%Z).
  { unfold IEEE754.canonical in Hc. rewrite Hc at 1. apply fexp_mono. lia. }
  assert (He3' : e3 = fexp (Zdigits2 m2 + e1)) by lia.
  split.
  { rewrite Hm3, He3'. apply shr_fexp_canonical; assumption. }
  split; [|lia].
  assert (Hstep : (e3 = e1 \/ e3 = e1 + 1)%Z).
  { pose proof (fexp_succ (Zdigits2 m1 + e1)) as Hs.
    pose proof (fexp_mono (Zdigits2 m2 + e1) (Zdigits2 m1 + e1 + 1) ltac:(lia)).
    unfold IEEE754.canonical in Hc. lia. }
  rewrite Hm3. destruct Hstep as [->| ->].
  - rewrite Z.sub_diag, Z.pow_0_r, Z.div_1_r. reflexivity.
  - replace (e1 + 1 - e1)%Z with 1%Z by lia. rewrite Z.pow_1_r.
    assert (Hdig : Zdigits2 m2 = (Zdigits2 m1 + 1)%Z).
    { destruct (Z.eq_dec (Zdigits2 m2) (Zdigits2 m1)) as [E|]; [|lia].
      rewrite E in He3'. unfold IEEE754.canonical in Hc. lia. }
    assert (Hpos : (0 < Zdigits2 m1)%Z).
    { destruct (Z.eq_dec m1 0%Z) as [->|]; [|apply Zdigits2_gt_0; lia].
      exfalso. apply canonical_0 in Hc.
      destruct Hm2 as [->| ->]; simpl in Hdig; [lia|].
      change (Zdigits2 (0 + 1)) with 1%Z in He3'.
      unfold SpecFloat.fexp in He3'. lia. }
    assert (Hm2' : m2 = (2 ^ Zdigits2 m1)%Z).
    { pose proof (Zdigits2_lt_pow m1 Hm1).
      assert (Hm2pos : (0 < m2)%Z).
      { destruct (Z.eq_dec m2 0%Z) as [E|]; [|lia].
        rewrite E in Hdig. simpl in Hdig. lia. }
      pose proof (Zdigits2_bounds m2 Hm2pos) as [Hlo _].
      rewrite Hdig in Hlo. replace (Zdigits2 m1 + 1 - 1)%Z with (Zdigits2 m1) in Hlo by lia.
      lia. }
    rewrite Hm2'.
    replace (Zdigits2 m1) with (1 + (Zdigits2 m1 - 1))%Z at 1 2 by lia.
    rewrite Z.pow_add_r by lia. rewrite Z.pow_1_r.
    rewrite Z.mul_comm, Z.div_mul by lia.
    rewrite <- (F2R_shift _ e1 1) by lia. rewrite Z.pow_1_r. reflexivity.
Qed.

(** *** [binary_round_aux] *)

Local Abbreviation round_result := (IEEE754.round_result prec emax).

Lemma binary_round_aux_correct sx mx ex lx x :
  (0 <= mx)%Z -> inbetween mx ex lx x -> (ex <= fexp (Zdigits2 mx + ex))%Z ->
  exists m e,
    binary_round_aux prec emax sx mx ex lx = round_result sx m e /\
    (0 <= m)%Z /\ canonical m e /\
    (forall mb eb, (0 <= mb)%Z -> canonical mb eb ->
       Rabs (F2R m e - x) <= Rabs (F2R mb eb - x)) /\
    Rabs (F2R m e - x) <= pow2 e / 2.
Proof.
  intros Hmx Hx Hex.
  destruct (shr_fexp_correct mx ex lx x Hmx Hx)
    as (mrs1 & e1 & Heq1 & H0 & Hin & He1 & Hm1 & _).
  assert (He1' : e1 = fexp (Zdigits2 mx + ex)) by lia.
  assert (Hc1 : canonical (shr_m mrs1) e1).
  { rewrite Hm1, He1'. apply shr_fexp_canonical; assumption. }
  set (m2 := round_nearest_even (shr_m mrs1) (loc_of_shr_record mrs1)).
  destruct (renormalize (shr_m mrs1) e1 m2 H0 Hc1 (rne_cases _ _))
    as (mrs3 & e3 & Heq3 & H3 & Hc3 & Hv3 & He3).
  exists (shr_m mrs3), e3.
  split.
  { unfold binary_round_aux. rewrite Heq1. fold m2. rewrite Heq3. reflexivity. }
  split; [exact H3|]. split; [exact Hc3|].
  rewrite Hv3. split.
  - intros mb eb Hmb Hcb.
    pose proof (inbetween_bounds _ _ _ _ Hin) as [Hlo Hhi].
    pose proof (rne_nearest _ _ _ _ (shr_m mrs1) Hin) as Hn0.
    pose proof (rne_nearest _ _ _ _ (shr_m mrs1 + 1)%Z Hin) as Hn1.
    fold m2 in Hn0, Hn1.
    destruct (canonical_grid _ _ _ _ H0 Hc1 Hmb Hcb) as [Hb|Hb].
    + apply Rle_trans with (1 := Hn0).
      unfold Rabs; repeat destruct Rcase_abs; lra.
    + apply Rle_trans with (1 := Hn1).
      unfold Rabs; repeat destruct Rcase_abs; lra.
  - apply Rle_trans with (pow2 e1 / 2); [apply rne_error, Hin|].
    apply pow2_le in He3. lra.
Qed.

End Rounding.

Lemma SF2R_finite s m e :
  SF2R (S754_finite s m e) = if s then - F2R (Zpos m) e else F2R (Zpos m) e.
Proof. unfold SF2R, F2R, pow2. destruct s; cbn [cond_Zopp]; [|reflexivity].
  change (- Z.pos m)%Z with (Z.neg m). rewrite IZR_NEG. ring.
Qed.

Section Compare.
Variables prec emax : Z.
Hypothesis prec_gt_0 : (0 < prec)%Z.
Hypothesis prec_lt_emax : (prec < emax)%Z.
Local Set Default Proof Using "prec_gt_0 prec_lt_emax".

Local Abbreviation fexp := (SpecFloat.fexp prec emax).
Local Abbreviation emin := (SpecFloat.emin prec emax).
Local Abbreviation canonical := (IEEE754.canonical prec emax).
Local Abbreviation valid := (SpecFloat.valid_binary prec emax).

Lemma valid_finite s m e :
  valid (S754_finite s m e) = true ->
  canonical (Zpos m) e /\ (e <= emax - prec)%Z.
Proof.
  cbn [SpecFloat.valid_binary]. unfold bounded, canonical_mantissa.
  intros H. apply andb_prop in H as [H1 H2].
  apply Z.eqb_eq in H1. apply Z.leb_le in H2.
  split; [|exact H2]. unfold IEEE754.canonical. cbn [Zdigits2]. lia.
Qed.

Lemma finite_valid s m e :
  canonical (Zpos m) e -> (e <= emax - prec)%Z ->
  valid (S754_finite s m e) = true.
Proof.
  intros H1 H2. cbn [SpecFloat.valid_binary]. unfold bounded, canonical_mantissa.
  apply andb_true_intro. split; [apply Z.eqb_eq|apply Z.leb_le; exact H2].
  unfold IEEE754.canonical in H1. cbn [Zdigits2] in H1. lia.
Qed.

Lemma canonical_lt m1 e1 m2 e2 :
  (0 < m1)%Z -> (0 < m2)%Z -> canonical m1 e1 -> canonical m2 e2 ->
  (e1 < e2)%Z -> F2R m1 e1 < F2R m2 e2.
Proof.
  intros H1 H2 C1 C2 He.
  pose proof (canonical_digits prec emax prec_gt_0 prec_lt_emax m1 e1 C1) as (D1 & E1 & _).
  pose proof (canonical_digits prec emax prec_gt_0 prec_lt_emax m2 e2 C2) as (_ & _ & D2).
  assert (Hd2 : Zdigits2 m2 = prec) by lia.
  apply Rlt_le_trans with (pow2 (Zdigits2 m1 + e1)); [apply F2R_digits_lt; lia|].
  apply Rle_trans with (pow2 (Zdigits2 m2 - 1 + e2)); [apply pow2_le; lia|].
  apply F2R_digits_ge. exact H2.
Qed.

Lemma finite_lt_pow2_emax m e :
  (0 < m)%Z -> canonical m e -> (e <= emax - prec)%Z -> F2R m e < pow2 emax.
Proof.
  intros Hm C He.
  pose proof (canonical_digits prec emax prec_gt_0 prec_lt_emax m e C) as (D & _ & _).
  apply Rlt_le_trans with (pow2 (Zdigits2 m + e)); [apply F2R_digits_lt; lia|].
  apply pow2_le. lia.
Qed.

(** Comparing two finite numbers of the same sign. *)
Lemma compare_magnitude m1 e1 m2 e2 :
  canonical (Zpos m1) e1 -> canonical (Zpos m2) e2 ->
  match (match (e1 ?= e2)%Z with
         | Lt => Lt
         | Gt => Gt
         | Eq => Pos.compare_cont Eq m1 m2
         end) with
  | Lt => F2R (Zpos m1) e1 < F2R (Zpos m2) e2
  | Eq => e1 = e2 /\ m1 = m2
  | Gt => F2R (Zpos m2) e2 < F2R (Zpos m1) e1
  end.
Proof.
  intros C1 C2.
  destruct (Z.compare_spec e1 e2) as [->|Hlt|Hgt].
  - change (Pos.compare_cont Eq m1 m2) with (Pos.compare m1 m2).
    destruct (Pos.compare_spec m1 m2) as [->|H|H].
    + auto.
    + apply F2R_lt. lia.
    + apply F2R_lt. lia.
  - apply canonical_lt; auto; lia.
  - apply canonical_lt; auto; lia.
Qed.

(** [SFcompare] follows the places on the real line. *)
Lemma SFcompare_rank x y :
  valid x = true -> valid y = true ->
  is_nan_SF x = false -> is_nan_SF y = false ->
  exists c, SFcompare x y = Some c /\
    match c with
    | Lt => rank emax x < rank emax y
    | Eq => rank emax x = rank emax y
    | Gt => rank emax y < rank emax x
    end.
Proof.
  intros Vx Vy Nx Ny.
  pose proof (pow2_pos emax) as Hmax.
  destruct x as [sx|sx| |sx mx ex]; [| | discriminate |];
  destruct y as [sy|sy| |sy my ey]; try discriminate.
  - exists Eq. split; [reflexivity|]. reflexivity.
  - eexists. split; [reflexivity|]. destruct sy; cbn [rank SF2R]; lra.
  - destruct (valid_finite _ _ _ Vy) as [Cy Ey].
    pose proof (F2R_pos (Zpos my) ey ltac:(lia)).
    eexists. split; [reflexivity|].
    unfold rank. rewrite SF2R_finite. cbn [SF2R]. destruct sy; lra.
  - eexists. split; [reflexivity|]. destruct sx; cbn [rank SF2R]; lra.
  - eexists. split; [reflexivity|]. destruct sx, sy; cbn [rank]; lra.
  - destruct (valid_finite _ _ _ Vy) as [Cy Ey].
    pose proof (F2R_pos (Zpos my) ey ltac:(lia)).
    pose proof (finite_lt_pow2_emax (Zpos my) ey ltac:(lia) Cy Ey).
    eexists. split; [reflexivity|].
    unfold rank. rewrite SF2R_finite. destruct sx, sy; lra.
  - destruct (valid_finite _ _ _ Vx) as [Cx Ex].
    pose proof (F2R_pos (Zpos mx) ex ltac:(lia)).
    eexists. split; [reflexivity|].
    unfold rank. rewrite SF2R_finite. cbn [SF2R]. destruct sx; lra.
  - destruct (valid_finite _ _ _ Vx) as [Cx Ex].
    pose proof (F2R_pos (Zpos mx) ex ltac:(lia)).
    pose proof (finite_lt_pow2_emax (Zpos mx) ex ltac:(lia) Cx Ex).
    eexists. split; [reflexivity|].
    unfold rank. rewrite SF2R_finite. destruct sx, sy; lra.
  - destruct (valid_finite _ _ _ Vx) as [Cx Ex].
    destruct (valid_finite _ _ _ Vy) as [Cy Ey].
    pose proof (F2R_pos (Zpos mx) ex ltac:(lia)).
    pose proof (F2R_pos (Zpos my) ey ltac:(lia)).
    pose proof (compare_magnitude mx ex my ey Cx Cy) as Hc.
    set (c0 := match (ex ?= ey)%Z with
               | Lt => Lt | Gt => Gt | Eq => Pos.compare_cont Eq mx my end) in Hc.
    destruct sx, sy.
    + exists (CompOpp c0). split.
      { unfold c0. cbn [SFcompare]. destruct (ex ?= ey)%Z; reflexivity. }
      unfold rank. rewrite !SF2R_finite.
      destruct c0; cbn [CompOpp]; try lra.
      destruct Hc as [He Hm]. rewrite He, Hm. reflexivity.
    + exists Lt. split; [reflexivity|]. unfold rank. rewrite !SF2R_finite. lra.
    + exists Gt. split; [reflexivity|]. unfold rank. rewrite !SF2R_finite. lra.
    + exists c0. split; [reflexivity|].
      unfold rank. rewrite !SF2R_finite.
      destruct c0; try lra.
      destruct Hc as [He Hm]. rewrite He, Hm. reflexivity.
Qed.

Lemma SFltb_rank x y :
  valid x = true -> valid y = true ->
  is_nan_SF x = false -> is_nan_SF y = false ->
  (SFltb x y = true <-> rank emax x < rank emax y).
Proof.
  intros Vx Vy Nx Ny.
  destruct (SFcompare_rank x y Vx Vy Nx Ny) as (c & Hc & Hr).
  unfold SFltb. rewrite Hc. destruct c; split; intros; try discriminate; try lra;
    reflexivity.
Qed.

Lemma SFleb_rank x y :
  valid x = true -> valid y = true ->
  is_nan_SF x = false -> is_nan_SF y = false ->
  (SFleb x y = true <-> rank emax x <= rank emax y).
Proof.
  intros Vx Vy Nx Ny.
  destruct (SFcompare_rank x y Vx Vy Nx Ny) as (c & Hc & Hr).
  unfold SFleb. rewrite Hc. destruct c; split; intros; try discriminate; try lra;
    reflexivity.
Qed.

Lemma SFeqb_rank x y :
  valid x = true -> valid y = true ->
  is_nan_SF x = false -> is_nan_SF y = false ->
  (SFeqb x y = true <-> rank emax x = rank emax y).
Proof.
  intros Vx Vy Nx Ny.
  destruct (SFcompare_rank x y Vx Vy Nx Ny) as (c & Hc & Hr).
  unfold SFeqb. rewrite Hc. destruct c; split; intros; try discriminate; try lra;
    reflexivity.
Qed.

Lemma SFcompare_nan_l y : SFcompare S754_nan y = None.
Proof. reflexivity. Qed.

Lemma SFcompare_nan_r x : SFcompare x S754_nan = None.
Proof. destruct x; reflexivity. Qed.

End Compare.

Lemma Pos_iter_xO m d : Zpos (Pos.iter xO m d) = (Zpos m * 2 ^ Zpos d)%Z.
Proof.
  induction d using Pos.peano_ind.
  - simpl. lia.
  - rewrite Pos.iter_succ, Pos2Z.inj_xO, IHd, Pos2Z.inj_succ, Z.pow_succ_r by lia.
    lia.
Qed.

Lemma Zdigits2_shift m n :
  (0 < m)%Z -> (0 <= n)%Z -> Zdigits2 (m * 2 ^ n) = (Zdigits2 m + n)%Z.
Proof.
  intros Hm Hn.
  pose proof (Zdigits2_bounds m Hm) as [Hlo Hhi].
  pose proof (Zdigits2_gt_0 m Hm) as Hd.
  assert (H2 : (0 < 2 ^ n)%Z) by (apply Z.pow_pos_nonneg; lia).
  apply Zdigits2_unique; [|lia].
  replace (Zdigits2 m + n - 1)%Z with ((Zdigits2 m - 1) + n)%Z by lia.
  rewrite !Z.pow_add_r by lia. nia.
Qed.

Lemma shl_align_spec mx ex ex' :
  exists mz ez,
    shl_align mx ex ex' = (mz, ez) /\ ez = Z.min ex ex' /\
    Zpos mz = (Zpos mx * 2 ^ (ex - ez))%Z.
Proof.
  unfold shl_align. destruct (ex' - ex)%Z as [|d|d] eqn:E.
  - exists mx, ex. split; [reflexivity|]. split; [lia|].
    rewrite Z.sub_diag. simpl. lia.
  - exists mx, ex. split; [reflexivity|]. split; [lia|].
    rewrite Z.sub_diag. simpl. lia.
  - exists (Pos.iter xO mx d), ex'. split; [reflexivity|]. split; [lia|].
    rewrite Pos_iter_xO. f_equal. f_equal. lia.
Qed.

Lemma shl_align_F2R mx ex ex' mz ez :
  shl_align mx ex ex' = (mz, ez) ->
  ez = Z.min ex ex' /\ F2R (Zpos mz) ez = F2R (Zpos mx) ex /\
  (Zdigits2 (Zpos mz) + ez = Zdigits2 (Zpos mx) + ex)%Z /\
  Zpos mz = (Zpos mx * 2 ^ (ex - ez))%Z.
Proof.
  intros H. destruct (shl_align_spec mx ex ex') as (mz' & ez' & H' & He & Hm).
  rewrite H in H'. injection H' as <- <-.
  split; [exact He|]. split; [|split; [|exact Hm]].
  - rewrite Hm, F2R_shift by lia. f_equal. lia.
  - rewrite Hm, Zdigits2_shift by lia. lia.
Qed.

Section Operations.
Variables prec emax : Z.
Hypothesis prec_gt_0 : (0 < prec)%Z.
Hypothesis prec_lt_emax : (prec < emax)%Z.
Local Set Default Proof Using "prec_gt_0 prec_lt_emax".

Local Abbreviation fexp := (SpecFloat.fexp prec emax).
Local Abbreviation emin := (SpecFloat.emin prec emax).
Local Abbreviation canonical := (IEEE754.canonical prec emax).
Local Abbreviation round_result := (IEEE754.round_result prec emax).
Local Abbreviation rounds_to := (IEEE754.rounds_to prec emax).
Local Abbreviation valid := (SpecFloat.valid_binary prec emax).

Lemma binary_round_aux_rounds sx mx ex lx x :
  (0 <= mx)%Z -> inbetween mx ex lx x -> (ex <= fexp (Zdigits2 mx + ex))%Z ->
  rounds_to sx x (binary_round_aux prec emax sx mx ex lx).
Proof.
  intros Hm Hin He.
  destruct (binary_round_aux_correct prec emax prec_gt_0 prec_lt_emax sx mx ex lx x Hm Hin He)
    as (m & e & Hr & H0 & Hc & Hn & Herr).
  exists m, e. auto.
Qed.

Lemma binary_round_rounds sx mx ex :
  rounds_to sx (F2R (Zpos mx) ex) (binary_round prec emax sx mx ex).
Proof.
  unfold binary_round.
  destruct (shl_align mx ex (fexp (Zpos (digits2_pos mx) + ex))) as [mz ez] eqn:E.
  apply shl_align_F2R in E as (He & HF & Hd & _).
  apply binary_round_aux_rounds.
  - lia.
  - cbn [inbetween]. symmetry. exact HF.
  - rewrite Hd. cbn [Zdigits2]. lia.
Qed.

(** *** What a rounded number looks like *)

Lemma canonical_1_emin : canonical 1 emin.
Proof. unfold IEEE754.canonical, SpecFloat.fexp. simpl Zdigits2. lia. Qed.

Lemma round_result_valid sx m e :
  (0 <= m)%Z -> canonical m e -> valid (round_result sx m e) = true.
Proof.
  intros Hm Hc. unfold IEEE754.round_result.
  destruct m as [|p|p]; [reflexivity| |lia].
  destruct (e <=? emax - prec)%Z eqn:E; [|reflexivity].
  apply (finite_valid prec emax prec_gt_0 prec_lt_emax); [exact Hc|]. apply Z.leb_le. exact E.
Qed.

Lemma rounds_to_valid sx x r : rounds_to sx x r -> valid r = true.
Proof.
  intros (m & e & -> & Hm & Hc & _). apply round_result_valid; assumption.
Qed.

Lemma rounds_to_not_nan sx x r : rounds_to sx x r -> is_nan_SF r = false.
Proof.
  intros (m & e & -> & Hm & Hc & _). unfold IEEE754.round_result.
  destruct m as [|p|p]; [reflexivity| |lia].
  destruct (e <=? emax - prec)%Z; reflexivity.
Qed.

(** A magnitude of at least the smallest positive number is not rounded to
    zero. *)
Lemma rounds_to_nonzero sx x r :
  rounds_to sx x r -> pow2 emin <= x ->
  (exists p e, r = S754_finite sx p e) \/ r = S754_infinity sx.
Proof.
  intros (m & e & -> & Hm & Hc & Hn & _) Hx.
  unfold IEEE754.round_result.
  destruct m as [|p|p]; [|destruct (e <=? emax - prec)%Z; eauto|lia].
  exfalso.
  specialize (Hn 1%Z emin ltac:(lia) canonical_1_emin).
  rewrite F2R_0, F2R_1 in Hn.
  pose proof (pow2_pos emin).
  unfold Rabs in Hn. repeat destruct Rcase_abs in Hn; lra.
Qed.

(** The place of a rounded magnitude on the real line. *)
Lemma rank_round_result m e :
  (0 <= m)%Z -> canonical m e ->
  rank emax (round_result false m e) = Rmin (F2R m e) (pow2 emax).
Proof.
  intros Hm Hc. unfold IEEE754.round_result.
  destruct m as [|p|p]; [| |lia].
  - cbn [rank SF2R]. rewrite F2R_0. pose proof (pow2_pos emax).
    rewrite Rmin_left; lra.
  - destruct (e <=? emax - prec)%Z eqn:E.
    + apply Z.leb_le in E.
      pose proof (finite_lt_pow2_emax prec emax prec_gt_0 prec_lt_emax (Zpos p) e ltac:(lia) Hc E).
      unfold rank. rewrite SF2R_finite. rewrite Rmin_left; lra.
    + apply Z.leb_gt in E. cbn [rank].
      pose proof (canonical_digits prec emax prec_gt_0 prec_lt_emax (Zpos p) e Hc) as (D & E1 & [D2|D2]).
      * pose proof (F2R_digits_ge (Zpos p) e ltac:(lia)) as Hge.
        assert (pow2 emax <= pow2 (Zdigits2 (Zpos p) - 1 + e)) by (apply pow2_le; lia).
        rewrite Rmin_right; lra.
      * exfalso. unfold SpecFloat.emin in D2. unfold IEEE754.canonical, SpecFloat.fexp, SpecFloat.emin in Hc.
        pose proof (Zdigits2_gt_0 (Zpos p) ltac:(lia)). lia.
Qed.

Lemma nearest_mono m e m' e' x y :
  x < y ->
  Rabs (F2R m e - x) <= Rabs (F2R m' e' - x) ->
  Rabs (F2R m' e' - y) <= Rabs (F2R m e - y) ->
  F2R m e <= F2R m' e'.
Proof.
  intros Hxy H1 H2. unfold Rabs in *.
  repeat destruct Rcase_abs in H1; repeat destruct Rcase_abs in H2; lra.
Qed.

(** Rounding keeps the order of the magnitudes. *)
Lemma rounds_to_mono x y rx ry :
  x < y -> rounds_to false x rx -> rounds_to false y ry ->
  rank emax rx <= rank emax ry.
Proof.
  intros Hxy (m & e & -> & Hm & Hc & Hn & _) (m' & e' & -> & Hm' & Hc' & Hn' & _).
  rewrite !rank_round_result by assumption.
  assert (F2R m e <= F2R m' e').
  { apply (nearest_mono m e m' e' x y Hxy); auto. }
  apply Rle_min_compat_r. assumption.
Qed.


(** *** Addition and subtraction of positive numbers *)

Lemma shl_align_min mx ex ey :
  exists mz, shl_align mx ex (Z.min ex ey) = (mz, Z.min ex ey) /\
    F2R (Zpos mz) (Z.min ex ey) = F2R (Zpos mx) ex.
Proof.
  destruct (shl_align mx ex (Z.min ex ey)) as [mz ez] eqn:E.
  pose proof (shl_align_F2R _ _ _ _ _ E) as (He & HF & _).
  assert (Hz : ez = Z.min ex ey) by lia.
  rewrite Hz in HF. rewrite Hz.
  exists mz. split; [reflexivity|exact HF].
Qed.

Lemma SFadd_finite mx ex my ey :
  rounds_to false (F2R (Zpos mx) ex + F2R (Zpos my) ey)
    (SFadd prec emax (S754_finite false mx ex) (S754_finite false my ey)).
Proof.
  cbn [SFadd cond_Zopp].
  destruct (shl_align_min mx ex ey) as (mx' & Ex & Fx).
  destruct (shl_align_min my ey ex) as (my' & Ey & Fy).
  rewrite Z.min_comm in Ey, Fy.
  rewrite Ex, Ey. cbn [fst].
  change (Zpos mx' + Zpos my')%Z with (Zpos (mx' + my')).
  cbn [binary_normalize].
  rewrite <- Fx, <- Fy, <- F2R_add.
  apply binary_round_rounds.
Qed.

(** The sign of a difference. *)
Lemma SFsub_finite mx ex my ey :
  (emin <= ex)%Z -> (emin <= ey)%Z ->
  let x := F2R (Zpos mx) ex in
  let y := F2R (Zpos my) ey in
  let r := SFsub prec emax (S754_finite false mx ex) (S754_finite false my ey) in
  (x = y /\ r = S754_zero false) \/
  (y < x /\ ((exists p e, r = S754_finite false p e) \/ r = S754_infinity false)) \/
  (x < y /\ ((exists p e, r = S754_finite true p e) \/ r = S754_infinity true)).
Proof.
  intros Hex Hey x y r. subst r. cbn [SFsub cond_Zopp].
  destruct (shl_align_min mx ex ey) as (mx' & Ex & Fx).
  destruct (shl_align_min my ey ex) as (my' & Ey & Fy).
  rewrite Z.min_comm in Ey, Fy.
  rewrite Ex, Ey. cbn [fst].
  assert (Hd : x - y = F2R (Zpos mx' - Zpos my') (Z.min ex ey)).
  { rewrite F2R_sub, Fx, Fy. reflexivity. }
  assert (Hmin : pow2 emin <= pow2 (Z.min ex ey)) by (apply pow2_le; lia).
  destruct (Zpos mx' - Zpos my')%Z as [|p|p] eqn:E.
  - left. rewrite F2R_0 in Hd. split; [lra|reflexivity].
  - right. left.
    assert (pow2 (Z.min ex ey) <= F2R (Zpos p) (Z.min ex ey)).
    { rewrite <- F2R_1. apply F2R_le. lia. }
    pose proof (pow2_pos emin).
    split; [lra|]. cbn [binary_normalize].
    apply (rounds_to_nonzero false (F2R (Zpos p) (Z.min ex ey))).
    + apply binary_round_rounds.
    + lra.
  - right. right.
    assert (pow2 (Z.min ex ey) <= F2R (Zpos p) (Z.min ex ey)).
    { rewrite <- F2R_1. apply F2R_le. lia. }
    pose proof (pow2_pos emin).
    change (Zneg p) with (- Zpos p)%Z in Hd. rewrite F2R_opp in Hd.
    split; [lra|]. cbn [binary_normalize].
    apply (rounds_to_nonzero true (F2R (Zpos p) (Z.min ex ey))).
    + apply binary_round_rounds.
    + lra.
Qed.

Lemma SFsub_sign x y :
  valid x = true -> valid y = true ->
  nonneg_SF x = true -> nonneg_SF y = true ->
  SFltb (S754_zero false) (SFsub prec emax x y) = SFltb y x.
Proof.
  intros Vx Vy Nx Ny.
  destruct x as [[|]|[|]| |[|] mx ex]; try discriminate;
  destruct y as [[|]|[|]| |[|] my ey]; try discriminate; try reflexivity.
  destruct (valid_finite prec emax prec_gt_0 prec_lt_emax _ _ _ Vx) as [Cx Ex].
  destruct (valid_finite prec emax prec_gt_0 prec_lt_emax _ _ _ Vy) as [Cy Ey].
  pose proof (canonical_digits prec emax prec_gt_0 prec_lt_emax _ _ Cx) as (_ & Hex & _).
  pose proof (canonical_digits prec emax prec_gt_0 prec_lt_emax _ _ Cy) as (_ & Hey & _).
  pose proof (SFltb_rank prec emax prec_gt_0 prec_lt_emax (S754_finite false my ey) (S754_finite false mx ex)
                Vy Vx eq_refl eq_refl) as Hlt.
  unfold rank in Hlt. rewrite !SF2R_finite in Hlt.
  destruct (SFsub_finite mx ex my ey Hex Hey) as [[Hxy ->]|[[Hxy Hr]|[Hxy Hr]]].
  - destruct (SFltb (S754_finite false my ey) (S754_finite false mx ex)) eqn:E;
      [|reflexivity].
    destruct Hlt as [Hlt _]. specialize (Hlt eq_refl). lra.
  - destruct Hlt as [_ Hlt]. rewrite (Hlt Hxy).
    destruct Hr as [(p & e & ->)| ->]; reflexivity.
  - destruct (SFltb (S754_finite false my ey) (S754_finite false mx ex)) eqn:E.
    + destruct Hlt as [Hlt _]. specialize (Hlt eq_refl). lra.
    + destruct Hr as [(p & e & ->)| ->]; reflexivity.
Qed.

(** *** Division *)

Lemma new_location_spec m2 r q e :
  (0 < m2)%Z -> (0 <= r < m2)%Z ->
  inbetween q e (new_location m2 r) (F2R q e + IZR r / IZR m2 * pow2 e).
Proof.
  intros Hm2 [Hr0 Hr].
  pose proof (pow2_pos e) as Hp.
  assert (Hb : 0 < IZR m2) by (apply IZR_lt; exact Hm2).
  set (u := IZR r / IZR m2).
  assert (Hu : u * IZR m2 = IZR r) by (unfold u; field; lra).
  unfold new_location.
  destruct (Z.even m2) eqn:Ev.
  - unfold new_location_even.
    destruct (r =? 0)%Z eqn:E0.
    + apply Z.eqb_eq in E0. subst r. cbn [inbetween].
      assert (u = 0) by (unfold u; field; lra). nra.
    + apply Z.eqb_neq in E0.
      assert (0 < IZR r) by (apply IZR_lt; lia).
      destruct (Z.compare_spec (2 * r) m2) as [Hc|Hc|Hc]; cbn [inbetween].
      * apply (f_equal IZR) in Hc. rewrite mult_IZR in Hc. nra.
      * apply IZR_lt in Hc. rewrite mult_IZR in Hc. nra.
      * apply IZR_lt in Hc. rewrite mult_IZR in Hc.
        apply IZR_lt in Hr. nra.
  - unfold new_location_odd.
    destruct (r =? 0)%Z eqn:E0.
    + apply Z.eqb_eq in E0. subst r. cbn [inbetween].
      assert (u = 0) by (unfold u; field; lra). nra.
    + apply Z.eqb_neq in E0.
      assert (0 < IZR r) by (apply IZR_lt; lia).
      assert (Hodd : (2 * r <> m2)%Z).
      { intros <-. rewrite Z.even_mul in Ev. discriminate. }
      apply IZR_lt in Hr.
      destruct (Z.compare_spec (2 * r + 1) m2) as [Hc|Hc|Hc]; cbn [inbetween].
      * assert (H' : (2 * r < m2)%Z) by lia.
        apply IZR_lt in H'. rewrite mult_IZR in H'. nra.
      * assert (H' : (2 * r < m2)%Z) by lia.
        apply IZR_lt in H'. rewrite mult_IZR in H'. nra.
      * assert (H' : (m2 < 2 * r)%Z) by lia.
        apply IZR_lt in H'. rewrite mult_IZR in H'. nra.
Qed.

Lemma SFdiv_core_binary_spec mx ex my ey :
  exists q e' l,
    SFdiv_core_binary prec emax (Zpos mx) ex (Zpos my) ey = (q, e', l) /\
    (0 <= q)%Z /\
    inbetween q e' l (F2R (Zpos mx) ex / F2R (Zpos my) ey) /\
    (e' <= fexp (Zdigits2 q + e'))%Z.
Proof.
  unfold SFdiv_core_binary.
  set (d1 := Zdigits2 (Zpos mx)). set (d2 := Zdigits2 (Zpos my)).
  set (e' := Z.min (fexp (d1 + ex - (d2 + ey))) (ex - ey)).
  set (s := (ex - ey - e')%Z).
  assert (Hs : (0 <= s)%Z) by (unfold s, e'; lia).
  set (m' := match s with
             | Zpos _ => Z.shiftl (Zpos mx) s
             | Z0 => Zpos mx
             | Zneg _ => Z0
             end).
  assert (Hm' : m' = (Zpos mx * 2 ^ s)%Z).
  { unfold m'. destruct s as [|p|p]; [simpl; lia| |lia].
    rewrite Z.shiftl_mul_pow2 by lia. reflexivity. }
  pose proof (Z_div_mod m' (Zpos my) ltac:(lia)) as Hdiv.
  destruct (Z.div_eucl m' (Zpos my)) as [q r].
  destruct Hdiv as [Hq Hr].
  assert (H2s : (0 < 2 ^ s)%Z) by (apply Z.pow_pos_nonneg; lia).
  assert (Hq0 : (0 <= q)%Z) by nia.
  exists q, e', (new_location (Zpos my) r).
  split; [reflexivity|]. split; [exact Hq0|]. split.
  - replace (F2R (Zpos mx) ex / F2R (Zpos my) ey)
      with (F2R q e' + IZR r / IZR (Zpos my) * pow2 e').
    { apply new_location_spec; lia. }
    assert (Hb : 0 < IZR (Zpos my)) by (apply IZR_lt; lia).
    pose proof (pow2_pos ey). pose proof (pow2_pos e').
    assert (Hex : pow2 ex = pow2 ey * (pow2 e' * IZR (2 ^ s))).
    { rewrite <- (pow2_IZR s), <- !pow2_add by lia. f_equal. unfold s. lia. }
    unfold F2R. rewrite Hex.
    assert (HR : IZR (Zpos mx) * IZR (2 ^ s) = IZR (Zpos my) * IZR q + IZR r).
    { rewrite <- !mult_IZR, <- plus_IZR. f_equal. lia. }
    field_simplify_eq; [|lra]. nra.
  - assert (Hd : (d1 + s - d2 <= Zdigits2 q)%Z).
    { destruct (Z_le_gt_dec (d1 + s - d2) 0) as [Hle|Hgt].
      - pose proof (Zdigits2_nonneg q). lia.
      - pose proof (Zdigits2_bounds (Zpos mx) ltac:(lia)) as [Hlo _].
        pose proof (Zdigits2_bounds (Zpos my) ltac:(lia)) as [_ Hhi].
        fold d1 in Hlo. fold d2 in Hhi.
        pose proof (Zdigits2_gt_0 (Zpos my) ltac:(lia)) as Hd2. fold d2 in Hd2.
        pose proof (Zdigits2_gt_0 (Zpos mx) ltac:(lia)) as Hd1. fold d1 in Hd1.
        assert (Hpow : (2 ^ (d1 + s - d2 - 1) * 2 ^ d2 = 2 ^ (d1 - 1) * 2 ^ s)%Z).
        { rewrite <- !Z.pow_add_r by lia. f_equal. lia. }
        assert (H0 : (0 < 2 ^ (d1 + s - d2 - 1))%Z) by (apply Z.pow_pos_nonneg; lia).
        assert (Hq1 : (2 ^ (d1 + s - d2 - 1) <= q)%Z) by nia.
        destruct (Z_lt_le_dec (Zdigits2 q) (d1 + s - d2)) as [Hlt|]; [|assumption].
        exfalso.
        pose proof (Zdigits2_bounds q ltac:(lia)) as [_ Hqhi].
        assert (2 ^ Zdigits2 q <= 2 ^ (d1 + s - d2 - 1))%Z
          by (apply Z.pow_le_mono_r; lia).
        lia. }
    apply Z.le_trans with (fexp (d1 + ex - (d2 + ey))); [unfold e'; lia|].
    apply (fexp_mono prec emax prec_gt_0 prec_lt_emax). unfold s in Hd. lia.
Qed.

Lemma SFdiv_finite sx mx ex sy my ey :
  rounds_to (xorb sx sy) (F2R (Zpos mx) ex / F2R (Zpos my) ey)
    (SFdiv prec emax (S754_finite sx mx ex) (S754_finite sy my ey)).
Proof.
  cbn [SFdiv].
  destruct (SFdiv_core_binary_spec mx ex my ey) as (q & e' & l & -> & Hq & Hin & He).
  apply binary_round_aux_rounds; assumption.
Qed.

End Operations.

Section Monotone.
Variables prec emax : Z.
Hypothesis prec_gt_0 : (0 < prec)%Z.
Hypothesis prec_lt_emax : (prec < emax)%Z.
Local Set Default Proof Using "prec_gt_0 prec_lt_emax".

Local Abbreviation fexp := (SpecFloat.fexp prec emax).
Local Abbreviation emin := (SpecFloat.emin prec emax).
Local Abbreviation canonical := (IEEE754.canonical prec emax).
Local Abbreviation round_result := (IEEE754.round_result prec emax).
Local Abbreviation rounds_to := (IEEE754.rounds_to prec emax).
Local Abbreviation valid := (SpecFloat.valid_binary prec emax).
Local Abbreviation rank := (IEEE754.rank emax).

Lemma nonneg_SF_cases x :
  nonneg_SF x = true -> finite_nonneg_SF x = true \/ x = S754_infinity false.
Proof. destruct x as [[|]|[|]| |[|] m e]; try discriminate; auto. Qed.

Lemma finite_nonneg_nonneg x : finite_nonneg_SF x = true -> nonneg_SF x = true.
Proof. destruct x as [[|]|[|]| |[|] m e]; try discriminate; auto. Qed.

Lemma nonneg_not_nan x : nonneg_SF x = true -> is_nan_SF x = false.
Proof. destruct x as [[|]|[|]| |[|] m e]; try discriminate; auto. Qed.

Lemma canonical_0_emin : canonical 0 emin.
Proof. unfold IEEE754.canonical, SpecFloat.fexp. simpl Zdigits2. lia. Qed.

(** A number of the format is its own rounding. *)
Lemma rounds_to_self x :
  valid x = true -> finite_nonneg_SF x = true -> rounds_to false (SF2R x) x.
Proof.
  intros V N. destruct x as [[|]|[|]| |[|] m e]; try discriminate.
  - exists 0%Z, emin. split; [reflexivity|]. split; [lia|].
    split; [apply canonical_0_emin|].
    cbn [SF2R]. rewrite F2R_0. pose proof (pow2_pos emin).
    split; [intros; rewrite Rminus_diag, Rabs_R0; apply Rabs_pos|].
    rewrite Rminus_diag, Rabs_R0. lra.
  - destruct (valid_finite prec emax prec_gt_0 prec_lt_emax _ _ _ V) as [C E].
    exists (Zpos m), e. split.
    { unfold IEEE754.round_result. apply Z.leb_le in E. rewrite E. reflexivity. }
    split; [lia|]. split; [exact C|].
    rewrite SF2R_finite. pose proof (pow2_pos e).
    split; [intros; rewrite Rminus_diag, Rabs_R0; apply Rabs_pos|].
    rewrite Rminus_diag, Rabs_R0. lra.
Qed.

Lemma rounds_to_nonneg x r : rounds_to false x r -> nonneg_SF r = true.
Proof.
  intros (m & e & -> & Hm & _). unfold IEEE754.round_result.
  destruct m as [|p|p]; [reflexivity| |lia].
  destruct (e <=? emax - prec)%Z; reflexivity.
Qed.

Lemma rank_finite_nonneg x :
  finite_nonneg_SF x = true -> rank x = SF2R x.
Proof. destruct x as [[|]|[|]| |[|] m e]; try discriminate; reflexivity. Qed.

Lemma SF2R_nonneg x : finite_nonneg_SF x = true -> 0 <= SF2R x.
Proof.
  destruct x as [[|]|[|]| |[|] m e]; try discriminate; intros _.
  - cbn [SF2R]. lra.
  - rewrite SF2R_finite. pose proof (F2R_pos (Zpos m) e ltac:(lia)). lra.
Qed.

Lemma rank_bounds x :
  valid x = true -> nonneg_SF x = true -> 0 <= rank x <= pow2 emax.
Proof.
  intros V N. pose proof (pow2_pos emax).
  destruct x as [[|]|[|]| |[|] m e]; try discriminate.
  - cbn [IEEE754.rank SF2R]. lra.
  - cbn [IEEE754.rank]. lra.
  - destruct (valid_finite prec emax prec_gt_0 prec_lt_emax _ _ _ V) as [C E].
    pose proof (F2R_pos (Zpos m) e ltac:(lia)).
    pose proof (finite_lt_pow2_emax prec emax prec_gt_0 prec_lt_emax (Zpos m) e ltac:(lia) C E).
    unfold IEEE754.rank. rewrite SF2R_finite. lra.
Qed.

Lemma rank_finite_lt x :
  valid x = true -> finite_nonneg_SF x = true -> rank x < pow2 emax.
Proof.
  intros V N. pose proof (pow2_pos emax).
  destruct x as [[|]|[|]| |[|] m e]; try discriminate.
  - cbn [IEEE754.rank SF2R]. lra.
  - destruct (valid_finite prec emax prec_gt_0 prec_lt_emax _ _ _ V) as [C E].
    pose proof (finite_lt_pow2_emax prec emax prec_gt_0 prec_lt_emax (Zpos m) e ltac:(lia) C E).
    unfold IEEE754.rank. rewrite SF2R_finite. lra.
Qed.

(** Two numbers at the same place are the same number. *)
Lemma nonneg_rank_inj x y :
  valid x = true -> valid y = true ->
  nonneg_SF x = true -> nonneg_SF y = true ->
  rank x = rank y -> x = y.
Proof.
  intros Vx Vy Nx Ny Hr.
  destruct (SFcompare_rank prec emax prec_gt_0 prec_lt_emax x y Vx Vy (nonneg_not_nan x Nx) (nonneg_not_nan y Ny))
    as (c & Hc & Hrc).
  destruct c; try lra. clear Hrc.
  pose proof (pow2_pos emax).
  destruct x as [[|]|[|]| |[|] mx ex]; try discriminate;
  destruct y as [[|]|[|]| |[|] my ey]; try discriminate; try reflexivity.
  destruct (valid_finite prec emax prec_gt_0 prec_lt_emax _ _ _ Vx) as [Cx Ex].
  destruct (valid_finite prec emax prec_gt_0 prec_lt_emax _ _ _ Vy) as [Cy Ey].
  pose proof (compare_magnitude prec emax prec_gt_0 prec_lt_emax mx ex my ey Cx Cy) as Hm.
  cbn [SFcompare] in Hc. injection Hc as Hc. rewrite Hc in Hm.
  destruct Hm as [-> ->]. reflexivity.
Qed.

(** *** Addition *)

Lemma SFadd_rounds a c :
  valid a = true -> valid c = true ->
  finite_nonneg_SF a = true -> finite_nonneg_SF c = true ->
  rounds_to false (SF2R a + SF2R c) (SFadd prec emax a c).
Proof.
  intros Va Vc Na Nc.
  destruct a as [[|]|[|]| |[|] ma ea]; try discriminate;
  destruct c as [[|]|[|]| |[|] mc ec]; try discriminate.
  - cbn [SFadd SF2R]. rewrite Rplus_0_l.
    apply (rounds_to_self (S754_zero false)); reflexivity.
  - cbn [SFadd]. change (SF2R (S754_zero false)) with 0. rewrite Rplus_0_l.
    apply rounds_to_self; assumption.
  - cbn [SFadd]. change (SF2R (S754_zero false)) with 0. rewrite Rplus_0_r.
    apply rounds_to_self; assumption.
  - rewrite !SF2R_finite. apply (SFadd_finite prec emax prec_gt_0 prec_lt_emax); assumption.
Qed.

Lemma SFadd_inf_r a :
  nonneg_SF a = true ->
  SFadd prec emax a (S754_infinity false) = S754_infinity false.
Proof. destruct a as [[|]|[|]| |[|] ma ea]; try discriminate; reflexivity. Qed.

Lemma SFadd_inf_l c :
  nonneg_SF c = true ->
  SFadd prec emax (S754_infinity false) c = S754_infinity false.
Proof. destruct c as [[|]|[|]| |[|] mc ec]; try discriminate; reflexivity. Qed.

Lemma SFadd_nonneg a c :
  valid a = true -> valid c = true ->
  nonneg_SF a = true -> nonneg_SF c = true ->
  nonneg_SF (SFadd prec emax a c) = true /\ valid (SFadd prec emax a c) = true.
Proof.
  intros Va Vc Na Nc.
  destruct (nonneg_SF_cases c Nc) as [Fc| ->]; [|rewrite SFadd_inf_r; auto].
  destruct (nonneg_SF_cases a Na) as [Fa| ->]; [|rewrite SFadd_inf_l; auto].
  pose proof (SFadd_rounds a c Va Vc Fa Fc) as H.
  split; [eapply rounds_to_nonneg; eauto|eapply (rounds_to_valid prec emax prec_gt_0 prec_lt_emax); eauto].
Qed.

Lemma SFadd_comm a c :
  nonneg_SF a = true -> nonneg_SF c = true ->
  SFadd prec emax a c = SFadd prec emax c a.
Proof.
  intros Na Nc.
  destruct a as [[|]|[|]| |[|] ma ea]; try discriminate;
  destruct c as [[|]|[|]| |[|] mc ec]; try discriminate; try reflexivity.
  cbn [SFadd]. rewrite (Z.min_comm ec ea), Z.add_comm. reflexivity.
Qed.

Lemma SFadd_mono_l a a' c :
  valid a = true -> valid a' = true -> valid c = true ->
  nonneg_SF a = true -> nonneg_SF a' = true -> nonneg_SF c = true ->
  rank a <= rank a' ->
  rank (SFadd prec emax a c) <= rank (SFadd prec emax a' c).
Proof.
  intros Va Va' Vc Na Na' Nc Hr.
  destruct (Req_dec (rank a) (rank a')) as [He|Hne].
  { rewrite (nonneg_rank_inj a a' Va Va' Na Na' He). lra. }
  assert (Hlt : rank a < rank a') by lra.
  destruct (nonneg_SF_cases c Nc) as [Fc| ->].
  2:{ rewrite !SFadd_inf_r by assumption. lra. }
  destruct (nonneg_SF_cases a' Na') as [Fa'| ->].
  2:{ rewrite SFadd_inf_l by assumption.
      destruct (SFadd_nonneg a c Va Vc Na Nc) as [N V].
      pose proof (rank_bounds _ V N). cbn [IEEE754.rank]. lra. }
  destruct (nonneg_SF_cases a Na) as [Fa| ->].
  2:{ pose proof (rank_finite_lt a' Va' Fa'). cbn [IEEE754.rank] in Hlt. lra. }
  apply (rounds_to_mono prec emax prec_gt_0 prec_lt_emax
           (SF2R a + SF2R c) (SF2R a' + SF2R c)).
  - rewrite !rank_finite_nonneg in Hlt by assumption. lra.
  - apply SFadd_rounds; assumption.
  - apply SFadd_rounds; assumption.
Qed.

Lemma SFadd_mono_r a c c' :
  valid a = true -> valid c = true -> valid c' = true ->
  nonneg_SF a = true -> nonneg_SF c = true -> nonneg_SF c' = true ->
  rank c <= rank c' ->
  rank (SFadd prec emax a c) <= rank (SFadd prec emax a c').
Proof.
  intros Va Vc Vc' Na Nc Nc' Hr.
  rewrite (SFadd_comm a c), (SFadd_comm a c') by assumption.
  apply SFadd_mono_l; assumption.
Qed.

(** *** Division *)

Lemma SFdiv_rounds a mt et :
  valid a = true -> finite_nonneg_SF a = true ->
  rounds_to false (SF2R a / F2R (Zpos mt) et)
    (SFdiv prec emax a (S754_finite false mt et)).
Proof.
  intros Va Na.
  destruct a as [[|]|[|]| |[|] ma ea]; try discriminate.
  - cbn [SFdiv SF2R xorb]. unfold Rdiv. rewrite Rmult_0_l.
    apply (rounds_to_self (S754_zero false)); reflexivity.
  - rewrite SF2R_finite. apply (SFdiv_finite prec emax prec_gt_0 prec_lt_emax false ma ea false mt et).
Qed.

Lemma SFdiv_nonneg a mt et :
  valid a = true -> nonneg_SF a = true ->
  nonneg_SF (SFdiv prec emax a (S754_finite false mt et)) = true /\
  valid (SFdiv prec emax a (S754_finite false mt et)) = true.
Proof.
  intros Va Na.
  destruct (nonneg_SF_cases a Na) as [Fa| ->]; [|auto].
  pose proof (SFdiv_rounds a mt et Va Fa) as H.
  split; [eapply rounds_to_nonneg; eauto|eapply (rounds_to_valid prec emax prec_gt_0 prec_lt_emax); eauto].
Qed.

(** Dividing by a positive finite number keeps the order. *)
Lemma SFdiv_mono_l a a' mt et :
  valid a = true -> valid a' = true ->
  nonneg_SF a = true -> nonneg_SF a' = true ->
  rank a <= rank a' ->
  rank (SFdiv prec emax a (S754_finite false mt et))
  <= rank (SFdiv prec emax a' (S754_finite false mt et)).
Proof.
  intros Va Va' Na Na' Hr.
  destruct (Req_dec (rank a) (rank a')) as [He|Hne].
  { rewrite (nonneg_rank_inj a a' Va Va' Na Na' He). lra. }
  assert (Hlt : rank a < rank a') by lra.
  destruct (nonneg_SF_cases a' Na') as [Fa'| ->].
  2:{ destruct (SFdiv_nonneg a mt et Va Na) as [N V].
      pose proof (rank_bounds _ V N). cbn [SFdiv xorb IEEE754.rank]. lra. }
  destruct (nonneg_SF_cases a Na) as [Fa| ->].
  2:{ pose proof (rank_finite_lt a' Va' Fa'). cbn [IEEE754.rank] in Hlt. lra. }
  pose proof (F2R_pos (Zpos mt) et ltac:(lia)) as Ht.
  apply (rounds_to_mono prec emax prec_gt_0 prec_lt_emax
           (SF2R a / F2R (Zpos mt) et) (SF2R a' / F2R (Zpos mt) et)).
  - rewrite !rank_finite_nonneg in Hlt by assumption.
    unfold Rdiv. apply Rmult_lt_compat_r; [apply Rinv_0_lt_compat; exact Ht|exact Hlt].
  - apply SFdiv_rounds; assumption.
  - apply SFdiv_rounds; assumption.
Qed.

Lemma SFdiv_pos_nonneg ma ea s :
  valid s = true -> nonneg_SF s = true ->
  nonneg_SF (SFdiv prec emax (S754_finite false ma ea) s) = true /\
  valid (SFdiv prec emax (S754_finite false ma ea) s) = true.
Proof.
  intros Vs Ns.
  destruct s as [[|]|[|]| |[|] ms es]; try discriminate; auto.
  pose proof (SFdiv_finite prec emax prec_gt_0 prec_lt_emax false ma ea false ms es) as H.
  cbn [xorb] in H.
  split; [eapply rounds_to_nonneg; eauto|eapply (rounds_to_valid prec emax prec_gt_0 prec_lt_emax); eauto].
Qed.

(** Dividing a positive finite number by a larger number gives less. *)
Lemma SFdiv_anti_r ma ea s s' :
  valid s = true -> valid s' = true ->
  nonneg_SF s = true -> nonneg_SF s' = true ->
  rank s <= rank s' ->
  rank (SFdiv prec emax (S754_finite false ma ea) s')
  <= rank (SFdiv prec emax (S754_finite false ma ea) s).
Proof.
  intros Vs Vs' Ns Ns' Hr.
  destruct (Req_dec (rank s) (rank s')) as [He|Hne].
  { rewrite (nonneg_rank_inj s s' Vs Vs' Ns Ns' He). lra. }
  assert (Hlt : rank s < rank s') by lra.
  destruct (SFdiv_pos_nonneg ma ea s Vs Ns) as [N V].
  destruct (SFdiv_pos_nonneg ma ea s' Vs' Ns') as [N' V'].
  pose proof (rank_bounds _ V N). pose proof (rank_bounds _ V' N').
  pose proof (rank_bounds _ Vs Ns). pose proof (rank_bounds _ Vs' Ns').
  destruct s as [[|]|[|]| |[|] ms es]; try discriminate.
  - cbn [SFdiv xorb IEEE754.rank] in *. lra.
  - cbn [IEEE754.rank] in *. lra.
  - destruct s' as [[|]|[|]| |[|] ms' es']; try discriminate.
    + pose proof (F2R_pos (Zpos ms) es ltac:(lia)).
      unfold IEEE754.rank in Hlt. rewrite SF2R_finite in Hlt. cbn [SF2R] in Hlt. lra.
    + cbn [SFdiv xorb IEEE754.rank SF2R] in *. lra.
    + pose proof (F2R_pos (Zpos ms) es ltac:(lia)) as Hs.
      pose proof (F2R_pos (Zpos ms') es' ltac:(lia)) as Hs'.
      pose proof (F2R_pos (Zpos ma) ea ltac:(lia)) as Ha.
      unfold IEEE754.rank in Hlt. rewrite !SF2R_finite in Hlt.
      apply (rounds_to_mono prec emax prec_gt_0 prec_lt_emax
               (F2R (Zpos ma) ea / F2R (Zpos ms') es')
               (F2R (Zpos ma) ea / F2R (Zpos ms) es)).
      * unfold Rdiv. apply Rmult_lt_compat_l; [exact Ha|].
        apply Rinv_lt_contravar; [nra|exact Hlt].
      * apply (SFdiv_finite prec emax prec_gt_0 prec_lt_emax false ma ea false ms' es').
      * apply (SFdiv_finite prec emax prec_gt_0 prec_lt_emax false ma ea false ms es).
Qed.

End Monotone.

(** *** Results that are NaN or not negative *)

Lemma binary_round_aux_nn prec emax mx ex lx :
  nan_or_nonneg_SF (binary_round_aux prec emax false mx ex lx) = true.
Proof.
  unfold binary_round_aux.
  destruct (shr_fexp prec emax mx ex lx) as [mrs' e'].
  destruct (shr_fexp prec emax _ e' loc_Exact) as [mrs'' e''].
  destruct (shr_m mrs''); [reflexivity| |reflexivity].
  destruct (e'' <=? emax - prec)%Z; reflexivity.
Qed.

Lemma binary_round_nn prec emax m e :
  nan_or_nonneg_SF (binary_round prec emax false m e) = true.
Proof.
  unfold binary_round. destruct (shl_align m e _) as [mz ez].
  apply binary_round_aux_nn.
Qed.

Lemma SFmul_self_nn prec emax X :
  nan_or_nonneg_SF (SFmul prec emax X X) = true.
Proof.
  destruct X as [[|]|[|]| |[|] m e]; try reflexivity;
    cbn [SFmul xorb]; apply binary_round_aux_nn.
Qed.

Lemma SFadd_nn prec emax X Y :
  nan_or_nonneg_SF X = true -> nan_or_nonneg_SF Y = true ->
  nan_or_nonneg_SF (SFadd prec emax X Y) = true.
Proof.
  intros HX HY.
  destruct X as [[|]|[|]| |[|] mx ex]; try discriminate; try reflexivity;
  destruct Y as [[|]|[|]| |[|] my ey]; try discriminate; try reflexivity.
  cbn [SFadd cond_Zopp].
  change (Zpos ?a + Zpos ?b)%Z with (Zpos (a + b)).
  cbn [binary_normalize]. apply binary_round_nn.
Qed.

Lemma SFsqrt_nn prec emax X :
  nan_or_nonneg_SF X = true -> nan_or_nonneg_SF (SFsqrt prec emax X) = true.
Proof.
  intros HX.
  destruct X as [[|]|[|]| |[|] mx ex]; try discriminate; try reflexivity.
  cbn [SFsqrt].
  destruct (SFsqrt_core_binary prec emax (Zpos mx) ex) as [[mz ez] lz].
  apply binary_round_aux_nn.
Qed.

Section Exact.
Variables prec emax : Z.
Hypothesis prec_gt_0 : (0 < prec)%Z.
Hypothesis prec_lt_emax : (prec < emax)%Z.
Local Set Default Proof Using "prec_gt_0 prec_lt_emax".

Local Abbreviation fexp := (SpecFloat.fexp prec emax).
Local Abbreviation emin := (SpecFloat.emin prec emax).
Local Abbreviation canonical := (IEEE754.canonical prec emax).
Local Abbreviation round_result := (IEEE754.round_result prec emax).
Local Abbreviation rounds_to := (IEEE754.rounds_to prec emax).
Local Abbreviation valid := (SpecFloat.valid_binary prec emax).
Local Abbreviation rank := (IEEE754.rank emax).

(** A number [m * 2^e] whose last digit is not below the last digit of the
    format is a number of the format. *)
Lemma representable m e :
  (0 < m)%Z -> (fexp (Zdigits2 m + e) <= e)%Z ->
  exists mb eb, (0 < mb)%Z /\ canonical mb eb /\ F2R mb eb = F2R m e.
Proof.
  intros Hm He.
  set (eb := fexp (Zdigits2 m + e)).
  exists (m * 2 ^ (e - eb))%Z, eb.
  assert (H2 : (0 < 2 ^ (e - eb))%Z) by (apply Z.pow_pos_nonneg; lia).
  split; [nia|]. split.
  - unfold IEEE754.canonical. rewrite Zdigits2_shift by lia.
    replace (Zdigits2 m + (e - eb) + eb)%Z with (Zdigits2 m + e)%Z by lia.
    reflexivity.
  - rewrite F2R_shift by lia. f_equal. lia.
Qed.

(** Rounding such a number changes nothing. *)
Lemma rounds_to_exact x r mb eb :
  rounds_to false x r -> (0 <= mb)%Z -> canonical mb eb -> x = F2R mb eb ->
  rank r = Rmin x (pow2 emax).
Proof.
  intros (m & e & -> & Hm & Hc & Hn & _) Hmb Hcb Hx.
  rewrite (rank_round_result prec emax prec_gt_0 prec_lt_emax) by assumption.
  specialize (Hn mb eb Hmb Hcb).
  rewrite <- Hx, Rminus_diag, Rabs_R0 in Hn.
  assert (F2R m e = x).
  { pose proof (Rabs_pos (F2R m e - x)).
    assert (H0 : Rabs (F2R m e - x) = 0) by lra.
    unfold Rabs in H0. destruct Rcase_abs in H0; lra. }
  congruence.
Qed.

(** What rounding does to a magnitude that is at most a number of the
    format, or at least one. *)
Lemma rounds_to_le x r mb eb :
  rounds_to false x r -> (0 <= mb)%Z -> canonical mb eb -> x <= F2R mb eb ->
  rank r <= F2R mb eb.
Proof.
  intros (m & e & -> & Hm & Hc & Hn & _) Hmb Hcb Hx.
  rewrite (rank_round_result prec emax prec_gt_0 prec_lt_emax) by assumption.
  specialize (Hn mb eb Hmb Hcb).
  apply Rle_trans with (F2R m e); [apply Rmin_l|].
  unfold Rabs in Hn. repeat destruct Rcase_abs in Hn; lra.
Qed.

Lemma rounds_to_ge x r mb eb :
  rounds_to false x r -> (0 <= mb)%Z -> canonical mb eb ->
  (eb <= emax - prec)%Z -> F2R mb eb <= x ->
  F2R mb eb <= rank r.
Proof.
  intros (m & e & -> & Hm & Hc & Hn & _) Hmb Hcb Heb Hx.
  rewrite (rank_round_result prec emax prec_gt_0 prec_lt_emax) by assumption.
  specialize (Hn mb eb Hmb Hcb).
  apply Rmin_glb.
  - unfold Rabs in Hn. repeat destruct Rcase_abs in Hn; lra.
  - destruct (Z.eq_dec mb 0%Z) as [->|Hne].
    + rewrite F2R_0. pose proof (pow2_pos emax). lra.
    + pose proof (finite_lt_pow2_emax prec emax prec_gt_0 prec_lt_emax mb eb
                    ltac:(lia) Hcb Heb). lra.
Qed.

(** [x / x] is [1]. *)
Lemma canonical_one : exists mb eb, (0 < mb)%Z /\ canonical mb eb /\ F2R mb eb = 1.
Proof.
  destruct (representable 1 0) as (mb & eb & H0 & Hc & HF).
  - lia.
  - unfold SpecFloat.fexp, SpecFloat.emin. simpl Zdigits2. lia.
  - exists mb, eb. rewrite HF, F2R_1, pow2_0. auto.
Qed.

Lemma SFdiv_self m e :
  rank (SFdiv prec emax (S754_finite false m e) (S754_finite false m e)) = 1.
Proof.
  pose proof (SFdiv_finite prec emax prec_gt_0 prec_lt_emax false m e false m e) as H.
  cbn [xorb] in H.
  destruct canonical_one as (mb & eb & H0 & Hc & HF).
  pose proof (F2R_pos (Zpos m) e ltac:(lia)).
  rewrite (rounds_to_exact _ _ mb eb H) by (try lia; try assumption; rewrite HF; field; lra).
  replace (F2R (Zpos m) e / F2R (Zpos m) e) with 1 by (field; lra).
  apply Rmin_left.
  rewrite <- pow2_0. apply pow2_le. lia.
Qed.

End Exact.

Section Errors.
Variables prec emax : Z.
Hypothesis prec_gt_0 : (0 < prec)%Z.
Hypothesis prec_lt_emax : (prec < emax)%Z.
Local Set Default Proof Using "prec_gt_0 prec_lt_emax".

Local Abbreviation fexp := (SpecFloat.fexp prec emax).
Local Abbreviation emin := (SpecFloat.emin prec emax).
Local Abbreviation canonical := (IEEE754.canonical prec emax).
Local Abbreviation round_result := (IEEE754.round_result prec emax).
Local Abbreviation rounds_to := (IEEE754.rounds_to prec emax).
Local Abbreviation valid := (SpecFloat.valid_binary prec emax).
Local Abbreviation rank := (IEEE754.rank emax).

(** The value of a rounded magnitude that is finite. *)
Lemma round_result_finite m e :
  (0 <= m)%Z -> finite_nonneg_SF (round_result false m e) = true ->
  SF2R (round_result false m e) = F2R m e.
Proof.
  intros Hm. unfold IEEE754.round_result.
  destruct m as [|p|p]; [| |lia].
  - intros _. cbn [SF2R]. now rewrite F2R_0.
  - destruct (e <=? emax - prec)%Z; [|discriminate].
    intros _. apply SF2R_finite.
Qed.

(** Half a unit in the last place, against the value. *)
Lemma half_ulp m e :
  (0 <= m)%Z -> canonical m e ->
  pow2 e / 2 <= pow2 (- prec) * F2R m e \/ e = emin.
Proof.
  intros Hm Hc.
  destruct (canonical_digits prec emax prec_gt_0 prec_lt_emax m e Hc) as (_ & _ & [D|E]);
    [left|right; exact E].
  assert (0 < m)%Z.
  { destruct (Z.eq_dec m 0%Z) as [->|]; [simpl in D; lia|lia]. }
  pose proof (F2R_digits_ge m e ltac:(lia)) as H1.
  rewrite D in H1. rewrite <- pow2_pred.
  replace (e - 1)%Z with (- prec + (prec - 1 + e))%Z by lia.
  rewrite pow2_add. pose proof (pow2_pos (- prec)). nra.
Qed.

Lemma rounds_to_error x r :
  rounds_to false x r -> finite_nonneg_SF r = true ->
  Rabs (SF2R r - x) <= pow2 (- prec) * SF2R r + pow2 (emin - 1).
Proof.
  intros (m & e & -> & Hm & Hc & _ & Herr) Hf.
  rewrite (round_result_finite m e Hm Hf).
  pose proof (pow2_pos (- prec)). pose proof (pow2_pos (emin - 1)).
  assert (0 <= F2R m e).
  { unfold F2R. apply IZR_le in Hm. pose proof (pow2_pos e). nra. }
  destruct (half_ulp m e Hm Hc) as [Hrel| ->].
  - nra.
  - rewrite pow2_pred. nra.
Qed.

(** The sum of two numbers of the format is a multiple of the smallest
    positive one; rounding it makes a relative error only. *)
Lemma rounds_to_error_grid x r M :
  rounds_to false x r -> finite_nonneg_SF r = true ->
  x = F2R M emin ->
  Rabs (SF2R r - x) <= pow2 (- prec) * SF2R r.
Proof.
  intros (m & e & -> & Hm & Hc & _ & Herr) Hf Hx.
  rewrite (round_result_finite m e Hm Hf).
  destruct (half_ulp m e Hm Hc) as [Hrel| ->]; [lra|].
  subst x. rewrite <- F2R_sub in Herr. rewrite <- F2R_sub.
  assert (Hz : (m - M)%Z = 0%Z).
  { destruct (Z.eq_dec (m - M)%Z 0%Z) as [|Hne]; [assumption|exfalso].
    assert (H1 : 1 <= Rabs (IZR (m - M))).
    { rewrite <- abs_IZR. apply IZR_le. lia. }
    unfold F2R in Herr. rewrite Rabs_mult in Herr.
    pose proof (pow2_pos emin). rewrite (Rabs_pos_eq (pow2 emin)) in Herr by lra.
    nra. }
  rewrite Hz, F2R_0, Rabs_R0.
  assert (0 <= F2R m emin).
  { unfold F2R. apply IZR_le in Hm. pose proof (pow2_pos emin). nra. }
  pose proof (pow2_pos (- prec)). nra.
Qed.

Lemma on_grid x :
  valid x = true -> finite_nonneg_SF x = true ->
  exists M, (0 <= M)%Z /\ SF2R x = F2R M emin.
Proof.
  intros V N. destruct x as [[|]|[|]| |[|] m e]; try discriminate.
  - exists 0%Z. split; [lia|]. cbn [SF2R]. now rewrite F2R_0.
  - destruct (valid_finite prec emax prec_gt_0 prec_lt_emax _ _ _ V) as [C E].
    destruct (canonical_digits prec emax prec_gt_0 prec_lt_emax _ _ C) as (_ & He & _).
    exists (Zpos m * 2 ^ (e - emin))%Z. split.
    + assert (0 < 2 ^ (e - emin))%Z by (apply Z.pow_pos_nonneg; lia). nia.
    + rewrite SF2R_finite, F2R_shift by lia. f_equal. lia.
Qed.

Lemma SFadd_error a c :
  valid a = true -> valid c = true ->
  finite_nonneg_SF a = true -> finite_nonneg_SF c = true ->
  finite_nonneg_SF (SFadd prec emax a c) = true ->
  Rabs (SF2R (SFadd prec emax a c) - (SF2R a + SF2R c))
  <= pow2 (- prec) * SF2R (SFadd prec emax a c).
Proof.
  intros Va Vc Na Nc Nr.
  destruct (on_grid a Va Na) as (Ma & _ & Ha).
  destruct (on_grid c Vc Nc) as (Mc & _ & Hc).
  apply (rounds_to_error_grid _ _ (Ma + Mc)).
  - apply (SFadd_rounds prec emax prec_gt_0 prec_lt_emax); assumption.
  - exact Nr.
  - rewrite F2R_add. congruence.
Qed.

Lemma SFdiv_error a mt et :
  valid a = true -> finite_nonneg_SF a = true ->
  finite_nonneg_SF (SFdiv prec emax a (S754_finite false mt et)) = true ->
  Rabs (SF2R (SFdiv prec emax a (S754_finite false mt et))
        - SF2R a / F2R (Zpos mt) et)
  <= pow2 (- prec) * SF2R (SFdiv prec emax a (S754_finite false mt et))
     + pow2 (emin - 1).
Proof.
  intros Va Na Nr. apply rounds_to_error; [|exact Nr].
  apply (SFdiv_rounds prec emax prec_gt_0 prec_lt_emax); assumption.
Qed.

(** A rounded magnitude is not farther from the magnitude than any number of
    the format. *)
Lemma rounds_to_near x r mb eb :
  rounds_to false x r -> (0 <= mb)%Z -> canonical mb eb ->
  rank r <= x + Rabs (F2R mb eb - x).
Proof.
  intros (m & e & -> & Hm & Hc & Hn & _) Hmb Hcb.
  rewrite (rank_round_result prec emax prec_gt_0 prec_lt_emax) by assumption.
  specialize (Hn mb eb Hmb Hcb).
  apply Rle_trans with (F2R m e); [apply Rmin_l|].
  unfold Rabs in *. repeat destruct Rcase_abs in Hn; repeat destruct Rcase_abs; lra.
Qed.

(** The largest finite number. *)
Lemma finite_le_max m e :
  canonical (Zpos m) e -> (e <= emax - prec)%Z ->
  F2R (Zpos m) e <= pow2 emax - pow2 (emax - prec).
Proof.
  intros C E.
  destruct (canonical_digits prec emax prec_gt_0 prec_lt_emax _ _ C) as (D & _ & _).
  pose proof (Zdigits2_bounds (Zpos m) ltac:(lia)) as [_ Hhi].
  assert (Hm : (Zpos m <= 2 ^ prec - 1)%Z).
  { assert (2 ^ Zdigits2 (Zpos m) <= 2 ^ prec)%Z by (apply Z.pow_le_mono_r; lia). lia. }
  apply Rle_trans with (F2R (2 ^ prec - 1) (emax - prec)).
  - apply Rle_trans with (F2R (Zpos m) (emax - prec)).
    + unfold F2R. assert (pow2 e <= pow2 (emax - prec)) by (apply pow2_le; lia).
      assert (0 < IZR (Zpos m)) by (apply IZR_lt; lia). nra.
    + apply F2R_le. exact Hm.
  - rewrite F2R_sub, F2R_1. unfold F2R. rewrite <- pow2_IZR, <- pow2_add by lia.
    replace (prec + (emax - prec))%Z with emax by lia. lra.
Qed.

(** Adding less than half the last place of the largest number to a finite
    number gives a finite number. *)
Lemma SFadd_small_finite a c :
  valid a = true -> valid c = true ->
  finite_nonneg_SF a = true -> finite_nonneg_SF c = true ->
  2 * SF2R c < pow2 (emax - prec) ->
  finite_nonneg_SF (SFadd prec emax a c) = true.
Proof.
  intros Va Vc Na Nc Hc.
  pose proof (SFadd_rounds prec emax prec_gt_0 prec_lt_emax a c Va Vc Na Nc) as Hr.
  pose proof (rounds_to_nonneg prec emax prec_gt_0 prec_lt_emax _ _ Hr) as Nn.
  destruct (nonneg_SF_cases prec emax prec_gt_0 prec_lt_emax _ Nn) as [F|E]; [exact F|].
  exfalso.
  pose proof (SF2R_nonneg prec emax prec_gt_0 prec_lt_emax c Nc) as Hc0.
  assert (Hrank : rank (SFadd prec emax a c) < pow2 emax).
  { destruct a as [[|]|[|]| |[|] m e]; try discriminate.
    - destruct c as [[|]|[|]| |[|] mc ec]; discriminate.
    - destruct (valid_finite prec emax prec_gt_0 prec_lt_emax _ _ _ Va) as [C E'].
      pose proof (rounds_to_near _ _ (Zpos m) e Hr ltac:(lia) C) as Hnear.
      pose proof (finite_le_max m e C E') as Hmax.
      rewrite SF2R_finite in Hnear.
      replace (F2R (Zpos m) e - (F2R (Zpos m) e + SF2R c)) with (- SF2R c) in Hnear by ring.
      rewrite Rabs_Ropp, Rabs_pos_eq in Hnear by exact Hc0. lra. }
  rewrite E in Hrank. cbn [IEEE754.rank] in Hrank. lra.
Qed.

End Errors.

(** *** Doubles *)

Lemma prec_gt_0 : (0 < prec)%Z.
Proof. reflexivity. Qed.

Lemma prec_lt_emax : (prec < emax)%Z.
Proof. reflexivity. Qed.

Lemma single_prec_gt_0 : (0 < 24)%Z.
Proof. reflexivity. Qed.

Lemma single_prec_lt_emax : (24 < 128)%Z.
Proof. reflexivity. Qed.

Lemma valid_double x : SpecFloat.valid_binary prec emax (Prim2SF x) = true.
Proof. exact (Prim2SF_valid x). Qed.

Lemma SFeqb_refl X :
  SpecFloat.valid_binary prec emax X = true -> SFeqb X X = negb (is_nan_SF X).
Proof.
  intros V. destruct (is_nan_SF X) eqn:N.
  - destruct X; try discriminate. reflexivity.
  - cbn [negb].
    apply (SFeqb_rank prec emax prec_gt_0 prec_lt_emax X X V V N N). reflexivity.
Qed.

Lemma is_nan_SF_spec x : is_nan x = is_nan_SF (Prim2SF x).
Proof.
  unfold is_nan. rewrite FloatAxioms.eqb_spec, SFeqb_refl by apply valid_double.
  apply negb_involutive.
Qed.

Lemma nonneg_not_nan_prim x : nonneg x = true -> is_nan x = false.
Proof. rewrite is_nan_SF_spec. apply (nonneg_not_nan prec emax prec_gt_0 prec_lt_emax). Qed.

Lemma ltb_place x y :
  is_nan x = false -> is_nan y = false ->
  ((x <? y)%float = true <-> place x < place y).
Proof.
  rewrite !is_nan_SF_spec, FloatAxioms.ltb_spec. intros Nx Ny.
  apply (SFltb_rank prec emax prec_gt_0 prec_lt_emax); auto using valid_double.
Qed.

Lemma leb_place x y :
  is_nan x = false -> is_nan y = false ->
  ((x <=? y)%float = true <-> place x <= place y).
Proof.
  rewrite !is_nan_SF_spec, FloatAxioms.leb_spec. intros Nx Ny.
  apply (SFleb_rank prec emax prec_gt_0 prec_lt_emax); auto using valid_double.
Qed.

Lemma eqb_place x y :
  is_nan x = false -> is_nan y = false ->
  ((x =? y)%float = true <-> place x = place y).
Proof.
  rewrite !is_nan_SF_spec, FloatAxioms.eqb_spec. intros Nx Ny.
  apply (SFeqb_rank prec emax prec_gt_0 prec_lt_emax); auto using valid_double.
Qed.

Lemma ltb_false_place x y :
  is_nan x = false -> is_nan y = false ->
  ((x <? y)%float = false <-> place y <= place x).
Proof.
  intros Nx Ny. pose proof (ltb_place x y Nx Ny) as H.
  destruct (x <? y)%float; split; intros; try discriminate; try reflexivity.
  - destruct H as [H _]. specialize (H eq_refl). lra.
  - destruct (Rle_lt_dec (place y) (place x)); [assumption|].
    destruct H as [_ H]. specialize (H r). discriminate.
Qed.

Lemma ltb_nan_l x y : is_nan x = true -> (x <? y)%float = false.
Proof.
  rewrite is_nan_SF_spec, FloatAxioms.ltb_spec. intros N.
  destruct (Prim2SF x); try discriminate. reflexivity.
Qed.

Lemma ltb_nan_r x y : is_nan y = true -> (x <? y)%float = false.
Proof.
  rewrite is_nan_SF_spec, FloatAxioms.ltb_spec. intros N.
  destruct (Prim2SF y); try discriminate. unfold SFltb.
  rewrite (SFcompare_nan_r prec emax prec_gt_0 prec_lt_emax). reflexivity.
Qed.

Lemma place_inj x y :
  nonneg x = true -> nonneg y = true -> place x = place y -> x = y.
Proof.
  intros Nx Ny H. apply Prim2SF_inj.
  apply (nonneg_rank_inj prec emax prec_gt_0 prec_lt_emax);
    auto using valid_double.
Qed.

Lemma place_bounds x : nonneg x = true -> 0 <= place x <= pow2 emax.
Proof.
  intros N. apply (rank_bounds prec emax prec_gt_0 prec_lt_emax);
    auto using valid_double.
Qed.

(** The sign of [x - y] tells which one is larger. *)
Lemma sub_sign x y :
  nonneg x = true -> nonneg y = true ->
  (0 <? x - y)%float = (y <? x)%float.
Proof.
  intros Nx Ny. rewrite !FloatAxioms.ltb_spec, FloatAxioms.sub_spec.
  change (Prim2SF 0) with (S754_zero false).
  apply (SFsub_sign prec emax prec_gt_0 prec_lt_emax); auto using valid_double.
Qed.

(** *** Sums and quotients of numbers that are not negative *)

Lemma add_nonneg a c :
  nonneg a = true -> nonneg c = true -> nonneg (a + c) = true.
Proof.
  intros Na Nc. unfold nonneg. rewrite FloatAxioms.add_spec.
  apply (SFadd_nonneg prec emax prec_gt_0 prec_lt_emax); auto using valid_double.
Qed.

Lemma add_mono_l a a' c :
  nonneg a = true -> nonneg a' = true -> nonneg c = true ->
  place a <= place a' -> place (a + c) <= place (a' + c).
Proof.
  intros Na Na' Nc H. unfold place. rewrite !FloatAxioms.add_spec.
  apply (SFadd_mono_l prec emax prec_gt_0 prec_lt_emax); auto using valid_double.
Qed.

Lemma add_mono_r a c c' :
  nonneg a = true -> nonneg c = true -> nonneg c' = true ->
  place c <= place c' -> place (a + c) <= place (a + c').
Proof.
  intros Na Nc Nc' H. unfold place. rewrite !FloatAxioms.add_spec.
  apply (SFadd_mono_r prec emax prec_gt_0 prec_lt_emax); auto using valid_double.
Qed.

Lemma add_0_l c : nonneg c = true -> (0 + c)%float = c.
Proof.
  intros N. apply Prim2SF_inj. rewrite FloatAxioms.add_spec.
  change (Prim2SF 0) with (S754_zero false).
  unfold nonneg in N. destruct (Prim2SF c) as [[|]|[|]| |[|] m e];
    try discriminate; reflexivity.
Qed.

Lemma one_positive_finite : positive_finite 1.
Proof. eexists _, _. vm_compute. reflexivity. Qed.

Lemma positive_finite_nonneg x : positive_finite x -> nonneg x = true.
Proof. intros (m & e & H). unfold nonneg. rewrite H. reflexivity. Qed.

Lemma div_nonneg_r a s :
  positive_finite a -> nonneg s = true -> nonneg (a / s) = true.
Proof.
  intros (m & e & Ha) Ns. unfold nonneg. rewrite FloatAxioms.div_spec, Ha.
  apply (SFdiv_pos_nonneg prec emax prec_gt_0 prec_lt_emax); auto using valid_double.
Qed.

Lemma div_anti_r a s s' :
  positive_finite a -> nonneg s = true -> nonneg s' = true ->
  place s <= place s' -> place (a / s') <= place (a / s).
Proof.
  intros (m & e & Ha) Ns Ns' H. unfold place. rewrite !FloatAxioms.div_spec, Ha.
  apply (SFdiv_anti_r prec emax prec_gt_0 prec_lt_emax); auto using valid_double.
Qed.

Lemma div_nonneg_l a t :
  nonneg a = true -> positive_finite t -> nonneg (a / t) = true.
Proof.
  intros Na (m & e & Ht). unfold nonneg. rewrite FloatAxioms.div_spec, Ht.
  apply (SFdiv_nonneg prec emax prec_gt_0 prec_lt_emax); auto using valid_double.
Qed.

Lemma div_mono_l a a' t :
  nonneg a = true -> nonneg a' = true -> positive_finite t ->
  place a <= place a' -> place (a / t) <= place (a' / t).
Proof.
  intros Na Na' (m & e & Ht) H. unfold place. rewrite !FloatAxioms.div_spec, Ht.
  apply (SFdiv_mono_l prec emax prec_gt_0 prec_lt_emax); auto using valid_double.
Qed.

(** The three kinds of numbers that are not negative. *)
Lemma nonneg_cases x :
  nonneg x = true ->
  x = 0%float \/ positive_finite x \/ x = infinity.
Proof.
  unfold nonneg. intros N.
  destruct (Prim2SF x) as [[|]|[|]| |[|] m e] eqn:E; try discriminate.
  - left. apply Prim2SF_inj. rewrite E. reflexivity.
  - right. right. apply Prim2SF_inj. rewrite E. reflexivity.
  - right. left. exists m, e. exact E.
Qed.

(** *** Singles *)

Local Abbreviation valid32 := (SpecFloat.valid_binary 24 128).
Local Abbreviation valid64 := (SpecFloat.valid_binary prec emax).
Local Abbreviation rank32 := (IEEE754.rank 128).
Local Abbreviation rank64 := (IEEE754.rank emax).

Lemma narrow_nonneg X :
  nonneg_SF X = true -> nonneg_SF (narrow X) = true /\ valid32 (narrow X) = true.
Proof.
  intros N. destruct X as [[|]|[|]| |[|] m e]; try discriminate; auto.
  cbn [narrow].
  pose proof (binary_round_rounds 24 128 single_prec_gt_0 single_prec_lt_emax false m e) as H.
  split.
  - eapply (rounds_to_nonneg 24 128 single_prec_gt_0 single_prec_lt_emax); eauto.
  - eapply (rounds_to_valid 24 128 single_prec_gt_0 single_prec_lt_emax); eauto.
Qed.

Lemma narrow_mono X Y :
  valid64 X = true -> valid64 Y = true ->
  nonneg_SF X = true -> nonneg_SF Y = true ->
  rank64 X <= rank64 Y -> rank32 (narrow X) <= rank32 (narrow Y).
Proof.
  intros VX VY NX NY H.
  destruct (Req_dec (rank64 X) (rank64 Y)) as [He|Hne].
  { rewrite (nonneg_rank_inj prec emax prec_gt_0 prec_lt_emax X Y VX VY NX NY He). lra. }
  assert (Hlt : rank64 X < rank64 Y) by lra.
  destruct (narrow_nonneg X NX) as [NnX VnX].
  destruct (narrow_nonneg Y NY) as [NnY VnY].
  pose proof (rank_bounds 24 128 single_prec_gt_0 single_prec_lt_emax _ VnX NnX).
  pose proof (rank_bounds 24 128 single_prec_gt_0 single_prec_lt_emax _ VnY NnY).
  pose proof (rank_bounds prec emax prec_gt_0 prec_lt_emax _ VX NX).
  pose proof (rank_bounds prec emax prec_gt_0 prec_lt_emax _ VY NY).
  destruct Y as [[|]|[|]| |[|] my ey]; try discriminate.
  - cbn [IEEE754.rank SF2R] in Hlt. lra.
  - cbn [narrow IEEE754.rank] in *. lra.
  - destruct X as [[|]|[|]| |[|] mx ex]; try discriminate.
    + cbn [narrow IEEE754.rank SF2R] in *. lra.
    + pose proof (rank_finite_lt prec emax prec_gt_0 prec_lt_emax
                    (S754_finite false my ey) VY eq_refl).
      cbn [IEEE754.rank] in Hlt. unfold IEEE754.rank in *. lra.
    + cbn [narrow].
      apply (rounds_to_mono 24 128 single_prec_gt_0 single_prec_lt_emax
               (F2R (Zpos mx) ex) (F2R (Zpos my) ey)).
      * unfold IEEE754.rank in Hlt. rewrite !SF2R_finite in Hlt. exact Hlt.
      * apply (binary_round_rounds 24 128 single_prec_gt_0 single_prec_lt_emax).
      * apply (binary_round_rounds 24 128 single_prec_gt_0 single_prec_lt_emax).
Qed.

(** Writing a single as a double keeps its value. *)
Lemma widen_finite m e :
  valid32 (S754_finite false m e) = true ->
  nonneg_SF (widen (S754_finite false m e)) = true /\
  valid64 (widen (S754_finite false m e)) = true /\
  rank64 (widen (S754_finite false m e)) = F2R (Zpos m) e.
Proof.
  intros V. cbn [widen].
  pose proof (binary_round_rounds prec emax prec_gt_0 prec_lt_emax false m e) as H.
  split; [eapply (rounds_to_nonneg prec emax prec_gt_0 prec_lt_emax); eauto|].
  split; [eapply (rounds_to_valid prec emax prec_gt_0 prec_lt_emax); eauto|].
  destruct (valid_finite 24 128 single_prec_gt_0 single_prec_lt_emax _ _ _ V) as [C E].
  pose proof (canonical_digits 24 128 single_prec_gt_0 single_prec_lt_emax _ _ C)
    as (D & Emin & _).
  destruct (representable prec emax prec_gt_0 prec_lt_emax (Zpos m) e) as (mb & eb & H0 & Hc & HF).
  { lia. }
  { unfold SpecFloat.fexp, SpecFloat.emin in *. unfold prec, emax. lia. }
  rewrite (rounds_to_exact prec emax prec_gt_0 prec_lt_emax _ _ mb eb H);
    [|lia|assumption|congruence].
  apply Rmin_left.
  pose proof (finite_lt_pow2_emax 24 128 single_prec_gt_0 single_prec_lt_emax
                (Zpos m) e ltac:(lia) C E).
  assert (pow2 128 <= pow2 emax) by (apply pow2_le; unfold emax; lia). lra.
Qed.

Lemma widen_nonneg N :
  valid32 N = true -> nonneg_SF N = true ->
  nonneg_SF (widen N) = true /\ valid64 (widen N) = true.
Proof.
  intros V NN. destruct N as [[|]|[|]| |[|] m e]; try discriminate; auto.
  destruct (widen_finite m e V) as (H1 & H2 & _). auto.
Qed.

Lemma widen_mono N N' :
  valid32 N = true -> valid32 N' = true ->
  nonneg_SF N = true -> nonneg_SF N' = true ->
  rank32 N <= rank32 N' -> rank64 (widen N) <= rank64 (widen N').
Proof.
  intros V V' NN NN' H.
  destruct (widen_nonneg N V NN) as [Nw Vw].
  destruct (widen_nonneg N' V' NN') as [Nw' Vw'].
  pose proof (rank_bounds prec emax prec_gt_0 prec_lt_emax _ Vw Nw).
  pose proof (rank_bounds prec emax prec_gt_0 prec_lt_emax _ Vw' Nw').
  pose proof (rank_bounds 24 128 single_prec_gt_0 single_prec_lt_emax _ V NN).
  destruct N' as [[|]|[|]| |[|] m' e']; try discriminate.
  - destruct N as [[|]|[|]| |[|] m e]; try discriminate.
    + cbn [widen IEEE754.rank SF2R]. lra.
    + pose proof (pow2_pos 128). cbn [IEEE754.rank SF2R] in H. lra.
    + pose proof (F2R_pos (Zpos m) e ltac:(lia)).
      unfold IEEE754.rank in H. rewrite SF2R_finite in H. cbn [SF2R] in H. lra.
  - cbn [widen IEEE754.rank] in *. lra.
  - destruct (widen_finite m' e' V') as (_ & _ & ->).
    destruct N as [[|]|[|]| |[|] m e]; try discriminate.
    + cbn [widen IEEE754.rank SF2R].
      pose proof (F2R_pos (Zpos m') e' ltac:(lia)). lra.
    + pose proof (rank_finite_lt 24 128 single_prec_gt_0 single_prec_lt_emax
                    (S754_finite false m' e') V' eq_refl).
      cbn [IEEE754.rank] in H. unfold IEEE754.rank in *. lra.
    + destruct (widen_finite m e V) as (_ & _ & ->).
      unfold IEEE754.rank in H. rewrite !SF2R_finite in H. exact H.
Qed.

Lemma widen_valid N : valid64 (widen N) = true.
Proof.
  destruct N as [s|s| |s m e]; try reflexivity.
  cbn [widen].
  eapply (rounds_to_valid prec emax prec_gt_0 prec_lt_emax).
  apply (binary_round_rounds prec emax prec_gt_0 prec_lt_emax).
Qed.

(** *** [Math.fround] *)

Lemma fround_spec x : Prim2SF (fround x) = widen (narrow (Prim2SF x)).
Proof. unfold fround. apply Prim2SF_SF2Prim. apply widen_valid. Qed.

Lemma fround_nonneg x : nonneg x = true -> nonneg (fround x) = true.
Proof.
  unfold nonneg. intros N. rewrite fround_spec.
  destruct (narrow_nonneg _ N) as [Nn Vn].
  apply (widen_nonneg _ Vn Nn).
Qed.

Lemma fround_mono x y :
  nonneg x = true -> nonneg y = true ->
  place x <= place y -> place (fround x) <= place (fround y).
Proof.
  unfold nonneg, place. intros Nx Ny H. rewrite !fround_spec.
  destruct (narrow_nonneg _ Nx) as [Nnx Vnx].
  destruct (narrow_nonneg _ Ny) as [Nny Vny].
  apply widen_mono; try assumption.
  apply narrow_mono; auto using valid_double.
Qed.

Lemma fround_nan x : is_nan x = true -> is_nan (fround x) = true.
Proof.
  rewrite !is_nan_SF_spec, fround_spec.
  destruct (Prim2SF x); try discriminate. reflexivity.
Qed.

(** The stored weight of the nearer bone is not the smaller one. *)
Lemma ltb_false_intro a b :
  is_nan a = true \/ is_nan b = true \/
  (nonneg a = true /\ nonneg b = true /\ place b <= place a) ->
  (a <? b)%float = false.
Proof.
  intros [H|[H|(Na & Nb & H)]].
  - apply ltb_nan_l. exact H.
  - apply ltb_nan_r. exact H.
  - apply ltb_false_place; auto using nonneg_not_nan_prim.
Qed.

Lemma div_zero_cases w :
  nonneg w = true -> is_nan (w / 0) = true \/ (w / 0)%float = infinity.
Proof.
  intros N. rewrite is_nan_SF_spec, FloatAxioms.div_spec.
  change (Prim2SF 0) with (S754_zero false).
  unfold nonneg in N.
  destruct (Prim2SF w) as [[|]|[|]| |[|] m e] eqn:E; try discriminate.
  - left. reflexivity.
  - right. apply Prim2SF_inj. rewrite FloatAxioms.div_spec, E. reflexivity.
  - right. apply Prim2SF_inj. rewrite FloatAxioms.div_spec, E. reflexivity.
Qed.

Lemma div_infinity_cases w :
  nonneg w = true -> is_nan (w / infinity) = true \/ (w / infinity)%float = 0%float.
Proof.
  intros N. rewrite is_nan_SF_spec, FloatAxioms.div_spec.
  change (Prim2SF infinity) with (S754_infinity false).
  unfold nonneg in N.
  destruct (Prim2SF w) as [[|]|[|]| |[|] m e] eqn:E; try discriminate.
  - right. apply Prim2SF_inj. rewrite FloatAxioms.div_spec, E. reflexivity.
  - left. reflexivity.
  - right. apply Prim2SF_inj. rewrite FloatAxioms.div_spec, E. reflexivity.
Qed.

Lemma ltb_irrefl x : (x <? x)%float = false.
Proof.
  destruct (is_nan x) eqn:N; [apply ltb_nan_l; exact N|].
  apply ltb_false_place; auto. lra.
Qed.

Lemma normalized_weight_mono w w' t :
  nonneg w = true -> nonneg w' = true -> nonneg t = true ->
  place w' <= place w ->
  (fround (w / t) <? fround (w' / t))%float = false.
Proof.
  intros Nw Nw' Nt H.
  destruct (nonneg_cases t Nt) as [->|[Ht| ->]].
  - destruct (div_zero_cases w Nw) as [Hn| ->];
      [apply ltb_nan_l, fround_nan, Hn|].
    destruct (div_zero_cases w' Nw') as [Hn| ->];
      [apply ltb_nan_r, fround_nan, Hn|].
    apply ltb_irrefl.
  - apply ltb_false_intro. right. right.
    pose proof (div_nonneg_l w t Nw Ht). pose proof (div_nonneg_l w' t Nw' Ht).
    split; [apply fround_nonneg; assumption|].
    split; [apply fround_nonneg; assumption|].
    apply fround_mono; try assumption.
    apply div_mono_l; assumption.
  - destruct (div_infinity_cases w Nw) as [Hn| ->];
      [apply ltb_nan_l, fround_nan, Hn|].
    destruct (div_infinity_cases w' Nw') as [Hn| ->];
      [apply ltb_nan_r, fround_nan, Hn|].
    apply ltb_irrefl.
Qed.

(** [x / x] *)
Lemma place_one : place 1 = 1.
Proof.
  unfold place.
  change (Prim2SF 1) with (S754_finite false 4503599627370496 (-52)).
  unfold IEEE754.rank. rewrite SF2R_finite. unfold F2R.
  change 4503599627370496%Z with (2 ^ 52)%Z.
  rewrite <- pow2_IZR, <- pow2_add by lia. reflexivity.
Qed.

Lemma div_self x : positive_finite x -> (x / x)%float = 1%float.
Proof.
  intros (m & e & H).
  apply place_inj.
  - apply div_nonneg_l; [|exists m, e; exact H].
    unfold nonneg. rewrite H. reflexivity.
  - reflexivity.
  - rewrite place_one. unfold place. rewrite FloatAxioms.div_spec, H.
    apply (SFdiv_self prec emax prec_gt_0 prec_lt_emax).
Qed.

(** *** Finite doubles and their values *)

Lemma valueOf_0 : valueOf 0 = 0.
Proof. reflexivity. Qed.

Lemma valueOf_1 : valueOf 1 = 1.
Proof.
  unfold valueOf.
  change (Prim2SF 1) with (S754_finite false 4503599627370496 (-52)).
  rewrite SF2R_finite. unfold F2R.
  change 4503599627370496%Z with (2 ^ 52)%Z.
  rewrite <- pow2_IZR, <- pow2_add by lia. reflexivity.
Qed.

(** The value of a positive finite double, as a fraction. *)
Lemma valueOf_fraction x m n :
  Prim2SF x = S754_finite false m (Z.neg n) ->
  valueOf x = IZR (Zpos m) / IZR (2 ^ Zpos n).
Proof.
  intros H. unfold valueOf. rewrite H, SF2R_finite. unfold F2R.
  assert (H2 : pow2 (Z.neg n) * IZR (2 ^ Zpos n) = 1).
  { rewrite <- pow2_IZR, <- pow2_add by lia.
    replace (Z.neg n + Zpos n)%Z with 0%Z by lia. reflexivity. }
  assert (0 < IZR (2 ^ Zpos n)).
  { apply IZR_lt. apply Z.pow_pos_nonneg; lia. }
  field_simplify_eq; [|lra]. rewrite Rmult_assoc, H2. ring.
Qed.

Lemma valueOf_positive x : positive_finite x -> 0 < valueOf x.
Proof.
  intros (m & e & H). unfold valueOf. rewrite H, SF2R_finite.
  apply F2R_pos. lia.
Qed.


Lemma finite_nonneg_nonneg_prim x : finite_nonneg x = true -> nonneg x = true.
Proof. apply (finite_nonneg_nonneg prec emax prec_gt_0 prec_lt_emax). Qed.

Lemma finite_nonneg_place x : finite_nonneg x = true -> place x = valueOf x.
Proof. apply (rank_finite_nonneg prec emax prec_gt_0 prec_lt_emax). Qed.

Lemma valueOf_nonneg x : finite_nonneg x = true -> 0 <= valueOf x.
Proof. apply (SF2R_nonneg prec emax prec_gt_0 prec_lt_emax). Qed.

Lemma finite_nonneg_lt x : finite_nonneg x = true -> place x < pow2 emax.
Proof.
  intros H. apply (rank_finite_lt prec emax prec_gt_0 prec_lt_emax);
    auto using valid_double.
Qed.

Lemma finite_of_place x :
  nonneg x = true -> place x < pow2 emax -> finite_nonneg x = true.
Proof.
  unfold nonneg, place, finite_nonneg. intros N H.
  destruct (nonneg_SF_cases prec emax prec_gt_0 prec_lt_emax _ N) as [F|E]; [exact F|].
  rewrite E in H. cbn [rank] in H. lra.
Qed.

Lemma positive_finite_finite x : positive_finite x -> finite_nonneg x = true.
Proof. intros (m & e & H). unfold finite_nonneg. now rewrite H. Qed.

Lemma positive_finite_place x : positive_finite x -> 0 < place x.
Proof.
  intros (m & e & H). unfold place. rewrite H. unfold rank.
  rewrite SF2R_finite. apply F2R_pos. lia.
Qed.

Lemma positive_of_place x :
  finite_nonneg x = true -> 0 < place x -> positive_finite x.
Proof.
  unfold finite_nonneg, place. intros F H.
  destruct (Prim2SF x) as [[|]|[|]| |[|] m e] eqn:E; try discriminate.
  - cbn [rank SF2R] in H. lra.
  - exists m, e. exact E.
Qed.

Lemma is_finite_finite_nonneg x : finite_nonneg x = true -> is_finite x = true.
Proof.
  unfold finite_nonneg, is_finite, is_infinity. intros F.
  rewrite is_nan_SF_spec, FloatAxioms.eqb_spec, FloatAxioms.abs_spec.
  change (Prim2SF infinity) with (S754_infinity false).
  destruct (Prim2SF x) as [[|]|[|]| |[|] m e]; try discriminate; reflexivity.
Qed.

(** *** Errors of the operations *)

Lemma add_finite_inv a c :
  nonneg a = true -> nonneg c = true -> finite_nonneg (a + c) = true ->
  finite_nonneg a = true /\ finite_nonneg c = true.
Proof.
  unfold nonneg, finite_nonneg. rewrite FloatAxioms.add_spec.
  unfold SF64add.
  destruct (Prim2SF a) as [[|]|[|]| |[|] ma ea]; try discriminate;
  destruct (Prim2SF c) as [[|]|[|]| |[|] mc ec]; try discriminate; auto.
Qed.

Lemma add_error a c :
  nonneg a = true -> nonneg c = true -> finite_nonneg (a + c) = true ->
  Rabs (valueOf (a + c) - (valueOf a + valueOf c))
  <= pow2 (- prec) * valueOf (a + c).
Proof.
  intros Na Nc F. destruct (add_finite_inv a c Na Nc F) as [Fa Fc].
  unfold valueOf, finite_nonneg in *. rewrite FloatAxioms.add_spec in *.
  apply (SFadd_error prec emax prec_gt_0 prec_lt_emax); auto using valid_double.
Qed.

Lemma div_error a t :
  finite_nonneg a = true -> positive_finite t -> finite_nonneg (a / t) = true ->
  Rabs (valueOf (a / t) - valueOf a / valueOf t)
  <= pow2 (- prec) * valueOf (a / t) + pow2 (-1075).
Proof.
  intros Fa (m & e & Ht) F.
  unfold valueOf, finite_nonneg in *. rewrite FloatAxioms.div_spec in *.
  rewrite Ht in *. rewrite SF2R_finite.
  apply (SFdiv_error prec emax prec_gt_0 prec_lt_emax); auto using valid_double.
Qed.

Lemma widen_value N :
  SpecFloat.valid_binary 24 128 N = true -> finite_nonneg_SF N = true ->
  finite_nonneg_SF (widen N) = true /\ SF2R (widen N) = SF2R N.
Proof.
  intros V F. destruct N as [[|]|[|]| |[|] m e]; try discriminate; auto.
  destruct (widen_finite m e V) as (Nn & Vw & Hr).
  pose proof (finite_lt_pow2_emax 24 128 single_prec_gt_0 single_prec_lt_emax
                (Zpos m) e ltac:(lia)) as Hlt.
  destruct (valid_finite 24 128 single_prec_gt_0 single_prec_lt_emax _ _ _ V) as [C E].
  specialize (Hlt C E).
  assert (pow2 128 <= pow2 emax) by (apply pow2_le; unfold emax; lia).
  destruct (nonneg_SF_cases prec emax prec_gt_0 prec_lt_emax _ Nn) as [Fw|Ew].
  - split; [exact Fw|].
    rewrite <- (rank_finite_nonneg prec emax prec_gt_0 prec_lt_emax _ Fw), Hr.
    now rewrite SF2R_finite.
  - exfalso. rewrite Ew in Hr. cbn [rank] in Hr. lra.
Qed.

Lemma widen_finite_inv N :
  nonneg_SF N = true -> finite_nonneg_SF (widen N) = true ->
  finite_nonneg_SF N = true.
Proof. destruct N as [[|]|[|]| |[|] m e]; try discriminate; auto. Qed.

Lemma fround_error q :
  finite_nonneg q = true -> finite_nonneg (fround q) = true ->
  Rabs (valueOf (fround q) - valueOf q)
  <= pow2 (-24) * valueOf (fround q) + pow2 (-150).
Proof.
  unfold finite_nonneg, valueOf. rewrite fround_spec. intros Fq F.
  pose proof (finite_nonneg_nonneg prec emax prec_gt_0 prec_lt_emax _ Fq) as Nq.
  destruct (narrow_nonneg _ Nq) as [Nn Vn].
  pose proof (widen_finite_inv _ Nn F) as Fn.
  destruct (widen_value _ Vn Fn) as [_ ->].
  destruct (Prim2SF q) as [[|]|[|]| |[|] m e] eqn:E; try discriminate.
  - cbn [narrow SF2R]. rewrite Rminus_diag, Rabs_R0.
    pose proof (pow2_pos (-24)). pose proof (pow2_pos (-150)). nra.
  - cbn [narrow] in *. rewrite SF2R_finite.
    apply (rounds_to_error 24 128 single_prec_gt_0 single_prec_lt_emax); [|exact Fn].
    apply (binary_round_rounds 24 128 single_prec_gt_0 single_prec_lt_emax).
Qed.

(** *** Bounds *)

Lemma integer_canonical N :
  (0 < N < 2 ^ prec)%Z ->
  exists mb eb, (0 < mb)%Z /\ canonical prec emax mb eb /\ F2R mb eb = IZR N.
Proof.
  intros [H0 H1].
  destruct (representable prec emax prec_gt_0 prec_lt_emax N 0) as (mb & eb & Hm & Hc & HF).
  - exact H0.
  - assert (Zdigits2 N <= prec)%Z.
    { apply (Zdigits2_le_bound prec emax prec_gt_0 prec_lt_emax); unfold prec in *; lia. }
    unfold SpecFloat.fexp, SpecFloat.emin, prec, emax in *. lia.
  - exists mb, eb. split; [exact Hm|]. split; [exact Hc|].
    rewrite HF. unfold F2R. rewrite pow2_0. ring.
Qed.

(** A sum of at most [N] is rounded to at most [N]. *)
Lemma add_le_integer t w N :
  nonneg t = true -> nonneg w = true -> (0 < N < 2 ^ prec)%Z ->
  place t + place w <= IZR N ->
  place (t + w) <= IZR N.
Proof.
  intros Nt Nw HN H.
  pose proof (place_bounds t Nt) as [Ht0 _].
  pose proof (place_bounds w Nw) as [Hw0 _].
  assert (Hbig : IZR N < pow2 emax).
  { apply Rlt_le_trans with (IZR (2 ^ prec)); [apply IZR_lt; lia|].
    rewrite <- pow2_IZR by (unfold prec; lia). apply pow2_le. unfold prec, emax. lia. }
  assert (Ft : finite_nonneg t = true) by (apply finite_of_place; [assumption|lra]).
  assert (Fw : finite_nonneg w = true) by (apply finite_of_place; [assumption|lra]).
  rewrite (finite_nonneg_place t Ft), (finite_nonneg_place w Fw) in H.
  destruct (integer_canonical N HN) as (mb & eb & Hm & Hc & HF).
  unfold place. rewrite FloatAxioms.add_spec. rewrite <- HF.
  apply (rounds_to_le prec emax prec_gt_0 prec_lt_emax (SF2R (Prim2SF t) + SF2R (Prim2SF w)));
    [|lia|exact Hc|rewrite HF; exact H].
  apply (SFadd_rounds prec emax prec_gt_0 prec_lt_emax); auto using valid_double.
Qed.

Lemma add_0_r t : nonneg t = true -> (t + 0)%float = t.
Proof.
  intros N. apply Prim2SF_inj. rewrite FloatAxioms.add_spec.
  change (Prim2SF 0) with (S754_zero false).
  unfold nonneg in N. destruct (Prim2SF t) as [[|]|[|]| |[|] m e];
    try discriminate; reflexivity.
Qed.

(** A sum is not below its terms. *)
Lemma add_ge_l t w :
  nonneg t = true -> nonneg w = true -> place t <= place (t + w).
Proof.
  intros Nt Nw. rewrite <- (add_0_r t Nt) at 1.
  apply add_mono_r; auto. apply (place_bounds w Nw).
Qed.

Lemma add_ge_r t w :
  nonneg t = true -> nonneg w = true -> place w <= place (t + w).
Proof.
  intros Nt Nw. rewrite <- (add_0_l w Nw) at 1.
  apply add_mono_l; auto. apply (place_bounds t Nt).
Qed.

Lemma fround_1 : fround 1 = 1%float.
Proof. reflexivity. Qed.

(** A quotient by a number that is not smaller is at most [1]. *)
Lemma div_le_1 w t :
  nonneg w = true -> positive_finite t -> place w <= place t ->
  place (w / t) <= 1.
Proof.
  intros Nw Ht H. rewrite <- place_one, <- (div_self t Ht).
  apply div_mono_l; auto. apply positive_finite_nonneg, Ht.
Qed.

Lemma fround_le_1 q :
  nonneg q = true -> place q <= 1 -> place (fround q) <= 1.
Proof.
  intros Nq H. rewrite <- place_one in H |- *.
  replace (place 1) with (place (fround 1)) by (now rewrite fround_1).
  apply fround_mono; auto.
Qed.

Lemma one_lt_max : 1 < pow2 emax.
Proof.
  rewrite <- pow2_0. apply pow2_lt. unfold emax. lia.
Qed.

(** *** The reciprocal of a distance plus epsilon *)

Lemma epsilon_positive_finite : positive_finite 0.001.
Proof. eexists _, _. vm_compute. reflexivity. Qed.

Lemma valueOf_1000 : valueOf 1000 = 1000.
Proof.
  rewrite (valueOf_fraction 1000%float 8796093022208000 43) by (vm_compute; reflexivity).
  assert (H : IZR 8796093022208000 = 1000 * IZR (2 ^ 43)).
  { rewrite <- mult_IZR. f_equal. }
  rewrite H. field. apply not_0_IZR. discriminate.
Qed.

Lemma reciprocal_epsilon : (1 / 0.001)%float = 1000%float.
Proof. reflexivity. Qed.

Lemma place_1000 : place 1000 = 1000.
Proof.
  rewrite finite_nonneg_place by reflexivity. apply valueOf_1000.
Qed.

Lemma add_epsilon_nonneg d : nonneg d = true -> nonneg (d + 0.001) = true.
Proof.
  intros N. apply add_nonneg; [exact N|].
  apply positive_finite_nonneg, epsilon_positive_finite.
Qed.

Lemma reciprocal_nonneg d :
  nonneg d = true -> nonneg (1 / (d + 0.001)) = true.
Proof.
  intros N. apply div_nonneg_r; [apply one_positive_finite|].
  apply add_epsilon_nonneg, N.
Qed.

Lemma reciprocal_le d :
  nonneg d = true -> place (1 / (d + 0.001)) <= 1000.
Proof.
  intros N. rewrite <- place_1000, <- reciprocal_epsilon.
  pose proof (positive_finite_nonneg _ epsilon_positive_finite) as Ne.
  apply div_anti_r; [apply one_positive_finite|exact Ne|apply add_epsilon_nonneg, N|].
  apply add_ge_r; assumption.
Qed.

Lemma reciprocal_finite d :
  nonneg d = true -> finite_nonneg (1 / (d + 0.001)) = true.
Proof.
  intros N. apply finite_of_place; [apply reciprocal_nonneg, N|].
  pose proof (reciprocal_le d N).
  assert (1000 < pow2 emax).
  { apply Rlt_le_trans with (pow2 10); [rewrite (pow2_IZR 10) by lia; simpl; lra|].
    apply pow2_le. unfold emax. lia. }
  lra.
Qed.

Lemma valueOf_epsilon_lt_1 : valueOf 0.001 < 1.
Proof.
  rewrite <- valueOf_1, <- !finite_nonneg_place by reflexivity.
  apply ltb_place; reflexivity.
Qed.

Lemma add_epsilon_finite d :
  finite_nonneg d = true -> positive_finite (d + 0.001).
Proof.
  intros F.
  pose proof (finite_nonneg_nonneg_prim d F) as N.
  pose proof (positive_finite_nonneg _ epsilon_positive_finite) as Ne.
  apply positive_of_place.
  - unfold finite_nonneg in *. rewrite FloatAxioms.add_spec.
    apply (SFadd_small_finite prec emax prec_gt_0 prec_lt_emax);
      auto using valid_double.
    pose proof valueOf_epsilon_lt_1 as H1. unfold valueOf in H1.
    assert (2 <= pow2 (emax - prec)).
    { rewrite <- pow2_1. apply pow2_le. unfold emax, prec. lia. }
    lra.
  - pose proof (add_ge_r d 0.001 N Ne).
    pose proof (positive_finite_place _ epsilon_positive_finite). lra.
Qed.

(** The reciprocal of a positive finite double is not zero. *)
Lemma reciprocal_nonzero s :
  positive_finite s -> positive_finite (1 / s) \/ (1 / s)%float = infinity.
Proof.
  intros (m & e & Hs).
  assert (H : (exists p e', Prim2SF (1 / s) = S754_finite false p e')
              \/ Prim2SF (1 / s) = S754_infinity false).
  { rewrite FloatAxioms.div_spec, Hs.
    change (Prim2SF 1) with (S754_finite false 4503599627370496 (-52)).
    apply (rounds_to_nonzero prec emax prec_gt_0 prec_lt_emax false
             (F2R 4503599627370496 (-52) / F2R (Zpos m) e)).
    - apply (SFdiv_finite prec emax prec_gt_0 prec_lt_emax false _ _ false).
    - pose proof (valid_double s) as V. rewrite Hs in V.
      destruct (valid_finite prec emax prec_gt_0 prec_lt_emax _ _ _ V) as [C E].
      pose proof (finite_lt_pow2_emax prec emax prec_gt_0 prec_lt_emax
                    (Zpos m) e ltac:(lia) C E) as Hlt.
      pose proof (F2R_pos (Zpos m) e ltac:(lia)) as Hpos.
      assert (H1 : F2R 4503599627370496 (-52) = 1).
      { pose proof valueOf_1 as H1. unfold valueOf in H1.
        change (Prim2SF 1) with (S754_finite false 4503599627370496 (-52)) in H1.
        now rewrite SF2R_finite in H1. }
      rewrite H1.
      apply Rle_trans with (pow2 (- emax)).
      + apply pow2_le. unfold SpecFloat.emin, emax, prec. lia.
      + assert (Hinv : pow2 (- emax) * pow2 emax = 1).
        { rewrite <- pow2_add. replace (- emax + emax)%Z with 0%Z by lia. reflexivity. }
        pose proof (pow2_pos emax). pose proof (pow2_pos (- emax)).
        apply Rmult_le_reg_r with (F2R (Zpos m) e); [exact Hpos|].
        unfold Rdiv. rewrite Rmult_assoc, Rinv_l by lra. nra. }
  destruct H as [(p & e' & H)|H].
  - left. exists p, e'. exact H.
  - right. apply Prim2SF_inj. rewrite H. reflexivity.
Qed.

Lemma reciprocal_positive d :
  finite_nonneg d = true -> positive_finite (1 / (d + 0.001)).
Proof.
  intros F. pose proof (finite_nonneg_nonneg_prim d F) as N.
  destruct (reciprocal_nonzero _ (add_epsilon_finite d F)) as [H|H]; [exact H|].
  exfalso. pose proof (reciprocal_finite d N) as Hf. rewrite H in Hf. discriminate.
Qed.

Import SkeletonBuilder.

(** ** Loops as list functions *)

Section Loops.
Context {A B : Type}.

Lemma fold_left_push (f : A -> B) (l : list A) (acc : list B) :
  fold_left (fun acc x => acc ++ [f x]) l acc = acc ++ map f l.
Proof.
  revert acc; induction l as [|x l IH]; intros acc; simpl.
  - now rewrite app_nil_r.
  - rewrite IH, <- app_assoc. reflexivity.
Qed.

Lemma fold_left_push_guarded (g : A -> option B) (l : list A) (acc : list B) :
  fold_left (fun acc x => match g x with Some y => acc ++ [y] | None => acc end)
            l acc
  = acc ++ omap g l.
Proof.
  revert acc; induction l as [|x l IH]; intros acc; simpl.
  - now rewrite app_nil_r.
  - rewrite IH. destruct (g x); simpl; [|reflexivity].
    now rewrite <- app_assoc.
Qed.

Lemma fold_left_same (f g : B -> A -> B) (l : list A) (acc : B) :
  (forall b x, f b x = g b x) -> fold_left f l acc = fold_left g l acc.
Proof.
  intros Hfg. revert acc; induction l as [|x l IH]; intros acc; simpl.
  - reflexivity.
  - now rewrite Hfg, IH.
Qed.
End Loops.

Lemma bonePositionsOf_map skeleton :
  bonePositionsOf skeleton = map getWorldPosition (bones skeleton).
Proof. unfold bonePositionsOf. now rewrite fold_left_push. Qed.

Lemma omap_lookup_seq vertex (l pre : list Float64.Vector3) (start : nat) :
  length pre = start ->
  omap (fun j => (fun bonePos => mkEntry j (Float64.distanceTo vertex bonePos))
                   <$> (pre ++ l) !! j)
       (seq start (length l))
  = entriesFrom vertex start l.
Proof.
  revert start pre; induction l as [|x l IH]; intros start pre Hpre; simpl.
  - reflexivity.
  - rewrite lookup_app_r by lia. rewrite Hpre, Nat.sub_diag. simpl.
    f_equal.
    replace (pre ++ x :: l) with ((pre ++ [x]) ++ l)
      by (now rewrite <- app_assoc).
    apply (IH (S start) (pre ++ [x])).
    rewrite length_app. simpl. lia.
Qed.

Lemma boneDistances_entries vertex (bonePositions : list Float64.Vector3) :
  boneDistances vertex bonePositions (length bonePositions)
  = entriesFrom vertex 0 bonePositions.
Proof.
  unfold boneDistances.
  rewrite (fold_left_same _
             (fun acc j =>
                match (fun bonePos => mkEntry j (Float64.distanceTo vertex bonePos))
                        <$> bonePositions !! j with
                | Some y => acc ++ [y]
                | None => acc
                end))
    by (intros b j; now destruct (bonePositions !! j)).
  rewrite (fold_left_push_guarded
             (fun j => (fun bonePos => mkEntry j (Float64.distanceTo vertex bonePos))
                         <$> bonePositions !! j)).
  simpl. apply (omap_lookup_seq vertex bonePositions [] 0%nat). reflexivity.
Qed.

(** ** The weight and slot loops *)

Lemma inverseDistanceWeights_spec closest :
  inverseDistanceWeights closest
  = (totalWeight closest, map rawWeight closest).
Proof.
  unfold inverseDistanceWeights, totalWeight.
  assert (G : forall l total ws,
    fold_left
      (fun '(totalWeight, weights) entry =>
         let weight := (1 / (distance entry + 0.001))%float in
         ((totalWeight + weight)%float, weights ++ [weight])) l (total, ws)
    = (fold_left (fun total entry => (total + rawWeight entry)%float) l total,
       ws ++ map rawWeight l)).
  { induction l as [|e l IH]; intros total ws; simpl.
    - now rewrite app_nil_r.
    - rewrite IH. rewrite <- app_assoc. reflexivity. }
  rewrite G. reflexivity.
Qed.

Lemma map_lookup_seq {A B : Type} (f : A -> B) (d : B) (l : list A) (k : nat) :
  map (fun j => match l !! j with Some a => f a | None => d end) (seq 0 k)
  = map f (take k l) ++ replicate (k - length l) d.
Proof.
  revert l; induction k as [|k IH]; intros l.
  - reflexivity.
  - simpl seq. rewrite <- seq_shift, map_cons, map_map.
    destruct l as [|x l]; simpl.
    + f_equal. specialize (IH []). simpl in IH.
      now rewrite take_nil, Nat.sub_0_r in IH.
    + f_equal. apply IH.
Qed.

Lemma pushInfluences_spec closest total k acc :
  pushInfluences closest (map rawWeight closest) total k acc
  = (acc.1 ++ map index (take k closest) ++ replicate (k - length closest) 0%nat,
     acc.2 ++ map (fun e => (rawWeight e / total)%float) (take k closest)
           ++ replicate (k - length closest) 0%float).
Proof.
  unfold pushInfluences.
  rewrite <- (map_lookup_seq index 0%nat closest k).
  rewrite <- (map_lookup_seq (fun e => (rawWeight e / total)%float) 0%float closest k).
  generalize (seq 0 k) as js. intros js. revert acc.
  induction js as [|j js IH]; intros [idxs ws]; simpl.
  - now rewrite !app_nil_r.
  - rewrite list_lookup_fmap.
    destruct (closest !! j) as [e|]; simpl; rewrite IH; simpl;
      now rewrite <- !app_assoc.
Qed.

Lemma skinVertex_spec positions skeleton k acc v :
  skinVertex positions (bonePositionsOf skeleton) (length (bones skeleton)) k acc v
  = (acc.1 ++ vertexIndices positions skeleton k v,
     acc.2 ++ vertexWeights positions skeleton k v).
Proof.
  unfold skinVertex, vertexIndices, vertexWeights.
  fold (closestOf positions skeleton k v).
  rewrite inverseDistanceWeights_spec, pushInfluences_spec.
  assert (T : take k (closestOf positions skeleton k v)
              = closestOf positions skeleton k v).
  { unfold closestOf, closestBones. rewrite take_take. f_equal. lia. }
  now rewrite T.
Qed.

Lemma skin_loop_spec positions skeleton k (vs : list nat) acc :
  fold_left (skinVertex positions (bonePositionsOf skeleton)
                        (length (bones skeleton)) k) vs acc
  = (acc.1 ++ flat_map (vertexIndices positions skeleton k) vs,
     acc.2 ++ flat_map (vertexWeights positions skeleton k) vs).
Proof.
  revert acc; induction vs as [|v vs IH]; intros [idxs ws]; simpl.
  - now rewrite !app_nil_r.
  - rewrite skinVertex_spec, IH. simpl. now rewrite <- !app_assoc.
Qed.

(** What [autoSkin] returns on a geometry that has positions. *)
Lemma autoSkin_spec geometry skeleton k positions :
  getAttribute geometry "position" = Some positions ->
  autoSkin geometry skeleton k
  = setAttribute
      (setAttribute geometry "skinIndex"
         (Uint16BufferAttribute
            (flat_map (vertexIndices positions skeleton k) (seq 0 (count positions)))
            k))
      "skinWeight"
      (Float32BufferAttribute
         (flat_map (vertexWeights positions skeleton k) (seq 0 (count positions)))
         k).
Proof.
  intros Hpos. unfold autoSkin. rewrite Hpos. cbv zeta.
  rewrite skin_loop_spec. reflexivity.
Qed.

(** ** Computed distances *)

Lemma nan_or_nonneg_mul_self x : nan_or_nonneg_SF (Prim2SF (x * x)) = true.
Proof. rewrite FloatAxioms.mul_spec. apply SFmul_self_nn. Qed.

Lemma nan_or_nonneg_add x y :
  nan_or_nonneg_SF (Prim2SF x) = true -> nan_or_nonneg_SF (Prim2SF y) = true ->
  nan_or_nonneg_SF (Prim2SF (x + y)) = true.
Proof. rewrite FloatAxioms.add_spec. apply SFadd_nn. Qed.

Lemma nan_or_nonneg_sqrt x :
  nan_or_nonneg_SF (Prim2SF x) = true ->
  nan_or_nonneg_SF (Prim2SF (PrimFloat.sqrt x)) = true.
Proof. rewrite FloatAxioms.sqrt_spec. apply SFsqrt_nn. Qed.

(** A computed distance is NaN or it is not negative. *)
Lemma distanceTo_nonneg a b :
  is_nan (Float64.distanceTo a b) = false ->
  nonneg (Float64.distanceTo a b) = true.
Proof.
  rewrite is_nan_SF_spec. intros Hn.
  assert (H : nan_or_nonneg_SF (Prim2SF (Float64.distanceTo a b)) = true).
  { unfold Float64.distanceTo, Float64.distanceToSquared.
    apply nan_or_nonneg_sqrt.
    repeat apply nan_or_nonneg_add; apply nan_or_nonneg_mul_self. }
  unfold nan_or_nonneg_SF in H. rewrite Hn in H. exact H.
Qed.

(** ** The stable sort *)

Lemma insertByDistance_perm a l : Permutation (insertByDistance a l) (a :: l).
Proof.
  induction l as [|b l IH]; simpl.
  - reflexivity.
  - destruct (0 <? distance a - distance b)%float.
    + rewrite IH. apply perm_swap.
    + reflexivity.
Qed.

Lemma sortByDistance_perm l : Permutation (sortByDistance l) l.
Proof.
  induction l as [|a l IH]; simpl.
  - reflexivity.
  - rewrite insertByDistance_perm. now constructor.
Qed.

(** An entry whose distance is not NaN. *)
Local Abbreviation measured := (fun e : DistanceEntry => nonneg (distance e) = true).

Lemma entryBefore_place a b :
  measured a -> measured b ->
  (entryBefore a b <->
   place (distance a) < place (distance b) \/
   (place (distance a) = place (distance b) /\ (index a < index b)%nat)).
Proof.
  intros Ha Hb. unfold entryBefore.
  rewrite (ltb_place _ _ (nonneg_not_nan_prim _ Ha) (nonneg_not_nan_prim _ Hb)).
  rewrite (eqb_place _ _ (nonneg_not_nan_prim _ Ha) (nonneg_not_nan_prim _ Hb)).
  reflexivity.
Qed.

Lemma insertByDistance_sorted a l :
  measured a -> Forall measured l ->
  StronglySorted entryBefore l ->
  Forall (indexBefore a) l ->
  StronglySorted entryBefore (insertByDistance a l).
Proof.
  intros Ma Ml Hs. revert Ml.
  induction Hs as [|b l Hs IH Hb]; intros Ml Ha; simpl.
  - repeat constructor.
  - inversion Ha as [|? ? Hab Hal]; subst.
    inversion Ml as [|? ? Mb Ml']; subst.
    rewrite (sub_sign _ _ Ma Mb).
    destruct (distance b <? distance a)%float eqn:E.
    + constructor; [now apply IH|].
      rewrite (insertByDistance_perm a l). constructor; [|exact Hb].
      left. exact E.
    + apply ltb_false_place in E; auto using nonneg_not_nan_prim.
      constructor; [now constructor|].
      constructor.
      * apply entryBefore_place; auto. unfold indexBefore in Hab.
        destruct (Req_dec (place (distance a)) (place (distance b)));
          [right; split; [assumption|lia] | left; lra].
      * rewrite Forall_forall in Hb, Hal, Ml' |- *. intros c Hc.
        pose proof (Hb c Hc) as Hbc.
        apply entryBefore_place in Hbc; auto.
        specialize (Hal c Hc). unfold indexBefore in Hal.
        apply entryBefore_place; auto.
        destruct (Req_dec (place (distance a)) (place (distance c)));
          [right; split; [assumption|lia] | left; lra].
Qed.

Lemma sortByDistance_sorted l :
  Forall measured l ->
  StronglySorted indexBefore l -> StronglySorted entryBefore (sortByDistance l).
Proof.
  intros Ml Hs. induction Hs as [|a l Hs IH Ha]; simpl.
  - constructor.
  - inversion Ml as [|? ? Ma Ml']; subst.
    apply insertByDistance_sorted; auto.
    + now rewrite (sortByDistance_perm l).
    + now rewrite (sortByDistance_perm l).
Qed.

Lemma StronglySorted_app_cross {A : Type} (P : A -> A -> Prop) (l1 l2 : list A) :
  StronglySorted P (l1 ++ l2) ->
  forall a b, a ∈ l1 -> b ∈ l2 -> P a b.
Proof.
  induction l1 as [|x l1 IH]; intros Hs a b Ha Hb; simpl in *.
  - now apply elem_of_nil in Ha.
  - inversion Hs as [|? ? Hs' Hx]; subst.
    apply elem_of_cons in Ha. destruct Ha as [->|Ha].
    + rewrite Forall_forall in Hx. apply Hx, elem_of_app. now right.
    + now apply IH.
Qed.

(** ** The entries of one vertex *)

Lemma entriesFrom_length vertex start l :
  length (entriesFrom vertex start l) = length l.
Proof. revert start; induction l; intros; simpl; auto. Qed.

Lemma entriesFrom_elem vertex start l e :
  e ∈ entriesFrom vertex start l <->
  exists j p, l !! j = Some p /\
    e = mkEntry (start + j) (Float64.distanceTo vertex p).
Proof.
  revert start; induction l as [|q l IH]; intros start; simpl.
  - split; [intros H; now apply elem_of_nil in H|].
    intros (j & p & H & _). discriminate.
  - rewrite elem_of_cons, IH. split.
    + intros [->|(j & p & Hj & ->)].
      * exists 0%nat, q. split; [reflexivity|]. now rewrite Nat.add_0_r.
      * exists (S j), p. split; [exact Hj|]. f_equal. lia.
    + intros ([|j] & p & Hj & ->); simpl in Hj.
      * left. injection Hj as ->. now rewrite Nat.add_0_r.
      * right. exists j, p. split; [exact Hj|]. f_equal. lia.
Qed.

Lemma entriesFrom_sorted vertex start l :
  StronglySorted indexBefore (entriesFrom vertex start l).
Proof.
  revert start; induction l as [|q l IH]; intros start; simpl.
  - constructor.
  - constructor; [apply IH|].
    rewrite Forall_forall. intros e He.
    apply entriesFrom_elem in He. destruct He as (j & p & _ & ->).
    unfold indexBefore. simpl. lia.
Qed.

Lemma allEntries_elem positions skeleton v e :
  e ∈ allEntries positions skeleton v <->
  (index e < length (bones skeleton))%nat /\
  distance e = boneDistance positions skeleton v (index e).
Proof.
  unfold allEntries. rewrite entriesFrom_elem. unfold boneDistance. split.
  - intros (j & p & Hj & ->). simpl.
    rewrite list_lookup_fmap in Hj.
    destruct (bones skeleton !! j) as [b|] eqn:Hb; [|discriminate].
    injection Hj as <-. split; [|reflexivity].
    now apply lookup_lt_Some in Hb.
  - intros [Hlt Hd].
    destruct (lookup_lt_is_Some_2 _ _ Hlt) as [b Hb]. rewrite Hb in Hd.
    exists (index e), (getWorldPosition b). split.
    + now rewrite list_lookup_fmap, Hb.
    + destruct e as [i d]. simpl in *. now subst d.
Qed.

Lemma allEntries_distanceTo positions skeleton v e :
  e ∈ allEntries positions skeleton v ->
  exists p, distance e = Float64.distanceTo (fromBufferAttribute positions v) p.
Proof.
  unfold allEntries. rewrite entriesFrom_elem.
  intros (j & p & _ & ->). exists p. reflexivity.
Qed.

(** When no distance of the vertex is NaN, none is negative. *)
Lemma comparable_measured positions skeleton v :
  comparable positions skeleton v = true ->
  Forall measured (allEntries positions skeleton v).
Proof.
  unfold comparable. rewrite forallb_forall, Forall_forall.
  intros H e He.
  destruct (allEntries_distanceTo _ _ _ _ He) as (p & Hp).
  specialize (H e (proj1 (list_elem_of_In _ _) He)).
  apply negb_true_iff in H. rewrite Hp in *.
  apply distanceTo_nonneg. exact H.
Qed.

Lemma closestOf_unfold positions skeleton k v :
  closestOf positions skeleton k v
  = take k (sortByDistance (allEntries positions skeleton v)).
Proof.
  unfold closestOf, closestBones, allEntries.
  rewrite bonePositionsOf_map.
  rewrite <- (length_map getWorldPosition (bones skeleton)).
  now rewrite boneDistances_entries.
Qed.

Lemma closestOf_length positions skeleton k v :
  length (closestOf positions skeleton k v) = Nat.min k (length (bones skeleton)).
Proof.
  rewrite closestOf_unfold, length_take.
  rewrite (Permutation_length (sortByDistance_perm _)).
  unfold allEntries. now rewrite entriesFrom_length, length_map.
Qed.

Lemma closestOf_allEntries positions skeleton k v e :
  e ∈ closestOf positions skeleton k v -> e ∈ allEntries positions skeleton v.
Proof.
  rewrite closestOf_unfold. intros He.
  rewrite <- (sortByDistance_perm (allEntries positions skeleton v)).
  rewrite <- (take_drop k). apply elem_of_app. now left.
Qed.

Lemma closestOf_elem positions skeleton k v e :
  e ∈ closestOf positions skeleton k v ->
  (index e < length (bones skeleton))%nat /\
  distance e = boneDistance positions skeleton v (index e).
Proof. intros He. apply allEntries_elem. eapply closestOf_allEntries, He. Qed.

Lemma closestOf_measured positions skeleton k v :
  comparable positions skeleton v = true ->
  Forall measured (closestOf positions skeleton k v).
Proof.
  intros Hc. pose proof (comparable_measured _ _ _ Hc) as H.
  rewrite Forall_forall in H |- *. intros e He.
  apply H. eapply closestOf_allEntries, He.
Qed.

Lemma sorted_entries positions skeleton v :
  comparable positions skeleton v = true ->
  StronglySorted entryBefore (sortByDistance (allEntries positions skeleton v)).
Proof.
  intros Hc. apply sortByDistance_sorted.
  - apply comparable_measured, Hc.
  - apply entriesFrom_sorted.
Qed.

Lemma closestOf_sorted positions skeleton k v :
  comparable positions skeleton v = true ->
  StronglySorted entryBefore (closestOf positions skeleton k v).
Proof.
  intros Hc. rewrite closestOf_unfold.
  pose proof (sorted_entries positions skeleton v Hc) as Hs.
  revert k. induction Hs as [|a l Hs IH Ha]; intros [|k]; simpl;
    try constructor.
  - apply IH.
  - rewrite Forall_forall in Ha |- *. intros x Hx. apply Ha.
    rewrite <- (take_drop k l). apply elem_of_app. now left.
Qed.

Lemma indexBefore_NoDup l :
  StronglySorted indexBefore l -> NoDup (map index l).
Proof.
  induction 1 as [|a l Hs IH Ha]; simpl; constructor; [|exact IH].
  rewrite Forall_forall in Ha. intros Hin.
  apply list_elem_of_fmap in Hin. destruct Hin as (b & Hab & Hb).
  specialize (Ha b Hb). unfold indexBefore in Ha. lia.
Qed.

Lemma closestOf_NoDup positions skeleton k v :
  NoDup (map index (closestOf positions skeleton k v)).
Proof.
  rewrite closestOf_unfold.
  assert (H : NoDup (map index (sortByDistance (allEntries positions skeleton v)))).
  { rewrite (sortByDistance_perm (allEntries positions skeleton v)).
    apply indexBefore_NoDup, entriesFrom_sorted. }
  rewrite <- (take_drop k (sortByDistance _)), map_app in H.
  now apply NoDup_app in H.
Qed.

Lemma closestOf_preferred positions skeleton k v e j :
  comparable positions skeleton v = true ->
  e ∈ closestOf positions skeleton k v ->
  (j < length (bones skeleton))%nat ->
  j ∉ map index (closestOf positions skeleton k v) ->
  preferred positions skeleton v (index e) j.
Proof.
  intros Hc He Hj Hnot.
  pose proof (closestOf_elem _ _ _ _ _ He) as [_ Hde].
  set (ej := mkEntry j (boneDistance positions skeleton v j)).
  assert (Hall : ej ∈ sortByDistance (allEntries positions skeleton v)).
  { rewrite (sortByDistance_perm (allEntries positions skeleton v)).
    apply allEntries_elem. now split. }
  rewrite closestOf_unfold in He, Hnot.
  rewrite <- (take_drop k (sortByDistance _)) in Hall.
  apply elem_of_app in Hall. destruct Hall as [Hsel|Hrest].
  - exfalso. apply Hnot. apply list_elem_of_fmap. now exists ej.
  - pose proof (sorted_entries positions skeleton v Hc) as Hs.
    rewrite <- (take_drop k (sortByDistance _)) in Hs.
    pose proof (StronglySorted_app_cross _ _ _ Hs e ej He Hrest) as Hb.
    unfold preferred, entryBefore in *. simpl in Hb. now rewrite <- Hde.
Qed.

(** ** Vertex-major layout *)

Section Layout.
Context {A : Type} (f : nat -> list A) (k : nat).
Hypothesis f_length : forall i, length (f i) = k.

Lemma flat_map_seq_length n : length (flat_map f (seq 0 n)) = (n * k)%nat.
Proof.
  rewrite (flat_map_constant_length (c := k)) by (intros; apply f_length).
  now rewrite length_seq.
Qed.

Lemma flat_map_seq_drop n v :
  (v < n)%nat ->
  drop (v * k) (flat_map f (seq 0 n))
  = f v ++ flat_map f (seq (S v) (n - S v)).
Proof.
  intros Hv.
  replace n with (v + S (n - S v))%nat at 1 by lia.
  rewrite seq_app, flat_map_app. simpl.
  rewrite drop_app_length'; [reflexivity|].
  now rewrite flat_map_seq_length.
Qed.

Lemma flat_map_seq_item n v :
  (v < n)%nat -> take k (drop (v * k) (flat_map f (seq 0 n))) = f v.
Proof.
  intros Hv. rewrite flat_map_seq_drop by exact Hv.
  rewrite take_app_length'; [reflexivity|]. now rewrite f_length.
Qed.

Lemma flat_map_seq_lookup n v a :
  (v < n)%nat -> (a < k)%nat ->
  flat_map f (seq 0 n) !! (v * k + a)%nat = f v !! a.
Proof.
  intros Hv Ha. rewrite <- lookup_drop, flat_map_seq_drop by exact Hv.
  apply lookup_app_l. now rewrite f_length.
Qed.
End Layout.

Lemma map_flat_map {A B : Type} (g : A -> B) (f : nat -> list A) (l : list nat) :
  map g (flat_map f l) = flat_map (fun v => map g (f v)) l.
Proof.
  induction l as [|x l IH]; cbn [flat_map map]; [reflexivity|].
  now rewrite map_app, IH.
Qed.

Lemma vertexIndices_length positions skeleton k v :
  length (vertexIndices positions skeleton k v) = k.
Proof.
  unfold vertexIndices.
  rewrite length_app, length_map, length_replicate, closestOf_length. lia.
Qed.

Lemma vertexWeights_length positions skeleton k v :
  length (vertexWeights positions skeleton k v) = k.
Proof.
  unfold vertexWeights.
  rewrite length_app, length_map, length_replicate, closestOf_length. lia.
Qed.

Lemma autoSkin_skinWeight geometry skeleton k positions :
  getAttribute geometry "position" = Some positions ->
  getAttribute (autoSkin geometry skeleton k) "skinWeight"
  = Some (Float32BufferAttribute
            (flat_map (vertexWeights positions skeleton k) (seq 0 (count positions)))
            k).
Proof.
  intros Hpos. rewrite (autoSkin_spec _ _ _ _ Hpos).
  unfold getAttribute, setAttribute. simpl. apply lookup_insert_eq.
Qed.

Lemma autoSkin_skinIndex geometry skeleton k positions :
  getAttribute geometry "position" = Some positions ->
  getAttribute (autoSkin geometry skeleton k) "skinIndex"
  = Some (Uint16BufferAttribute
            (flat_map (vertexIndices positions skeleton k) (seq 0 (count positions)))
            k).
Proof.
  intros Hpos. rewrite (autoSkin_spec _ _ _ _ Hpos).
  unfold getAttribute, setAttribute. simpl.
  rewrite lookup_insert_ne by discriminate. apply lookup_insert_eq.
Qed.

Lemma toUint16_0 : toUint16 0 = 0%float.
Proof. reflexivity. Qed.

Lemma fround_0 : fround 0 = 0%float.
Proof. reflexivity. Qed.

(** ** Reading the slots of a vertex *)

Section Slots.
Variables (geometry : BufferGeometry) (skeleton : Skeleton) (k : nat).
Variable positions : BufferAttribute.
Hypothesis has_positions : getAttribute geometry "position" = Some positions.

Lemma autoSkin_weight_at v a :
  (v < count positions)%nat -> (a < k)%nat ->
  exists skinWeight,
    getAttribute (autoSkin geometry skeleton k) "skinWeight" = Some skinWeight /\
    itemSize skinWeight = k /\
    length (array skinWeight) = (count positions * k)%nat /\
    array skinWeight !! (v * k + a)%nat
    = map fround (vertexWeights positions skeleton k v) !! a.
Proof.
  intros Hv Ha. eexists.
  split; [apply (autoSkin_skinWeight _ _ _ _ has_positions)|].
  simpl. rewrite map_flat_map. split; [reflexivity|]. split.
  - apply flat_map_seq_length. intros. now rewrite length_map, vertexWeights_length.
  - apply (flat_map_seq_lookup
             (fun v => map fround (vertexWeights positions skeleton k v))); auto.
    intros. now rewrite length_map, vertexWeights_length.
Qed.

Lemma autoSkin_index_at v a :
  (v < count positions)%nat -> (a < k)%nat ->
  exists skinIndex,
    getAttribute (autoSkin geometry skeleton k) "skinIndex" = Some skinIndex /\
    itemSize skinIndex = k /\
    length (array skinIndex) = (count positions * k)%nat /\
    array skinIndex !! (v * k + a)%nat
    = map toUint16 (vertexIndices positions skeleton k v) !! a.
Proof.
  intros Hv Ha. eexists.
  split; [apply (autoSkin_skinIndex _ _ _ _ has_positions)|].
  simpl. rewrite map_flat_map. split; [reflexivity|]. split.
  - apply flat_map_seq_length. intros. now rewrite length_map, vertexIndices_length.
  - apply (flat_map_seq_lookup
             (fun v => map toUint16 (vertexIndices positions skeleton k v))); auto.
    intros. now rewrite length_map, vertexIndices_length.
Qed.

Lemma autoSkin_weights_item v :
  (v < count positions)%nat ->
  exists skinWeight,
    getAttribute (autoSkin geometry skeleton k) "skinWeight" = Some skinWeight /\
    itemOf skinWeight v = map fround (vertexWeights positions skeleton k v).
Proof.
  intros Hv. eexists.
  split; [apply (autoSkin_skinWeight _ _ _ _ has_positions)|].
  unfold itemOf. cbn [array itemSize Float32BufferAttribute].
  rewrite map_flat_map.
  apply (flat_map_seq_item
           (fun v => map fround (vertexWeights positions skeleton k v))); auto.
  intros. now rewrite length_map, vertexWeights_length.
Qed.

Lemma selected_lt v a e :
  closestOf positions skeleton k v !! a = Some e ->
  (a < k)%nat /\ (a < length (bones skeleton))%nat.
Proof.
  intros He. apply lookup_lt_Some in He. rewrite closestOf_length in He. lia.
Qed.

Lemma vertexWeights_selected v a e :
  closestOf positions skeleton k v !! a = Some e ->
  vertexWeights positions skeleton k v !! a
  = Some (rawWeight e / totalWeight (closestOf positions skeleton k v))%float.
Proof.
  intros He. unfold vertexWeights. apply lookup_app_l_Some.
  now rewrite list_lookup_fmap, He.
Qed.




(** The weight stored in the slot of a selected bone. *)
Lemma autoSkin_stored_weight v a e :
  (v < count positions)%nat ->
  closestOf positions skeleton k v !! a = Some e ->
  exists skinWeight,
    getAttribute (autoSkin geometry skeleton k) "skinWeight" = Some skinWeight /\
    array skinWeight !! (v * k + a)%nat
    = Some (fround (rawWeight e / totalWeight (closestOf positions skeleton k v))).
Proof.
  intros Hv He.
  destruct (selected_lt _ _ _ He) as [Hak _].
  destruct (autoSkin_weight_at v a Hv Hak) as (sw & Hsw & _ & _ & Hwa).
  exists sw. split; [exact Hsw|].
  rewrite Hwa, list_lookup_fmap, (vertexWeights_selected _ _ _ He). reflexivity.
Qed.
End Slots.

(** ** Raw weights and their total *)

Lemma rawWeight_nonneg e :
  nonneg (distance e) = true -> nonneg (rawWeight e) = true.
Proof.
  intros H. unfold rawWeight.
  apply div_nonneg_r; [apply one_positive_finite|].
  apply add_nonneg; [exact H|].
  apply positive_finite_nonneg, epsilon_positive_finite.
Qed.

(** A bone that is not farther has a raw weight that is not smaller. *)
Lemma rawWeight_anti a b :
  nonneg (distance a) = true -> nonneg (distance b) = true ->
  place (distance a) <= place (distance b) ->
  place (rawWeight b) <= place (rawWeight a).
Proof.
  intros Ha Hb H. unfold rawWeight.
  pose proof (positive_finite_nonneg _ epsilon_positive_finite) as He.
  apply div_anti_r; [apply one_positive_finite| | |].
  - apply add_nonneg; assumption.
  - apply add_nonneg; assumption.
  - apply add_mono_l; assumption.
Qed.

Lemma fold_total_nonneg l t :
  nonneg t = true ->
  Forall (fun e => nonneg (distance e) = true) l ->
  nonneg (fold_left (fun total entry => (total + rawWeight entry)%float) l t) = true.
Proof.
  revert t. induction l as [|e l IH]; intros t Ht Hl; simpl; [exact Ht|].
  inversion Hl as [|? ? He Hl']; subst.
  apply IH; [|exact Hl'].
  apply add_nonneg; [exact Ht|]. apply rawWeight_nonneg, He.
Qed.

Lemma totalWeight_nonneg l :
  Forall (fun e => nonneg (distance e) = true) l -> nonneg (totalWeight l) = true.
Proof. intros H. apply fold_total_nonneg; [reflexivity|exact H]. Qed.

(** [totalWeight] in terms of the distances of the bones. *)
Lemma totalWeight_boneDistance positions skeleton k v :
  totalWeight (closestOf positions skeleton k v)
  = fold_left
      (fun total e' =>
         (total + 1 / (boneDistance positions skeleton v (index e') + 0.001))%float)
      (closestOf positions skeleton k v) 0%float.
Proof.
  unfold totalWeight.
  assert (H : forall e', e' ∈ closestOf positions skeleton k v ->
            rawWeight e'
            = (1 / (boneDistance positions skeleton v (index e') + 0.001))%float).
  { intros e' He'. apply closestOf_elem in He'. destruct He' as [_ Hd].
    unfold rawWeight. now rewrite Hd. }
  revert H. generalize (closestOf positions skeleton k v) as l.
  generalize 0%float as t.
  intros t l. revert t. induction l as [|e l IH]; intros t H; simpl; [reflexivity|].
  rewrite (H e) by (apply elem_of_cons; left; reflexivity).
  apply IH. intros e' He'. apply H. apply elem_of_cons. right. exact He'.
Qed.

(** * The skinning claims *)

(** C8.  On a geometry with a position attribute and a skeleton with at least
    one bone, [autoSkin] sets [skinIndex] and [skinWeight] to arrays of exactly
    [vertexCount * k] entries each, in vertex-major order: entry [a] of the [k]
    entries computed for vertex [v] sits at position [v * k + a], the index
    as a 16-bit integer and the weight as a single. *)
Theorem autoSkin_vertex_major geometry skeleton k positions :
  getAttribute geometry "position" = Some positions ->
  bones skeleton <> [] ->
  exists skinIndex skinWeight,
    getAttribute (autoSkin geometry skeleton k) "skinIndex" = Some skinIndex /\
    getAttribute (autoSkin geometry skeleton k) "skinWeight" = Some skinWeight /\
    length (array skinIndex) = (count positions * k)%nat /\
    length (array skinWeight) = (count positions * k)%nat /\
    itemSize skinIndex = k /\ itemSize skinWeight = k /\
    forall v, (v < count positions)%nat ->
      length (vertexIndices positions skeleton k v) = k /\
      length (vertexWeights positions skeleton k v) = k /\
      forall a, (a < k)%nat ->
        array skinIndex !! (v * k + a)%nat
        = map toUint16 (vertexIndices positions skeleton k v) !! a /\
        array skinWeight !! (v * k + a)%nat
        = map fround (vertexWeights positions skeleton k v) !! a.
Proof.
  intros Hpos _.
  eexists; eexists.
  split; [apply (autoSkin_skinIndex _ _ _ _ Hpos)|].
  split; [apply (autoSkin_skinWeight _ _ _ _ Hpos)|].
  cbn [array itemSize Uint16BufferAttribute Float32BufferAttribute].
  rewrite !map_flat_map.
  split; [apply flat_map_seq_length; intros;
          now rewrite length_map, vertexIndices_length|].
  split; [apply flat_map_seq_length; intros;
          now rewrite length_map, vertexWeights_length|].
  split; [reflexivity|]. split; [reflexivity|].
  intros v Hv. split; [apply vertexIndices_length|].
  split; [apply vertexWeights_length|].
  intros a Ha. split.
  - apply (flat_map_seq_lookup
             (fun v => map toUint16 (vertexIndices positions skeleton k v))); auto.
    intros. now rewrite length_map, vertexIndices_length.
  - apply (flat_map_seq_lookup
             (fun v => map fround (vertexWeights positions skeleton k v))); auto.
    intros. now rewrite length_map, vertexWeights_length.
Qed.

Lemma sample_has_positions :
  getAttribute sampleGeometry "position" = Some samplePositions.
Proof. reflexivity. Qed.

Lemma sample_count : count samplePositions = 2%nat.
Proof. reflexivity. Qed.

Lemma autoSkin_vertex_major_witness :
  getAttribute sampleGeometry "position" = Some samplePositions /\
  bones twoBones <> [] /\
  exists skinIndex skinWeight,
    getAttribute (autoSkin sampleGeometry twoBones 4) "skinIndex" = Some skinIndex /\
    getAttribute (autoSkin sampleGeometry twoBones 4) "skinWeight" = Some skinWeight /\
    length (array skinIndex) = (count samplePositions * 4)%nat /\
    length (array skinWeight) = (count samplePositions * 4)%nat /\
    itemSize skinIndex = 4%nat /\ itemSize skinWeight = 4%nat /\
    forall v, (v < count samplePositions)%nat ->
      length (vertexIndices samplePositions twoBones 4 v) = 4%nat /\
      length (vertexWeights samplePositions twoBones 4 v) = 4%nat /\
      forall a, (a < 4)%nat ->
        array skinIndex !! (v * 4 + a)%nat
        = map toUint16 (vertexIndices samplePositions twoBones 4 v) !! a /\
        array skinWeight !! (v * 4 + a)%nat
        = map fround (vertexWeights samplePositions twoBones 4 v) !! a.
Proof.
  split; [reflexivity|]. split; [discriminate|].
  apply (autoSkin_vertex_major sampleGeometry twoBones 4 samplePositions);
    [reflexivity | discriminate].
Defined.

(** The selection for the first sample vertex. *)
Lemma sample_closest :
  closestOf samplePositions twoBones 4 0 = [mkEntry 0 0; mkEntry 1 1].
Proof. vm_compute. reflexivity. Qed.


(** ** Exact values of some doubles *)

Local Arguments valueOf : simpl never.

Lemma cross_multiply a b c d : b <> 0 -> d <> 0 -> a / b = c / d -> a * d = c * b.
Proof.
  intros Hb Hd H. replace a with (a / b * b) by (field; exact Hb).
  rewrite H. field. exact Hd.
Qed.

(** C5 (amended).  The weight written for the selected bone of slot [a] is
    the single nearest to [(1 / (d + 0.001)) / total], where the quotients and
    sums are those of double arithmetic, [d] is the distance computed for the
    bone and [total] adds the [1 / (d' + 0.001)] of the selected bones to [0]
    in the order of the slots. *)
Theorem autoSkin_weight_formula geometry skeleton k positions v a e :
  getAttribute geometry "position" = Some positions ->
  (v < count positions)%nat ->
  closestOf positions skeleton k v !! a = Some e ->
  exists skinWeight,
    getAttribute (autoSkin geometry skeleton k) "skinWeight" = Some skinWeight /\
    array skinWeight !! (v * k + a)%nat
    = Some (fround
              (1 / (boneDistance positions skeleton v (index e) + 0.001)
               / fold_left
                   (fun total e' =>
                      total + 1 / (boneDistance positions skeleton v (index e') + 0.001))
                   (closestOf positions skeleton k v) 0)%float).
Proof.
  intros Hpos Hv He.
  destruct (autoSkin_stored_weight geometry skeleton k positions Hpos v a e Hv He)
    as (sw & Hsw & Hwa).
  exists sw. split; [exact Hsw|].
  rewrite Hwa, totalWeight_boneDistance.
  apply list_elem_of_lookup_2, closestOf_elem in He. destruct He as [_ Hd].
  unfold rawWeight. now rewrite Hd.
Qed.

Lemma autoSkin_weight_formula_witness :
  exists skinWeight,
    getAttribute (autoSkin sampleGeometry twoBones 4) "skinWeight" = Some skinWeight /\
    array skinWeight !! (0 * 4 + 1)%nat
    = Some (fround
              (1 / (boneDistance samplePositions twoBones 0 1 + 0.001)
               / fold_left
                   (fun total e' =>
                      total + 1 / (boneDistance samplePositions twoBones 0 (index e') + 0.001))
                   (closestOf samplePositions twoBones 4 0) 0)%float).
Proof.
  apply (autoSkin_weight_formula sampleGeometry twoBones 4 samplePositions 0 1
           (mkEntry 1 1)).
  - reflexivity.
  - rewrite sample_count. lia.
  - now rewrite sample_closest.
Defined.

Lemma sample_exactDistance_root : exactDistance samplePositions twoBones 0 0 = 0.
Proof.
  unfold exactDistance, euclideanDistance, exactPosition. cbn.
  rewrite ?valueOf_0.
  match goal with |- sqrt ?x = _ => replace x with 0 by lra end.
  apply sqrt_0.
Qed.

Lemma sample_exactDistance_hips : exactDistance samplePositions twoBones 0 1 = 1.
Proof.
  unfold exactDistance, euclideanDistance, exactPosition. cbn.
  rewrite ?valueOf_0, ?valueOf_1.
  match goal with |- sqrt ?x = _ => replace x with 1 by lra end.
  apply sqrt_1.
Qed.

(** C5 as stated fails: for the first sample vertex the formula gives the
    nearest bone the weight 1001/1002, which is not a single; the weight
    stored is 8380044 / 2^23. *)
Lemma autoSkin_weight_not_exact :
  getAttribute sampleGeometry "position" = Some samplePositions /\
  (0 < count samplePositions)%nat /\
  closestOf samplePositions twoBones 4 0 !! 0%nat = Some (mkEntry 0 0) /\
  exists skinWeight w,
    getAttribute (autoSkin sampleGeometry twoBones 4) "skinWeight" = Some skinWeight /\
    array skinWeight !! (0 * 4 + 0)%nat = Some w /\
    valueOf w
    <> exactWeight samplePositions twoBones 0 (closestOf samplePositions twoBones 4 0) 0.
Proof.
  split; [reflexivity|]. split; [rewrite sample_count; lia|].
  split; [now rewrite sample_closest|].
  eexists. exists 0.99900197982788086%float.
  split; [apply (autoSkin_skinWeight _ _ _ _ sample_has_positions)|].
  split; [vm_compute; reflexivity|].
  unfold exactWeight. rewrite sample_closest.
  cbn [map index sumR fold_right].
  rewrite sample_exactDistance_root, sample_exactDistance_hips.
  rewrite (valueOf_fraction 0.99900197982788086%float 8998209888190464 53)
    by (vm_compute; reflexivity).
  intros H.
  match type of H with _ = ?r => replace r with (1001 / 1002) in H by lra end.
  assert (H' : IZR (Zpos 8998209888190464 * 1002) = IZR (1001 * 2 ^ 53)).
  { rewrite !mult_IZR.
    assert (0 < IZR (2 ^ 53)) by (apply IZR_lt; reflexivity).
    apply cross_multiply; [lra|lra|exact H]. }
  apply eq_IZR in H'. vm_compute in H'. discriminate H'.
Qed.




Lemma sorted_lookup {A : Type} (P : A -> A -> Prop) (l : list A) a b x y :
  StronglySorted P l -> (a < b)%nat -> l !! a = Some x -> l !! b = Some y -> P x y.
Proof.
  intros Hs Hab Ha Hb. rewrite <- (take_drop b l) in Hs.
  apply (StronglySorted_app_cross _ _ _ Hs).
  - apply list_elem_of_lookup. exists a. now rewrite lookup_take_lt.
  - apply list_elem_of_lookup. exists 0%nat.
    now rewrite lookup_drop, Nat.add_0_r.
Qed.

(** C6 (amended).  For each vertex without a NaN distance, [autoSkin] selects
    the [k] bones nearest by computed distance (all of them when there are
    fewer than [k]): the computed distance of every selected bone is smaller
    than that of every bone left out, or equal with a smaller index; the
    selected bones fill the first slots of the vertex in that order of
    preference. *)
Theorem autoSkin_selects_nearest geometry skeleton k positions v :
  getAttribute geometry "position" = Some positions ->
  (v < count positions)%nat ->
  comparable positions skeleton v = true ->
  exists skinIndex,
    getAttribute (autoSkin geometry skeleton k) "skinIndex" = Some skinIndex /\
    itemOf skinIndex v
    = map (fun e => toUint16 (index e)) (closestOf positions skeleton k v)
      ++ replicate (k - length (closestOf positions skeleton k v)) 0%float /\
    length (closestOf positions skeleton k v)
    = Nat.min k (length (bones skeleton)) /\
    NoDup (map index (closestOf positions skeleton k v)) /\
    (forall e, e ∈ closestOf positions skeleton k v ->
       (index e < length (bones skeleton))%nat /\
       distance e = boneDistance positions skeleton v (index e)) /\
    (forall e j, e ∈ closestOf positions skeleton k v ->
       (j < length (bones skeleton))%nat ->
       j ∉ map index (closestOf positions skeleton k v) ->
       preferred positions skeleton v (index e) j) /\
    (forall a b ea eb, (a < b)%nat ->
       closestOf positions skeleton k v !! a = Some ea ->
       closestOf positions skeleton k v !! b = Some eb ->
       preferred positions skeleton v (index ea) (index eb)).
Proof.
  intros Hpos Hv Hc.
  eexists. split; [apply (autoSkin_skinIndex _ _ _ _ Hpos)|].
  split.
  { unfold itemOf. cbn [array itemSize Uint16BufferAttribute].
    rewrite map_flat_map.
    rewrite (flat_map_seq_item
               (fun v => map toUint16 (vertexIndices positions skeleton k v)))
      by (auto; intros; now rewrite length_map, vertexIndices_length).
    unfold vertexIndices. rewrite map_app, map_map. f_equal.
    generalize (k - length (closestOf positions skeleton k v))%nat as n.
    induction n as [|n IH]; cbn [replicate map]; [reflexivity|].
    now rewrite IH, toUint16_0. }
  split; [apply closestOf_length|].
  split; [apply closestOf_NoDup|].
  split; [apply closestOf_elem|].
  split; [intros e j; apply closestOf_preferred; exact Hc|].
  intros a b ea eb Hab Ha Hb.
  pose proof (sorted_lookup _ _ _ _ _ _ (closestOf_sorted positions skeleton k v Hc)
                Hab Ha Hb) as Hbefore.
  apply list_elem_of_lookup_2 in Ha, Hb.
  destruct (closestOf_elem _ _ _ _ _ Ha) as [_ Hda].
  destruct (closestOf_elem _ _ _ _ _ Hb) as [_ Hdb].
  unfold preferred, entryBefore in *. now rewrite <- Hda, <- Hdb.
Qed.

Lemma autoSkin_selects_nearest_witness :
  exists skinIndex,
    getAttribute (autoSkin sampleGeometry twoBones 1) "skinIndex" = Some skinIndex /\
    itemOf skinIndex 0
    = map (fun e => toUint16 (index e)) (closestOf samplePositions twoBones 1 0)
      ++ replicate (1 - length (closestOf samplePositions twoBones 1 0)) 0%float /\
    length (closestOf samplePositions twoBones 1 0)
    = Nat.min 1 (length (bones twoBones)) /\
    NoDup (map index (closestOf samplePositions twoBones 1 0)) /\
    (forall e, e ∈ closestOf samplePositions twoBones 1 0 ->
       (index e < length (bones twoBones))%nat /\
       distance e = boneDistance samplePositions twoBones 0 (index e)) /\
    (forall e j, e ∈ closestOf samplePositions twoBones 1 0 ->
       (j < length (bones twoBones))%nat ->
       j ∉ map index (closestOf samplePositions twoBones 1 0) ->
       preferred samplePositions twoBones 0 (index e) j) /\
    (forall a b ea eb, (a < b)%nat ->
       closestOf samplePositions twoBones 1 0 !! a = Some ea ->
       closestOf samplePositions twoBones 1 0 !! b = Some eb ->
       preferred samplePositions twoBones 0 (index ea) (index eb)).
Proof.
  apply (autoSkin_selects_nearest sampleGeometry twoBones 1 samplePositions 0).
  - reflexivity.
  - rewrite sample_count. lia.
  - reflexivity.
Defined.

(** C6 as stated fails: of two bones whose Euclidean distances to the vertex
    differ by less than a double can tell, [autoSkin] with [k = 1] selects the
    first one, although the second one is strictly nearer. *)
Lemma autoSkin_selects_farther :
  getAttribute originGeometry "position" = Some originPositions /\
  (0 < count originPositions)%nat /\
  exactDistance originPositions nearTieBones 0 1
    < exactDistance originPositions nearTieBones 0 0 /\
  exists skinIndex,
    getAttribute (autoSkin originGeometry nearTieBones 1) "skinIndex" = Some skinIndex /\
    itemOf skinIndex 0 = [toUint16 0].
Proof.
  split; [reflexivity|]. split; [vm_compute; lia|]. split.
  - unfold exactDistance, euclideanDistance, exactPosition. cbn.
    rewrite ?valueOf_0, ?valueOf_1.
    assert (Ht : 0 < valueOf 1e-9).
    { apply valueOf_positive. eexists _, _. vm_compute. reflexivity. }
    apply sqrt_lt_1_alt. nra.
  - eexists.
    split; [apply (autoSkin_skinIndex originGeometry nearTieBones 1 originPositions eq_refl)|].
    vm_compute. reflexivity.
Qed.

(** C3 (amended).  For a vertex without a NaN distance and two of its
    selected bones, in slots [a] and [b]: when the distance computed for the
    first is not larger than the one computed for the second, the weight
    stored for the first is not smaller than the weight stored for the
    second. *)
Theorem autoSkin_weights_monotone geometry skeleton k positions v a b ea eb :
  getAttribute geometry "position" = Some positions ->
  (v < count positions)%nat ->
  comparable positions skeleton v = true ->
  closestOf positions skeleton k v !! a = Some ea ->
  closestOf positions skeleton k v !! b = Some eb ->
  (boneDistance positions skeleton v (index ea)
   <=? boneDistance positions skeleton v (index eb))%float = true ->
  exists skinWeight wa wb,
    getAttribute (autoSkin geometry skeleton k) "skinWeight" = Some skinWeight /\
    array skinWeight !! (v * k + a)%nat = Some wa /\
    array skinWeight !! (v * k + b)%nat = Some wb /\
    (wa <? wb)%float = false /\
    (is_nan wa = false -> is_nan wb = false -> (wb <=? wa)%float = true).
Proof.
  intros Hpos Hv Hc Ha Hb Hd.
  destruct (autoSkin_stored_weight geometry skeleton k positions Hpos v a ea Hv Ha)
    as (sw & Hsw & Hwa).
  destruct (autoSkin_stored_weight geometry skeleton k positions Hpos v b eb Hv Hb)
    as (sw' & Hsw' & Hwb).
  rewrite Hsw in Hsw'. injection Hsw' as <-.
  exists sw. eexists. eexists.
  split; [exact Hsw|]. split; [exact Hwa|]. split; [exact Hwb|].
  pose proof (closestOf_measured positions skeleton k v Hc) as Hm.
  pose proof Hm as Hm'. rewrite Forall_forall in Hm'.
  apply list_elem_of_lookup_2 in Ha, Hb.
  pose proof (Hm' _ Ha) as Ma. pose proof (Hm' _ Hb) as Mb.
  destruct (closestOf_elem _ _ _ _ _ Ha) as [_ Hda].
  destruct (closestOf_elem _ _ _ _ _ Hb) as [_ Hdb].
  rewrite <- Hda, <- Hdb in Hd.
  apply leb_place in Hd; auto using nonneg_not_nan_prim.
  assert (Hlt : (fround (rawWeight ea / totalWeight (closestOf positions skeleton k v))
                 <? fround (rawWeight eb / totalWeight (closestOf positions skeleton k v)))%float
                = false).
  { apply normalized_weight_mono.
    - apply rawWeight_nonneg, Ma.
    - apply rawWeight_nonneg, Mb.
    - apply totalWeight_nonneg, Hm.
    - apply rawWeight_anti; assumption. }
  split; [exact Hlt|].
  intros Na Nb. apply leb_place; auto.
  apply ltb_false_place in Hlt; auto.
Qed.

Lemma autoSkin_weights_monotone_witness :
  exists skinWeight wa wb,
    getAttribute (autoSkin sampleGeometry twoBones 4) "skinWeight" = Some skinWeight /\
    array skinWeight !! (0 * 4 + 0)%nat = Some wa /\
    array skinWeight !! (0 * 4 + 1)%nat = Some wb /\
    (wa <? wb)%float = false /\
    (is_nan wa = false -> is_nan wb = false -> (wb <=? wa)%float = true).
Proof.
  apply (autoSkin_weights_monotone sampleGeometry twoBones 4 samplePositions 0 0 1
           (mkEntry 0 0) (mkEntry 1 1)).
  - reflexivity.
  - rewrite sample_count. lia.
  - reflexivity.
  - now rewrite sample_closest.
  - now rewrite sample_closest.
  - reflexivity.
Defined.

Lemma tie_exactDistance :
  exactDistance originPositions tieBones 0 0
  = exactDistance originPositions tieBones 0 1.
Proof.
  unfold exactDistance, euclideanDistance, exactPosition. cbn.
  f_equal. ring.
Qed.

(** C3 as stated fails: two bones at the same Euclidean distance from the
    vertex, whose computed distances differ in the last place, get different
    weights; the first bone is not farther than the second and its weight is
    smaller. *)
Lemma autoSkin_tie_weights_differ :
  getAttribute originGeometry "position" = Some originPositions /\
  (0 < count originPositions)%nat /\
  closestOf originPositions tieBones 3 0 !! 1%nat
    = Some (mkEntry 0 (boneDistance originPositions tieBones 0 0)) /\
  closestOf originPositions tieBones 3 0 !! 0%nat
    = Some (mkEntry 1 (boneDistance originPositions tieBones 0 1)) /\
  exactDistance originPositions tieBones 0 0
    <= exactDistance originPositions tieBones 0 1 /\
  exists skinWeight w0 w1,
    getAttribute (autoSkin originGeometry tieBones 3) "skinWeight" = Some skinWeight /\
    array skinWeight !! (0 * 3 + 1)%nat = Some w0 /\
    array skinWeight !! (0 * 3 + 0)%nat = Some w1 /\
    (w0 <? w1)%float = true.
Proof.
  split; [reflexivity|]. split; [vm_compute; lia|].
  split; [vm_compute; reflexivity|]. split; [vm_compute; reflexivity|].
  split; [rewrite tie_exactDistance; lra|].
  eexists. exists 0.47694927453994751%float, 0.4769493043422699%float.
  split; [apply (autoSkin_skinWeight originGeometry tieBones 3 originPositions eq_refl)|].
  split; [vm_compute; reflexivity|]. split; vm_compute; reflexivity.
Qed.

Lemma flat_map_replicate {A : Type} (x : A) (k : nat) (l : list nat) :
  flat_map (fun _ => replicate k x) l = replicate (length l * k) x.
Proof.
  induction l as [|y l IH]; cbn [flat_map length Nat.mul]; [reflexivity|].
  now rewrite IH, replicate_add.
Qed.

Lemma closestOf_no_bones positions skeleton k v :
  bones skeleton = [] -> closestOf positions skeleton k v = [].
Proof.
  intros Hb. apply nil_length_inv. rewrite closestOf_length, Hb. simpl. lia.
Qed.

Lemma map_replicate_0 (f : float -> float) n :
  f 0%float = 0%float -> map f (replicate n 0%float) = replicate n 0%float.
Proof.
  intros H. induction n as [|n IH]; cbn [replicate map]; [reflexivity|].
  now rewrite IH, H.
Qed.

Lemma autoSkin_no_bones geometry skeleton k positions :
  getAttribute geometry "position" = Some positions ->
  bones skeleton = [] ->
  autoSkin geometry skeleton k
  = setAttribute
      (setAttribute geometry "skinIndex"
         (mkBufferAttribute (replicate (count positions * k) 0%float) k))
      "skinWeight"
      (mkBufferAttribute (replicate (count positions * k) 0%float) k).
Proof.
  intros Hpos Hb. rewrite (autoSkin_spec _ _ _ _ Hpos).
  unfold Uint16BufferAttribute, Float32BufferAttribute.
  assert (Hi : forall v, vertexIndices positions skeleton k v = replicate k 0%nat).
  { intros v. unfold vertexIndices.
    rewrite (closestOf_no_bones _ _ _ _ Hb). simpl. now rewrite Nat.sub_0_r. }
  assert (Hw : forall v, vertexWeights positions skeleton k v = replicate k 0%float).
  { intros v. unfold vertexWeights.
    rewrite (closestOf_no_bones _ _ _ _ Hb). simpl. now rewrite Nat.sub_0_r. }
  rewrite (flat_map_ext _ _ Hi), (flat_map_ext _ _ Hw).
  rewrite !flat_map_replicate, length_seq.
  rewrite (map_replicate_0 fround) by reflexivity.
  do 3 f_equal.
  generalize (count positions * k)%nat as n.
  induction n as [|n IH]; cbn [replicate map]; [reflexivity|].
  now rewrite IH, toUint16_0.
Qed.

(** C2 (amended).  [autoSkin] is a total function: it raises nothing.  On a
    geometry without position attribute it returns the geometry unchanged.  On
    a geometry with positions and a skeleton without bones it does write: both
    [skinIndex] and [skinWeight] become [vertexCount * k] zeros. *)
Theorem autoSkin_failure_modes geometry skeleton k :
  (getAttribute geometry "position" = None ->
   autoSkin geometry skeleton k = geometry) /\
  (forall positions,
     getAttribute geometry "position" = Some positions ->
     bones skeleton = [] ->
     autoSkin geometry skeleton k
     = setAttribute
         (setAttribute geometry "skinIndex"
            (mkBufferAttribute (replicate (count positions * k) 0%float) k))
         "skinWeight"
         (mkBufferAttribute (replicate (count positions * k) 0%float) k)).
Proof.
  split.
  - intros Hnone. unfold autoSkin. now rewrite Hnone.
  - apply autoSkin_no_bones.
Qed.

Lemma autoSkin_failure_modes_witness :
  autoSkin bareGeometry oneBone 4 = bareGeometry /\
  autoSkin sampleGeometry noBones 4
  = setAttribute
      (setAttribute sampleGeometry "skinIndex"
         (mkBufferAttribute (replicate (count samplePositions * 4) 0%float) 4))
      "skinWeight"
      (mkBufferAttribute (replicate (count samplePositions * 4) 0%float) 4).
Proof.
  split.
  - apply (proj1 (autoSkin_failure_modes bareGeometry oneBone 4)). reflexivity.
  - apply (proj2 (autoSkin_failure_modes sampleGeometry noBones 4) samplePositions);
      reflexivity.
Defined.

(** C2 as stated fails for a skeleton without bones: the geometry gets two
    new attributes. *)
Lemma autoSkin_no_bones_writes :
  getAttribute sampleGeometry "position" = Some samplePositions /\
  bones noBones = [] /\
  getAttribute sampleGeometry "skinWeight" = None /\
  getAttribute (autoSkin sampleGeometry noBones 4) "skinWeight"
  = Some (mkBufferAttribute [0; 0; 0; 0; 0; 0; 0; 0]%float 4) /\
  autoSkin sampleGeometry noBones 4 <> sampleGeometry.
Proof.
  assert (H : getAttribute (autoSkin sampleGeometry noBones 4) "skinWeight"
              = Some (mkBufferAttribute [0; 0; 0; 0; 0; 0; 0; 0]%float 4)).
  { rewrite (autoSkin_no_bones sampleGeometry noBones 4 samplePositions
               eq_refl eq_refl).
    reflexivity. }
  split; [reflexivity|]. split; [reflexivity|]. split; [reflexivity|].
  split; [exact H|].
  intros Heq. rewrite Heq in H. discriminate H.
Qed.

(** ** The total of the raw weights *)

Local Abbreviation addWeights :=
  (fold_left (fun total entry => (total + rawWeight entry)%float)).

Lemma rawWeight_finite e : measured e -> finite_nonneg (rawWeight e) = true.
Proof. intros H. apply reciprocal_finite, H. Qed.

Lemma rawWeight_le e : measured e -> place (rawWeight e) <= 1000.
Proof. intros H. apply reciprocal_le, H. Qed.

Lemma addWeights_ge_start l t :
  nonneg t = true -> Forall measured l -> place t <= place (addWeights l t).
Proof.
  revert t. induction l as [|e l IH]; intros t Nt Hl; simpl; [lra|].
  inversion Hl as [|? ? He Hl']; subst.
  pose proof (rawWeight_nonneg e He) as Nw.
  apply Rle_trans with (place (t + rawWeight e)).
  - apply add_ge_l; assumption.
  - apply IH; [apply add_nonneg; assumption|exact Hl'].
Qed.

Lemma addWeights_ge_member l t e :
  nonneg t = true -> Forall measured l -> e ∈ l ->
  place (rawWeight e) <= place (addWeights l t).
Proof.
  revert t. induction l as [|e' l IH]; intros t Nt Hl He; simpl.
  - now apply elem_of_nil in He.
  - inversion Hl as [|? ? He' Hl']; subst.
    pose proof (rawWeight_nonneg e' He') as Nw.
    apply elem_of_cons in He. destruct He as [->|He].
    + apply Rle_trans with (place (t + rawWeight e')).
      * apply add_ge_r; assumption.
      * apply addWeights_ge_start; [apply add_nonneg; assumption|exact Hl'].
    + apply IH; [apply add_nonneg; assumption|exact Hl'|exact He].
Qed.

Lemma addWeights_le l t N :
  nonneg t = true -> Forall measured l -> (0 <= N)%Z ->
  (N + 1000 * Z.of_nat (length l) < 2 ^ prec)%Z ->
  place t <= IZR N ->
  place (addWeights l t) <= IZR (N + 1000 * Z.of_nat (length l)).
Proof.
  revert t N. induction l as [|e l IH]; intros t N Nt Hl HN Hbig Ht.
  - cbn [length fold_left]. replace (N + 1000 * Z.of_nat 0)%Z with N by lia. exact Ht.
  - inversion Hl as [|? ? He Hl']; subst. cbn [fold_left length] in *.
    pose proof (rawWeight_nonneg e He) as Nw.
    replace (N + 1000 * Z.of_nat (S (length l)))%Z
      with ((N + 1000) + 1000 * Z.of_nat (length l))%Z by lia.
    apply IH; [apply add_nonneg; assumption|exact Hl'|lia|lia|].
    apply add_le_integer; [assumption|assumption|lia|].
    pose proof (rawWeight_le e He). rewrite plus_IZR. lra.
Qed.

(** The rounding error of the total. *)
Lemma addWeights_error l t :
  nonneg t = true -> Forall measured l ->
  finite_nonneg (addWeights l t) = true ->
  Rabs (valueOf (addWeights l t)
        - (valueOf t + sumR (map (fun e => valueOf (rawWeight e)) l)))
  <= INR (length l) * pow2 (- prec) * valueOf (addWeights l t).
Proof.
  revert t. induction l as [|e l IH]; intros t Nt Hl F.
  - cbn [fold_left map sumR fold_right length INR].
    replace (valueOf t - (valueOf t + 0)) with 0 by ring.
    rewrite Rabs_R0. lra.
  - inversion Hl as [|? ? He Hl']; subst.
    pose proof (rawWeight_nonneg e He) as Nw.
    pose proof (add_nonneg t (rawWeight e) Nt Nw) as Nt'.
    cbn [fold_left] in *.
    pose proof (addWeights_ge_start l _ Nt' Hl') as Hge.
    pose proof (finite_nonneg_lt _ F) as Hlt.
    assert (F' : finite_nonneg (t + rawWeight e) = true)
      by (apply finite_of_place; [assumption|lra]).
    rewrite (finite_nonneg_place _ F), (finite_nonneg_place _ F') in Hge.
    pose proof (add_error t (rawWeight e) Nt Nw F') as Hadd.
    specialize (IH _ Nt' Hl' F).
    pose proof (valueOf_nonneg _ F') as H0.
    pose proof (pow2_pos (- prec)) as Hu.
    cbn [map sumR fold_right length].
    change (fold_right Rplus 0 (map (fun e => valueOf (rawWeight e)) l))
      with (sumR (map (fun e => valueOf (rawWeight e)) l)).
    rewrite S_INR.
    set (T := valueOf (addWeights l (t + rawWeight e)%float)) in *.
    set (S := sumR (map (fun e => valueOf (rawWeight e)) l)) in *.
    set (t' := valueOf (t + rawWeight e)%float) in *.
    replace (T - (valueOf t + (valueOf (rawWeight e) + S)))
      with ((T - (t' + S)) + (t' - (valueOf t + valueOf (rawWeight e)))) by ring.
    eapply Rle_trans; [apply Rabs_triang|].
    assert (pow2 (- prec) * t' <= pow2 (- prec) * T) by nra.
    lra.
Qed.

(** ** Sums of rounded numbers *)

Lemma sumR_app l1 l2 : sumR (l1 ++ l2) = sumR l1 + sumR l2.
Proof. induction l1 as [|x l1 IH]; simpl; [lra|]. rewrite IH. lra. Qed.

Lemma sumR_replicate_0 n : sumR (replicate n 0) = 0.
Proof. induction n as [|n IH]; simpl; [reflexivity|]. rewrite IH. lra. Qed.

Lemma sumR_map_div {A : Type} (f : A -> R) (t : R) (l : list A) :
  sumR (map (fun e => f e / t) l) = sumR (map f l) / t.
Proof.
  induction l as [|x l IH]; simpl; [unfold Rdiv; lra|].
  rewrite IH. unfold Rdiv. lra.
Qed.

Lemma sumR_error {A : Type} (f g : A -> R) (a b : R) (l : list A) :
  (forall e, e ∈ l -> Rabs (f e - g e) <= a * f e + b) ->
  Rabs (sumR (map f l) - sumR (map g l))
  <= a * sumR (map f l) + INR (length l) * b.
Proof.
  induction l as [|x l IH]; intros H.
  - simpl. rewrite Rminus_diag, Rabs_R0. lra.
  - cbn [map sumR fold_right length]. rewrite S_INR.
    change (fold_right Rplus 0 (map f l)) with (sumR (map f l)).
    change (fold_right Rplus 0 (map g l)) with (sumR (map g l)).
    replace (f x + sumR (map f l) - (g x + sumR (map g l)))
      with ((f x - g x) + (sumR (map f l) - sumR (map g l))) by ring.
    eapply Rle_trans; [apply Rabs_triang|].
    pose proof (H x ltac:(apply elem_of_cons; now left)).
    assert (IH' := IH (fun e He => H e ltac:(apply elem_of_cons; now right))).
    lra.
Qed.

Lemma sumR_nonneg {A : Type} (f : A -> R) (l : list A) :
  (forall e, e ∈ l -> 0 <= f e) -> 0 <= sumR (map f l).
Proof.
  induction l as [|x l IH]; intros H; simpl; [lra|].
  pose proof (H x ltac:(apply elem_of_cons; now left)).
  assert (IH' := IH (fun e He => H e ltac:(apply elem_of_cons; now right))).
  change (fold_right Rplus 0 (map f l)) with (sumR (map f l)). lra.
Qed.

(** ** Powers of two as numbers *)

Lemma pow2_neg k : (0 <= k)%Z -> pow2 (- k) = / IZR (2 ^ k).
Proof.
  intros Hk.
  assert (H : pow2 (- k) * pow2 k = 1).
  { rewrite <- pow2_add. replace (- k + k)%Z with 0%Z by lia. reflexivity. }
  rewrite (pow2_IZR k Hk) in H.
  assert (0 < IZR (2 ^ k)) by (apply IZR_lt, Z.pow_pos_nonneg; lia).
  apply Rmult_eq_reg_r with (IZR (2 ^ k)); [|lra].
  rewrite H. field. lra.
Qed.

Lemma unit_roundoff_double : pow2 (- prec) <= 2e-16.
Proof.
  unfold prec. rewrite (pow2_neg 53) by lia.
  change (2 ^ 53)%Z with 9007199254740992%Z. lra.
Qed.

Lemma unit_roundoff_single : pow2 (-24) = / 16777216.
Proof.
  change (pow2 (-24)) with (pow2 (Z.opp 24)).
  rewrite (pow2_neg 24) by lia. reflexivity.
Qed.

Lemma underflow_single : pow2 (-150) <= 1e-40.
Proof.
  apply Rle_trans with (pow2 (-140)); [apply pow2_le; lia|].
  change (pow2 (-140)) with (pow2 (Z.opp 140)).
  rewrite (pow2_neg 140) by lia.
  change (2 ^ 140)%Z with 1393796574908163946345982392040522594123776%Z. lra.
Qed.

Lemma underflow_double : pow2 (-1075) <= 1e-40.
Proof.
  apply Rle_trans with (pow2 (-150)); [apply pow2_le; lia|apply underflow_single].
Qed.

(** The last step of the error analysis, on real numbers. *)
Lemma sum_close_to_one (x y z n u eta eta' : R) :
  0 <= x -> 0 <= y -> 0 <= n <= 65536 ->
  0 <= u <= 2e-16 -> 0 <= eta <= 1e-40 -> 0 <= eta' <= 1e-40 ->
  Rabs (x - y) <= / 16777216 * x + n * eta' ->
  Rabs (y - z) <= u * y + n * eta ->
  Rabs (z - 1) <= n * u ->
  Rabs (x - 1) <= 1e-6.
Proof.
  intros Hx Hy Hn Hu He He' Hxy Hyz Hz.
  assert (H1 : u * y <= 2e-16 * y) by nra.
  assert (H2 : n * eta <= 65536 * 1e-40) by nra.
  assert (H3 : n * eta' <= 65536 * 1e-40) by nra.
  assert (H4 : n * u <= 65536 * 2e-16) by nra.
  assert (H5 : 0 <= u * y) by nra.
  assert (H6 : 0 <= n * eta) by nra.
  assert (H7 : 0 <= n * eta') by nra.
  assert (H8 : 0 <= n * u) by nra.
  unfold Rabs in *.
  repeat destruct Rcase_abs in Hxy; repeat destruct Rcase_abs in Hyz;
    repeat destruct Rcase_abs in Hz; repeat destruct Rcase_abs; lra.
Qed.

(** ** A vertex with a bone at finite distance *)

Lemma boneDistance_out_of_range positions skeleton v j :
  (length (bones skeleton) <= j)%nat -> boneDistance positions skeleton v j = nan.
Proof.
  intros H. unfold boneDistance. now rewrite lookup_ge_None_2.
Qed.

Lemma place_infinity : place infinity = pow2 emax.
Proof. reflexivity. Qed.

Lemma closestOf_finite positions skeleton k v j :
  (1 <= k)%nat -> comparable positions skeleton v = true ->
  (boneDistance positions skeleton v j <? infinity)%float = true ->
  exists e, e ∈ closestOf positions skeleton k v /\
            finite_nonneg (distance e) = true.
Proof.
  intros Hk Hc Hj.
  assert (Hlt : (j < length (bones skeleton))%nat).
  { destruct (Nat.lt_ge_cases j (length (bones skeleton))) as [H|H]; [exact H|].
    rewrite (boneDistance_out_of_range _ _ _ _ H) in Hj. discriminate Hj. }
  set (ej := mkEntry j (boneDistance positions skeleton v j)).
  assert (Hin : ej ∈ allEntries positions skeleton v).
  { apply allEntries_elem. now split. }
  pose proof (comparable_measured _ _ _ Hc) as Hm. rewrite Forall_forall in Hm.
  pose proof (Hm _ Hin) as Mj. cbn [distance ej] in Mj.
  assert (Fj : place (boneDistance positions skeleton v j) < pow2 emax).
  { rewrite <- place_infinity. apply ltb_place; auto using nonneg_not_nan_prim. }
  assert (Hall : ej ∈ sortByDistance (allEntries positions skeleton v)).
  { now rewrite (sortByDistance_perm (allEntries positions skeleton v)). }
  rewrite <- (take_drop k (sortByDistance _)) in Hall.
  rewrite <- closestOf_unfold in Hall.
  apply elem_of_app in Hall. destruct Hall as [Hsel|Hrest].
  - exists ej. split; [exact Hsel|]. apply finite_of_place; assumption.
  - destruct (closestOf positions skeleton k v) as [|e l] eqn:Hl.
    { apply (f_equal length) in Hl. rewrite closestOf_length in Hl.
      cbn [length] in Hl. lia. }
    assert (He : e ∈ closestOf positions skeleton k v)
      by (rewrite Hl; apply elem_of_cons; now left).
    exists e. split; [rewrite <- Hl; exact He|].
    pose proof (Hm _ (closestOf_allEntries _ _ _ _ _ He)) as Me.
    pose proof (sorted_entries positions skeleton v Hc) as Hs.
    rewrite <- (take_drop k (sortByDistance _)) in Hs.
    rewrite <- closestOf_unfold in Hs.
    pose proof (StronglySorted_app_cross _ _ _ Hs e ej He Hrest) as Hb.
    apply entryBefore_place in Hb; [|exact Me|exact Mj].
    cbn [distance ej] in Hb.
    apply finite_of_place; [exact Me|]. lra.
Qed.

(** C1 (amended).  On a geometry with a position attribute, with [k >= 1]
    and a skeleton of at most 65536 bones, for a vertex without a NaN
    distance and with a bone at finite computed distance, the [k] weights
    written for the vertex are finite numbers that sum to 1.0 within 1e-6. *)
Theorem autoSkin_weights_sum_to_one geometry skeleton k positions v :
  getAttribute geometry "position" = Some positions ->
  (1 <= k)%nat ->
  (length (bones skeleton) <= 2 ^ 16)%nat ->
  (v < count positions)%nat ->
  comparable positions skeleton v = true ->
  (exists j, (boneDistance positions skeleton v j <? infinity)%float = true) ->
  weightsSumToOne (autoSkin geometry skeleton k) v.
Proof.
  intros Hpos Hk Hb Hv Hc [j Hj].
  destruct (autoSkin_weights_item geometry skeleton k positions Hpos v Hv)
    as (sw & Hsw & Hitem).
  exists sw. split; [exact Hsw|]. rewrite Hitem. clear Hitem Hsw sw.
  unfold vertexWeights.
  set (l := closestOf positions skeleton k v).
  set (T := totalWeight l).
  pose proof (closestOf_measured positions skeleton k v Hc) as Hm. fold l in Hm.
  pose proof Hm as Hm'. rewrite Forall_forall in Hm'.
  assert (Hn : (Z.of_nat (length l) <= 65536)%Z).
  { unfold l. rewrite closestOf_length.
    assert (Z.of_nat (2 ^ 16) = 65536)%Z by reflexivity. lia. }
  (* the total is a positive finite double *)
  assert (NT : nonneg T = true) by (apply totalWeight_nonneg, Hm).
  assert (FT : finite_nonneg T = true).
  { apply finite_of_place; [exact NT|].
    pose proof (addWeights_le l 0%float 0 eq_refl Hm ltac:(lia)) as Hle.
    assert (Hbig : (0 + 1000 * Z.of_nat (length l) < 2 ^ prec)%Z).
    { unfold prec. change (2 ^ 53)%Z with 9007199254740992%Z. lia. }
    specialize (Hle Hbig). fold (totalWeight l) in Hle. fold T in Hle.
    assert (H0 : place 0 <= 0) by (rewrite finite_nonneg_place, valueOf_0 by reflexivity; lra).
    specialize (Hle H0).
    assert (IZR (0 + 1000 * Z.of_nat (length l)) < pow2 emax).
    { apply Rlt_le_trans with (IZR (2 ^ prec)); [apply IZR_lt; exact Hbig|].
      rewrite <- pow2_IZR by (unfold prec; lia). apply pow2_le. unfold prec, emax. lia. }
    lra. }
  assert (PT : positive_finite T).
  { apply positive_of_place; [exact FT|].
    destruct (closestOf_finite positions skeleton k v j Hk Hc Hj) as (e & He & Fe).
    fold l in He.
    pose proof (positive_finite_place _ (reciprocal_positive _ Fe)) as Hw.
    pose proof (addWeights_ge_member l 0%float e eq_refl Hm He) as Hge.
    fold (totalWeight l) in Hge. fold T in Hge.
    unfold rawWeight in Hge. lra. }
  pose proof (valueOf_positive T PT) as HTv.
  (* every quotient and every stored weight is finite, with a small error *)
  assert (Hq : forall e, e ∈ l ->
    finite_nonneg (rawWeight e / T) = true /\
    finite_nonneg (fround (rawWeight e / T)) = true).
  { intros e He.
    pose proof (rawWeight_nonneg e (Hm' e He)) as Nw.
    pose proof (addWeights_ge_member l 0%float e eq_refl Hm He) as Hge.
    fold (totalWeight l) in Hge. fold T in Hge.
    pose proof (div_nonneg_l _ _ Nw PT) as Nq.
    pose proof (div_le_1 _ _ Nw PT Hge) as Hq1.
    pose proof one_lt_max.
    split.
    - apply finite_of_place; [exact Nq|lra].
    - apply finite_of_place; [apply fround_nonneg, Nq|].
      pose proof (fround_le_1 _ Nq Hq1). lra. }
  rewrite map_app, (map_replicate_0 fround) by reflexivity.
  rewrite map_map. split.
  - (* finite *)
    apply Forall_app. split.
    + rewrite Forall_forall. intros w Hw.
      apply list_elem_of_fmap in Hw. destruct Hw as (e & -> & He).
      apply is_finite_finite_nonneg, (Hq e He).
    + rewrite Forall_forall. intros w Hw.
      apply elem_of_replicate_inv in Hw. subst w. reflexivity.
  - (* the sum *)
    rewrite map_app, sumR_app, map_map.
    assert (Hz0 : map valueOf (replicate (k - length l) 0%float)
                  = replicate (k - length l) 0).
    { generalize (k - length l)%nat as n. induction n as [|n IH];
        cbn [replicate map]; [reflexivity|]. now rewrite IH, valueOf_0. }
    rewrite Hz0, sumR_replicate_0, Rplus_0_r.
    pose proof (addWeights_error l 0%float eq_refl Hm FT) as HTe.
    fold (totalWeight l) in HTe. fold T in HTe.
    rewrite valueOf_0, Rplus_0_l in HTe.
    set (W := fun e => valueOf (rawWeight e)) in *.
    set (Q := fun e => valueOf (rawWeight e / T)).
    set (S := fun e => valueOf (fround (rawWeight e / T))).
    change (sumR (map (fun x => valueOf (fround (rawWeight x / T))) l))
      with (sumR (map S l)).
    assert (HSQ : Rabs (sumR (map S l) - sumR (map Q l))
                  <= pow2 (-24) * sumR (map S l) + INR (length l) * pow2 (-150)).
    { apply sumR_error. intros e He. destruct (Hq e He) as [Fq Fs].
      apply fround_error; assumption. }
    assert (HQW : Rabs (sumR (map Q l) - sumR (map (fun e => W e / valueOf T) l))
                  <= pow2 (- prec) * sumR (map Q l) + INR (length l) * pow2 (-1075)).
    { apply sumR_error. intros e He. destruct (Hq e He) as [Fq Fs].
      apply div_error; [apply rawWeight_finite, Hm', He|exact PT|exact Fq]. }
    rewrite sumR_map_div in HQW.
    assert (Hz : Rabs (sumR (map W l) / valueOf T - 1)
                 <= INR (length l) * pow2 (- prec)).
    { replace (sumR (map W l) / valueOf T - 1)
        with (- (valueOf T - sumR (map W l)) / valueOf T) by (field; lra).
      unfold Rdiv. rewrite Rabs_mult, Rabs_Ropp.
      rewrite (Rabs_pos_eq (/ valueOf T))
        by (left; apply Rinv_0_lt_compat; exact HTv).
      apply Rmult_le_reg_r with (valueOf T); [exact HTv|].
      rewrite Rmult_assoc, Rinv_l by lra. lra. }
    apply (sum_close_to_one (sumR (map S l)) (sumR (map Q l))
             (sumR (map W l) / valueOf T) (INR (length l))
             (pow2 (- prec)) (pow2 (-1075)) (pow2 (-150))).
    + apply sumR_nonneg. intros e He. apply valueOf_nonneg, (Hq e He).
    + apply sumR_nonneg. intros e He. apply valueOf_nonneg, (Hq e He).
    + split; [apply pos_INR|].
      rewrite INR_IZR_INZ. apply IZR_le. exact Hn.
    + split; [left; apply pow2_pos|apply unit_roundoff_double].
    + split; [left; apply pow2_pos|apply underflow_double].
    + split; [left; apply pow2_pos|apply underflow_single].
    + rewrite <- unit_roundoff_single. exact HSQ.
    + exact HQW.
    + exact Hz.
Qed.

Lemma sample_bone_count : (length (bones twoBones) <= 2 ^ 16)%nat.
Proof. apply (Nat.pow_le_mono_r 2 1 16); lia. Qed.

Lemma autoSkin_weights_sum_to_one_witness :
  getAttribute sampleGeometry "position" = Some samplePositions /\
  (1 <= 4)%nat /\ (length (bones twoBones) <= 2 ^ 16)%nat /\
  (1 < count samplePositions)%nat /\
  comparable samplePositions twoBones 1 = true /\
  (exists j, (boneDistance samplePositions twoBones 1 j <? infinity)%float = true) /\
  weightsSumToOne (autoSkin sampleGeometry twoBones 4) 1.
Proof.
  split; [reflexivity|]. split; [lia|]. split; [apply sample_bone_count|].
  split; [rewrite sample_count; lia|]. split; [reflexivity|].
  split; [exists 0%nat; reflexivity|].
  apply (autoSkin_weights_sum_to_one sampleGeometry twoBones 4 samplePositions 1).
  - reflexivity.
  - lia.
  - apply sample_bone_count.
  - rewrite sample_count. lia.
  - reflexivity.
  - exists 0%nat. reflexivity.
Defined.

(** C1 as stated fails for [k = 0]: no weight is written for a vertex, and
    the empty sum is 0. *)
Lemma autoSkin_no_influence_sum :
  getAttribute sampleGeometry "position" = Some samplePositions /\
  bones oneBone <> [] /\ (0 < count samplePositions)%nat /\
  ~ weightsSumToOne (autoSkin sampleGeometry oneBone 0) 0.
Proof.
  split; [reflexivity|]. split; [discriminate|].
  split; [rewrite sample_count; lia|].
  intros (skinWeight & Hget & _ & Hsum).
  rewrite (autoSkin_skinWeight _ _ _ _ sample_has_positions) in Hget.
  injection Hget as <-. unfold itemOf in Hsum.
  cbn [array itemSize Float32BufferAttribute] in Hsum.
  rewrite take_0 in Hsum. cbn [map sumR fold_right] in Hsum.
  rewrite Rabs_left in Hsum; lra.
Qed.

(** It also fails, for any [k >= 1], when the distance computed for every
    bone is [Infinity]: the first weight of the vertex is NaN. *)
Lemma autoSkin_far_bone_sum :
  getAttribute originGeometry "position" = Some originPositions /\
  bones farBone <> [] /\ (0 < count originPositions)%nat /\
  ~ weightsSumToOne (autoSkin originGeometry farBone 1) 0.
Proof.
  split; [reflexivity|]. split; [discriminate|].
  split; [vm_compute; lia|].
  intros (skinWeight & Hget & Hfin & _).
  rewrite (autoSkin_skinWeight originGeometry farBone 1 originPositions eq_refl) in Hget.
  injection Hget as <-.
  match type of Hfin with
  | Forall _ ?item =>
      assert (Hitem : item = [nan]) by (vm_compute; reflexivity);
      rewrite Hitem in Hfin
  end.
  inversion Hfin as [|? ? H _]; subst.
  vm_compute in H. discriminate H.
Qed.

(** * The plugin manager claims *)

Module PluginManagerFacts.
Import PluginManager.

Lemma has_true_iff pluginId m :
  has pluginId m = true <-> exists plugin, plugins m !! pluginId = Some plugin.
Proof.
  unfold has. destruct (plugins m !! pluginId) as [p|]; split.
  - intros _. now exists p.
  - reflexivity.
  - discriminate.
  - intros [p Hp]. discriminate.
Qed.

Lemma register_rejected m plugin thrown :
  has (id plugin) m = false ->
  onInit plugin = Rejects thrown ->
  register plugin m
  = (Throws (newPluginError (id plugin) INIT_FAILED
               ("Failed to initialize plugin " +:+ quote +:+ id plugin +:+ quote)
               (Some (toError thrown))), m).
Proof.
  intros Hhas Hinit. unfold register, bind, gets, tryCatch.
  rewrite Hhas, Hinit. reflexivity.
Qed.

(** C9.  When [onInit] of a plugin that is not yet registered rejects,
    [register] throws a [PluginError] with code [INIT_FAILED] and leaves the
    manager as it was: the plugin is not in the registry, the count and the
    initialization order are unchanged. *)
Theorem register_atomic_on_init_failure m plugin thrown :
  has (id plugin) m = false ->
  onInit plugin = Rejects thrown ->
  exists e,
    (register plugin m).1 = Throws e /\
    code e = INIT_FAILED /\
    pluginId e = id plugin /\
    originalCause e = Some (toError thrown) /\
    (register plugin m).2 = m /\
    has (id plugin) (register plugin m).2 = false /\
    count (register plugin m).2 = count m /\
    initializationOrder (register plugin m).2 = initializationOrder m.
Proof.
  intros Hhas Hinit. rewrite (register_rejected _ _ _ Hhas Hinit). simpl.
  eexists. split; [reflexivity|]. repeat split. exact Hhas.
Qed.

Lemma register_atomic_on_init_failure_witness :
  exists e,
    (register brokenPlugin sampleManager).1 = Throws e /\
    code e = INIT_FAILED /\
    pluginId e = id brokenPlugin /\
    originalCause e = Some (toError (ThrownError (mkJsError "Error" "no backend"))) /\
    (register brokenPlugin sampleManager).2 = sampleManager /\
    has (id brokenPlugin) (register brokenPlugin sampleManager).2 = false /\
    count (register brokenPlugin sampleManager).2 = count sampleManager /\
    initializationOrder (register brokenPlugin sampleManager).2
    = initializationOrder sampleManager.
Proof.
  apply (register_atomic_on_init_failure sampleManager brokenPlugin
           (ThrownError (mkJsError "Error" "no backend"))); reflexivity.
Defined.

Lemma unregister_not_found m pluginId :
  has pluginId m = false ->
  unregister pluginId m
  = (Throws (newPluginError pluginId NOT_FOUND
               ("Plugin " +:+ quote +:+ pluginId +:+ quote +:+ " not found") None), m).
Proof.
  unfold has, unregister, bind, gets, get.
  destruct (plugins m !! pluginId); [discriminate|reflexivity].
Qed.

Lemma unregister_found m pluginId plugin :
  plugins m !! pluginId = Some plugin ->
  unregister pluginId m
  = (Returns tt, orderRemove pluginId (pluginsDelete pluginId m)).
Proof.
  intros Hp. unfold unregister, bind, gets, get, tryCatch. rewrite Hp.
  destruct (onDestroy plugin); reflexivity.
Qed.

(** C10.  [unregister] throws a [PluginError] with code [NOT_FOUND] exactly
    when the id is not in the registry.  When the id is registered it returns
    normally, whether [onDestroy] resolves or rejects, and afterwards the id
    is not in the registry and not in the initialization order. *)
Theorem unregister_removes m pluginId :
  ((exists e, (unregister pluginId m).1 = Throws e /\ code e = NOT_FOUND)
   <-> has pluginId m = false) /\
  ((exists e, (unregister pluginId m).1 = Throws e) <-> has pluginId m = false) /\
  (forall plugin outcome,
     plugins m !! pluginId = Some plugin ->
     onDestroy plugin = outcome ->
     (unregister pluginId m).1 = Returns tt /\
     has pluginId (unregister pluginId m).2 = false /\
     pluginId ∉ initializationOrder (unregister pluginId m).2).
Proof.
  assert (Hthrow : (exists e, (unregister pluginId m).1 = Throws e)
                   -> has pluginId m = false).
  { intros [e He]. destruct (has pluginId m) eqn:Hhas; [|reflexivity].
    apply has_true_iff in Hhas. destruct Hhas as [p Hp].
    rewrite (unregister_found _ _ _ Hp) in He. discriminate. }
  split; [|split].
  - split.
    + intros (e & He & _). apply Hthrow. now exists e.
    + intros Hhas. rewrite (unregister_not_found _ _ Hhas).
      eexists. split; reflexivity.
  - split; [exact Hthrow|].
    intros Hhas. rewrite (unregister_not_found _ _ Hhas). now eexists.
  - intros plugin outcome Hp _. rewrite (unregister_found _ _ _ Hp). simpl.
    split; [reflexivity|]. split.
    + unfold has. simpl. now rewrite lookup_delete_eq.
    + intros Hin. apply list_elem_of_filter in Hin. now destruct Hin.
Qed.

Lemma unregister_removes_witness :
  (unregister "stubborn" sampleManager).1 = Returns tt /\
  has "stubborn" (unregister "stubborn" sampleManager).2 = false /\
  "stubborn" ∉ initializationOrder (unregister "stubborn" sampleManager).2.
Proof.
  apply (proj2 (proj2 (unregister_removes sampleManager "stubborn"))
           stubbornPlugin (Rejects (ThrownValue "busy")));
    reflexivity.
Defined.

End PluginManagerFacts.

(** * The generator claim *)

Module GeneratorFacts.
Import Generators.

Lemma traverse_setName n o :
  omap meshOf (traverse (setName n o)) = omap meshOf (traverse o).
Proof. destruct o. reflexivity. Qed.

Lemma calculateMetadata_setName host n o :
  calculateMetadata host (setName n o) = calculateMetadata host o.
Proof. unfold calculateMetadata. now rewrite traverse_setName. Qed.

Lemma childrenOf_setName n o : childrenOf (setName n o) = childrenOf o.
Proof. now destruct o. Qed.

Lemma nameOf_setName n o : nameOf (setName n o) = n.
Proof. now destruct o. Qed.

(** What [generate] returns on a ready generator for a style that resolves to
    a preset. *)
Lemma generate_ready host params self w stylePreset :
  state self = ready ->
  lookupStyle (styleKeyOf params) = Some stylePreset ->
  generate host params self w
  = (Returns
       (mkCharacter
          ("char-" +:+ pretty (clock w (clockReads w)) +:+ "-"
           +:+ base36Digits host (random w (randomDraws w)))
          ("humanoid-" +:+ pretty (S (characterCount self)))
          humanoid
          (Some (setName ("humanoid-" +:+ pretty (S (characterCount self)))
                         (bodyOf params stylePreset)))
          (mkMetadata
             (calculateMetadata host (bodyOf params stylePreset)).1.1.1
             (calculateMetadata host (bodyOf params stylePreset)).1.1.2
             (calculateMetadata host (bodyOf params stylePreset)).1.2
             (calculateMetadata host (bodyOf params stylePreset)).2
             (clock w (S (clockReads w)))
             (clock w (S (S (clockReads w))))
             [generatorId])
          params),
     mkGenerator ready (S (characterCount self)),
     mkWorld (clock w) (S (S (S (clockReads w)))) (random w) (S (randomDraws w))).
Proof.
  intros Hready Hstyle. unfold generate, assertReady.
  rewrite Hready. fold (styleKeyOf params). rewrite Hstyle.
  fold (bodyOf params stylePreset).
  cbn [state characterCount].
  rewrite calculateMetadata_setName, nameOf_setName.
  destruct (calculateMetadata host (bodyOf params stylePreset))
    as [[[v f] b] m].
  reflexivity.
Qed.

Lemma generate_not_ready host params self w :
  state self <> ready ->
  generate host params self w
  = (Throws (mkJsError "Error"
               ("Plugin " +:+ generatorId +:+ " is not ready (state: "
                +:+ stateName (state self) +:+ ")")), self, w).
Proof.
  intros Hs. unfold generate, assertReady.
  destruct (state self); try reflexivity. congruence.
Qed.

Lemma generate_inherited_style host params self w :
  state self = ready ->
  lookupStyle (styleKeyOf params) = None ->
  generate host params self w
  = (Throws (mkJsError "TypeError"
               "Cannot read properties of undefined (reading 'color')"), self, w).
Proof.
  intros Hready Hstyle. unfold generate, assertReady.
  rewrite Hready. fold (styleKeyOf params). now rewrite Hstyle.
Qed.

Lemma lookupStyle_own key :
  inherited key = false -> exists stylePreset, lookupStyle key = Some stylePreset.
Proof.
  intros Hk. unfold lookupStyle. destruct (STYLE_PRESETS key) as [p|].
  - now exists p.
  - rewrite Hk. now eexists.
Qed.

(** Two runs on ready generators agree up to what changes from run to run. *)
Lemma generate_sameUpToRun host params g1 w1 g2 w2 :
  state g1 = ready -> state g2 = ready ->
  sameUpToRun (generate host params g1 w1).1.1 (generate host params g2 w2).1.1.
Proof.
  intros H1 H2.
  destruct (lookupStyle (styleKeyOf params)) as [stylePreset|] eqn:Hstyle.
  - rewrite (generate_ready _ _ _ _ _ H1 Hstyle), (generate_ready _ _ _ _ _ H2 Hstyle).
    cbn [fst snd sameUpToRun model metadata characterType generationParams
         vertices faces bonesCount materials plugins_used
         fmap option_fmap option_map].
    rewrite !childrenOf_setName. repeat split.
  - rewrite (generate_inherited_style _ _ _ _ H1 Hstyle),
            (generate_inherited_style _ _ _ _ H2 Hstyle).
    reflexivity.
Qed.

Lemma addBubble_world props scale material root w i :
  (addBubble props scale material (root, w) i).2 = afterDraws 2 w.
Proof. reflexivity. Qed.

Lemma addBubble_agree props scale material root w1 w2 i :
  random w1 (randomDraws w1) = random w2 (randomDraws w2) ->
  random w1 (S (randomDraws w1)) = random w2 (S (randomDraws w2)) ->
  (addBubble props scale material (root, w1) i).1
  = (addBubble props scale material (root, w2) i).1.
Proof. intros H0 H1. cbn. now rewrite H0, H1. Qed.

Lemma bubbles_agree props scale material (l : list nat) root w1 w2 :
  (forall i, (i < 2 * length l)%nat ->
     random w1 (i + randomDraws w1) = random w2 (i + randomDraws w2)) ->
  (fold_left (addBubble props scale material) l (root, w1)).1
  = (fold_left (addBubble props scale material) l (root, w2)).1.
Proof.
  revert root w1 w2. induction l as [|i l IH]; intros root w1 w2 Hdraws.
  - reflexivity.
  - cbn [fold_left].
    rewrite (surjective_pairing (addBubble props scale material (root, w1) i)).
    rewrite (surjective_pairing (addBubble props scale material (root, w2) i)).
    rewrite !addBubble_world.
    rewrite (addBubble_agree props scale material root w1 w2 i).
    + apply IH. intros j Hj. cbn [afterDraws random randomDraws].
      replace (j + (2 + randomDraws w1))%nat with (j + 2 + randomDraws w1)%nat by lia.
      replace (j + (2 + randomDraws w2))%nat with (j + 2 + randomDraws w2)%nat by lia.
      apply Hdraws. simpl in *. lia.
    + apply (Hdraws 0%nat). simpl. lia.
    + apply (Hdraws 1%nat). simpl. lia.
Qed.

(** [buildSlime] is determined by its arguments and by the ten draws of
    [Math.random()] it makes. *)
Lemma buildSlime_draws props scale material w1 w2 :
  (forall i, (i < 10)%nat ->
     random w1 (i + randomDraws w1) = random w2 (i + randomDraws w2)) ->
  (buildSlime props scale material w1).1 = (buildSlime props scale material w2).1.
Proof.
  intros Hdraws. unfold buildSlime.
  match goal with
  | |- context [fold_left (addBubble _ _ _) _ (?root, w1)] =>
      pose proof (bubbles_agree props scale material (seq 0 5) root w1 w2 Hdraws)
        as Hb;
      destruct (fold_left (addBubble props scale material) (seq 0 5) (root, w1))
        as [root1 w1'];
      destruct (fold_left (addBubble props scale material) (seq 0 5) (root, w2))
        as [root2 w2']
  end.
  cbn [fst] in *. now subst root2.
Qed.

Lemma buildSlime_first_bubble props scale material w :
  childRadius 1 (buildSlime props scale material w).1
  = Some ((random w (randomDraws w) * 0.1 + 0.05) * scale).
Proof. reflexivity. Qed.

(** C4 (amended).  Two runs of [HumanoidGenerator.generate] with the same
    parameters on ready generators end the same way: both throw the same
    error, or both return a humanoid with the same body parts (names,
    primitives, sizes, positions), type, parameters, vertex, face, bone and
    material counts and plugin list; with equal character counters also the
    same name and model.  [buildSlime] returns the same mesh in two runs whose
    ten random draws agree. *)
Theorem generators_deterministic_up_to_run host params g1 w1 g2 w2 :
  state g1 = ready -> state g2 = ready ->
  sameUpToRun (generate host params g1 w1).1.1 (generate host params g2 w2).1.1 /\
  (inherited (styleKeyOf params) = false ->
   exists c1 c2,
     (generate host params g1 w1).1.1 = Returns c1 /\
     (generate host params g2 w2).1.1 = Returns c2 /\
     (characterCount g1 = characterCount g2 ->
      model c1 = model c2 /\ characterName c1 = characterName c2)) /\
  (forall props scale material,
     (forall i, (i < 10)%nat ->
        random w1 (i + randomDraws w1) = random w2 (i + randomDraws w2)) ->
     (buildSlime props scale material w1).1 = (buildSlime props scale material w2).1).
Proof.
  intros H1 H2. split; [now apply generate_sameUpToRun|]. split.
  - intros Hk. destruct (lookupStyle_own _ Hk) as [stylePreset Hstyle].
    rewrite (generate_ready _ _ _ _ _ H1 Hstyle), (generate_ready _ _ _ _ _ H2 Hstyle).
    cbn [fst snd].
    eexists. eexists. split; [reflexivity|]. split; [reflexivity|].
    intros Hc. cbn [model characterName]. rewrite Hc. now split.
  - intros props scale material. apply buildSlime_draws.
Qed.

Lemma generators_deterministic_up_to_run_witness :
  sameUpToRun
    (generate sampleHost sampleParams readyGenerator sampleWorld).1.1
    (generate sampleHost sampleParams (mkGenerator ready 7)
              (afterDraws 4 sampleWorld)).1.1 /\
  (inherited (styleKeyOf sampleParams) = false ->
   exists c1 c2,
     (generate sampleHost sampleParams readyGenerator sampleWorld).1.1 = Returns c1 /\
     (generate sampleHost sampleParams (mkGenerator ready 7)
               (afterDraws 4 sampleWorld)).1.1 = Returns c2 /\
     (characterCount readyGenerator = characterCount (mkGenerator ready 7) ->
      model c1 = model c2 /\ characterName c1 = characterName c2)) /\
  (forall props scale material,
     (forall i, (i < 10)%nat ->
        random sampleWorld (i + randomDraws sampleWorld)
        = random (afterDraws 4 sampleWorld)
                 (i + randomDraws (afterDraws 4 sampleWorld))) ->
     (buildSlime props scale material sampleWorld).1
     = (buildSlime props scale material (afterDraws 4 sampleWorld)).1).
Proof.
  apply (generators_deterministic_up_to_run sampleHost sampleParams
           readyGenerator sampleWorld (mkGenerator ready 7)
           (afterDraws 4 sampleWorld));
    reflexivity.
Defined.

(** C4 as stated fails.  Two runs in a row with the same parameters return
    characters of different name, id and timestamps, and [buildSlime] gives
    the first bubble another radius when the random source has moved on. *)
Lemma generators_not_deterministic :
  (exists c1 g1 w1 c2 g2 w2,
     generate sampleHost sampleParams readyGenerator sampleWorld
     = (Returns c1, g1, w1) /\
     generate sampleHost sampleParams g1 w1 = (Returns c2, g2, w2) /\
     characterName c1 = "humanoid-1" /\ characterName c2 = "humanoid-2" /\
     characterId c1 = "char-1700000000000-k3x9qz" /\
     characterId c2 = "char-1700000000003-k3x9qz" /\
     createdAt (metadata c1) = 1700000000001%Z /\
     createdAt (metadata c2) = 1700000000004%Z /\
     nameOf <$> model c1 = Some "humanoid-1" /\
     nameOf <$> model c2 = Some "humanoid-2" /\
     c1 <> c2) /\
  childRadius 1 (buildSlime slimeProportions 1.8 slimeMaterial sampleWorld).1
  <> childRadius 1
       (buildSlime slimeProportions 1.8 slimeMaterial (afterDraws 1 sampleWorld)).1.
Proof.
  split.
  - assert (Hstyle : lookupStyle (styleKeyOf sampleParams)
                     = STYLE_PRESETS "chibi") by reflexivity.
    destruct (STYLE_PRESETS "chibi") as [stylePreset|] eqn:Hp; [|discriminate].
    do 6 eexists.
    split; [apply (generate_ready sampleHost sampleParams readyGenerator
                     sampleWorld stylePreset eq_refl Hstyle)|].
    split; [apply (generate_ready sampleHost sampleParams
                     (mkGenerator ready 1) _ stylePreset eq_refl Hstyle)|].
    cbn [characterName characterId metadata createdAt model characterCount
         readyGenerator sampleWorld clock clockReads random randomDraws
         sampleHost base36Digits fmap option_fmap option_map].
    rewrite !nameOf_setName.
    repeat (split; [reflexivity|]).
    intros Heq. apply (f_equal characterName) in Heq. discriminate Heq.
  - rewrite !buildSlime_first_bubble.
    cbn [afterDraws sampleWorld random randomDraws Nat.add].
    intros Heq. injection Heq as Heq.
    change (INR (0 mod 4)) with 0 in Heq.
    change (INR (1 mod 4)) with 1 in Heq.
    lra.
Qed.

End GeneratorFacts.

(** * More on the plugin manager *)

Module RegistryFacts.
Import PluginManager.

Lemma has_false_iff pluginId m :
  has pluginId m = false <-> plugins m !! pluginId = None.
Proof. unfold has. destruct (plugins m !! pluginId); split; congruence. Qed.

Lemma has_is_Some pluginId m :
  has pluginId m = true <-> is_Some (plugins m !! pluginId).
Proof.
  unfold has. destruct (plugins m !! pluginId) as [p|]; split.
  - intros _. now exists p.
  - reflexivity.
  - discriminate.
  - intros [p Hp]. discriminate.
Qed.

Lemma register_resolved m plugin :
  has (id plugin) m = false ->
  onInit plugin = Resolves ->
  register plugin m
  = (Returns tt, orderPush (id plugin) (pluginsSet (id plugin) plugin m)).
Proof.
  intros Hhas Hinit. unfold register, bind, gets, tryCatch.
  rewrite Hhas, Hinit. reflexivity.
Qed.

Lemma register_duplicate m plugin :
  has (id plugin) m = true ->
  register plugin m
  = (Throws (newPluginError (id plugin) ALREADY_REGISTERED
               ("Plugin " +:+ quote +:+ id plugin +:+ quote
                +:+ " is already registered") None), m).
Proof.
  intros Hhas. unfold register, bind, gets. now rewrite Hhas.
Qed.

Lemma register_init_rejected m plugin thrown :
  has (id plugin) m = false ->
  onInit plugin = Rejects thrown ->
  register plugin m
  = (Throws (newPluginError (id plugin) INIT_FAILED
               ("Failed to initialize plugin " +:+ quote +:+ id plugin +:+ quote)
               (Some (toError thrown))), m).
Proof.
  intros Hhas Hinit. unfold register, bind, gets, tryCatch.
  rewrite Hhas, Hinit. reflexivity.
Qed.

Lemma unregister_missing m pluginId :
  has pluginId m = false ->
  unregister pluginId m
  = (Throws (newPluginError pluginId NOT_FOUND
               ("Plugin " +:+ quote +:+ pluginId +:+ quote +:+ " not found") None), m).
Proof.
  unfold has, unregister, bind, gets, get.
  destruct (plugins m !! pluginId); [discriminate|reflexivity].
Qed.

Lemma unregister_present m pluginId :
  has pluginId m = true ->
  unregister pluginId m
  = (Returns tt, orderRemove pluginId (pluginsDelete pluginId m)).
Proof.
  intros Hhas. apply has_is_Some in Hhas. destruct Hhas as [plugin Hp].
  unfold unregister, bind, gets, get, tryCatch. rewrite Hp.
  destruct (onDestroy plugin); reflexivity.
Qed.

(** X1.  Registering a plugin whose id is free and whose [onInit] resolves
    returns normally; afterwards [get] finds this plugin under its id, the
    count is one more, the id is at the end of the initialization order and
    every other id is looked up as before. *)
Theorem register_adds m plugin :
  has (id plugin) m = false ->
  onInit plugin = Resolves ->
  (register plugin m).1 = Returns tt /\
  get (id plugin) (register plugin m).2 = Some plugin /\
  has (id plugin) (register plugin m).2 = true /\
  count (register plugin m).2 = S (count m) /\
  initializationOrder (register plugin m).2
  = initializationOrder m ++ [id plugin] /\
  forall other, other <> id plugin ->
    get other (register plugin m).2 = get other m.
Proof.
  intros Hhas Hinit. rewrite (register_resolved _ _ Hhas Hinit).
  cbn [fst snd]. unfold get, has, count. cbn.
  rewrite lookup_insert_eq.
  split; [reflexivity|]. split; [reflexivity|]. split; [reflexivity|].
  split; [apply map_size_insert_None; now apply has_false_iff|].
  split; [reflexivity|].
  intros other Hne. now apply lookup_insert_ne.
Qed.

Lemma register_adds_witness :
  (register goodPlugin sampleManager).1 = Returns tt /\
  get (id goodPlugin) (register goodPlugin sampleManager).2 = Some goodPlugin /\
  has (id goodPlugin) (register goodPlugin sampleManager).2 = true /\
  count (register goodPlugin sampleManager).2 = S (count sampleManager) /\
  initializationOrder (register goodPlugin sampleManager).2
  = initializationOrder sampleManager ++ [id goodPlugin] /\
  forall other, other <> id goodPlugin ->
    get other (register goodPlugin sampleManager).2 = get other sampleManager.
Proof.
  apply (register_adds sampleManager goodPlugin); reflexivity.
Defined.

(** X2.  Registering under an id that is taken throws [ALREADY_REGISTERED]
    whatever the new plugin's [onInit] would do, and the manager, with the
    plugin first registered under that id, stays as it was. *)
Theorem register_taken_id m plugin :
  has (id plugin) m = true ->
  exists e,
    (register plugin m).1 = Throws e /\
    code e = ALREADY_REGISTERED /\
    pluginId e = id plugin /\
    originalCause e = None /\
    (register plugin m).2 = m.
Proof.
  intros Hhas. rewrite (register_duplicate _ _ Hhas).
  eexists. repeat split.
Qed.

Lemma register_taken_id_witness :
  exists e,
    (register (mkPlugin "stubborn" "Other" "2.0.0" exporter
                        (Rejects (ThrownValue "no")) Resolves) sampleManager).1
    = Throws e /\
    code e = ALREADY_REGISTERED /\
    pluginId e = "stubborn" /\
    originalCause e = None /\
    (register (mkPlugin "stubborn" "Other" "2.0.0" exporter
                        (Rejects (ThrownValue "no")) Resolves) sampleManager).2
    = sampleManager.
Proof.
  apply (register_taken_id sampleManager
           (mkPlugin "stubborn" "Other" "2.0.0" exporter
                     (Rejects (ThrownValue "no")) Resolves)).
  reflexivity.
Defined.

(** X3.  [register] throws exactly when the id is taken or [onInit] rejects;
    whenever it throws, the code is [ALREADY_REGISTERED] or [INIT_FAILED] and
    the manager is unchanged. *)
Theorem register_throws_iff m plugin :
  ((exists e, (register plugin m).1 = Throws e)
   <-> has (id plugin) m = true \/ exists thrown, onInit plugin = Rejects thrown) /\
  (forall e, (register plugin m).1 = Throws e ->
     (register plugin m).2 = m /\
     (code e = ALREADY_REGISTERED <-> has (id plugin) m = true) /\
     (code e = INIT_FAILED <-> has (id plugin) m = false)).
Proof.
  destruct (has (id plugin) m) eqn:Hhas.
  - rewrite (register_duplicate _ _ Hhas). cbn [fst snd]. split.
    + split; [intros _; now left | intros _; now eexists].
    + intros e [= <-]. cbn. repeat split; congruence.
  - destruct (onInit plugin) as [|thrown] eqn:Hinit.
    + rewrite (register_resolved _ _ Hhas Hinit). cbn [fst snd]. split.
      * split; [intros [e He]; discriminate|].
        intros [H|[t Ht]]; discriminate.
      * intros e He. discriminate.
    + rewrite (register_init_rejected _ _ _ Hhas Hinit). cbn [fst snd]. split.
      * split; [intros _; right; now exists thrown | intros _; now eexists].
      * intros e [= <-]. cbn. repeat split; congruence.
Qed.

(** ** The registry and the initialization order *)

Lemma consistent_empty : consistent empty.
Proof.
  split; [constructor|]. intros pluginId. cbn. split.
  - intros H. now apply elem_of_nil in H.
  - unfold has. cbn. rewrite lookup_empty. discriminate.
Qed.

Lemma has_pluginsSet pluginId plugin m other :
  has other (orderPush pluginId (pluginsSet pluginId plugin m))
  = if decide (other = pluginId) then true else has other m.
Proof.
  unfold has. cbn. destruct (decide (other = pluginId)) as [->|Hne].
  - now rewrite lookup_insert_eq.
  - now rewrite lookup_insert_ne by congruence.
Qed.

Lemma has_removed pluginId m other :
  has other (orderRemove pluginId (pluginsDelete pluginId m))
  = if decide (other = pluginId) then false else has other m.
Proof.
  unfold has. cbn. destruct (decide (other = pluginId)) as [->|Hne].
  - now rewrite lookup_delete_eq.
  - now rewrite lookup_delete_ne by congruence.
Qed.

Lemma consistent_register m plugin :
  consistent m -> consistent (register plugin m).2.
Proof.
  intros [Hnodup Hmem].
  destruct (has (id plugin) m) eqn:Hhas.
  { now rewrite (register_duplicate _ _ Hhas). }
  destruct (onInit plugin) as [|thrown] eqn:Hinit.
  2: { now rewrite (register_init_rejected _ _ _ Hhas Hinit). }
  rewrite (register_resolved _ _ Hhas Hinit). cbn [snd]. split.
  - cbn. apply NoDup_app. split; [exact Hnodup|]. split.
    + intros x Hx Hin. apply list_elem_of_singleton in Hin. subst x.
      apply Hmem in Hx. congruence.
    + apply NoDup_singleton.
  - intros other. rewrite has_pluginsSet. cbn.
    rewrite elem_of_app, list_elem_of_singleton, Hmem.
    destruct (decide (other = id plugin)); [tauto|].
    split; [intros [H|H]; [exact H|contradiction] | now left].
Qed.

Lemma consistent_unregister m pluginId :
  consistent m -> consistent (unregister pluginId m).2.
Proof.
  intros [Hnodup Hmem].
  destruct (has pluginId m) eqn:Hhas.
  2: { now rewrite (unregister_missing _ _ Hhas). }
  rewrite (unregister_present _ _ Hhas). cbn [snd]. split.
  - cbn. now apply NoDup_filter.
  - intros other. rewrite has_removed. cbn.
    rewrite list_elem_of_filter, Hmem.
    destruct (decide (other = pluginId)); [|tauto].
    split; [tauto|discriminate].
Qed.

(** What one round of the loop of [destroyAll] leaves. *)
Lemma destroy_step m pluginId :
  tryCatch (E' := PluginError) (unregister pluginId) (fun _ => ret tt) m
  = (Returns tt, (unregister pluginId m).2).
Proof.
  unfold tryCatch, ret. now destruct (unregister pluginId m) as [[[]|e] m'].
Qed.

Lemma forEach_destroy (order : list string) m :
  forEach (E := PluginError) order
          (fun pluginId => tryCatch (unregister pluginId) (fun _ => ret tt)) m
  = (Returns tt, fold_left (fun m pluginId => (unregister pluginId m).2) order m).
Proof.
  revert m. induction order as [|pluginId order IH]; intros m; cbn [forEach fold_left].
  - reflexivity.
  - unfold bind. rewrite destroy_step. apply IH.
Qed.

Lemma destroyLoop_spec m :
  destroyLoop m
  = (Returns tt,
     fold_left (fun m pluginId => (unregister pluginId m).2)
               (reverse (initializationOrder m)) m).
Proof. unfold destroyLoop, bind, gets. apply forEach_destroy. Qed.

Lemma destroyAll_spec m : destroyAll m = (Returns tt, empty).
Proof.
  unfold destroyAll, bind. rewrite destroyLoop_spec. reflexivity.
Qed.

Lemma unregister_all_has (order : list string) m other :
  has other (fold_left (fun m pluginId => (unregister pluginId m).2) order m) = true
  <-> has other m = true /\ other ∉ order.
Proof.
  revert m. induction order as [|pluginId order IH]; intros m; cbn [fold_left].
  - split; [intros H; split; [exact H|apply not_elem_of_nil] | tauto].
  - rewrite IH, not_elem_of_cons.
    destruct (has pluginId m) eqn:Hhas.
    + rewrite (unregister_present _ _ Hhas). cbn [snd]. rewrite has_removed.
      destruct (decide (other = pluginId)); [|tauto].
      split; [intros [H _]; discriminate | tauto].
    + rewrite (unregister_missing _ _ Hhas). cbn [snd].
      split; [|tauto]. intros [H Hnot]. repeat split; try assumption.
      intros ->. congruence.
Qed.

Lemma consistent_unregister_all (order : list string) m :
  consistent m ->
  consistent (fold_left (fun m pluginId => (unregister pluginId m).2) order m).
Proof.
  revert m. induction order as [|pluginId order IH]; intros m Hm; cbn [fold_left].
  - exact Hm.
  - apply IH. now apply consistent_unregister.
Qed.

Lemma consistent_nobody m :
  consistent m -> (forall pluginId, has pluginId m = false) -> m = empty.
Proof.
  intros [_ Hmem] Hnone. destruct m as [ps order]. unfold empty. f_equal.
  - apply map_empty. intros pluginId.
    apply (proj1 (has_false_iff pluginId (mkManager ps order))), Hnone.
  - destruct order as [|x order]; [reflexivity|]. exfalso.
    specialize (Hmem x). cbn in Hmem.
    assert (Hx : has x (mkManager ps (x :: order)) = true)
      by (apply Hmem; apply elem_of_cons; now left).
    rewrite Hnone in Hx. discriminate.
Qed.

Lemma consistent_afterCall m c : consistent m -> consistent (afterCall m c).
Proof.
  intros Hm. destruct c as [plugin|pluginId|]; cbn [afterCall].
  - now apply consistent_register.
  - now apply consistent_unregister.
  - rewrite destroyAll_spec. apply consistent_empty.
Qed.

Lemma consistent_afterCalls calls m :
  consistent m -> consistent (afterCalls calls m).
Proof.
  unfold afterCalls. revert m.
  induction calls as [|c calls IH]; intros m Hm; cbn [fold_left].
  - exact Hm.
  - apply IH. now apply consistent_afterCall.
Qed.

Lemma consistent_count m :
  consistent m -> count m = length (initializationOrder m).
Proof.
  intros [Hnodup Hmem]. unfold count.
  rewrite <- (size_dom (D := gset string)).
  rewrite <- (size_list_to_set (C := gset string) _ Hnodup).
  f_equal. apply set_eq. intros x.
  rewrite elem_of_dom, elem_of_list_to_set, Hmem. symmetry. apply has_is_Some.
Qed.

(** X4.  Whatever calls of [register], [unregister] and [destroyAll] are
    made on a new manager, with whatever outcomes, the initialization order
    lists exactly the registered ids, each once, and [count] is its length. *)
Theorem manager_stays_consistent calls :
  NoDup (initializationOrder (afterCalls calls empty)) /\
  (forall pluginId,
     pluginId ∈ initializationOrder (afterCalls calls empty)
     <-> has pluginId (afterCalls calls empty) = true) /\
  count (afterCalls calls empty)
  = length (initializationOrder (afterCalls calls empty)).
Proof.
  pose proof (consistent_afterCalls calls empty consistent_empty) as Hc.
  destruct Hc as [Hnodup Hmem].
  split; [exact Hnodup|]. split; [exact Hmem|].
  now apply consistent_count.
Qed.

Lemma sampleManager_consistent : consistent sampleManager.
Proof.
  change sampleManager with (afterCalls [CallRegister stubbornPlugin] empty).
  apply consistent_afterCalls, consistent_empty.
Qed.

Lemma filter_keeps_others (pluginId : string) (order : list string) :
  pluginId ∉ order -> filter (fun other => other <> pluginId) order = order.
Proof.
  induction order as [|x order IH]; intros Hnot; [reflexivity|].
  apply not_elem_of_cons in Hnot. destruct Hnot as [Hne Hnot].
  rewrite filter_cons_True by congruence. now rewrite IH.
Qed.

(** X5.  On a consistent manager, registering a plugin under a free id and
    then unregistering that id gives back the manager as it was. *)
Theorem register_unregister_roundtrip m plugin :
  consistent m ->
  has (id plugin) m = false ->
  onInit plugin = Resolves ->
  unregister (id plugin) (register plugin m).2 = (Returns tt, m).
Proof.
  intros [Hnodup Hmem] Hhas Hinit.
  rewrite (register_resolved _ _ Hhas Hinit). cbn [snd].
  rewrite unregister_present by (rewrite has_pluginsSet; now rewrite decide_True).
  f_equal. destruct m as [ps order]. unfold orderRemove, pluginsDelete. cbn.
  f_equal.
  - apply delete_insert_id. now apply has_false_iff in Hhas.
  - rewrite filter_app.
    assert (Hnot : id plugin ∉ order).
    { intros Hin. apply Hmem in Hin. congruence. }
    rewrite (filter_keeps_others _ _ Hnot).
    rewrite filter_cons_False by (intros H; now apply H).
    now rewrite filter_nil, app_nil_r.
Qed.

Lemma register_unregister_roundtrip_witness :
  unregister (id goodPlugin) (register goodPlugin sampleManager).2
  = (Returns tt, sampleManager).
Proof.
  apply (register_unregister_roundtrip sampleManager goodPlugin).
  - apply sampleManager_consistent.
  - reflexivity.
  - reflexivity.
Defined.

(** X6.  Unregistering a registered id removes that plugin only: the count
    drops by one, every other id is looked up as before, and the
    initialization order keeps the other ids in their order. *)
Theorem unregister_only_that_plugin m pluginId :
  has pluginId m = true ->
  count (unregister pluginId m).2 = pred (count m) /\
  (forall other, other <> pluginId ->
     get other (unregister pluginId m).2 = get other m) /\
  initializationOrder (unregister pluginId m).2
  = filter (fun other => other <> pluginId) (initializationOrder m) /\
  sublist (initializationOrder (unregister pluginId m).2) (initializationOrder m).
Proof.
  intros Hhas. rewrite (unregister_present _ _ Hhas). cbn [snd].
  unfold count, get. cbn.
  split; [apply map_size_delete_Some; now apply has_is_Some|].
  split; [intros other Hne; now apply lookup_delete_ne|].
  split; [reflexivity|]. apply sublist_filter.
Qed.

Lemma unregister_only_that_plugin_witness :
  count (unregister "stubborn" sampleManager).2 = pred (count sampleManager) /\
  (forall other, other <> "stubborn" ->
     get other (unregister "stubborn" sampleManager).2 = get other sampleManager) /\
  initializationOrder (unregister "stubborn" sampleManager).2
  = filter (fun other => other <> "stubborn") (initializationOrder sampleManager) /\
  sublist (initializationOrder (unregister "stubborn" sampleManager).2)
          (initializationOrder sampleManager).
Proof.
  apply (unregister_only_that_plugin sampleManager "stubborn"). reflexivity.
Defined.

(** X7.  [destroyAll] never throws, whatever the hooks do and whatever the
    order holds, and leaves a manager without plugins; on a consistent
    manager its loop alone, before the final [clear], has already
    unregistered every plugin. *)
Theorem destroyAll_empties m :
  destroyAll m = (Returns tt, empty) /\
  (forall pluginId, has pluginId (destroyAll m).2 = false) /\
  count (destroyAll m).2 = 0%nat /\
  (consistent m -> destroyLoop m = (Returns tt, empty)).
Proof.
  rewrite destroyAll_spec. split; [reflexivity|]. cbn [snd].
  split; [intros pluginId; unfold has; cbn; now rewrite lookup_empty|].
  split; [unfold count; cbn; apply map_size_empty|].
  intros Hm. rewrite destroyLoop_spec. f_equal.
  apply consistent_nobody; [now apply consistent_unregister_all|].
  intros pluginId.
  destruct (has pluginId (fold_left _ _ m)) eqn:Hhas; [|reflexivity].
  apply unregister_all_has in Hhas. destruct Hhas as [Hin Hnot].
  exfalso. apply Hnot. rewrite elem_of_reverse. now apply (proj2 Hm).
Qed.

Lemma destroyAll_empties_witness :
  destroyLoop sampleManager = (Returns tt, empty).
Proof.
  apply (proj2 (proj2 (proj2 (destroyAll_empties sampleManager)))).
  apply sampleManager_consistent.
Defined.

End RegistryFacts.

(** * The plugin lifecycle *)

Module LifecycleFacts.
Import PluginManager BasePlugin.

Lemma onInit_state self :
  state (onInit self).2
  = match state self with
    | uninitialized =>
        match doInit self with Resolves => ready | Rejects _ => error end
    | other => other
    end.
Proof.
  unfold onInit. destruct (state self) eqn:Hs; cbn [snd]; try exact Hs.
  cbn. now destruct (doInit self).
Qed.

Lemma onDestroy_state self : state (onDestroy self).2 = destroyed.
Proof. unfold onDestroy. now destruct (state self) eqn:Hs. Qed.

Lemma onInit_again self :
  onInit (onInit self).2 = (Resolves, (onInit self).2).
Proof.
  unfold onInit at 1. rewrite onInit_state.
  destruct (state self) eqn:Hs; try reflexivity.
  now destruct (doInit self).
Qed.

(** X8.  A second [onInit] never runs [doInit] again: it resolves and leaves
    the plugin as the first call left it, also when the first call rejected;
    in particular a plugin in state [error] stays there. *)
Theorem onInit_runs_once self :
  onInit (onInit self).2 = (Resolves, (onInit self).2) /\
  (state self <> uninitialized -> onInit self = (Resolves, self)).
Proof.
  split; [apply onInit_again|].
  intros Hs. unfold onInit. destruct (state self) eqn:E; try reflexivity.
  congruence.
Qed.

Lemma afterLifecycles_destroyed calls self :
  state self = destroyed -> state (afterLifecycles calls self) = destroyed.
Proof.
  unfold afterLifecycles. revert self.
  induction calls as [|c calls IH]; intros self Hs; cbn [fold_left]; [exact Hs|].
  apply IH. destruct c; cbn [afterLifecycle].
  - now rewrite onInit_state, Hs.
  - apply onDestroy_state.
Qed.

Lemma afterLifecycles_settled calls self :
  state self = ready \/ state self = error ->
  state (afterLifecycles calls self)
  = if mentions Destroy calls then destroyed else state self.
Proof.
  unfold afterLifecycles. revert self.
  induction calls as [|c calls IH]; intros self Hs; cbn [fold_left mentions];
    [reflexivity|].
  destruct c; cbn [afterLifecycle].
  - rewrite IH; rewrite onInit_state; destruct Hs as [-> | ->]; auto.
  - apply (afterLifecycles_destroyed calls). apply onDestroy_state.
Qed.

Lemma lifecycle_state_from_new calls self :
  state self = uninitialized ->
  state (afterLifecycles calls self)
  = if mentions Destroy calls then destroyed
    else if mentions Init calls then
      match doInit self with Resolves => ready | Rejects _ => error end
    else uninitialized.
Proof.
  unfold afterLifecycles. revert self.
  induction calls as [|c calls IH]; intros self Hs; cbn [fold_left mentions];
    [exact Hs|].
  destruct c; cbn [afterLifecycle].
  - pose proof (afterLifecycles_settled calls (onInit self).2) as Hset.
    unfold afterLifecycles in Hset. rewrite Hset; rewrite onInit_state, Hs.
    + reflexivity.
    + destruct (doInit self); auto.
  - apply (afterLifecycles_destroyed calls). apply onDestroy_state.
Qed.

(** X9.  The state of a plugin after any lifecycle calls on a new plugin:
    [destroyed] once [onDestroy] was called; otherwise, once [onInit] was
    called, [ready] if [doInit] resolves and [error] if it rejects; otherwise
    still [uninitialized]. *)
Theorem lifecycle_state calls self :
  state self = uninitialized ->
  state (afterLifecycles calls self)
  = if mentions Destroy calls then destroyed
    else if mentions Init calls then
      match doInit self with Resolves => ready | Rejects _ => error end
    else uninitialized.
Proof. apply lifecycle_state_from_new. Qed.

Lemma lifecycle_state_witness :
  state (afterLifecycles [Init; Init; Destroy; Init] failingPlugin) = destroyed /\
  state (afterLifecycles [Init; Init] failingPlugin) = error.
Proof.
  split.
  - apply (lifecycle_state [Init; Init; Destroy; Init] failingPlugin). reflexivity.
  - apply (lifecycle_state [Init; Init] failingPlugin). reflexivity.
Defined.

(** X10.  [onDestroy] always leaves the plugin [destroyed]; it passes on what
    [doDestroy] throws, and on a destroyed plugin it resolves without running
    [doDestroy]. *)
Theorem onDestroy_once self :
  state (onDestroy self).2 = destroyed /\
  (state self <> destroyed -> (onDestroy self).1 = doDestroy self) /\
  onDestroy (onDestroy self).2 = (Resolves, (onDestroy self).2).
Proof.
  split; [apply onDestroy_state|]. split.
  - intros Hs. unfold onDestroy. destruct (state self) eqn:E; try reflexivity.
    congruence.
  - unfold onDestroy at 1. now rewrite onDestroy_state.
Qed.

(** X11.  A plugin whose [doInit] rejects makes [register] throw
    [INIT_FAILED] and ends in state [error]; registering the same plugin
    again then succeeds, because [onInit] now resolves without initializing,
    and the manager holds a plugin that [assertReady] refuses. *)
Theorem register_retry_after_failure m self thrown :
  has (id self) m = false ->
  state self = uninitialized ->
  doInit self = Rejects thrown ->
  (exists e,
     register (asPlugin self) m = (Throws e, m) /\ code e = INIT_FAILED) /\
  state (onInit self).2 = error /\
  (register (asPlugin (onInit self).2) m).1 = Returns tt /\
  has (id self) (register (asPlugin (onInit self).2) m).2 = true /\
  exists e, assertReady (onInit self).2 = Throws e.
Proof.
  intros Hhas Hs Hinit.
  assert (Herr : state (onInit self).2 = error)
    by (now rewrite onInit_state, Hs, Hinit).
  assert (Hid : id (onInit self).2 = id self).
  { unfold onInit. rewrite Hs. cbn. now rewrite Hinit. }
  split; [|split; [exact Herr|]].
  - eexists. split.
    + apply (RegistryFacts.register_init_rejected m (asPlugin self) thrown).
      * exact Hhas.
      * unfold asPlugin, onInit. cbn. rewrite Hs. cbn. now rewrite Hinit.
    + reflexivity.
  - assert (Hreg : register (asPlugin (onInit self).2) m
                   = (Returns tt,
                      orderPush (id self)
                        (pluginsSet (id self) (asPlugin (onInit self).2) m))).
    { pose proof (RegistryFacts.register_resolved m (asPlugin (onInit self).2))
        as Hres.
      cbn [PluginManager.id PluginManager.onInit asPlugin] in Hres.
      rewrite Hid, onInit_again in Hres. now apply Hres. }
    rewrite Hreg. cbn [fst snd].
    split; [reflexivity|]. split.
    + rewrite RegistryFacts.has_pluginsSet. now rewrite decide_True.
    + unfold assertReady. rewrite Herr. now eexists.
Qed.

Lemma register_retry_after_failure_witness :
  (exists e,
     register (asPlugin failingPlugin) empty = (Throws e, empty) /\
     code e = INIT_FAILED) /\
  state (onInit failingPlugin).2 = error /\
  (register (asPlugin (onInit failingPlugin).2) empty).1 = Returns tt /\
  has (id failingPlugin) (register (asPlugin (onInit failingPlugin).2) empty).2
  = true /\
  exists e, assertReady (onInit failingPlugin).2 = Throws e.
Proof.
  apply (register_retry_after_failure empty failingPlugin
           (ThrownError (mkJsError "Error" "offline"))); reflexivity.
Defined.

End LifecycleFacts.

(** * More on skinning *)

Module SkinningFacts.


Lemma elem_of_flat_map {A B : Type} (f : A -> list B) (l : list A) (y : B) :
  y ∈ flat_map f l <-> exists x, x ∈ l /\ y ∈ f x.
Proof.
  rewrite list_elem_of_In, in_flat_map. split.
  - intros (x & Hx & Hy). exists x. now rewrite !list_elem_of_In.
  - intros (x & Hx & Hy). exists x. now rewrite <- !list_elem_of_In.
Qed.

(** *** NaN in, NaN out *)

Lemma add_nan_l x y : is_nan x = true -> is_nan (x + y) = true.
Proof.
  rewrite !is_nan_SF_spec, FloatAxioms.add_spec.
  destruct (Prim2SF x); try discriminate. reflexivity.
Qed.

Lemma add_nan_r x y : is_nan y = true -> is_nan (x + y) = true.
Proof.
  rewrite !is_nan_SF_spec, FloatAxioms.add_spec.
  destruct (Prim2SF y); try discriminate. destruct (Prim2SF x) as [[|]|[|]| |[|] ? ?]; reflexivity.
Qed.

Lemma div_nan_l x y : is_nan x = true -> is_nan (x / y) = true.
Proof.
  rewrite !is_nan_SF_spec, FloatAxioms.div_spec.
  destruct (Prim2SF x); try discriminate. reflexivity.
Qed.

Lemma div_nan_r x y : is_nan y = true -> is_nan (x / y) = true.
Proof.
  rewrite !is_nan_SF_spec, FloatAxioms.div_spec.
  destruct (Prim2SF y); try discriminate. destruct (Prim2SF x) as [[|]|[|]| |[|] ? ?]; reflexivity.
Qed.

(** The quotient of two numbers that are not negative is NaN or not
    negative. *)
Lemma div_nan_or_nonneg w t :
  nonneg w = true -> nonneg t = true ->
  is_nan (w / t) = true \/ nonneg (w / t) = true.
Proof.
  intros Nw Nt. destruct (nonneg_cases t Nt) as [->|[Ht| ->]].
  - destruct (div_zero_cases w Nw) as [H| ->]; [now left|now right].
  - right. apply div_nonneg_l; assumption.
  - destruct (div_infinity_cases w Nw) as [H| ->]; [now left|now right].
Qed.

Lemma fround_nan_or_nonneg q :
  is_nan q = true \/ nonneg q = true ->
  is_nan (fround q) = true \/ nonneg (fround q) = true.
Proof.
  intros [H|H]; [left; apply fround_nan, H|right; apply fround_nonneg, H].
Qed.

Lemma place_0 : place 0 = 0.
Proof. reflexivity. Qed.

(** A stored weight is NaN or lies between 0 and 1. *)
Lemma stored_weight_range l e :
  Forall measured l -> e ∈ l ->
  let w := fround (rawWeight e / totalWeight l) in
  is_nan w = true \/ ((0 <=? w)%float = true /\ (w <=? 1)%float = true).
Proof.
  intros Hm He w. subst w.
  pose proof Hm as Hm'. rewrite Forall_forall in Hm'.
  pose proof (rawWeight_nonneg e (Hm' e He)) as Nw.
  pose proof (totalWeight_nonneg l Hm) as NT.
  pose proof (addWeights_ge_member l 0%float e eq_refl Hm He) as Hge.
  fold (totalWeight l) in Hge.
  destruct (nonneg_cases _ NT) as [HT|[HT|HT]].
  - left. rewrite HT in *. rewrite place_0 in Hge.
    pose proof (place_bounds _ Nw) as [H0 _].
    assert (Hw0 : rawWeight e = 0%float).
    { apply place_inj; [exact Nw|reflexivity|rewrite place_0; lra]. }
    rewrite Hw0. reflexivity.
  - right.
    pose proof (div_nonneg_l _ _ Nw HT) as Nq.
    pose proof (div_le_1 _ _ Nw HT Hge) as Hq1.
    pose proof (fround_nonneg _ Nq) as Ns.
    pose proof (fround_le_1 _ Nq Hq1) as Hs1.
    split.
    + apply leb_place; [reflexivity|apply nonneg_not_nan_prim, Ns|].
      rewrite place_0. apply (place_bounds _ Ns).
    + apply leb_place; [apply nonneg_not_nan_prim, Ns|reflexivity|].
      now rewrite place_one.
  - rewrite HT.
    destruct (div_infinity_cases _ Nw) as [H| ->].
    + left. apply fround_nan, H.
    + right. split; reflexivity.
Qed.

Lemma vertexWeights_range positions skeleton k v w :
  comparable positions skeleton v = true ->
  w ∈ map fround (vertexWeights positions skeleton k v) ->
  is_nan w = true \/ ((0 <=? w)%float = true /\ (w <=? 1)%float = true).
Proof.
  intros Hc Hw. apply list_elem_of_fmap in Hw. destruct Hw as (w0 & -> & Hw0).
  unfold vertexWeights in Hw0. apply elem_of_app in Hw0. destruct Hw0 as [Hw0|Hw0].
  - apply list_elem_of_fmap in Hw0. destruct Hw0 as (e & -> & He).
    apply stored_weight_range; [apply closestOf_measured, Hc|exact He].
  - apply elem_of_replicate_inv in Hw0. subst w0. right. split; reflexivity.
Qed.

Lemma vertexIndices_range positions skeleton k v j :
  bones skeleton <> [] ->
  j ∈ vertexIndices positions skeleton k v -> (j < length (bones skeleton))%nat.
Proof.
  intros Hb. unfold vertexIndices. rewrite elem_of_app. intros [Hj|Hj].
  - apply list_elem_of_fmap in Hj. destruct Hj as (e & -> & He).
    now apply closestOf_elem in He.
  - apply elem_of_replicate_inv in Hj. subst j.
    destruct (bones skeleton); [congruence|simpl; lia].
Qed.

(** X12.  On a geometry with positions and a skeleton with at least one
    bone, every index [autoSkin] writes is that of a bone of the skeleton,
    and when no distance is NaN every weight it writes is NaN or lies
    between 0 and 1. *)
Theorem autoSkin_entries_in_range geometry skeleton k positions :
  getAttribute geometry "position" = Some positions ->
  bones skeleton <> [] ->
  exists skinIndex skinWeight,
    getAttribute (autoSkin geometry skeleton k) "skinIndex" = Some skinIndex /\
    getAttribute (autoSkin geometry skeleton k) "skinWeight" = Some skinWeight /\
    (forall x, x ∈ array skinIndex ->
       exists j, x = toUint16 j /\ (j < length (bones skeleton))%nat) /\
    ((forall v, (v < count positions)%nat ->
        comparable positions skeleton v = true) ->
     forall w, w ∈ array skinWeight ->
       is_nan w = true \/ ((0 <=? w)%float = true /\ (w <=? 1)%float = true)).
Proof.
  intros Hpos Hb. eexists. eexists.
  split; [apply (autoSkin_skinIndex _ _ _ _ Hpos)|].
  split; [apply (autoSkin_skinWeight _ _ _ _ Hpos)|].
  cbn [array Uint16BufferAttribute Float32BufferAttribute]. split.
  - intros x Hx. apply list_elem_of_fmap in Hx. destruct Hx as (j & -> & Hj).
    exists j. split; [reflexivity|].
    apply elem_of_flat_map in Hj. destruct Hj as (v & _ & Hj).
    eapply vertexIndices_range; eauto.
  - intros Hc w Hw. rewrite map_flat_map in Hw.
    apply elem_of_flat_map in Hw. destruct Hw as (v & Hv & Hw).
    apply list_elem_of_In, in_seq in Hv.
    apply (vertexWeights_range positions skeleton k v w); [apply Hc; lia|exact Hw].
Qed.

Lemma autoSkin_entries_in_range_witness :
  exists skinIndex skinWeight,
    getAttribute (autoSkin sampleGeometry twoBones 4) "skinIndex" = Some skinIndex /\
    getAttribute (autoSkin sampleGeometry twoBones 4) "skinWeight" = Some skinWeight /\
    (forall x, x ∈ array skinIndex ->
       exists j, x = toUint16 j /\ (j < length (bones twoBones))%nat) /\
    ((forall v, (v < count samplePositions)%nat ->
        comparable samplePositions twoBones v = true) ->
     forall w, w ∈ array skinWeight ->
       is_nan w = true \/ ((0 <=? w)%float = true /\ (w <=? 1)%float = true)).
Proof.
  apply (autoSkin_entries_in_range sampleGeometry twoBones 4 samplePositions);
    [reflexivity | discriminate].
Defined.

Lemma closestOf_one_bone positions bone k v :
  closestOf positions (mkSkeleton [bone]) (S k) v
  = [mkEntry 0 (Float64.distanceTo (fromBufferAttribute positions v)
                                   (getWorldPosition bone))].
Proof. rewrite closestOf_unfold. cbn. now rewrite take_nil. Qed.

Lemma item_of_skinIndex geometry skeleton k positions v :
  getAttribute geometry "position" = Some positions ->
  (v < count positions)%nat ->
  exists skinIndex,
    getAttribute (autoSkin geometry skeleton k) "skinIndex" = Some skinIndex /\
    itemOf skinIndex v = map toUint16 (vertexIndices positions skeleton k v).
Proof.
  intros Hpos Hv. eexists. split; [apply (autoSkin_skinIndex _ _ _ _ Hpos)|].
  unfold itemOf. cbn [array itemSize Uint16BufferAttribute].
  rewrite map_flat_map.
  apply (flat_map_seq_item
           (fun v => map toUint16 (vertexIndices positions skeleton k v)));
    [|exact Hv].
  intros. now rewrite length_map, vertexIndices_length.
Qed.

Lemma map_toUint16_zeros n : map toUint16 (replicate n 0%nat) = replicate n 0%float.
Proof.
  induction n as [|n IH]; cbn [replicate map]; [reflexivity|].
  now rewrite IH, toUint16_0.
Qed.

(** The weight of a vertex with a single selected bone. *)
Lemma lone_weight_finite d :
  is_nan d = false -> nonneg d = true -> (d <? infinity)%float = true ->
  fround (1 / (d + 0.001) / (0 + 1 / (d + 0.001)))%float = 1%float.
Proof.
  intros _ N Hlt.
  assert (F : finite_nonneg d = true).
  { apply finite_of_place; [exact N|].
    rewrite <- place_infinity. apply ltb_place; auto using nonneg_not_nan_prim. }
  pose proof (reciprocal_positive d F) as Hw.
  rewrite add_0_l by (apply positive_finite_nonneg, Hw).
  rewrite (div_self _ Hw). reflexivity.
Qed.

Lemma lone_weight_nan d :
  (is_nan d = true \/ nonneg d = true) -> (d <? infinity)%float = false ->
  is_nan (fround (1 / (d + 0.001) / (0 + 1 / (d + 0.001)))%float) = true.
Proof.
  intros [Hn|N] Hlt.
  - apply fround_nan, div_nan_l, div_nan_r, add_nan_l, Hn.
  - assert (Hd : d = infinity).
    { apply place_inj; [exact N|reflexivity|].
      apply ltb_false_place in Hlt; auto using nonneg_not_nan_prim.
      pose proof (place_bounds d N). rewrite place_infinity in *. lra. }
    rewrite Hd. reflexivity.
Qed.

Lemma distanceTo_nan_or_nonneg a b :
  is_nan (Float64.distanceTo a b) = true \/ nonneg (Float64.distanceTo a b) = true.
Proof.
  destruct (is_nan (Float64.distanceTo a b)) eqn:E; [now left|right].
  apply distanceTo_nonneg, E.
Qed.

(** X13.  With a skeleton of exactly one bone and [k >= 1], every vertex
    gets the indices [0, ..., 0] and the weights [w, 0, ..., 0], where [w]
    is [1] when the distance computed from the vertex to the bone is finite
    and NaN when it is not. *)
Theorem autoSkin_single_bone geometry bone k positions v :
  getAttribute geometry "position" = Some positions ->
  (1 <= k)%nat ->
  (v < count positions)%nat ->
  exists skinIndex skinWeight w,
    getAttribute (autoSkin geometry (mkSkeleton [bone]) k) "skinIndex"
    = Some skinIndex /\
    getAttribute (autoSkin geometry (mkSkeleton [bone]) k) "skinWeight"
    = Some skinWeight /\
    itemOf skinIndex v = replicate k 0%float /\
    itemOf skinWeight v = w :: replicate (k - 1) 0%float /\
    ((boneDistance positions (mkSkeleton [bone]) v 0 <? infinity)%float = true ->
     w = 1%float) /\
    ((boneDistance positions (mkSkeleton [bone]) v 0 <? infinity)%float = false ->
     is_nan w = true).
Proof.
  intros Hpos Hk Hv. destruct k as [|k]; [lia|].
  destruct (item_of_skinIndex geometry (mkSkeleton [bone]) (S k) positions v Hpos Hv)
    as (si & Hsi & Hitem).
  destruct (autoSkin_weights_item geometry (mkSkeleton [bone]) (S k) positions Hpos v Hv)
    as (sw & Hsw & Hitemw).
  exists si, sw. eexists. split; [exact Hsi|]. split; [exact Hsw|].
  rewrite Hitem, Hitemw. unfold vertexWeights, vertexIndices.
  rewrite closestOf_one_bone.
  cbn [map length app index totalWeight fold_left].
  replace (S k - 1)%nat with k by lia.
  rewrite (map_replicate_0 fround) by reflexivity.
  rewrite map_toUint16_zeros, toUint16_0.
  split; [reflexivity|]. split; [reflexivity|].
  unfold rawWeight, boneDistance. cbn [distance bones lookup list_lookup].
  set (d := Float64.distanceTo (fromBufferAttribute positions v) (getWorldPosition bone)).
  split.
  - intros Hlt.
    destruct (distanceTo_nan_or_nonneg (fromBufferAttribute positions v)
                (getWorldPosition bone)) as [Hn|N].
    + fold d in Hn. rewrite (ltb_nan_l _ _ Hn) in Hlt. discriminate.
    + fold d in N. apply lone_weight_finite; auto using nonneg_not_nan_prim.
  - intros Hlt. apply lone_weight_nan; [|exact Hlt].
    apply distanceTo_nan_or_nonneg.
Qed.

Lemma autoSkin_single_bone_witness :
  exists skinIndex skinWeight w,
    getAttribute (autoSkin sampleGeometry oneBone 4) "skinIndex" = Some skinIndex /\
    getAttribute (autoSkin sampleGeometry oneBone 4) "skinWeight" = Some skinWeight /\
    itemOf skinIndex 1 = replicate 4 0%float /\
    itemOf skinWeight 1 = w :: replicate (4 - 1) 0%float /\
    ((boneDistance samplePositions oneBone 1 0 <? infinity)%float = true ->
     w = 1%float) /\
    ((boneDistance samplePositions oneBone 1 0 <? infinity)%float = false ->
     is_nan w = true).
Proof.
  apply (autoSkin_single_bone sampleGeometry (mkBone "root" (Float64.mkVector3 0 0 0))
           4 samplePositions 1).
  - reflexivity.
  - lia.
  - rewrite sample_count. lia.
Defined.

(** X14.  With [k = 1], every vertex without a NaN distance is bound to a
    single bone: the one with the smallest computed distance, and among
    those the one of smallest index; its weight is 1 when that distance is
    finite. *)
Theorem autoSkin_rigid_binding geometry skeleton positions v :
  getAttribute geometry "position" = Some positions ->
  bones skeleton <> [] ->
  (v < count positions)%nat ->
  comparable positions skeleton v = true ->
  exists e skinIndex skinWeight,
    closestOf positions skeleton 1 v = [e] /\
    getAttribute (autoSkin geometry skeleton 1) "skinIndex" = Some skinIndex /\
    getAttribute (autoSkin geometry skeleton 1) "skinWeight" = Some skinWeight /\
    itemOf skinIndex v = [toUint16 (index e)] /\
    (index e < length (bones skeleton))%nat /\
    (forall j, (j < length (bones skeleton))%nat -> j <> index e ->
       preferred positions skeleton v (index e) j) /\
    ((distance e <? infinity)%float = true -> itemOf skinWeight v = [1%float]).
Proof.
  intros Hpos Hb Hv Hc.
  destruct (closestOf positions skeleton 1 v) as [|e [|e' rest]] eqn:Hsel.
  - apply (f_equal length) in Hsel. rewrite closestOf_length in Hsel.
    destruct (bones skeleton); [congruence|]. simpl in Hsel. lia.
  - destruct (item_of_skinIndex geometry skeleton 1 positions v Hpos Hv)
      as (si & Hsi & Hitem).
    destruct (autoSkin_weights_item geometry skeleton 1 positions Hpos v Hv)
      as (sw & Hsw & Hitemw).
    assert (He : e ∈ closestOf positions skeleton 1 v)
      by (rewrite Hsel; apply elem_of_cons; now left).
    pose proof (closestOf_measured positions skeleton 1 v Hc) as Hm.
    rewrite Forall_forall in Hm. pose proof (Hm e He) as Me.
    exists e, si, sw. split; [reflexivity|]. split; [exact Hsi|].
    split; [exact Hsw|].
    rewrite Hitem, Hitemw. unfold vertexWeights, vertexIndices. rewrite Hsel.
    cbn [map length app index totalWeight fold_left Nat.sub replicate].
    split; [reflexivity|]. split; [|split].
    + now apply closestOf_elem in He.
    + intros j Hj Hne.
      apply (closestOf_preferred positions skeleton 1 v e j Hc He Hj).
      rewrite Hsel. cbn. intros Hin. apply list_elem_of_singleton in Hin.
      congruence.
    + intros Hlt. f_equal. unfold rawWeight.
      apply lone_weight_finite; auto using nonneg_not_nan_prim.
  - apply (f_equal length) in Hsel. rewrite closestOf_length in Hsel.
    cbn [length] in Hsel. lia.
Qed.

Lemma autoSkin_rigid_binding_witness :
  exists e skinIndex skinWeight,
    closestOf samplePositions twoBones 1 1 = [e] /\
    getAttribute (autoSkin sampleGeometry twoBones 1) "skinIndex" = Some skinIndex /\
    getAttribute (autoSkin sampleGeometry twoBones 1) "skinWeight" = Some skinWeight /\
    itemOf skinIndex 1 = [toUint16 (index e)] /\
    (index e < length (bones twoBones))%nat /\
    (forall j, (j < length (bones twoBones))%nat -> j <> index e ->
       preferred samplePositions twoBones 1 (index e) j) /\
    ((distance e <? infinity)%float = true -> itemOf skinWeight 1 = [1%float]).
Proof.
  apply (autoSkin_rigid_binding sampleGeometry twoBones samplePositions 1).
  - reflexivity.
  - discriminate.
  - rewrite sample_count. lia.
  - reflexivity.
Defined.

Lemma stored_weight_nan_or_nonneg l e :
  Forall measured l -> e ∈ l ->
  is_nan (fround (rawWeight e / totalWeight l)) = true \/
  nonneg (fround (rawWeight e / totalWeight l)) = true.
Proof.
  intros Hm He. apply fround_nan_or_nonneg, div_nan_or_nonneg.
  - rewrite Forall_forall in Hm. apply rawWeight_nonneg, Hm, He.
  - apply totalWeight_nonneg, Hm.
Qed.

Lemma vertexWeights_descend positions skeleton k v a b wa wb :
  comparable positions skeleton v = true ->
  (a <= b)%nat ->
  map fround (vertexWeights positions skeleton k v) !! a = Some wa ->
  map fround (vertexWeights positions skeleton k v) !! b = Some wb ->
  (wa <? wb)%float = false.
Proof.
  intros Hc Hab Ha Hb.
  destruct (decide (a = b)) as [->|Hne].
  { rewrite Ha in Hb. injection Hb as <-. apply ltb_irrefl. }
  pose proof (closestOf_measured positions skeleton k v Hc) as Hm.
  pose proof Hm as Hm'. rewrite Forall_forall in Hm'.
  rewrite list_lookup_fmap in Ha, Hb.
  destruct (closestOf positions skeleton k v !! b) as [eb|] eqn:Heb.
  - destruct (lookup_lt_is_Some_2 (closestOf positions skeleton k v) a) as [ea Hea].
    { apply lookup_lt_Some in Heb. lia. }
    rewrite (vertexWeights_selected _ _ _ _ _ _ Hea) in Ha.
    rewrite (vertexWeights_selected _ _ _ _ _ _ Heb) in Hb.
    cbn in Ha, Hb. injection Ha as <-. injection Hb as <-.
    assert (Hlt : (a < b)%nat) by lia.
    pose proof (sorted_lookup _ _ _ _ _ _ (closestOf_sorted positions skeleton k v Hc)
                  Hlt Hea Heb) as Hbefore.
    apply list_elem_of_lookup_2 in Hea, Heb.
    pose proof (Hm' _ Hea) as Ma. pose proof (Hm' _ Heb) as Mb.
    apply entryBefore_place in Hbefore; [|exact Ma|exact Mb].
    apply normalized_weight_mono.
    + apply rawWeight_nonneg, Ma.
    + apply rawWeight_nonneg, Mb.
    + apply totalWeight_nonneg, Hm.
    + apply rawWeight_anti; [exact Ma|exact Mb|lra].
  - assert (Hwb : wb = 0%float).
    { unfold vertexWeights in Hb. apply lookup_ge_None in Heb.
      rewrite lookup_app_r in Hb by (now rewrite length_map).
      destruct (replicate _ _ !! _) as [x|] eqn:Hx; [|discriminate].
      apply list_elem_of_lookup_2, elem_of_replicate_inv in Hx. subst x.
      cbn in Hb. now injection Hb as <-. }
    subst wb.
    destruct (vertexWeights positions skeleton k v !! a) as [w0|] eqn:Hw0;
      [|discriminate].
    cbn in Ha. injection Ha as <-.
    unfold vertexWeights in Hw0. apply list_elem_of_lookup_2 in Hw0.
    apply elem_of_app in Hw0. destruct Hw0 as [Hw0|Hw0].
    + apply list_elem_of_fmap in Hw0. destruct Hw0 as (e & -> & He).
      apply ltb_false_intro.
      destruct (stored_weight_nan_or_nonneg _ e Hm He) as [Hn|Nn];
        [now left|right; right].
      split; [exact Nn|]. split; [reflexivity|].
      rewrite place_0. apply (place_bounds _ Nn).
    + apply elem_of_replicate_inv in Hw0. subst w0. reflexivity.
Qed.

(** X15.  For a vertex without a NaN distance, the stored weights never
    increase from one slot to the next: the weight of a slot is never
    smaller than the weight of a later slot. *)
Theorem autoSkin_slots_descend geometry skeleton k positions v :
  getAttribute geometry "position" = Some positions ->
  (v < count positions)%nat ->
  comparable positions skeleton v = true ->
  exists skinWeight,
    getAttribute (autoSkin geometry skeleton k) "skinWeight" = Some skinWeight /\
    forall a b wa wb, (a <= b)%nat -> (b < k)%nat ->
      array skinWeight !! (v * k + a)%nat = Some wa ->
      array skinWeight !! (v * k + b)%nat = Some wb ->
      (wa <? wb)%float = false.
Proof.
  intros Hpos Hv Hc.
  eexists. split; [apply (autoSkin_skinWeight _ _ _ _ Hpos)|].
  cbn [array Float32BufferAttribute]. rewrite map_flat_map.
  assert (Hat : forall a, (a < k)%nat ->
    flat_map (fun v => map fround (vertexWeights positions skeleton k v))
             (seq 0 (count positions)) !! (v * k + a)%nat
    = map fround (vertexWeights positions skeleton k v) !! a).
  { intros a Ha.
    apply (flat_map_seq_lookup
             (fun v => map fround (vertexWeights positions skeleton k v))); auto.
    intros. now rewrite length_map, vertexWeights_length. }
  intros a b wa wb Hab Hb. rewrite !Hat by lia.
  now apply vertexWeights_descend.
Qed.

Lemma autoSkin_slots_descend_witness :
  exists skinWeight,
    getAttribute (autoSkin sampleGeometry twoBones 4) "skinWeight" = Some skinWeight /\
    forall a b wa wb, (a <= b)%nat -> (b < 4)%nat ->
      array skinWeight !! (1 * 4 + a)%nat = Some wa ->
      array skinWeight !! (1 * 4 + b)%nat = Some wb ->
      (wa <? wb)%float = false.
Proof.
  apply (autoSkin_slots_descend sampleGeometry twoBones 4 samplePositions 1).
  - reflexivity.
  - rewrite sample_count. lia.
  - reflexivity.
Defined.

(** X16.  [autoSkin] touches no attribute but [skinIndex] and [skinWeight],
    and running it a second time with the same skeleton and [k] changes
    nothing more. *)
Theorem autoSkin_idempotent geometry skeleton k :
  (forall name, name <> "skinIndex" -> name <> "skinWeight" ->
     getAttribute (autoSkin geometry skeleton k) name = getAttribute geometry name) /\
  autoSkin (autoSkin geometry skeleton k) skeleton k = autoSkin geometry skeleton k.
Proof.
  destruct (getAttribute geometry "position") as [positions|] eqn:Hpos.
  - assert (Hpos' : getAttribute (autoSkin geometry skeleton k) "position"
                    = Some positions).
    { rewrite (autoSkin_spec _ _ _ _ Hpos). unfold getAttribute, setAttribute.
      cbn. now rewrite !lookup_insert_ne by discriminate. }
    split.
    + intros name Hi Hw. rewrite (autoSkin_spec _ _ _ _ Hpos).
      unfold getAttribute, setAttribute. cbn.
      now rewrite !lookup_insert_ne by congruence.
    + rewrite (autoSkin_spec _ _ _ _ Hpos') at 1.
      rewrite (autoSkin_spec _ _ _ _ Hpos).
      unfold setAttribute. cbn. f_equal. apply map_eq. intros name.
      destruct (decide (name = "skinWeight")) as [->|Hw].
      { now rewrite !lookup_insert_eq. }
      rewrite !(lookup_insert_ne _ "skinWeight") by congruence.
      destruct (decide (name = "skinIndex")) as [->|Hi].
      { now rewrite !lookup_insert_eq. }
      now repeat rewrite lookup_insert_ne by congruence.
  - assert (Hid : autoSkin geometry skeleton k = geometry)
      by (unfold autoSkin; now rewrite Hpos).
    split; [intros; now rewrite Hid | now rewrite !Hid].
Qed.

End SkinningFacts.


(** * More on the generators *)

Module GeneratorMore.
Import Generators.

Lemma inherited_not_preset key :
  inherited key = true -> lookupStyle key = None.
Proof.
  unfold inherited, objectPrototypeKeys. cbn [existsb].
  rewrite !orb_true_iff.
  intros H. repeat (destruct H as [H|H]);
    try (apply String.eqb_eq in H; subst key; reflexivity).
  discriminate.
Qed.

Lemma lookupStyle_None key : lookupStyle key = None <-> inherited key = true.
Proof.
  split; [|apply inherited_not_preset].
  intros H. destruct (inherited key) eqn:Hk; [reflexivity|].
  destruct (GeneratorFacts.lookupStyle_own key Hk) as [p Hp]. congruence.
Qed.

Lemma generate_outcome host params self w :
  ((exists e, (generate host params self w).1.1 = Throws e)
   <-> state self <> ready \/ inherited (styleKeyOf params) = true) /\
  (forall e, (generate host params self w).1.1 = Throws e ->
     generate host params self w = (Throws e, self, w)) /\
  (forall c, (generate host params self w).1.1 = Returns c ->
     generate host params self w
     = (Returns c,
        mkGenerator ready (S (characterCount self)),
        mkWorld (clock w) (3 + clockReads w) (random w) (1 + randomDraws w)) /\
     characterName c = "humanoid-" +:+ pretty (S (characterCount self)) /\
     nameOf <$> model c = Some (characterName c) /\
     characterType c = humanoid /\
     generationParams c = params /\
     plugins_used (metadata c) = [generatorId] /\
     bonesCount (metadata c) = 0%nat /\
     createdAt (metadata c) = clock w (1 + clockReads w) /\
     updatedAt (metadata c) = clock w (2 + clockReads w)).
Proof.
  assert (Hcase : state self = ready \/ state self <> ready)
    by (destruct (state self); auto; right; discriminate).
  destruct Hcase as [Hs|Hs].
  - destruct (lookupStyle (styleKeyOf params)) as [stylePreset|] eqn:Hstyle.
    + assert (Hk : inherited (styleKeyOf params) = false).
      { destruct (inherited (styleKeyOf params)) eqn:Hk; [|reflexivity].
        apply inherited_not_preset in Hk. congruence. }
      rewrite (GeneratorFacts.generate_ready _ _ _ _ _ Hs Hstyle). cbn [fst snd].
      split; [|split].
      * split; [intros [e He]; discriminate|].
        intros [H|H]; congruence.
      * intros e He. discriminate.
      * intros c Hc.
        match type of Hc with
        | Returns ?made = _ => remember made as made' eqn:Hmade
        end.
        injection Hc as <-. subst made'.
        cbn [characterName model characterType generationParams metadata
             plugins_used bonesCount createdAt updatedAt
             fmap option_fmap option_map Nat.add].
        rewrite GeneratorFacts.nameOf_setName. repeat split.
    + rewrite (GeneratorFacts.generate_inherited_style _ _ _ _ Hs Hstyle).
      cbn [fst snd]. apply lookupStyle_None in Hstyle.
      split; [|split].
      * split; [intros _; now right | intros _; now eexists].
      * intros e [= <-]. reflexivity.
      * intros c Hc. discriminate.
  - rewrite (GeneratorFacts.generate_not_ready _ _ _ _ Hs). cbn [fst snd].
    split; [|split].
    + split; [intros _; now left | intros _; now eexists].
    + intros e [= <-]. reflexivity.
    + intros c Hc. discriminate.
Qed.

(** X17.  [generate] throws exactly when the generator is not ready or the
    style names a property inherited from [Object.prototype]; then neither the
    generator nor the clock and random source have moved.  When it returns,
    the character counter is one more and the clock was read three times; the
    character and its model carry the name [humanoid-<counter>], and the
    timestamps are the second and third readings of the clock. *)
Theorem generate_effects host params self w :
  ((exists e, (generate host params self w).1.1 = Throws e)
   <-> state self <> ready \/ inherited (styleKeyOf params) = true) /\
  (forall e, (generate host params self w).1.1 = Throws e ->
     generate host params self w = (Throws e, self, w)) /\
  (forall c, (generate host params self w).1.1 = Returns c ->
     (generate host params self w).1.2
     = mkGenerator ready (S (characterCount self)) /\
     clock (generate host params self w).2 = clock w /\
     clockReads (generate host params self w).2 = (3 + clockReads w)%nat /\
     characterName c = "humanoid-" +:+ pretty (S (characterCount self)) /\
     nameOf <$> model c = Some (characterName c) /\
     characterType c = humanoid /\
     generationParams c = params /\
     plugins_used (metadata c) = [generatorId] /\
     bonesCount (metadata c) = 0%nat /\
     createdAt (metadata c) = clock w (1 + clockReads w) /\
     updatedAt (metadata c) = clock w (2 + clockReads w)).
Proof.
  destruct (generate_outcome host params self w) as (Hthrows & Hsame & Hret).
  split; [exact Hthrows|]. split; [exact Hsame|].
  intros c Hc. destruct (Hret c Hc) as (Heq & Hrest).
  rewrite Heq. cbn [fst snd clock clockReads].
  split; [reflexivity|]. split; [reflexivity|]. split; [reflexivity|].
  exact Hrest.
Qed.

Lemma afterLifecycles_state calls :
  state (afterLifecycles calls newGenerator)
  = if BasePlugin.mentions BasePlugin.Destroy calls then destroyed
    else if BasePlugin.mentions BasePlugin.Init calls then ready
    else uninitialized.
Proof.
  unfold afterLifecycles. cbn [state].
  now rewrite (LifecycleFacts.lifecycle_state_from_new calls
                 (asBasePlugin newGenerator)).
Qed.

(** X18.  A new [HumanoidGenerator] generates exactly between its first
    [onInit] and its first [onDestroy]: for a style that is not an inherited
    property, [generate] returns a character if [onInit] has been called and
    [onDestroy] has not, and throws otherwise. *)
Theorem generate_needs_init host params calls w :
  inherited (styleKeyOf params) = false ->
  ((exists c,
      (generate host params (afterLifecycles calls newGenerator) w).1.1 = Returns c)
   <-> BasePlugin.mentions BasePlugin.Init calls = true /\
       BasePlugin.mentions BasePlugin.Destroy calls = false).
Proof.
  intros Hk. destruct (GeneratorFacts.lookupStyle_own _ Hk) as [stylePreset Hstyle].
  pose proof (afterLifecycles_state calls) as Hs.
  destruct (BasePlugin.mentions BasePlugin.Destroy calls);
    [|destruct (BasePlugin.mentions BasePlugin.Init calls)].
  - rewrite GeneratorFacts.generate_not_ready by (rewrite Hs; discriminate).
    split; [intros [c Hc]; discriminate | intros [_ H]; discriminate].
  - rewrite (GeneratorFacts.generate_ready _ _ _ _ _ Hs Hstyle).
    split; [now split | intros _; now eexists].
  - rewrite GeneratorFacts.generate_not_ready by (rewrite Hs; discriminate).
    split; [intros [c Hc]; discriminate | intros [H _]; discriminate].
Qed.

Lemma generate_needs_init_witness :
  (exists c,
     (generate sampleHost sampleParams
               (afterLifecycles [BasePlugin.Init] newGenerator) sampleWorld).1.1
     = Returns c)
  <-> BasePlugin.mentions BasePlugin.Init [BasePlugin.Init] = true /\
      BasePlugin.mentions BasePlugin.Destroy [BasePlugin.Init] = false.
Proof.
  apply (generate_needs_init sampleHost sampleParams [BasePlugin.Init] sampleWorld).
  reflexivity.
Defined.

Lemma styleKey_fallback params :
  style params = "" \/
  (STYLE_PRESETS (style params) = None /\ inherited (style params) = false) ->
  lookupStyle (styleKeyOf params) = STYLE_PRESETS "realistic".
Proof.
  unfold styleKeyOf. intros [H|[Hnone Hk]].
  - rewrite H. reflexivity.
  - destruct (String.eqb (style params) "") eqn:E; [reflexivity|].
    unfold lookupStyle. now rewrite Hnone, Hk.
Qed.

(** X19.  An empty style, and a style that is neither a preset nor an
    inherited property, fall back to the preset [realistic]: the character is
    the one generated for the style [realistic], but for the parameters it
    records. *)
Theorem generate_style_fallback host params self w :
  state self = ready ->
  style params = "" \/
  (STYLE_PRESETS (style params) = None /\ inherited (style params) = false) ->
  exists c c' self' w',
    generate host params self w = (Returns c, self', w') /\
    generate host (withStyle "realistic" params) self w = (Returns c', self', w') /\
    model c = model c' /\
    characterId c = characterId c' /\
    characterName c = characterName c' /\
    metadata c = metadata c' /\
    generationParams c = params /\
    generationParams c' = withStyle "realistic" params.
Proof.
  intros Hs Hstyle. apply styleKey_fallback in Hstyle.
  destruct (STYLE_PRESETS "realistic") as [stylePreset|] eqn:Hp; [|discriminate].
  assert (Hstyle' : lookupStyle (styleKeyOf (withStyle "realistic" params))
                    = Some stylePreset) by exact Hp.
  rewrite (GeneratorFacts.generate_ready _ _ _ _ _ Hs Hstyle).
  rewrite (GeneratorFacts.generate_ready _ _ _ _ _ Hs Hstyle').
  do 4 eexists. split; [reflexivity|]. split; [reflexivity|].
  repeat split.
Qed.

Lemma generate_style_fallback_witness :
  exists c c' self' w',
    generate sampleHost (withStyle "pirate" sampleParams) readyGenerator sampleWorld
    = (Returns c, self', w') /\
    generate sampleHost (withStyle "realistic" (withStyle "pirate" sampleParams))
             readyGenerator sampleWorld
    = (Returns c', self', w') /\
    model c = model c' /\
    characterId c = characterId c' /\
    characterName c = characterName c' /\
    metadata c = metadata c' /\
    generationParams c = withStyle "pirate" sampleParams /\
    generationParams c' = withStyle "realistic" (withStyle "pirate" sampleParams).
Proof.
  apply (generate_style_fallback sampleHost (withStyle "pirate" sampleParams)
           readyGenerator sampleWorld).
  - reflexivity.
  - right. split; reflexivity.
Defined.

Lemma name_injective n m :
  "humanoid-" +:+ pretty (S n) = "humanoid-" +:+ pretty (S m) -> n = m.
Proof.
  intros H.
  assert (Hcut : forall (p a b : string), p +:+ a = p +:+ b -> a = b).
  { induction p as [|ch p IH]; intros a b Hab; simpl in Hab; [exact Hab|].
    injection Hab as Hab. now apply IH. }
  apply Hcut, pretty_nat_inj in H. lia.
Qed.

(** X20.  The names of the characters of ready generators are equal exactly
    when the character counters are; so two runs in a row of one generator
    give different names, and two new generators name their first characters
    alike. *)
Theorem generate_names host params g1 w1 g2 w2 :
  state g1 = ready -> state g2 = ready ->
  inherited (styleKeyOf params) = false ->
  exists c1 c2 c3,
    (generate host params g1 w1).1.1 = Returns c1 /\
    (generate host params g2 w2).1.1 = Returns c2 /\
    (generate host params (generate host params g1 w1).1.2
              (generate host params g1 w1).2).1.1 = Returns c3 /\
    (characterName c1 = characterName c2
     <-> characterCount g1 = characterCount g2) /\
    characterName c3 <> characterName c1.
Proof.
  intros Hs1 Hs2 Hk.
  destruct (GeneratorFacts.lookupStyle_own _ Hk) as [stylePreset Hstyle].
  rewrite (GeneratorFacts.generate_ready _ _ _ _ _ Hs1 Hstyle).
  rewrite (GeneratorFacts.generate_ready _ _ _ _ _ Hs2 Hstyle).
  cbn [fst snd].
  rewrite (GeneratorFacts.generate_ready host params
             (mkGenerator ready (S (characterCount g1))) _ stylePreset
             eq_refl Hstyle).
  cbn [fst snd].
  do 3 eexists. split; [reflexivity|]. split; [reflexivity|].
  split; [reflexivity|]. cbn [characterName characterCount]. split.
  - split; [apply name_injective | now intros ->].
  - intros Heq. apply name_injective in Heq. lia.
Qed.

Lemma generate_names_witness :
  exists c1 c2 c3,
    (generate sampleHost sampleParams readyGenerator sampleWorld).1.1 = Returns c1 /\
    (generate sampleHost sampleParams (mkGenerator ready 7) sampleWorld).1.1
    = Returns c2 /\
    (generate sampleHost sampleParams
              (generate sampleHost sampleParams readyGenerator sampleWorld).1.2
              (generate sampleHost sampleParams readyGenerator sampleWorld).2).1.1
    = Returns c3 /\
    (characterName c1 = characterName c2
     <-> characterCount readyGenerator = characterCount (mkGenerator ready 7)) /\
    characterName c3 <> characterName c1.
Proof.
  apply (generate_names sampleHost sampleParams readyGenerator sampleWorld
           (mkGenerator ready 7) sampleWorld); reflexivity.
Defined.

(** X21.  A limb of [createLimb] is a cylinder between two spheres of the
    same radius, centred on its origin, and its caps end at half the length
    above and below. *)
Theorem createLimb_spans length radius material :
  exists cylinder top bottom,
    childrenOf (createLimb length radius material) = [cylinder; top; bottom] /\
    meshOf cylinder
    = Some (CylinderGeometry radius radius (length - radius * 2) 8, material) /\
    meshOf top = Some (SphereGeometry radius 8 6, material) /\
    meshOf bottom = Some (SphereGeometry radius 8 6, material) /\
    positionOf cylinder = mkVector3 0 0 0 /\
    vx (positionOf top) = 0 /\ vz (positionOf top) = 0 /\
    vx (positionOf bottom) = 0 /\ vz (positionOf bottom) = 0 /\
    vy (positionOf top) + radius = length / 2 /\
    vy (positionOf bottom) - radius = - (length / 2) /\
    vy (positionOf top) = (length - radius * 2) / 2 /\
    vy (positionOf bottom) = - vy (positionOf top).
Proof.
  do 3 eexists. split; [reflexivity|]. cbn.
  repeat split; lra.
Qed.

(** X22.  Whatever the proportions and the height, the body parts of
    [buildHumanoid] are the nine named parts in this order.  The heights of
    the feet, legs, torso, neck and head cut the vertical axis into five
    slots, one on top of the other from the ground up, and every part is
    centred on the middle of its slot.  The boxes of the feet and of the
    torso and the cylinder of the neck are as high as their slots, and a leg
    is a limb as long as its slot.  The head is a sphere of radius
    [headWidth * height], whatever [headHeight] is: when the height is
    positive and [headHeight < 2 * headWidth] it reaches below the top of the
    neck and above the sum of the five heights.  The left and right arm, leg
    and foot mirror each other. *)
Theorem buildHumanoid_stacked props height material :
  exists head neck torso leftArm rightArm leftLeg rightLeg leftFoot rightFoot,
    childrenOf (buildHumanoid props height material)
    = [head; neck; torso; leftArm; rightArm; leftLeg; rightLeg;
       leftFoot; rightFoot] /\
    map nameOf [head; neck; torso; leftArm; rightArm; leftLeg; rightLeg;
                leftFoot; rightFoot]
    = ["head"; "neck"; "torso"; "arm_left"; "arm_right"; "leg_left";
       "leg_right"; "foot_left"; "foot_right"] /\
    vy (positionOf leftFoot) - footHeight props * height / 2 = 0 /\
    vy (positionOf leftLeg) - legLength props * height / 2
    = vy (positionOf leftFoot) + footHeight props * height / 2 /\
    vy (positionOf torso) - torsoHeight props * height / 2
    = vy (positionOf leftLeg) + legLength props * height / 2 /\
    vy (positionOf neck) - neckHeight props * height / 2
    = vy (positionOf torso) + torsoHeight props * height / 2 /\
    vy (positionOf head) - headHeight props * height / 2
    = vy (positionOf neck) + neckHeight props * height / 2 /\
    vy (positionOf head) + headHeight props * height / 2
    = (footHeight props + legLength props + torsoHeight props
       + neckHeight props + headHeight props) * height /\
    meshOf leftFoot
    = Some (BoxGeometry (legWidth props * height) (footHeight props * height)
                        (footLength props * height), material) /\
    childrenOf leftLeg
    = childrenOf (createLimb (legLength props * height) (legWidth props * height)
                             material) /\
    meshOf torso
    = Some (BoxGeometry (torsoWidth props * height) (torsoHeight props * height)
                        (torsoDepth props * height), material) /\
    meshOf neck
    = Some (CylinderGeometry (headWidth props * 0.4 * height)
                             (headWidth props * 0.5 * height)
                             (neckHeight props * height) 8, material) /\
    meshOf head = Some (SphereGeometry (headWidth props * height) 16 12, material) /\
    (0 < height -> headHeight props < 2 * headWidth props ->
     vy (positionOf head) - headWidth props * height
     < vy (positionOf neck) + neckHeight props * height / 2 /\
     (footHeight props + legLength props + torsoHeight props
      + neckHeight props + headHeight props) * height
     < vy (positionOf head) + headWidth props * height) /\
    mirrored leftArm rightArm /\
    mirrored leftLeg rightLeg /\
    mirrored leftFoot rightFoot.
Proof.
  do 9 eexists. split; [reflexivity|]. split; [reflexivity|].
  unfold mirrored. cbn.
  repeat split; try reflexivity; try lra; nra.
Qed.

Lemma remove_dups_same {A : Type} `{EqDecision A} (x : A) (n : nat) :
  remove_dups (replicate (S n) x) = [x].
Proof.
  induction n as [|n IH]; [reflexivity|].
  change (replicate (S (S n)) x) with (x :: replicate (S n) x).
  cbn [remove_dups].
  destruct (decide_rel elem_of x (replicate (S n) x)) as [_|Hnot]; [exact IH|].
  exfalso. apply Hnot. apply elem_of_cons. now left.
Qed.

(** X23.  The model of [buildHumanoid] has seventeen meshes, which share
    one material: [calculateMetadata] counts one material and no bone,
    whatever the buffers are, and adds up the vertices of the head, the neck,
    the torso, the cylinder and two caps of each of the four limbs, and the
    two feet. *)
Theorem buildHumanoid_metadata host props height material :
  length (omap meshOf (traverse (buildHumanoid props height material))) = 17%nat /\
  Forall (fun m => m.2 = material)
         (omap meshOf (traverse (buildHumanoid props height material))) /\
  (calculateMetadata host (buildHumanoid props height material)).2 = 1%nat /\
  (calculateMetadata host (buildHumanoid props height material)).1.2 = 0%nat /\
  (calculateMetadata host (buildHumanoid props height material)).1.1.1
  = (positionCount host (SphereGeometry (headWidth props * height) 16 12)
     + positionCount host
         (CylinderGeometry (headWidth props * 0.4 * height)
                           (headWidth props * 0.5 * height)
                           (neckHeight props * height) 8)
     + positionCount host
         (BoxGeometry (torsoWidth props * height) (torsoHeight props * height)
                      (torsoDepth props * height))
     + 2 * (positionCount host
              (CylinderGeometry (armWidth props * height) (armWidth props * height)
                 (armLength props * height - armWidth props * height * 2) 8)
            + 2 * positionCount host (SphereGeometry (armWidth props * height) 8 6))
     + 2 * (positionCount host
              (CylinderGeometry (legWidth props * height) (legWidth props * height)
                 (legLength props * height - legWidth props * height * 2) 8)
            + 2 * positionCount host (SphereGeometry (legWidth props * height) 8 6))
     + 2 * positionCount host
             (BoxGeometry (legWidth props * height) (footHeight props * height)
                          (footLength props * height)))%nat.
Proof.
  split; [reflexivity|].
  split; [repeat constructor|].
  split; [|split; [reflexivity|]].
  - unfold calculateMetadata. cbn [snd].
    change (map snd (omap meshOf (traverse (buildHumanoid props height material))))
      with (replicate 17 material).
    now rewrite remove_dups_same.
  - unfold calculateMetadata. cbn [fst].
    change (omap meshOf (traverse (buildHumanoid props height material)))
      with (map (fun g => (g, material))
              [SphereGeometry (headWidth props * height) 16 12;
               CylinderGeometry (headWidth props * 0.4 * height)
                                (headWidth props * 0.5 * height)
                                (neckHeight props * height) 8;
               BoxGeometry (torsoWidth props * height) (torsoHeight props * height)
                           (torsoDepth props * height);
               CylinderGeometry (armWidth props * height) (armWidth props * height)
                 (armLength props * height - armWidth props * height * 2) 8;
               SphereGeometry (armWidth props * height) 8 6;
               SphereGeometry (armWidth props * height) 8 6;
               CylinderGeometry (armWidth props * height) (armWidth props * height)
                 (armLength props * height - armWidth props * height * 2) 8;
               SphereGeometry (armWidth props * height) 8 6;
               SphereGeometry (armWidth props * height) 8 6;
               CylinderGeometry (legWidth props * height) (legWidth props * height)
                 (legLength props * height - legWidth props * height * 2) 8;
               SphereGeometry (legWidth props * height) 8 6;
               SphereGeometry (legWidth props * height) 8 6;
               CylinderGeometry (legWidth props * height) (legWidth props * height)
                 (legLength props * height - legWidth props * height * 2) 8;
               SphereGeometry (legWidth props * height) 8 6;
               SphereGeometry (legWidth props * height) 8 6;
               BoxGeometry (legWidth props * height) (footHeight props * height)
                           (footLength props * height);
               BoxGeometry (legWidth props * height) (footHeight props * height)
                           (footLength props * height)]).
    cbn [map fold_left]. lia.
Qed.

Lemma circle_point (a b : R) : (cos a * b) * (cos a * b) + (sin a * b) * (sin a * b) = b * b.
Proof.
  pose proof (sin2_cos2 a) as H. unfold Rsqr in H.
  replace (cos a * b * (cos a * b) + sin a * b * (sin a * b))
    with ((sin a * sin a + cos a * cos a) * (b * b)) by ring.
  rewrite H. ring.
Qed.

Lemma bubble_at props scale material w i :
  (i < 5)%nat ->
  childrenOf (buildSlime props scale material w).1 !! S i
  = Some (Object ("bubble_" +:+ pretty i)
            (Some (SphereGeometry
                     ((random w (2 * i + randomDraws w) * 0.1 + 0.05) * scale) 8 6,
                   material))
            (mkVector3
               (cos (INR i / 5 * PI * 2) * bodySize props * scale * 0.3)
               (bodySize props * scale * 0.2
                + random w (S (2 * i + randomDraws w)) * 0.1)
               (sin (INR i / 5 * PI * 2) * bodySize props * scale * 0.3))
            (mkVector3 0 0 0) (mkVector3 1 1 1) []).
Proof.
  intros Hi. destruct i as [|[|[|[|[|i]]]]]; try reflexivity. lia.
Qed.

(** X24.  [buildSlime] makes the body, five bubbles, two eyes and two
    pupils, in this order.  When the numbers that [Math.random()] returns lie
    in [0, 1) and the scale is not negative, every bubble has a radius
    between 0.05 and 0.15 times the scale, sits on the circle of radius
    [0.3 * bodySize * scale] around the vertical axis, and at most 0.1 above
    the height [0.2 * bodySize * scale]. *)
Theorem buildSlime_bubbles props scale material w :
  (forall n, 0 <= random w n < 1) ->
  0 <= scale ->
  map nameOf (childrenOf (buildSlime props scale material w).1)
  = ["body"; "bubble_0"; "bubble_1"; "bubble_2"; "bubble_3"; "bubble_4";
     "eye_0"; "pupil_0"; "eye_1"; "pupil_1"] /\
  forall i, (i < 5)%nat ->
    exists bubble radius,
      childrenOf (buildSlime props scale material w).1 !! S i = Some bubble /\
      meshOf bubble = Some (SphereGeometry radius 8 6, material) /\
      0.05 * scale <= radius <= 0.15 * scale /\
      vx (positionOf bubble) * vx (positionOf bubble)
      + vz (positionOf bubble) * vz (positionOf bubble)
      = (bodySize props * scale * 0.3) * (bodySize props * scale * 0.3) /\
      bodySize props * scale * 0.2 <= vy (positionOf bubble)
      <= bodySize props * scale * 0.2 + 0.1.
Proof.
  intros Hdraws Hscale. split; [reflexivity|].
  intros i Hi. rewrite (bubble_at props scale material w i Hi).
  eexists. eexists. split; [reflexivity|]. split; [reflexivity|].
  cbn [positionOf vx vy vz].
  pose proof (Hdraws (2 * i + randomDraws w)%nat) as H0.
  pose proof (Hdraws (S (2 * i + randomDraws w))) as H1.
  split; [nra|]. split; [|lra].
  replace (cos (INR i / 5 * PI * 2) * bodySize props * scale * 0.3)
    with (cos (INR i / 5 * PI * 2) * (bodySize props * scale * 0.3)) by ring.
  replace (sin (INR i / 5 * PI * 2) * bodySize props * scale * 0.3)
    with (sin (INR i / 5 * PI * 2) * (bodySize props * scale * 0.3)) by ring.
  apply circle_point.
Qed.

Lemma sampleWorld_draws n : 0 <= random sampleWorld n < 1.
Proof.
  cbn [random sampleWorld].
  assert (H : (n mod 4 < 4)%nat) by (apply Nat.mod_upper_bound; lia).
  apply lt_INR in H. pose proof (pos_INR (n mod 4)) as H0.
  change (INR 4) with (2 + 1 + 1) in H. lra.
Qed.

Lemma buildSlime_bubbles_witness :
  map nameOf (childrenOf (buildSlime slimeProportions 1.8 slimeMaterial sampleWorld).1)
  = ["body"; "bubble_0"; "bubble_1"; "bubble_2"; "bubble_3"; "bubble_4";
     "eye_0"; "pupil_0"; "eye_1"; "pupil_1"] /\
  forall i, (i < 5)%nat ->
    exists bubble radius,
      childrenOf (buildSlime slimeProportions 1.8 slimeMaterial sampleWorld).1 !! S i
      = Some bubble /\
      meshOf bubble = Some (SphereGeometry radius 8 6, slimeMaterial) /\
      0.05 * 1.8 <= radius <= 0.15 * 1.8 /\
      vx (positionOf bubble) * vx (positionOf bubble)
      + vz (positionOf bubble) * vz (positionOf bubble)
      = (bodySize slimeProportions * 1.8 * 0.3) * (bodySize slimeProportions * 1.8 * 0.3) /\
      bodySize slimeProportions * 1.8 * 0.2 <= vy (positionOf bubble)
      <= bodySize slimeProportions * 1.8 * 0.2 + 0.1.
Proof.
  apply (buildSlime_bubbles slimeProportions 1.8 slimeMaterial sampleWorld).
  - apply sampleWorld_draws.
  - lra.
Defined.

End GeneratorMore.

(** ** Building skeletons *)

Module RiggingFacts.
Import Rigging.

Lemma traverseFrom_more fuel fuel' bones pending visited :
  traverseFrom fuel bones pending = Some visited ->
  (fuel <= fuel')%nat ->
  traverseFrom fuel' bones pending = Some visited.
Proof.
  revert fuel' pending visited.
  induction fuel as [|fuel IH]; intros fuel' pending visited H Hle.
  - destruct pending; [|discriminate]. destruct fuel'; exact H.
  - destruct pending as [|b rest]; [destruct fuel'; exact H|].
    destruct fuel' as [|fuel']; [lia|].
    cbn [traverseFrom] in *.
    destruct (traverseFrom fuel bones (childrenIn bones b ++ rest)) as [l|] eqn:E;
      [|discriminate].
    rewrite (IH fuel' _ l E) by lia. exact H.
Qed.

Lemma traverseFrom_length fuel bones pending visited :
  traverseFrom fuel bones pending = Some visited ->
  traverseFrom (List.length visited) bones pending = Some visited.
Proof.
  revert pending visited.
  induction fuel as [|fuel IH]; intros pending visited H.
  - destruct pending; [|discriminate]. injection H as <-. reflexivity.
  - destruct pending as [|b rest]; [injection H as <-; reflexivity|].
    cbn [traverseFrom] in H.
    destruct (traverseFrom fuel bones (childrenIn bones b ++ rest)) as [l|] eqn:E;
      [|discriminate].
    injection H as <-. cbn [List.length traverseFrom].
    rewrite (IH _ _ E). reflexivity.
Qed.

Lemma traverseFrom_split fuel bones first second visited :
  traverseFrom fuel bones (first ++ second) = Some visited ->
  exists v1 v2, visited = v1 ++ v2 /\
    traverseFrom fuel bones first = Some v1 /\
    traverseFrom fuel bones second = Some v2.
Proof.
  revert first visited.
  induction fuel as [|fuel IH]; intros first visited H.
  - destruct first as [|b first]; [|discriminate].
    exists [], visited. auto.
  - destruct first as [|b first].
    + exists [], visited. auto.
    + cbn [app traverseFrom] in H.
      destruct (traverseFrom fuel bones (childrenIn bones b ++ first ++ second))
        as [l|] eqn:E; [|discriminate].
      injection H as <-.
      rewrite app_assoc in E.
      destruct (IH _ _ E) as (v1 & v2 & -> & H1 & H2).
      exists (b :: v1), v2. split; [reflexivity|]. split.
      * cbn [traverseFrom]. rewrite H1. reflexivity.
      * apply (traverseFrom_more fuel); [exact H2|lia].
Qed.

Lemma traverseFrom_app f1 f2 bones first second v1 v2 :
  traverseFrom f1 bones first = Some v1 ->
  traverseFrom f2 bones second = Some v2 ->
  traverseFrom (f1 + f2) bones (first ++ second) = Some (v1 ++ v2).
Proof.
  revert first v1.
  induction f1 as [|f1 IH]; intros first v1 H1 H2.
  - destruct first; [|discriminate]. injection H1 as <-. exact H2.
  - destruct first as [|b first].
    + injection H1 as <-. apply (traverseFrom_more f2); [exact H2|lia].
    + cbn [traverseFrom] in H1.
      destruct (traverseFrom f1 bones (childrenIn bones b ++ first)) as [l|] eqn:E;
        [|discriminate].
      injection H1 as <-.
      cbn [app Nat.add traverseFrom].
      rewrite app_assoc, (IH _ _ E H2). reflexivity.
Qed.

(** Giving a bone [p] a new last child [d] that has no children: the
    traversal visits [d] as well if it visits [p], and is unchanged if not. *)
Lemma traverseFrom_new_leaf bones bones' p d :
  (forall x, x <> p -> childrenIn bones' x = childrenIn bones x) ->
  childrenIn bones' p = childrenIn bones p ++ [d] ->
  childrenIn bones d = [] ->
  d <> p ->
  forall fuel pending visited,
    traverseFrom fuel bones pending = Some visited ->
    NoDup visited -> d ∉ visited ->
    exists fuel' visited',
      traverseFrom fuel' bones' pending = Some visited' /\
      (p ∉ visited -> visited' = visited) /\
      (p ∈ visited -> visited' ≡ₚ d :: visited).
Proof.
  intros Hother Hp Hd Hdp.
  induction fuel as [|fuel IH]; intros pending visited H Hnd Hfresh.
  - destruct pending; [|discriminate]. injection H as <-.
    exists O, []. split; [reflexivity|]. split; [reflexivity|].
    intros Hin. inversion Hin.
  - destruct pending as [|b rest].
    { injection H as <-. exists O, []. split; [reflexivity|].
      split; [reflexivity|]. intros Hin. inversion Hin. }
    cbn [traverseFrom] in H.
    destruct (traverseFrom fuel bones (childrenIn bones b ++ rest)) as [l|] eqn:E;
      [|discriminate].
    injection H as <-.
    apply NoDup_cons in Hnd as [Hbl Hnd].
    apply not_elem_of_cons in Hfresh as [Hdb Hfresh].
    destruct (decide (b = p)) as [->|Hbp].
    + destruct (traverseFrom_split _ _ _ _ _ E) as (v1 & v2 & -> & H1 & H2).
      apply NoDup_app in Hnd as (Hnd1 & _ & Hnd2).
      apply not_elem_of_app in Hbl as [Hp1 Hp2].
      apply not_elem_of_app in Hfresh as [Hd1 Hd2].
      destruct (IH _ _ H1 Hnd1 Hd1) as (g1 & w1 & G1 & Same1 & _).
      destruct (IH _ _ H2 Hnd2 Hd2) as (g2 & w2 & G2 & Same2 & _).
      rewrite (Same1 Hp1) in G1. rewrite (Same2 Hp2) in G2.
      assert (Gd : traverseFrom 1 bones' [d] = Some [d]).
      { cbn [traverseFrom]. rewrite (Hother d Hdp), Hd. reflexivity. }
      pose proof (traverseFrom_app _ _ _ _ _ _ _ Gd G2) as G3.
      pose proof (traverseFrom_app _ _ _ _ _ _ _ G1 G3) as G4.
      exists (S (g1 + (1 + g2))), (p :: v1 ++ [d] ++ v2).
      split.
      { cbn [traverseFrom]. rewrite Hp, <- !app_assoc, G4. reflexivity. }
      split.
      { intros Hn. exfalso. apply Hn. left. }
      intros _. cbn [app].
      transitivity (p :: d :: v1 ++ v2); [|apply Permutation_swap].
      constructor. symmetry. apply Permutation_middle.
    + destruct (IH _ _ E Hnd Hfresh) as (g & w & G & Same & Perm).
      exists (S g), (b :: w). split.
      { cbn [traverseFrom]. rewrite (Hother b Hbp), G. reflexivity. }
      split.
      * intros Hn. apply not_elem_of_cons in Hn as [_ Hn].
        rewrite (Same Hn). reflexivity.
      * intros Hin. apply elem_of_cons in Hin as [Heq|Hin]; [congruence|].
        transitivity (b :: d :: l); [|apply Permutation_swap].
        constructor. exact (Perm Hin).
Qed.


(** *** What linking leaves alone *)


Lemma shapeOf_insert bones k node n :
  shapeOf bones k = Some (shape node) ->
  shapeOf (<[k := node]> bones) n = shapeOf bones n.
Proof.
  intros H. unfold shapeOf.
  destruct (decide (k = n)) as [->|Hne].
  - rewrite lookup_insert_eq. symmetry. exact H.
  - rewrite lookup_insert_ne by exact Hne. reflexivity.
Qed.

Lemma shapeOf_lookup bones k node :
  bones !! k = Some node -> shapeOf bones k = Some (shape node).
Proof. intros H. unfold shapeOf. rewrite H. reflexivity. Qed.

Lemma removeFromParent_shape child bones n :
  shapeOf (removeFromParent child bones) n = shapeOf bones n.
Proof.
  unfold removeFromParent.
  destruct (bones !! child) as [node|] eqn:Hc; [|reflexivity].
  destruct (nodeParent node) as [old|]; [|reflexivity].
  destruct (bones !! old) as [oldNode|] eqn:Ho; [|reflexivity].
  destruct (decide (child ∈ nodeChildren oldNode)); [|reflexivity].
  rewrite shapeOf_insert.
  - apply shapeOf_insert. apply (shapeOf_lookup _ _ _ Ho).
  - rewrite shapeOf_insert by apply (shapeOf_lookup _ _ _ Ho).
    apply (shapeOf_lookup _ _ _ Hc).
Qed.

Lemma add_shape parentName childName bones n :
  shapeOf (add parentName childName bones) n = shapeOf bones n.
Proof.
  unfold add.
  destruct (decide (parentName = childName)); [reflexivity|].
  cbn zeta.
  destruct (removeFromParent childName bones !! childName) as [child|] eqn:Hc;
    [|apply removeFromParent_shape].
  destruct (<[childName := setParent (Some parentName) child]>
              (removeFromParent childName bones) !! parentName)
    as [parentBone|] eqn:Hp.
  - rewrite shapeOf_insert by apply (shapeOf_lookup _ _ _ Hp).
    rewrite shapeOf_insert by apply (shapeOf_lookup _ _ _ Hc).
    apply removeFromParent_shape.
  - rewrite shapeOf_insert by apply (shapeOf_lookup _ _ _ Hc).
    apply removeFromParent_shape.
Qed.

Lemma linkBone_shape bones rootBone def n :
  shapeOf (fst (linkBone (bones, rootBone) def)) n = shapeOf bones n.
Proof.
  unfold linkBone.
  destruct (bones !! name def); [|reflexivity].
  destruct (parent def) as [parentName|]; [|reflexivity].
  destruct (bones !! parentName); [|reflexivity].
  apply add_shape.
Qed.

Lemma link_shape definitions bones rootBone n :
  shapeOf (fst (fold_left linkBone definitions (bones, rootBone))) n
  = shapeOf bones n.
Proof.
  revert bones rootBone.
  induction definitions as [|def rest IH]; intros bones rootBone; [reflexivity|].
  cbn [fold_left].
  destruct (linkBone (bones, rootBone) def) as [bones' rootBone'] eqn:E.
  rewrite IH.
  change bones' with (fst (bones', rootBone')). rewrite <- E.
  apply linkBone_shape.
Qed.

Lemma shapeOf_is_Some bones n : is_Some (shapeOf bones n) <-> is_Some (bones !! n).
Proof. unfold shapeOf. apply fmap_is_Some. Qed.

(** The root that the second loop is left with, when every name is a bone. *)
Lemma link_root definitions bones rootBone :
  (forall def, def ∈ definitions -> is_Some (bones !! name def)) ->
  snd (fold_left linkBone definitions (bones, rootBone))
  = fold_left (fun rootBone def =>
                 match parent def with
                 | None => Some (name def)
                 | Some _ => rootBone
                 end) definitions rootBone.
Proof.
  revert bones rootBone.
  induction definitions as [|def rest IH]; intros bones rootBone Hall;
    [reflexivity|].
  cbn [fold_left].
  destruct (linkBone (bones, rootBone) def) as [bones' rootBone'] eqn:E.
  assert (Hroot : rootBone' = match parent def with
                              | None => Some (name def)
                              | Some _ => rootBone
                              end).
  { unfold linkBone in E.
    destruct (Hall def) as [node Hnode]; [left|].
    rewrite Hnode in E.
    destruct (parent def) as [parentName|].
    - destruct (bones !! parentName); injection E as _ <-; reflexivity.
    - injection E as _ <-. reflexivity. }
  rewrite IH.
  - rewrite Hroot. reflexivity.
  - intros d Hd. apply shapeOf_is_Some.
    change bones' with (fst (bones', rootBone')). rewrite <- E.
    rewrite linkBone_shape. apply shapeOf_is_Some. apply Hall. right. exact Hd.
Qed.

(** *** The first loop *)

Lemma createBones_app first second bones :
  createBones (first ++ second) bones = createBones second (createBones first bones).
Proof. unfold createBones. apply fold_left_app. Qed.

Lemma createBones_other definitions bones n :
  n ∉ map name definitions ->
  createBones definitions bones !! n = bones !! n.
Proof.
  revert bones.
  induction definitions as [|def rest IH]; intros bones Hn; [reflexivity|].
  cbn [map] in Hn. apply not_elem_of_cons in Hn as [Hne Hn].
  change (createBones (def :: rest) bones)
    with (createBones rest (<[name def := newBone def]> bones)).
  rewrite (IH _ Hn). apply lookup_insert_ne. congruence.
Qed.

Lemma createBones_is_Some definitions bones n :
  is_Some (createBones definitions bones !! n)
  <-> n ∈ map name definitions \/ is_Some (bones !! n).
Proof.
  revert bones.
  induction definitions as [|def rest IH]; intros bones.
  - cbn. split; [auto|]. intros [H|H]; [inversion H|exact H].
  - change (createBones (def :: rest) bones)
      with (createBones rest (<[name def := newBone def]> bones)).
    rewrite IH. cbn [map]. rewrite elem_of_cons.
    destruct (decide (name def = n)) as [<-|Hne].
    + rewrite lookup_insert_eq. split; [auto|]. intros _. right. eauto.
    + rewrite lookup_insert_ne by exact Hne. split.
      * intros [H|H]; auto.
      * intros [[H|H]|H]; auto. congruence.
Qed.

Lemma createBones_last before def after bones :
  name def ∉ map name after ->
  createBones (before ++ def :: after) bones !! name def = Some (newBone def).
Proof.
  intros Hn. rewrite createBones_app.
  change (createBones (def :: after) (createBones before bones))
    with (createBones after (<[name def := newBone def]> (createBones before bones))).
  rewrite (createBones_other _ _ _ Hn). apply lookup_insert_eq.
Qed.

Lemma createBones_unlinked definitions n node :
  createBones definitions ∅ !! n = Some node ->
  nodeParent node = None /\ nodeChildren node = [].
Proof.
  assert (G : forall bones,
             (forall k v, bones !! k = Some v ->
                          nodeParent v = None /\ nodeChildren v = []) ->
             forall k v, createBones definitions bones !! k = Some v ->
                         nodeParent v = None /\ nodeChildren v = []).
  { induction definitions as [|def rest IH]; intros bones Hb k v H.
    - exact (Hb k v H).
    - change (createBones (def :: rest) bones)
        with (createBones rest (<[name def := newBone def]> bones)) in H.
      apply (IH (<[name def := newBone def]> bones)) with (k := k); [|exact H].
      intros k' v' H'.
      destruct (decide (name def = k')) as [<-|Hne].
      + rewrite lookup_insert_eq in H'. injection H' as <-. split; reflexivity.
      + rewrite lookup_insert_ne in H' by exact Hne. exact (Hb k' v' H'). }
  apply G. intros k v H. rewrite lookup_empty in H. discriminate.
Qed.


(** *** Definitions in tree order *)

Lemma add_unlinked parentName childName bones child parentBone :
  parentName <> childName ->
  bones !! childName = Some child ->
  nodeParent child = None ->
  bones !! parentName = Some parentBone ->
  add parentName childName bones
  = <[parentName := setChildren (nodeChildren parentBone ++ [childName]) parentBone]>
      (<[childName := setParent (Some parentName) child]> bones).
Proof.
  intros Hne Hc Hfree Hp. unfold add, removeFromParent.
  rewrite decide_False by exact Hne.
  rewrite Hc, Hfree. cbn zeta. rewrite Hc.
  rewrite lookup_insert_ne by congruence. rewrite Hp. reflexivity.
Qed.

Lemma parentsFirst_fresh seen definitions def x :
  parentsFirst seen definitions -> def ∈ definitions -> x ∈ seen -> name def <> x.
Proof.
  revert seen.
  induction definitions as [|d rest IH]; intros seen H Hin Hx; [inversion Hin|].
  destruct H as (Hfresh & _ & Hrest).
  apply elem_of_cons in Hin as [->|Hin].
  - intros <-. contradiction.
  - apply (IH _ Hrest Hin). apply elem_of_app. left. exact Hx.
Qed.

Lemma parentsFirst_ext seen seen' definitions :
  (forall x, x ∈ seen <-> x ∈ seen') ->
  parentsFirst seen definitions -> parentsFirst seen' definitions.
Proof.
  revert seen seen'.
  induction definitions as [|d rest IH]; intros seen seen' Heq H; [exact I|].
  destruct H as (Hfresh & (p & Hp & Hin) & Hrest).
  split; [rewrite <- Heq; exact Hfresh|].
  split; [exists p; rewrite <- Heq; auto|].
  apply (IH (seen ++ [name d])); [|exact Hrest].
  intros x. rewrite !elem_of_app, Heq. reflexivity.
Qed.

Lemma length_le_size (bones : gmap string BoneNode) (l : list string) :
  NoDup l -> (forall x, x ∈ l -> is_Some (bones !! x)) ->
  (List.length l <= size bones)%nat.
Proof.
  intros Hnd Hall.
  rewrite <- length_map_to_list, <- (length_fmap fst).
  apply submseteq_length, NoDup_submseteq; [exact Hnd|].
  intros x Hx. destruct (Hall x Hx) as [node Hnode].
  apply list_elem_of_fmap. exists (x, node). split; [reflexivity|].
  apply elem_of_map_to_list. exact Hnode.
Qed.

Lemma link_tree todo :
  forall bones root visited fuel,
    traverseFrom fuel bones [root] = Some visited ->
    NoDup visited ->
    (forall x, x ∈ visited -> is_Some (bones !! x)) ->
    parentsFirst visited todo ->
    (forall def, def ∈ todo ->
       exists node, bones !! name def = Some node /\
                    nodeParent node = None /\ nodeChildren node = []) ->
    exists bones' visited' fuel',
      fold_left linkBone todo (bones, Some root) = (bones', Some root) /\
      traverseFrom fuel' bones' [root] = Some visited' /\
      visited' ≡ₚ visited ++ map name todo /\
      NoDup visited' /\
      (forall x, x ∈ visited' -> is_Some (bones' !! x)).
Proof.
  induction todo as [|def rest IH];
    intros bones root visited fuel Htr Hnd Hdef Hpf Hleaf.
  - exists bones, visited, fuel. rewrite app_nil_r. auto.
  - destruct Hpf as (Hfresh & (p & Hpar & Hp) & Hrest).
    destruct (Hleaf def) as (child & Hc & Hfree & Hnone); [left|].
    destruct (Hdef p Hp) as [parentBone Hpb].
    assert (Hne : p <> name def) by (intros ->; contradiction).
    assert (Hstep : linkBone (bones, Some root) def
                    = (add p (name def) bones, Some root)).
    { unfold linkBone. rewrite Hc, Hpar, Hpb. reflexivity. }
    cbn [fold_left]. rewrite Hstep.
    rewrite (add_unlinked _ _ _ _ _ Hne Hc Hfree Hpb).
    set (bones1 := <[p := _]> _).
    assert (K1 : forall x, x <> p -> childrenIn bones1 x = childrenIn bones x).
    { intros x Hx. unfold childrenIn, bones1.
      rewrite lookup_insert_ne by congruence.
      destruct (decide (name def = x)) as [<-|Hx'].
      - rewrite lookup_insert_eq, Hc. reflexivity.
      - rewrite lookup_insert_ne by exact Hx'. reflexivity. }
    assert (K2 : childrenIn bones1 p = childrenIn bones p ++ [name def]).
    { unfold childrenIn, bones1. rewrite lookup_insert_eq, Hpb. reflexivity. }
    assert (K3 : childrenIn bones (name def) = []).
    { unfold childrenIn. rewrite Hc. exact Hnone. }
    destruct (traverseFrom_new_leaf bones bones1 p (name def) K1 K2 K3
                (not_eq_sym Hne) fuel [root] visited Htr Hnd Hfresh)
      as (fuel1 & visited1 & Htr1 & _ & Hperm).
    specialize (Hperm Hp).
    assert (Hnd1 : NoDup visited1).
    { rewrite Hperm. apply NoDup_cons. auto. }
    destruct (IH bones1 root visited1 fuel1 Htr1 Hnd1)
      as (bones' & visited' & fuel' & Hfold & Htr' & Hperm' & Hnd' & Hdef').
    + intros x Hx. rewrite Hperm in Hx. unfold bones1.
      rewrite !lookup_insert_is_Some.
      destruct (decide (p = x)) as [|Hpx]; [auto|]. right. split; [exact Hpx|].
      destruct (decide (name def = x)) as [|Hdx]; [auto|]. right.
      split; [exact Hdx|].
      apply elem_of_cons in Hx as [Hx|Hx]; [congruence|]. apply Hdef, Hx.
    + apply (parentsFirst_ext (visited ++ [name def])); [|exact Hrest].
      intros x. rewrite Hperm, elem_of_app, !elem_of_cons, elem_of_nil.
      tauto.
    + intros d Hd.
      destruct (Hleaf d) as (node & Hnode & Hfree' & Hnone'); [right; exact Hd|].
      exists node. split; [|auto].
      unfold bones1.
      rewrite lookup_insert_ne.
      * rewrite lookup_insert_ne; [exact Hnode|].
        apply not_eq_sym.
        apply (parentsFirst_fresh _ _ _ _ Hrest Hd).
        apply elem_of_app. right. left.
      * apply not_eq_sym.
        apply (parentsFirst_fresh _ _ _ _ Hrest Hd).
        apply elem_of_app. left. exact Hp.
    + exists bones', visited', fuel'.
      split; [exact Hfold|]. split; [exact Htr'|].
      split; [|auto].
      rewrite Hperm', Hperm. cbn [map app].
      apply Permutation_middle.
Qed.

Lemma buildSkeleton_of_tree root others :
  treeOrder (root :: others) ->
  exists rest,
    fst (buildSkeleton (root :: others)) = Returns (name root :: rest) /\
    rest ≡ₚ map name others /\
    NoDup (name root :: rest).
Proof.
  intros [Hroot Hpf].
  set (bones0 := createBones (root :: others) ∅).
  assert (Hleaf : forall def, def ∈ root :: others ->
            exists node, bones0 !! name def = Some node /\
                         nodeParent node = None /\ nodeChildren node = []).
  { intros def Hd.
    assert (Hs : is_Some (bones0 !! name def)).
    { apply createBones_is_Some. left.
      apply list_elem_of_fmap. exists def. auto. }
    destruct Hs as [node Hnode]. exists node. split; [exact Hnode|].
    exact (createBones_unlinked _ _ _ Hnode). }
  destruct (Hleaf root) as (rootNode & Hrn & _ & Hnokids); [left|].
  destruct (link_tree others bones0 (name root) [name root] 1%nat)
    as (bones' & visited' & fuel' & Hfold & Htr & Hperm & Hnd & Hdef).
  - cbn [traverseFrom]. unfold childrenIn. rewrite Hrn, Hnokids. reflexivity.
  - apply NoDup_singleton.
  - intros x Hx. apply list_elem_of_singleton in Hx as ->. eauto.
  - exact Hpf.
  - intros def Hd. apply Hleaf. right. exact Hd.
  - assert (Hhead : exists rest, visited' = name root :: rest).
    { destruct fuel'; [discriminate|]. cbn [traverseFrom] in Htr.
      destruct (traverseFrom fuel' bones' _) as [l|]; [|discriminate].
      injection Htr as <-. eauto. }
    destruct Hhead as [rest ->].
    exists rest.
    split; [|split; [|exact Hnd]].
    + unfold buildSkeleton, buildBoneHierarchy.
      fold bones0. cbn [fold_left].
      assert (Hstep : linkBone (bones0, None) root = (bones0, Some (name root))).
      { unfold linkBone. rewrite Hrn, Hroot. reflexivity. }
      rewrite Hstep, Hfold. cbn [fst]. unfold collectBones.
      rewrite (traverseFrom_more _ (S (size bones')) _ _ _
                 (traverseFrom_length _ _ _ _ Htr)); [reflexivity|].
      pose proof (length_le_size bones' _ Hnd Hdef). lia.
    + cbn [app] in Hperm. exact (Permutation_cons_inv Hperm).
Qed.


Lemma lastRoot_None definitions rootBone :
  lastRoot definitions rootBone = None
  <-> rootBone = None /\ Forall (fun def => parent def <> None) definitions.
Proof.
  revert rootBone.
  induction definitions as [|def rest IH]; intros rootBone.
  - cbn. split; [auto|]. intros [H _]. exact H.
  - change (lastRoot (def :: rest) rootBone)
      with (lastRoot rest (match parent def with
                           | None => Some (name def)
                           | Some _ => rootBone
                           end)).
    rewrite IH, Forall_cons.
    destruct (parent def) as [p|].
    + split; [intros [H1 H2]|intros [H1 [_ H2]]]; auto.
    + split; [intros [H _]; discriminate|intros [_ [H _]]; congruence].
Qed.

Lemma lastRoot_keeps definitions rootBone :
  Forall (fun def => parent def <> None) definitions ->
  lastRoot definitions rootBone = rootBone.
Proof.
  revert rootBone.
  induction definitions as [|def rest IH]; intros rootBone H; [reflexivity|].
  apply Forall_cons in H as [Hd H].
  change (lastRoot (def :: rest) rootBone)
    with (lastRoot rest (match parent def with
                         | None => Some (name def)
                         | Some _ => rootBone
                         end)).
  rewrite (IH _ H). destruct (parent def); congruence.
Qed.

Lemma lastRoot_last before def after rootBone :
  parent def = None ->
  Forall (fun d => parent d <> None) after ->
  lastRoot (before ++ def :: after) rootBone = Some (name def).
Proof.
  intros Hd Hafter. unfold lastRoot. rewrite fold_left_app. cbn [fold_left].
  rewrite Hd. apply (lastRoot_keeps _ _ Hafter).
Qed.

Lemma buildBoneHierarchy_fst definitions :
  fst (buildBoneHierarchy definitions)
  = match lastRoot definitions None with
    | Some root => Returns root
    | None => Throws (mkJsError "Error" "No root bone found in hierarchy")
    end.
Proof.
  unfold buildBoneHierarchy.
  pose proof (link_root definitions (createBones definitions ∅) None) as H.
  destruct (fold_left linkBone definitions (createBones definitions ∅, None))
    as [bones rootBone].
  cbn [snd] in H. fold (lastRoot definitions None) in H. rewrite <- H.
  - destruct rootBone; reflexivity.
  - intros def Hd. apply createBones_is_Some. left.
    apply list_elem_of_fmap. exists def. auto.
Qed.

Lemma buildBoneHierarchy_snd definitions :
  snd (buildBoneHierarchy definitions)
  = fst (fold_left linkBone definitions (createBones definitions ∅, None)).
Proof.
  unfold buildBoneHierarchy.
  destruct (fold_left linkBone definitions (createBones definitions ∅, None))
    as [bones [root|]]; reflexivity.
Qed.

Lemma humanoid_treeOrder config :
  treeOrder (getHumanoidBoneDefinitions config).
Proof.
  split; [reflexivity|].
  cbn [parentsFirst app name parent bone].
  repeat (split; [apply (bool_decide_unpack _); vm_compute; exact I|]).
  repeat (split;
          [eexists; split; [reflexivity|];
           apply (bool_decide_unpack _); vm_compute; exact I|]).
  repeat split;
    first [ apply (bool_decide_unpack _); vm_compute; exact I
          | eexists; split; [reflexivity|];
            apply (bool_decide_unpack _); vm_compute; exact I ].
Qed.


Lemma buildSkeleton_snd definitions :
  snd (buildSkeleton definitions) = snd (buildBoneHierarchy definitions).
Proof.
  unfold buildSkeleton.
  destruct (buildBoneHierarchy definitions) as [[root|e] bones]; reflexivity.
Qed.

Lemma createBones_from definitions n node :
  createBones definitions ∅ !! n = Some node ->
  exists def, def ∈ definitions /\ node = newBone def.
Proof.
  assert (G : forall known bones,
             (forall k v, bones !! k = Some v ->
                          exists def, def ∈ known /\ v = newBone def) ->
             forall k v, createBones definitions bones !! k = Some v ->
                         exists def, def ∈ known ++ definitions /\ v = newBone def).
  { induction definitions as [|def rest IH]; intros known bones Hb k v H.
    - rewrite app_nil_r. exact (Hb k v H).
    - change (createBones (def :: rest) bones)
        with (createBones rest (<[name def := newBone def]> bones)) in H.
      rewrite (cons_middle def known rest), app_assoc.
      apply (IH (known ++ [def]) (<[name def := newBone def]> bones)) with (k := k);
        [|exact H].
      intros k' v' H'.
      destruct (decide (name def = k')) as [<-|Hne].
      + rewrite lookup_insert_eq in H'. injection H' as <-.
        exists def. split; [|reflexivity]. apply elem_of_app. right. left.
      + rewrite lookup_insert_ne in H' by exact Hne.
        destruct (Hb k' v' H') as (d & Hd & ->).
        exists d. split; [|reflexivity]. apply elem_of_app. left. exact Hd. }
  intros H. apply (G [] ∅) with (k := n); [|exact H].
  intros k v Hk. rewrite lookup_empty in Hk. discriminate.
Qed.

Lemma buildSkeleton_unrotated definitions n node :
  Forall (fun def => rotation def = None) definitions ->
  snd (buildSkeleton definitions) !! n = Some node ->
  nodeRotation node = mkVector3 0 0 0.
Proof.
  intros Hall H.
  rewrite buildSkeleton_snd, buildBoneHierarchy_snd in H.
  pose proof (link_shape definitions (createBones definitions ∅) None n) as Hs.
  rewrite (shapeOf_lookup _ _ _ H) in Hs. unfold shapeOf in Hs.
  destruct (createBones definitions ∅ !! n) as [node0|] eqn:E; [|discriminate].
  injection Hs as _ Hrot.
  destruct (createBones_from _ _ _ E) as (def & Hd & ->).
  rewrite Hrot. cbn [newBone nodeRotation].
  rewrite Forall_forall in Hall. rewrite (Hall def Hd). reflexivity.
Qed.

Lemma quadruped_treeOrder length height :
  treeOrder (quadrupedDefinitions length height).
Proof.
  split; [reflexivity|].
  cbn [parentsFirst app name parent bone].
  repeat split;
    first [ apply (bool_decide_unpack _); vm_compute; exact I
          | eexists; split; [reflexivity|];
            apply (bool_decide_unpack _); vm_compute; exact I ].
Qed.

(** X25.  [buildBoneHierarchy] throws 'No root bone found in hierarchy'
    exactly when no definition has a [null] parent; otherwise it returns the
    bone of the last definition that has one, whatever the other definitions
    are. *)
Theorem buildBoneHierarchy_root definitions :
  (fst (buildBoneHierarchy definitions)
   = Throws (mkJsError "Error" "No root bone found in hierarchy")
   <-> Forall (fun def => parent def <> None) definitions) /\
  (forall before def after,
     definitions = before ++ def :: after ->
     parent def = None ->
     Forall (fun d => parent d <> None) after ->
     fst (buildBoneHierarchy definitions) = Returns (name def)).
Proof.
  rewrite buildBoneHierarchy_fst. split.
  - destruct (lastRoot definitions None) as [root|] eqn:E.
    + split; [discriminate|]. intros H.
      rewrite (lastRoot_keeps _ _ H) in E. discriminate.
    + split; [|reflexivity]. intros _. apply lastRoot_None in E as [_ H]. exact H.
  - intros before def after -> Hd Hafter.
    rewrite (lastRoot_last _ _ _ _ Hd Hafter). reflexivity.
Qed.

Lemma buildBoneHierarchy_root_witness :
  fst (buildBoneHierarchy (quadrupedDefinitions 1 0.6)) = Returns "root".
Proof.
  apply (proj2 (buildBoneHierarchy_root (quadrupedDefinitions 1 0.6))
           [] (bone "root" None 0 0.6 0) (tail (quadrupedDefinitions 1 0.6)));
    [reflexivity|reflexivity|].
  repeat (constructor; [discriminate|]). constructor.
Defined.

(** X26.  After [buildBoneHierarchy], [getBone] finds a bone exactly for the
    names of the definitions, and the bone has the position and the rotation
    of the last definition of that name: linking the bones moves none. *)
Theorem getBone_after_build definitions boneName :
  let bones := snd (buildBoneHierarchy definitions) in
  (is_Some (getBone boneName bones) <-> boneName ∈ map name definitions) /\
  (forall before def after,
     definitions = before ++ def :: after ->
     name def = boneName ->
     boneName ∉ map name after ->
     exists node,
       getBone boneName bones = Some node /\
       nodePosition node = position def /\
       nodeRotation node = default (mkVector3 0 0 0) (rotation def)).
Proof.
  cbn zeta. rewrite buildBoneHierarchy_snd. unfold getBone. split.
  - rewrite <- shapeOf_is_Some, link_shape, shapeOf_is_Some, createBones_is_Some.
    rewrite lookup_empty. split; [|auto].
    intros [H|[x H]]; [exact H|discriminate].
  - intros before def after -> <- Hlast.
    pose proof (link_shape (before ++ def :: after)
                  (createBones (before ++ def :: after) ∅) None (name def)) as H.
    rewrite (shapeOf_lookup _ _ _ (createBones_last before def after ∅ Hlast)) in H.
    unfold shapeOf in H.
    destruct (fst (fold_left linkBone (before ++ def :: after)
                     (createBones (before ++ def :: after) ∅, None)) !! name def)
      as [node|]; [|discriminate].
    injection H as H1 H2. exists node. auto.
Qed.

Lemma getBone_after_build_witness :
  exists node,
    getBone "root" (snd (buildBoneHierarchy (quadrupedDefinitions 1 0.6))) = Some node /\
    nodePosition node = mkVector3 0 0.6 0 /\
    nodeRotation node = mkVector3 0 0 0.
Proof.
  apply (proj2 (getBone_after_build (quadrupedDefinitions 1 0.6) "root")
           [] (bone "root" None 0 0.6 0) (tail (quadrupedDefinitions 1 0.6)));
    [reflexivity|reflexivity|].
  apply (bool_decide_unpack _). vm_compute. exact I.
Defined.

(** X27.  For definitions in tree order (distinct names, the root first,
    every other bone after its parent) the skeleton is built without an
    error and has every defined bone exactly once, the root bone first. *)
Theorem buildSkeleton_tree definitions :
  treeOrder definitions ->
  exists root rest,
    head definitions = Some root /\
    fst (buildSkeleton definitions) = Returns (name root :: rest) /\
    rest ≡ₚ map name (tail definitions) /\
    NoDup (name root :: rest) /\
    createHelper (name root :: rest) = Returns (name root).
Proof.
  destruct definitions as [|root others]; [intros []|]. intros Htree.
  destruct (buildSkeleton_of_tree root others Htree) as (rest & Hb & Hperm & Hnd).
  exists root, rest. auto.
Qed.

Lemma buildSkeleton_tree_witness :
  treeOrder (quadrupedDefinitions 1 0.6) /\
  exists root rest,
    head (quadrupedDefinitions 1 0.6) = Some root /\
    fst (buildSkeleton (quadrupedDefinitions 1 0.6)) = Returns (name root :: rest) /\
    rest ≡ₚ map name (tail (quadrupedDefinitions 1 0.6)) /\
    NoDup (name root :: rest) /\
    createHelper (name root :: rest) = Returns (name root).
Proof.
  split; [apply quadruped_treeOrder|].
  apply buildSkeleton_tree, quadruped_treeOrder.
Defined.

(** X28.  Whatever the configuration, [buildHumanoid] returns the 23 bones
    in the order of their definitions, so that a bone index of the skeleton
    is the place of the bone in that list. *)
Theorem buildHumanoid_definition_order config :
  fst (buildHumanoid config)
  = Returns (map name (getHumanoidBoneDefinitions (fullConfig config))) /\
  List.length (getHumanoidBoneDefinitions (fullConfig config)) = 23%nat.
Proof. split; [vm_compute; reflexivity|reflexivity]. Qed.

(** X29.  [buildQuadruped] returns its 21 bones in the order of the
    traversal, which is not the order of the definitions: the front legs
    hang below [spine2] and come before the tail. *)
Theorem buildQuadruped_traversal_order length height :
  fst (buildQuadruped length height)
  = Returns ["root"; "spine"; "spine1"; "spine2"; "neck"; "head";
             "frontLeftLeg"; "frontLeftLowerLeg"; "frontLeftFoot";
             "frontRightLeg"; "frontRightLowerLeg"; "frontRightFoot";
             "tail"; "tail1"; "tail2";
             "backLeftLeg"; "backLeftLowerLeg"; "backLeftFoot";
             "backRightLeg"; "backRightLowerLeg"; "backRightFoot"] /\
  fst (buildQuadruped length height)
  <> Returns (map name (quadrupedDefinitions length height)).
Proof.
  split; [vm_compute; reflexivity|].
  vm_compute. discriminate.
Qed.

(** X30.  Where the feet are in the world.  No bone of a humanoid or of a
    quadruped is rotated, so that a bone is in the world where the positions
    sum up to from the root.  A humanoid of any height and proportions stands
    on the ground: its feet are at height 0, a hip width to either side.  The
    feet of a quadruped end a tenth of its height above the ground. *)
Theorem feet_in_the_world config length height :
  let human := snd (buildHumanoid config) in
  let animal := snd (buildQuadruped length height) in
  (forall n node, human !! n = Some node \/ animal !! n = Some node ->
                  nodeRotation node = mkVector3 0 0 0) /\
  worldPositionOf (S (size human)) human "leftFoot"
  = mkVector3 (- hipWidth (fullConfig config)) 0 0 /\
  worldPositionOf (S (size human)) human "rightFoot"
  = mkVector3 (hipWidth (fullConfig config)) 0 0 /\
  vy (worldPositionOf (S (size animal)) animal "frontLeftFoot") = height * 0.1 /\
  vy (worldPositionOf (S (size animal)) animal "frontRightFoot") = height * 0.1 /\
  vy (worldPositionOf (S (size animal)) animal "backLeftFoot") = height * 0.1 /\
  vy (worldPositionOf (S (size animal)) animal "backRightFoot") = height * 0.1.
Proof.
  cbn zeta. split.
  - intros n node [H|H];
      (eapply buildSkeleton_unrotated; [|exact H]);
      repeat constructor.
  - repeat split; vm_compute; try f_equal; lra.
Qed.

End RiggingFacts.
